(** * Double-double kernel of Neslib.MultiPrecision (the QD library):
      a shallow embedding and its specification

    The C++ sources embedded here are [C/inline.h] (error-free
    transformations on [double]), [C/dd_real.cpp] (square root, powers,
    exponential, logarithm, trigonometric and hyperbolic functions on
    [dd_real]), [C/c_dd.cpp] (constants set up by [c_dd_init], the
    comparison entry point) and [C/dd_const.cpp].

    A C [double] is an IEEE-754 binary64 value: it is modelled by the
    Standard Library's [spec_float] with [prec = 53] and [emax = 1024], and
    the C operators by [SFadd], [SFsub], [SFmul], [SFdiv] (round to nearest,
    ties to even).  Decimal literals of the sources are converted by the
    kernel's own binary64 parser and frozen with [Eval vm_compute]. *)

From Stdlib Require Import Reals Lra.
From Stdlib Require Import ZArith Bool List String Lia.
From Stdlib Require Import Floats.PrimFloat Floats.FloatOps Floats.SpecFloat.
Import ListNotations.

Set Warnings "-inexact-float".
Local Open Scope Z_scope.

(** ** IEEE-754 binary64 *)

Module IEEE.

Definition double : Type := spec_float.

(** The binary64 value a decimal literal of the source denotes. *)
Definition lit (f : PrimFloat.float) : double := Prim2SF f.

Definition add : double -> double -> double := SFadd prec emax.
Definition sub : double -> double -> double := SFsub prec emax.
Definition mul : double -> double -> double := SFmul prec emax.
Definition div : double -> double -> double := SFdiv prec emax.
Definition neg : double -> double := SFopp.

Definition eqb : double -> double -> bool := SFeqb.
Definition ltb : double -> double -> bool := SFltb.
Definition leb : double -> double -> bool := SFleb.
Definition gtb (a b : double) : bool := SFltb b a.
Definition geb (a b : double) : bool := SFleb b a.

Definition is_nan (a : double) : bool :=
  match a with S754_nan => true | _ => false end.

Definition is_finite (a : double) : bool :=
  match a with S754_zero _ | S754_finite _ _ _ => true | _ => false end.

(** A well-formed binary64 datum: canonical mantissa, exponent in range. *)
Definition valid (a : double) : bool := valid_binary prec emax a.

Definition d_zero : double := S754_zero false.
Definition d_one : double := Eval vm_compute in lit 1.0.
Definition d_two : double := Eval vm_compute in lit 2.0.
Definition d_half : double := Eval vm_compute in lit 0.5.
Definition DBL_MAX : double := Eval vm_compute in lit 0x1.fffffffffffffp+1023.

(** The exact integer [n] as a double (|n| <= 2^53), zero taking sign [sz]. *)
Definition of_Z (n : Z) (sz : bool) : double :=
  binary_normalize prec emax n 0 sz.

(** [static_cast<double>(n)] for an [int] n. *)
Definition of_int (n : Z) : double := of_Z n false.

(** Integer part toward zero of a finite double, as an integer. *)
Definition trunc_Z (a : double) : Z :=
  match a with
  | S754_finite s m e =>
      let q := if 0 <=? e then Zpos m * 2 ^ e else Zpos m / 2 ^ (- e) in
      if s then - q else q
  | _ => 0
  end.

Definition INT_MIN : Z := - 2 ^ 31.
Definition INT_MAX : Z := 2 ^ 31 - 1.

(** [static_cast<int>(a)]: truncation; outside the range of [int] (and
    for NaN) the conversion instruction of x86-64 yields [INT_MIN]. *)
Definition to_int (a : double) : Z :=
  match a with
  | S754_zero _ => 0
  | S754_finite _ _ _ =>
      let q := trunc_Z a in
      if (INT_MIN <=? q) && (q <=? INT_MAX) then q else INT_MIN
  | _ => INT_MIN
  end.

(** [__builtin_abs] on [int], wrapping at [INT_MIN]. *)
Definition qd_abs (n : Z) : Z := if n =? INT_MIN then n else Z.abs n.

Definition qd_fabs : double -> double := SFabs.

(** The externs of [inline.h] with an exact IEEE/C meaning. *)
Definition qd_nan : double := S754_nan.
Definition qd_inf : double := S754_infinity false.
Definition qd_sqrt : double -> double := SFsqrt prec emax.
Definition qd_ldexp (a : double) (p : Z) : double := SFldexp prec emax a p.

(** C [floor]: the largest integral double not above [a]. *)
Definition qd_floor (a : double) : double :=
  match a with
  | S754_finite s m e =>
      if 0 <=? e then a
      else
        let q := Zpos m / 2 ^ (- e) in
        let r := Zpos m mod 2 ^ (- e) in
        if s then of_Z (- (if r =? 0 then q else q + 1)) s else of_Z q s
  | _ => a
  end.

(** C [ceil]: the smallest integral double not below [a]. *)
Definition qd_ceil (a : double) : double :=
  match a with
  | S754_finite s m e =>
      if 0 <=? e then a
      else
        let q := Zpos m / 2 ^ (- e) in
        let r := Zpos m mod 2 ^ (- e) in
        if s then of_Z (- q) s else of_Z (if r =? 0 then q else q + 1) s
  | _ => a
  end.

(** Fused multiply-add [fma(x, y, z)]: the exact [x*y + z], rounded once. *)
Definition fma (x y z : double) : double :=
  match x, y, z with
  | S754_finite sx mx ex, S754_finite sy my ey, S754_finite sz mz ez =>
      let ep := ex + ey in
      let e := Z.min ep ez in
      binary_normalize prec emax
        (cond_Zopp (xorb sx sy) (Zpos (fst (shl_align (mx * my) ep e)))
         + cond_Zopp sz (Zpos (fst (shl_align mz ez e)))) e false
  | _, _, _ => add (mul x y) z
  end.

End IEEE.
Import IEEE.

Declare Scope double_scope.
Delimit Scope double_scope with D.
Bind Scope double_scope with double.
Infix "+" := add : double_scope.
Infix "-" := sub : double_scope.
Infix "*" := mul : double_scope.
Infix "/" := div : double_scope.
Notation "- x" := (neg x) : double_scope.
Infix "==" := eqb (at level 70, no associativity) : double_scope.
Infix "<" := ltb : double_scope.
Infix "<=" := leb : double_scope.
Infix ">" := gtb : double_scope.
Infix ">=" := geb : double_scope.

(** ** [inline.h]: the error-free transformations, namespace [qd] *)

Module qd.
Local Open Scope double_scope.

Definition _QD_SPLITTER : double := Eval vm_compute in lit 134217729.0.
Definition _QD_SPLIT_THRESH : double :=
  Eval vm_compute in lit 6.69692879491417e+299.
Definition two_m28 : double := Eval vm_compute in lit 3.7252902984619140625e-09.
Definition two_p28 : double := Eval vm_compute in lit 268435456.0.

(** Each transformation returns the pair (returned value, [err]). *)

Definition quick_two_sum (a b : double) : double * double :=
  let s := a + b in
  let err := b - (s - a) in
  (s, err).

Definition quick_two_diff (a b : double) : double * double :=
  let s := a - b in
  let err := (a - s) - b in
  (s, err).

Definition two_sum (a b : double) : double * double :=
  let s := a + b in
  let bb := s - a in
  let err := (a - (s - bb)) + (b - bb) in
  (s, err).

Definition two_diff (a b : double) : double * double :=
  let s := a - b in
  let bb := s - a in
  let err := (a - (s - bb)) - (b + bb) in
  (s, err).

(** [split] returns (hi, lo). *)
Definition split (a : double) : double * double :=
  if (a > _QD_SPLIT_THRESH) || (a < - _QD_SPLIT_THRESH) then
    let a := a * two_m28 in
    let temp := _QD_SPLITTER * a in
    let hi := temp - (temp - a) in
    let lo := a - hi in
    let hi := hi * two_p28 in
    let lo := lo * two_p28 in
    (hi, lo)
  else
    let temp := _QD_SPLITTER * a in
    let hi := temp - (temp - a) in
    let lo := a - hi in
    (hi, lo).

(** [two_prod] as compiled here: [QD_FMS] is defined nowhere, so the
    [#else] branch is the code. *)
Definition two_prod (a b : double) : double * double :=
  let p := a * b in
  let '(a_hi, a_lo) := split a in
  let '(b_hi, b_lo) := split b in
  let err := ((a_hi * b_hi - p) + a_hi * b_lo + a_lo * b_hi) + a_lo * b_lo in
  (p, err).

(** The [#ifdef QD_FMS] branch, with [QD_FMS(a,b,c)] the fused [a*b - c]. *)
Definition QD_FMS (a b c : double) : double := fma a b (- c).

Definition two_prod_fms (a b : double) : double * double :=
  let p := a * b in
  let err := QD_FMS a b p in
  (p, err).

Definition two_sqr (a : double) : double * double :=
  let q := a * a in
  let '(hi, lo) := split a in
  let err := ((hi * hi - q) + d_two * hi * lo) + lo * lo in
  (q, err).

Definition nint (d : double) : double :=
  if d == qd_floor d then d else qd_floor (d + d_half).

Definition aint (d : double) : double :=
  if d >= d_zero then qd_floor d else qd_ceil d.

Definition sqr (t : double) : double := t * t.

Definition to_double (a : double) : double := a.
Definition to_int (a : double) : Z := IEEE.to_int a.

End qd.

(** ** The [dd_real] value type

    [dd_real] is a struct of two doubles, [x[0]] (leading limb) and [x[1]]
    (trailing limb).  The class declaration [dd_real.h] and the inlined
    operators [dd_inline.h] are not among the sources at hand: they are
    modelled in this module from the specification and from the way
    [dd_real.cpp] and [c_dd.cpp] use them. *)

Record dd_real : Type := mk_dd { x0 : double; x1 : double }.

(** ** Rounding to binary64, on integers

    A finite double is an integer multiple of [2^-1074]; its value is
    kept as that integer.  [rnd n] is the representable integer nearest
    to [n], ties to even, with unbounded exponent range upward: the
    overflow threshold [2^2098] is handled where the operations are
    linked to it. *)

(** Exponent of the unit in the last place of [n]. *)
Definition ulpexp (n : Z) : Z := Z.max 0 (Z.log2 (Z.abs n) - 52).

(** The integer nearest to [a / 2^k], ties to even. *)
Definition rne (a k : Z) : Z :=
  let q := a / 2 ^ k in
  let r := a mod 2 ^ k in
  match 2 * r ?= 2 ^ k with
  | Lt => q
  | Eq => if Z.even q then q else q + 1
  | Gt => q + 1
  end.

Definition rnd (n : Z) : Z :=
  let k := ulpexp n in Z.sgn n * (rne (Z.abs n) k * 2 ^ k).

(** Representable integers. *)
Definition F (n : Z) : Prop := (2 ^ ulpexp n | n).

(** The value of a double, in units of [2^-1074]. *)
Definition V (x : spec_float) : Z :=
  match x with
  | S754_finite s m e => cond_Zopp s (Zpos m * 2 ^ (e + 1074))
  | _ => 0
  end.

(** The unit in the last place of a double, in units of [2^-1074]. *)
Definition ulp (x : double) : Z := 2 ^ ulpexp (V x).

(** Normal form of an expansion: finite limbs, the trailing one at most
    half a unit in the last place of the leading one, and the rounded
    sum of the limbs is the leading limb. *)
Definition normal_form (r : dd_real) : bool :=
  is_finite (x0 r) && is_finite (x1 r)
  && (2 * Z.abs (V (x1 r)) <=? ulp (x0 r))
  && (rnd (V (x0 r) + V (x1 r)) =? V (x0 r)).


Module dd.
Local Open Scope double_scope.

(** Modelled from the spec: the constructors [dd_real(double hi, double lo)]
    and [dd_real(double h)] of the missing [dd_real.h] ("created by
    conversion from a native float (or float pair)"). *)
Definition of_pair (p : double * double) : dd_real := mk_dd (fst p) (snd p).
Definition of_double (h : double) : dd_real := mk_dd h d_zero.

Definition to_double (a : dd_real) : double := x0 a.

(** Modelled from the spec: the predicates of the missing [dd_real.h]
    ("sign/zero/one predicates are decided from the leading limb";
    "is one requires exact equality to the two-limb representation of 1"). *)
Definition is_zero (a : dd_real) : bool := x0 a == d_zero.
Definition is_one (a : dd_real) : bool := (x0 a == d_one) && (x1 a == d_zero).
Definition is_positive (a : dd_real) : bool := x0 a > d_zero.
Definition is_negative (a : dd_real) : bool := x0 a < d_zero.

(** Modelled from the spec: the [isnan] predicate of the missing
    [dd_real.h] ("an is_nan predicate"): some limb is NaN. *)
Definition isnan (a : dd_real) : bool := is_nan (x0 a) || is_nan (x1 a).

(** Modelled from the spec: the comparison operators of the missing
    [dd_inline.h] ("comparisons compare limb sequences
    lexicographically"), each limb comparison being the C comparison of
    doubles, which is false as soon as an operand is NaN. *)
Definition eq (a b : dd_real) : bool := (x0 a == x0 b) && (x1 a == x1 b).

(** Modelled from the spec: the ordering operators [<] and [>] of the
    missing [dd_inline.h] ("comparisons compare limb sequences
    lexicographically after confirming normalization and non-NaN").
    [comparable] is the confirmation: no limb is NaN and the expansion
    is in normal form.  An ordering operator answers [true] only for
    two confirmed operands of which the first is lexicographically
    before (after) the second. *)
Definition comparable (a : dd_real) : bool := negb (isnan a) && normal_form a.
Definition lex_lt (a b : dd_real) : bool :=
  (x0 a < x0 b) || ((x0 a == x0 b) && (x1 a < x1 b)).
Definition lex_gt (a b : dd_real) : bool :=
  (x0 a > x0 b) || ((x0 a == x0 b) && (x1 a > x1 b)).
Definition lt (a b : dd_real) : bool :=
  comparable a && comparable b && lex_lt a b.
Definition gt (a b : dd_real) : bool :=
  comparable a && comparable b && lex_gt a b.

(** Modelled from the spec: the comparisons of an expansion with a
    [double] [b], which test the limbs against the pair [(b, 0.0)]. *)
Definition eq_d (a : dd_real) (b : double) : bool :=
  (x0 a == b) && (x1 a == d_zero).
Definition lt_d (a : dd_real) (b : double) : bool :=
  (x0 a < b) || ((x0 a == b) && (x1 a < d_zero)).
Definition gt_d (a : dd_real) (b : double) : bool :=
  (x0 a > b) || ((x0 a == b) && (x1 a > d_zero)).
Definition le_d (a : dd_real) (b : double) : bool :=
  (x0 a < b) || ((x0 a == b) && (x1 a <= d_zero)).
Definition ge_d (a : dd_real) (b : double) : bool :=
  (x0 a > b) || ((x0 a == b) && (x1 a >= d_zero)).

(** Modelled from the spec: the arithmetic of the missing [dd_inline.h]
    ("apply two_sum/two_diff across interacting limb pairs, collect
    partials and their errors, renormalize by cascading quick_two_sum";
    this build selects the fast policy: [QD_IEEE_ADD] is not defined). *)

(** [dd_real::add(double, double)]. *)
Definition add_d_d (a b : double) : dd_real := of_pair (qd.two_sum a b).

(** [dd_real + double]. *)
Definition add_dd_d (a : dd_real) (b : double) : dd_real :=
  let '(s1, s2) := qd.two_sum (x0 a) b in
  let s2 := s2 + x1 a in
  of_pair (qd.quick_two_sum s1 s2).

(** [dd_real + dd_real]. *)
Definition add (a b : dd_real) : dd_real :=
  let '(s, e) := qd.two_sum (x0 a) (x0 b) in
  let e := e + (x1 a + x1 b) in
  of_pair (qd.quick_two_sum s e).

(** [double + dd_real]. *)
Definition add_d_dd (a : double) (b : dd_real) : dd_real := add_dd_d b a.

(** [dd_real::sub(double, double)]. *)
Definition sub_d_d (a b : double) : dd_real := of_pair (qd.two_diff a b).

(** [dd_real - double]. *)
Definition sub_dd_d (a : dd_real) (b : double) : dd_real :=
  let '(s1, s2) := qd.two_diff (x0 a) b in
  let s2 := s2 + x1 a in
  of_pair (qd.quick_two_sum s1 s2).

(** [dd_real - dd_real]. *)
Definition sub (a b : dd_real) : dd_real :=
  let '(s, e) := qd.two_diff (x0 a) (x0 b) in
  let e := e + x1 a in
  let e := e - x1 b in
  of_pair (qd.quick_two_sum s e).

(** [double - dd_real]. *)
Definition sub_d_dd (a : double) (b : dd_real) : dd_real :=
  let '(s1, s2) := qd.two_diff a (x0 b) in
  let s2 := s2 - x1 b in
  of_pair (qd.quick_two_sum s1 s2).

(** Unary minus. *)
Definition neg (a : dd_real) : dd_real := mk_dd (- x0 a) (- x1 a).

(** Modelled from the spec: "exact product of leading limbs via two_prod,
    add leading x trailing cross terms, renormalize". *)

(** [dd_real::mul(double, double)]. *)
Definition mul_d_d (a b : double) : dd_real := of_pair (qd.two_prod a b).

(** [dd_real * double]. *)
Definition mul_dd_d (a : dd_real) (b : double) : dd_real :=
  let '(p1, p2) := qd.two_prod (x0 a) b in
  let p2 := p2 + x1 a * b in
  of_pair (qd.quick_two_sum p1 p2).

(** [double * dd_real]. *)
Definition mul_d_dd (a : double) (b : dd_real) : dd_real := mul_dd_d b a.

(** [dd_real * dd_real]. *)
Definition mul (a b : dd_real) : dd_real :=
  let '(p1, p2) := qd.two_prod (x0 a) (x0 b) in
  let p2 := p2 + (x0 a * x1 b + x1 a * x0 b) in
  of_pair (qd.quick_two_sum p1 p2).

(** Modelled from the spec: "mul_pwr2 scales every limb by an exact power
    of two (no renormalization needed)". *)
Definition mul_pwr2 (a : dd_real) (b : double) : dd_real :=
  mk_dd (x0 a * b) (x1 a * b).

Definition ldexp (a : dd_real) (exp : Z) : dd_real :=
  mk_dd (qd_ldexp (x0 a) exp) (qd_ldexp (x1 a) exp).

(** [sqr(dd_real)] and [dd_real::sqr(double)]. *)
Definition sqr (a : dd_real) : dd_real :=
  let '(p1, p2) := qd.two_sqr (x0 a) in
  let p2 := p2 + d_two * x0 a * x1 a in
  let p2 := p2 + x1 a * x1 a in
  of_pair (qd.quick_two_sum p1 p2).

Definition sqr_d (a : double) : dd_real := of_pair (qd.two_sqr a).

(** Modelled from the spec: "approximate the quotient of leading limbs in
    native precision, multiply back, compute the exact residual via
    two_prod/two_sum, correct" ([QD_SLOPPY_DIV] is defined in this build). *)

(** [dd_real / double]. *)
Definition div_dd_d (a : dd_real) (b : double) : dd_real :=
  let q1 := x0 a / b in
  let '(p1, p2) := qd.two_prod q1 b in
  let '(s, e) := qd.two_diff (x0 a) p1 in
  let e := e + x1 a in
  let e := e - p2 in
  let q2 := (s + e) / b in
  of_pair (qd.quick_two_sum q1 q2).

(** [dd_real / dd_real]. *)
Definition div (a b : dd_real) : dd_real :=
  let q1 := x0 a / x0 b in
  let r := mul_dd_d b q1 in
  let '(s1, s2) := qd.two_diff (x0 a) (x0 r) in
  let s2 := s2 - x1 r in
  let s2 := s2 + x1 a in
  let q2 := (s1 + s2) / x0 b in
  of_pair (qd.quick_two_sum q1 q2).

(** [double / dd_real] and [inv]. *)
Definition div_d_dd (a : double) (b : dd_real) : dd_real := div (of_double a) b.
Definition inv (a : dd_real) : dd_real := div_d_dd d_one a.

Definition abs (a : dd_real) : dd_real :=
  if x0 a < d_zero then neg a else a.

(** Modelled from the spec: rounding of a [dd_real] to an integer, limb
    by limb, from [qd::nint] and the floor/ceiling primitives. *)
Definition nint (a : dd_real) : dd_real :=
  let hi := qd.nint (x0 a) in
  if hi == x0 a then
    let lo := qd.nint (x1 a) in
    of_pair (qd.quick_two_sum hi lo)
  else
    let lo := d_zero in
    let hi :=
      if (qd_fabs (hi - x0 a) == d_half) && (x1 a < d_zero)
      then hi - d_one else hi in
    mk_dd hi lo.

Definition floor (a : dd_real) : dd_real :=
  let hi := qd_floor (x0 a) in
  if hi == x0 a then
    let lo := qd_floor (x1 a) in
    of_pair (qd.quick_two_sum hi lo)
  else mk_dd hi d_zero.

Definition ceil (a : dd_real) : dd_real :=
  let hi := qd_ceil (x0 a) in
  if hi == x0 a then
    let lo := qd_ceil (x1 a) in
    of_pair (qd.quick_two_sum hi lo)
  else mk_dd hi d_zero.

Definition aint (a : dd_real) : dd_real :=
  if x0 a >= d_zero then floor a else ceil a.

(** Modelled from the spec: "rem(a,b) uses round-to-nearest quotient
    instead of truncation; divrem returns the rounded quotient and
    remainder as a pair" (the missing [dd_inline.h]). *)
Definition drem (a b : dd_real) : dd_real :=
  let n := nint (div a b) in
  sub a (mul n b).

Definition divrem (a b : dd_real) : dd_real * dd_real :=
  let n := nint (div a b) in
  (n, sub a (mul n b)).

End dd.

Declare Scope dd_scope.
Delimit Scope dd_scope with DD.
Bind Scope dd_scope with dd_real.
Infix "+" := dd.add : dd_scope.
Infix "-" := dd.sub : dd_scope.
Infix "*" := dd.mul : dd_scope.
Infix "/" := dd.div : dd_scope.
Notation "- x" := (dd.neg x) : dd_scope.
Infix "==" := dd.eq (at level 70, no associativity) : dd_scope.
Infix "<" := dd.lt : dd_scope.
Infix ">" := dd.gt : dd_scope.

(** ** The error hook

    [void dd_real::error(const char *msg) { }] has an empty body: calling
    it has no effect on any result.  To be able to say that an operation
    called it, the embedding runs the kernel in a writer monad whose output
    is the list of messages passed to the hook, in call order. *)

Definition Hook (A : Type) : Type := (A * list string)%type.

Definition ret {A : Type} (a : A) : Hook A := (a, []).

Definition bind {A B : Type} (c : Hook A) (k : A -> Hook B) : Hook B :=
  let '(a, l) := c in
  let '(b, l') := k a in
  (b, l ++ l').

Definition error (msg : string) : Hook unit := (tt, [msg]).

(** The value an operation returns, and the calls of the hook it made. *)
Definition value {A : Type} (c : Hook A) : A := fst c.
Definition hook_calls {A : Type} (c : Hook A) : list string := snd c.

Declare Scope hook_scope.
Delimit Scope hook_scope with hook.
Notation "x <- c ;; k" := (bind c (fun x => k))
  (at level 61, c at next level, right associativity) : hook_scope.
Notation "c ;; k" := (bind c (fun _ => k))
  (at level 61, right associativity) : hook_scope.

(** A [do { body } while (cond)] loop run for at most [n] iterations: the
    state after the first iteration at whose end [cond] is false, or after
    [n] iterations. *)
Fixpoint do_while {S : Type} (n : nat) (body : S -> S) (cond : S -> bool)
    (s : S) : S :=
  match n with
  | O => s
  | Datatypes.S n' =>
      let s' := body s in
      if cond s' then do_while n' body cond s' else s'
  end.

(** The same where no bound on the iterations is known: [None] when the
    loop is still running after [fuel] iterations. *)
Fixpoint do_while_fuel {S : Type} (fuel : nat) (body : S -> S)
    (cond : S -> bool) (s : S) : option S :=
  match fuel with
  | O => None
  | Datatypes.S n' =>
      let s' := body s in
      if cond s' then do_while_fuel n' body cond s' else Some s'
  end.

(** ** Process-wide constants: [dd_const.cpp] and [c_dd_init] *)

Record dd_globals : Type := mk_globals {
  _d_nan : double;  _d_inf : double;
  _2pi : dd_real;  _pi : dd_real;  _pi2 : dd_real;  _pi4 : dd_real;
  _3pi4 : dd_real;  _e : dd_real;  _log2 : dd_real;  _log10 : dd_real;
  _nan : dd_real;  _inf : dd_real;  _max : dd_real;  _safe_max : dd_real;
  _pi16 : dd_real
}.

(** Static storage before [c_dd_init] runs: all limbs zero. *)
Definition globals_zero : dd_globals :=
  let z := mk_dd d_zero d_zero in
  mk_globals d_zero d_zero z z z z z z z z z z z z z.

(** The literal pairs of [c_dd_init]. *)
Definition lit_2pi : dd_real :=
  Eval vm_compute in mk_dd (lit 6.283185307179586232e+00) (lit 2.449293598294706414e-16).
Definition lit_pi : dd_real :=
  Eval vm_compute in mk_dd (lit 3.141592653589793116e+00) (lit 1.224646799147353207e-16).
Definition lit_pi2 : dd_real :=
  Eval vm_compute in mk_dd (lit 1.570796326794896558e+00) (lit 6.123233995736766036e-17).
Definition lit_pi4 : dd_real :=
  Eval vm_compute in mk_dd (lit 7.853981633974482790e-01) (lit 3.061616997868383018e-17).
Definition lit_3pi4 : dd_real :=
  Eval vm_compute in mk_dd (lit 2.356194490192344837e+00) (lit 9.1848509936051484375e-17).
Definition lit_e : dd_real :=
  Eval vm_compute in mk_dd (lit 2.718281828459045091e+00) (lit 1.445646891729250158e-16).
Definition lit_log2 : dd_real :=
  Eval vm_compute in mk_dd (lit 6.931471805599452862e-01) (lit 2.319046813846299558e-17).
Definition lit_log10 : dd_real :=
  Eval vm_compute in mk_dd (lit 2.302585092994045901e+00) (lit (-2.170756223382249351e-16)).
Definition lit_max : dd_real :=
  Eval vm_compute in mk_dd (lit 1.79769313486231570815e+308) (lit 9.97920154767359795037e+291).
Definition lit_safe_max : dd_real :=
  Eval vm_compute in mk_dd (lit 1.7976931080746007281e+308) (lit 9.97920154767359795037e+291).
Definition lit_pi16 : dd_real :=
  Eval vm_compute in mk_dd (lit 1.963495408493620697e-01) (lit 7.654042494670957545e-18).

Definition c_dd_init (g : dd_globals) : dd_globals :=
  let d_nan := qd_nan in
  let d_inf := qd_inf in
  {| _d_nan := d_nan;
     _d_inf := d_inf;
     _2pi := lit_2pi;
     _pi := lit_pi;
     _pi2 := lit_pi2;
     _pi4 := lit_pi4;
     _3pi4 := lit_3pi4;
     _e := lit_e;
     _log2 := lit_log2;
     _log10 := lit_log10;
     _nan := mk_dd d_nan d_nan;
     _inf := mk_dd d_inf d_inf;
     _max := lit_max;
     _safe_max := lit_safe_max;
     _pi16 := lit_pi16 |}.

(** The constants every entry point runs with: [c_dd_init] has run once. *)
Definition G : dd_globals := c_dd_init globals_zero.

Definition _eps : double := Eval vm_compute in lit 4.93038065763132e-32.
Definition _min_normalized : double :=
  Eval vm_compute in lit 2.0041683600089728e-292.
Definition _ndigits : Z := 31.

(** The canonical NaN expansion: all limbs NaN. *)
Abbreviation dd_nan := (mk_dd S754_nan S754_nan).
(** The canonical +infinity expansion: all limbs +infinity. *)
Abbreviation dd_inf :=
  (mk_dd (S754_infinity false) (S754_infinity false)).

(** ** [dd_real.cpp] *)

(** Literals of [dd_real.cpp]. *)
Definition d_m709 : double := Eval vm_compute in lit (-709.0).
Definition d_709 : double := Eval vm_compute in lit 709.0.
Definition d_512 : double := Eval vm_compute in lit 512.0.
Definition d_0_05 : double := Eval vm_compute in lit 0.05.

Definition n_inv_fact : Z := 15.
Definition inv_fact : list (double * double) := Eval vm_compute in
  [ (lit 1.66666666666666657e-01, lit 9.25185853854297066e-18);
    (lit 4.16666666666666644e-02, lit 2.31296463463574266e-18);
    (lit 8.33333333333333322e-03, lit 1.15648231731787138e-19);
    (lit 1.38888888888888894e-03, lit (-5.30054395437357706e-20));
    (lit 1.98412698412698413e-04, lit 1.72095582934207053e-22);
    (lit 2.48015873015873016e-05, lit 2.15119478667758816e-23);
    (lit 2.75573192239858925e-06, lit (-1.85839327404647208e-22));
    (lit 2.75573192239858883e-07, lit 2.37677146222502973e-23);
    (lit 2.50521083854417202e-08, lit (-1.44881407093591197e-24));
    (lit 2.08767569878681002e-09, lit (-1.20734505911325997e-25));
    (lit 1.60590438368216133e-10, lit 1.25852945887520981e-26);
    (lit 1.14707455977297245e-11, lit 2.06555127528307454e-28);
    (lit 7.64716373181981641e-13, lit 7.03872877733453001e-30);
    (lit 4.77947733238738525e-14, lit 4.39920548583408126e-31);
    (lit 2.81145725434552060e-15, lit 1.65088427308614326e-31) ].

(** Table of sin(k * pi/16) and cos(k * pi/16). *)
Definition sin_table : list (double * double) := Eval vm_compute in
  [ (lit 1.950903220161282758e-01, lit (-7.991079068461731263e-18));
    (lit 3.826834323650897818e-01, lit (-1.005077269646158761e-17));
    (lit 5.555702330196021776e-01, lit 4.709410940561676821e-17);
    (lit 7.071067811865475727e-01, lit (-4.833646656726456726e-17)) ].

Definition cos_table : list (double * double) := Eval vm_compute in
  [ (lit 9.807852804032304306e-01, lit 1.854693999782500573e-17);
    (lit 9.238795325112867385e-01, lit 1.764504708433667706e-17);
    (lit 8.314696123025452357e-01, lit 1.407385698472802389e-18);
    (lit 7.071067811865475727e-01, lit (-4.833646656726456726e-17)) ].

(** [dd_real(table[i][0], table[i][1])], for an index [i] inside the
    table. *)
Definition table_at (table : list (double * double)) (i : Z) : dd_real :=
  dd.of_pair (nth (Z.to_nat i) table (d_zero, d_zero)).

(** [dd_real(table[i][0], table[i][1])] where the index is not known to
    be inside the table: the entry for [0 <= i < length table], and
    [None] otherwise, where the C program reads out of bounds and its
    behaviour is undefined. *)
Definition table_read (table : list (double * double)) (i : Z) : option dd_real :=
  if (0 <=? i) && (i <? Z.of_nat (List.length table))
  then Some (table_at table i) else None.

Section Kernel.
Local Open Scope hook_scope.

(** The constants the kernel reads. *)
Variable g : dd_globals.

(** The native-precision transcendentals declared [extern "C"] in
    [inline.h] and implemented outside the kernel. *)
Variable qd_log : double -> double.
Variable qd_exp : double -> double.
Variable qd_atan2 : double -> double -> double.

Definition sqrt (a : dd_real) : Hook dd_real :=
  if dd.is_zero a then ret (dd.of_double d_zero)
  else if dd.is_negative a then
    error "(dd_real::sqrt): Negative argument." ;;
    ret (_nan g)
  else
    let x := (d_one / qd_sqrt (x0 a))%D in
    let ax := (x0 a * x)%D in
    ret (dd.add_d_d ax (x0 (a - dd.sqr_d ax) * (x * d_half))%D).

(** [dd_real::sqrt(double)]. *)
Definition sqrt_d (d : double) : Hook dd_real := sqrt (dd.of_double d).

(** The [while (N > 0)] loop of [npwr], entered with [N > 1]: one
    iteration per binary digit of [N], least significant first. *)
Fixpoint npwr_loop (N : positive) (r s : dd_real) : dd_real :=
  match N with
  | xH => (s * r)%DD
  | xO N' => npwr_loop N' (dd.sqr r) s
  | xI N' => npwr_loop N' (dd.sqr r) (s * r)%DD
  end.

Definition npwr (a : dd_real) (n : Z) : Hook dd_real :=
  if n =? 0 then
    if dd.is_zero a then
      error "(dd_real::npwr): Invalid argument." ;;
      ret (_nan g)
    else ret (dd.of_double d_one)
  else
    let r := a in
    let s := dd.of_double d_one in
    let N := qd_abs n in
    let s := if N >? 1 then npwr_loop (Z.to_pos N) r s else r in
    if n <? 0 then ret (dd.div_d_dd d_one s) else ret s.

Definition pow_int (a : dd_real) (n : Z) : Hook dd_real := npwr a n.

(** State of the term loop of [exp]: [(s, p, t, i)]. *)
Definition exp_body (r : dd_real) (st : dd_real * dd_real * dd_real * Z) :=
  let '(s, p, t, i) := st in
  let s := (s + t)%DD in
  let p := (p * r)%DD in
  let i := i + 1 in
  let t := (p * table_at inv_fact i)%DD in
  (s, p, t, i).

Definition exp_cond (inv_k : double) (st : dd_real * dd_real * dd_real * Z) : bool :=
  let '(s, p, t, i) := st in
  (qd_fabs (dd.to_double t) > inv_k * _eps)%D && (i <? 5).

Definition exp (a : dd_real) : Hook dd_real :=
  let k := d_512 in
  let inv_k := (d_one / k)%D in
  if (x0 a <= d_m709)%D then ret (dd.of_double d_zero)
  else if (x0 a >= d_709)%D then ret (_inf g)
  else if dd.is_zero a then ret (dd.of_double d_one)
  else if dd.is_one a then ret (_e g)
  else
    let m := qd_floor (x0 a / x0 (_log2 g) + d_half)%D in
    let r := dd.mul_pwr2 (a - dd.mul_dd_d (_log2 g) m) inv_k in
    let p := dd.sqr r in
    let s := (r + dd.mul_pwr2 p d_half)%DD in
    let p := (p * r)%DD in
    let t := (p * table_at inv_fact 0)%DD in
    let '(s, p, t, i) := do_while 5 (exp_body r) (exp_cond inv_k) (s, p, t, 0) in
    let s := (s + t)%DD in
    let s := (dd.mul_pwr2 s d_two + dd.sqr s)%DD in
    let s := (dd.mul_pwr2 s d_two + dd.sqr s)%DD in
    let s := (dd.mul_pwr2 s d_two + dd.sqr s)%DD in
    let s := (dd.mul_pwr2 s d_two + dd.sqr s)%DD in
    let s := (dd.mul_pwr2 s d_two + dd.sqr s)%DD in
    let s := (dd.mul_pwr2 s d_two + dd.sqr s)%DD in
    let s := (dd.mul_pwr2 s d_two + dd.sqr s)%DD in
    let s := (dd.mul_pwr2 s d_two + dd.sqr s)%DD in
    let s := (dd.mul_pwr2 s d_two + dd.sqr s)%DD in
    let s := dd.add_dd_d s d_one in
    ret (dd.ldexp s (qd.to_int m)).

Definition log (a : dd_real) : Hook dd_real :=
  if dd.is_one a then ret (dd.of_double d_zero)
  else if (x0 a <= d_zero)%D then
    error "(dd_real::log): Non-positive argument." ;;
    ret (_nan g)
  else
    let x := dd.of_double (qd_log (x0 a)) in
    e <- exp (- x)%DD ;;
    let x := dd.sub_dd_d (x + a * e) d_one in
    ret x.

Definition log10 (a : dd_real) : Hook dd_real :=
  l <- log a ;;
  ret (l / _log10 g)%DD.

Definition nroot (a : dd_real) (n : Z) : Hook dd_real :=
  if n <=? 0 then
    error "(dd_real::nroot): N must be positive." ;;
    ret (_nan g)
  else if (Z.rem n 2 =? 0) && dd.is_negative a then
    error "(dd_real::nroot): Negative argument." ;;
    ret (_nan g)
  else if n =? 1 then ret a
  else if n =? 2 then sqrt a
  else if dd.is_zero a then ret (dd.of_double d_zero)
  else
    let r := dd.abs a in
    let x := dd.of_double (qd_exp (- qd_log (x0 r) / of_int n)%D) in
    p <- npwr x n ;;
    let x := (x + dd.div_dd_d (x * dd.sub_d_dd d_one (r * p)) (of_int n))%DD in
    let x := if (x0 a < d_zero)%D then (- x)%DD else x in
    ret (dd.div_d_dd d_one x).

Definition pow (a b : dd_real) : Hook dd_real :=
  l <- log a ;;
  exp (b * l)%DD.

(** State of the loops of [sin_taylor] and [cos_taylor]: [(r, s, t, i)]. *)
Definition taylor_body (x : dd_real) (st : dd_real * dd_real * dd_real * Z) :=
  let '(r, s, t, i) := st in
  let r := (r * x)%DD in
  let t := (r * table_at inv_fact i)%DD in
  let s := (s + t)%DD in
  let i := i + 2 in
  (r, s, t, i).

Definition taylor_cond (thresh : double) (st : dd_real * dd_real * dd_real * Z) : bool :=
  let '(r, s, t, i) := st in
  (i <? n_inv_fact) && (qd_fabs (dd.to_double t) > thresh)%D.

(** Computes sin(a) using Taylor series.  Assumes |a| <= pi/32. *)
Definition sin_taylor (a : dd_real) : dd_real :=
  let thresh := (d_half * qd_fabs (dd.to_double a) * _eps)%D in
  if dd.is_zero a then dd.of_double d_zero
  else
    let x := (- dd.sqr a)%DD in
    let s := a in
    let r := a in
    let t := dd.of_double d_zero in
    let '(r, s, t, i) :=
      do_while 8 (taylor_body x) (taylor_cond thresh) (r, s, t, 0) in
    s.

Definition cos_taylor (a : dd_real) : dd_real :=
  let thresh := (d_half * _eps)%D in
  if dd.is_zero a then dd.of_double d_one
  else
    let x := (- dd.sqr a)%DD in
    let r := x in
    let s := dd.add_d_dd d_one (dd.mul_pwr2 r d_half) in
    let t := dd.of_double d_zero in
    let '(r, s, t, i) :=
      do_while 7 (taylor_body x) (taylor_cond thresh) (r, s, t, 1) in
    s.

(** Returns [(sin_a, cos_a)]. *)
Definition sincos_taylor (a : dd_real) : Hook (dd_real * dd_real) :=
  if dd.is_zero a then ret (dd.of_double d_zero, dd.of_double d_one)
  else
    let sin_a := sin_taylor a in
    cos_a <- sqrt (dd.sub_d_dd d_one (dd.sqr sin_a)) ;;
    ret (sin_a, cos_a).

(** [sin], [cos] and [sincos] index [sin_table] and [cos_table] with
    [abs_k - 1]; they return [None] when that read is out of bounds. *)
Definition sin (a : dd_real) : Hook (option dd_real) :=
  if dd.is_zero a then ret (Some (dd.of_double d_zero))
  else
    (* approximately reduce modulo 2*pi *)
    let z := dd.nint (a / _2pi g) in
    let r := (a - _2pi g * z)%DD in
    (* approximately reduce modulo pi/2 and then modulo pi/16. *)
    let q := qd_floor (x0 r / x0 (_pi2 g) + d_half)%D in
    let t := (r - dd.mul_dd_d (_pi2 g) q)%DD in
    let j := qd.to_int q in
    let q := qd_floor (x0 t / x0 (_pi16 g) + d_half)%D in
    let t := (t - dd.mul_dd_d (_pi16 g) q)%DD in
    let k := qd.to_int q in
    let abs_k := qd_abs k in
    if (j <? -2) || (j >? 2) then
      error "(dd_real::sin): Cannot reduce modulo pi/2." ;;
      ret (Some (_nan g))
    else if abs_k >? 4 then
      error "(dd_real::sin): Cannot reduce modulo pi/16." ;;
      ret (Some (_nan g))
    else if k =? 0 then
      if j =? 0 then ret (Some (sin_taylor t))
      else if j =? 1 then ret (Some (cos_taylor t))
      else if j =? -1 then ret (Some (- cos_taylor t)%DD)
      else ret (Some (- sin_taylor t)%DD)
    else
      match table_read cos_table (abs_k - 1),
            table_read sin_table (abs_k - 1) with
      | Some u, Some v =>
          sc <- sincos_taylor t ;;
          let '(sin_t, cos_t) := sc in
          let r :=
            if j =? 0 then
              if k >? 0 then (u * sin_t + v * cos_t)%DD
              else (u * sin_t - v * cos_t)%DD
            else if j =? 1 then
              if k >? 0 then (u * cos_t - v * sin_t)%DD
              else (u * cos_t + v * sin_t)%DD
            else if j =? -1 then
              if k >? 0 then (v * sin_t - u * cos_t)%DD
              else if k <? 0 then (- u * cos_t - v * sin_t)%DD
              else r
            else
              if k >? 0 then (- u * sin_t - v * cos_t)%DD
              else (v * cos_t - u * sin_t)%DD in
          ret (Some r)
      | _, _ => ret None
      end.

Definition cos (a : dd_real) : Hook (option dd_real) :=
  if dd.is_zero a then ret (Some (dd.of_double d_one))
  else
    (* approximately reduce modulo 2*pi *)
    let z := dd.nint (a / _2pi g) in
    let r := (a - z * _2pi g)%DD in
    (* approximately reduce modulo pi/2 and then modulo pi/16 *)
    let q := qd_floor (x0 r / x0 (_pi2 g) + d_half)%D in
    let t := (r - dd.mul_dd_d (_pi2 g) q)%DD in
    let j := qd.to_int q in
    let q := qd_floor (x0 t / x0 (_pi16 g) + d_half)%D in
    let t := (t - dd.mul_dd_d (_pi16 g) q)%DD in
    let k := qd.to_int q in
    let abs_k := qd_abs k in
    if (j <? -2) || (j >? 2) then
      error "(dd_real::cos): Cannot reduce modulo pi/2." ;;
      ret (Some (_nan g))
    else if abs_k >? 4 then
      error "(dd_real::cos): Cannot reduce modulo pi/16." ;;
      ret (Some (_nan g))
    else if k =? 0 then
      if j =? 0 then ret (Some (cos_taylor t))
      else if j =? 1 then ret (Some (- sin_taylor t)%DD)
      else if j =? -1 then ret (Some (sin_taylor t))
      else ret (Some (- cos_taylor t)%DD)
    else
      sc <- sincos_taylor t ;;
      let '(sin_t, cos_t) := sc in
      match table_read cos_table (abs_k - 1),
            table_read sin_table (abs_k - 1) with
      | Some u, Some v =>
          let r :=
            if j =? 0 then
              if k >? 0 then (u * cos_t - v * sin_t)%DD
              else (u * cos_t + v * sin_t)%DD
            else if j =? 1 then
              if k >? 0 then (- u * sin_t - v * cos_t)%DD
              else (v * cos_t - u * sin_t)%DD
            else if j =? -1 then
              if k >? 0 then (u * sin_t + v * cos_t)%DD
              else (u * sin_t - v * cos_t)%DD
            else
              if k >? 0 then (v * sin_t - u * cos_t)%DD
              else (- u * cos_t - v * sin_t)%DD in
          ret (Some r)
      | _, _ => ret None
      end.

(** Returns [(sin_a, cos_a)]. *)
Definition sincos (a : dd_real) : Hook (option (dd_real * dd_real)) :=
  if dd.is_zero a then ret (Some (dd.of_double d_zero, dd.of_double d_one))
  else
    (* approximately reduce modulo 2*pi *)
    let z := dd.nint (a / _2pi g) in
    let r := (a - _2pi g * z)%DD in
    (* approximately reduce module pi/2 and pi/16 *)
    let q := qd_floor (x0 r / x0 (_pi2 g) + d_half)%D in
    let t := (r - dd.mul_dd_d (_pi2 g) q)%DD in
    let j := qd.to_int q in
    let abs_j := qd_abs j in
    let q := qd_floor (x0 t / x0 (_pi16 g) + d_half)%D in
    let t := (t - dd.mul_dd_d (_pi16 g) q)%DD in
    let k := qd.to_int q in
    let abs_k := qd_abs k in
    if abs_j >? 2 then
      error "(dd_real::sincos): Cannot reduce modulo pi/2." ;;
      ret (Some (_nan g, _nan g))
    else if abs_k >? 4 then
      error "(dd_real::sincos): Cannot reduce modulo pi/16." ;;
      ret (Some (_nan g, _nan g))
    else
      sc <- sincos_taylor t ;;
      let '(sin_t, cos_t) := sc in
      let osc :=
        if abs_k =? 0 then Some (sin_t, cos_t)
        else
          match table_read cos_table (abs_k - 1),
                table_read sin_table (abs_k - 1) with
          | Some u, Some v =>
              if k >? 0 then
                Some ((u * sin_t + v * cos_t)%DD, (u * cos_t - v * sin_t)%DD)
              else
                Some ((u * sin_t - v * cos_t)%DD, (u * cos_t + v * sin_t)%DD)
          | _, _ => None
          end in
      match osc with
      | Some (s, c) =>
          if abs_j =? 0 then ret (Some (s, c))
          else if j =? 1 then ret (Some (c, (- s)%DD))
          else if j =? -1 then ret (Some ((- c)%DD, s))
          else ret (Some ((- s)%DD, (- c)%DD))
      | None => ret None
      end.

(** [atan2] calls [sincos] on its seed: it returns [None] when [sincos]
    does. *)
Definition atan2 (y x : dd_real) : Hook (option dd_real) :=
  if dd.is_zero x then
    if dd.is_zero y then
      (* Both x and y is zero. *)
      error "(dd_real::atan2): Both arguments zero." ;;
      ret (Some (_nan g))
    else ret (Some (if dd.is_positive y then _pi2 g else (- _pi2 g)%DD))
  else if dd.is_zero y then
    ret (Some (if dd.is_positive x then dd.of_double d_zero else _pi g))
  else if (x == y)%DD then
    ret (Some (if dd.is_positive y then _pi4 g else (- _3pi4 g)%DD))
  else if (x == - y)%DD then
    ret (Some (if dd.is_positive y then _3pi4 g else (- _pi4 g)%DD))
  else
    r <- sqrt (dd.sqr x + dd.sqr y) ;;
    let xx := (x / r)%DD in
    let yy := (y / r)%DD in
    (* Compute double precision approximation to atan. *)
    let z := dd.of_double (qd_atan2 (dd.to_double y) (dd.to_double x)) in
    if (qd_fabs (x0 xx) > qd_fabs (x0 yy))%D then
      (* Use Newton iteration 1.  z' = z + (y - sin(z)) / cos(z)  *)
      sc <- sincos z ;;
      match sc with
      | Some (sin_z, cos_z) => ret (Some (z + (yy - sin_z) / cos_z)%DD)
      | None => ret None
      end
    else
      (* Use Newton iteration 2.  z' = z - (x - cos(z)) / sin(z)  *)
      sc <- sincos z ;;
      match sc with
      | Some (sin_z, cos_z) => ret (Some (z - (xx - cos_z) / sin_z)%DD)
      | None => ret None
      end.

Definition atan (a : dd_real) : Hook (option dd_real) :=
  atan2 a (dd.of_double d_one).

Definition tan (a : dd_real) : Hook (option dd_real) :=
  sc <- sincos a ;;
  match sc with
  | Some (s, c) => ret (Some (s / c)%DD)
  | None => ret None
  end.

Definition asin (a : dd_real) : Hook (option dd_real) :=
  let abs_a := dd.abs a in
  if dd.gt_d abs_a d_one then
    error "(dd_real::asin): Argument out of domain." ;;
    ret (Some (_nan g))
  else if dd.is_one abs_a then
    ret (Some (if dd.is_positive a then _pi2 g else (- _pi2 g)%DD))
  else
    r <- sqrt (dd.sub_d_dd d_one (dd.sqr a)) ;;
    atan2 a r.

Definition acos (a : dd_real) : Hook (option dd_real) :=
  let abs_a := dd.abs a in
  if dd.gt_d abs_a d_one then
    error "(dd_real::acos): Argument out of domain." ;;
    ret (Some (_nan g))
  else if dd.is_one abs_a then
    ret (Some (if dd.is_positive a then dd.of_double d_zero else _pi g))
  else
    r <- sqrt (dd.sub_d_dd d_one (dd.sqr a)) ;;
    atan2 r a.

(** State of the Taylor loop of [sinh]: [(s, t, m)]. *)
Definition sinh_body (r : dd_real) (st : dd_real * dd_real * double) :=
  let '(s, t, m) := st in
  let m := (m + d_two)%D in
  let t := (t * r)%DD in
  let t := dd.div_dd_d t ((m - d_one) * m)%D in
  let s := (s + t)%DD in
  (s, t, m).

Definition sinh_cond (thresh : double) (st : dd_real * dd_real * double) : bool :=
  let '(s, t, m) := st in
  dd.gt_d (dd.abs t) thresh.

(** The loop of [sinh] has no bound on its iterations: [sinh] runs it
    with [fuel] and returns [None] when the fuel does not suffice. *)
Definition sinh (fuel : nat) (a : dd_real) : Hook (option dd_real) :=
  if dd.is_zero a then ret (Some (dd.of_double d_zero))
  else if dd.gt_d (dd.abs a) d_0_05 then
    ea <- exp a ;;
    ret (Some (dd.mul_pwr2 (ea - dd.inv ea) d_half))
  else
    (* since a is small, using the above formula gives
       a lot of cancellation.  So use Taylor series.   *)
    let s := a in
    let t := a in
    let r := dd.sqr t in
    let m := d_one in
    let thresh := qd_fabs (dd.to_double a * _eps)%D in
    match do_while_fuel fuel (sinh_body r) (sinh_cond thresh) (s, t, m) with
    | Some (s, _, _) => ret (Some s)
    | None => ret None
    end.

Definition cosh (a : dd_real) : Hook dd_real :=
  if dd.is_zero a then ret (dd.of_double d_one)
  else
    ea <- exp a ;;
    ret (dd.mul_pwr2 (ea + dd.inv ea) d_half).

Definition tanh (fuel : nat) (a : dd_real) : Hook (option dd_real) :=
  if dd.is_zero a then ret (Some (dd.of_double d_zero))
  else if (qd_fabs (dd.to_double a) > d_0_05)%D then
    ea <- exp a ;;
    let inv_ea := dd.inv ea in
    ret (Some ((ea - inv_ea) / (ea + inv_ea))%DD)
  else
    os <- sinh fuel a ;;
    match os with
    | Some s =>
        c <- sqrt (dd.add_d_dd d_one (dd.sqr s)) ;;
        ret (Some (s / c)%DD)
    | None => ret None
    end.

(** Returns [(s, c)]. *)
Definition sincosh (fuel : nat) (a : dd_real) : Hook (option (dd_real * dd_real)) :=
  if (qd_fabs (dd.to_double a) <= d_0_05)%D then
    os <- sinh fuel a ;;
    match os with
    | Some s =>
        c <- sqrt (dd.add_d_dd d_one (dd.sqr s)) ;;
        ret (Some (s, c))
    | None => ret None
    end
  else
    ea <- exp a ;;
    let inv_ea := dd.inv ea in
    let s := dd.mul_pwr2 (ea - inv_ea) d_half in
    let c := dd.mul_pwr2 (ea + inv_ea) d_half in
    ret (Some (s, c)).

Definition asinh (a : dd_real) : Hook dd_real :=
  r <- sqrt (dd.add_dd_d (dd.sqr a) d_one) ;;
  log (a + r)%DD.

Definition acosh (a : dd_real) : Hook dd_real :=
  if dd.lt_d a d_one then
    error "(dd_real::acosh): Argument out of domain." ;;
    ret (_nan g)
  else
    r <- sqrt (dd.sub_dd_d (dd.sqr a) d_one) ;;
    log (a + r)%DD.

Definition atanh (a : dd_real) : Hook dd_real :=
  if dd.ge_d (dd.abs a) d_one then
    error "(dd_real::atanh): Argument out of domain." ;;
    ret (_nan g)
  else
    l <- log (dd.add_d_dd d_one a / dd.sub_d_dd d_one a)%DD ;;
    ret (dd.mul_pwr2 l d_half).

Definition fmod (a b : dd_real) : dd_real :=
  let n := dd.aint (a / b) in
  (a - b * n)%DD.

End Kernel.

(** ** [c_dd.cpp]: the comparison entry point *)

Definition c_dd_comp (a b : dd_real) : Z :=
  if (a < b)%DD then -1
  else if (a > b)%DD then 1
  else 0.

(** ** Argument reduction of the trigonometric functions *)

(** The argument reduction of [sin], [cos] and [sincos], named: the
    remainder [r] modulo 2*pi ([sin] and [sincos] multiply [_2pi * z], [cos]
    multiplies [z * _2pi]), then the multipliers [j] of pi/2 and [k] of
    pi/16. *)
Definition reduce_r_sin (g : dd_globals) (a : dd_real) : dd_real :=
  (a - _2pi g * dd.nint (a / _2pi g))%DD.

Definition reduce_r_cos (g : dd_globals) (a : dd_real) : dd_real :=
  (a - dd.nint (a / _2pi g) * _2pi g)%DD.

Definition reduce_j (g : dd_globals) (r : dd_real) : Z :=
  qd.to_int (qd_floor (x0 r / x0 (_pi2 g) + d_half)%D).

Definition reduce_k (g : dd_globals) (r : dd_real) : Z :=
  let q := qd_floor (x0 r / x0 (_pi2 g) + d_half)%D in
  let t := (r - dd.mul_dd_d (_pi2 g) q)%DD in
  qd.to_int (qd_floor (x0 t / x0 (_pi16 g) + d_half)%D).

(** ** Encoding a rounded magnitude *)

(** Location of a remainder [rem] below [2^n], as [SpecFloat] records it. *)
Definition loc_spec (rem n : Z) : location :=
  if rem =? 0 then loc_Exact else loc_Inexact (2 * rem ?= 2 ^ n).

(** The double of sign [s] whose magnitude is the representable [R > 0]. *)
Definition encode (s : bool) (R : Z) : spec_float :=
  let k := ulpexp R in
  if k <=? 2045 then S754_finite s (Z.to_pos (R / 2 ^ k)) (k - 1074)
  else S754_infinity s.

(** The largest double below 1/2. *)
Definition pred_half : double := S754_finite false 9007199254740991 (-54).

(** ** Rounding a fraction; magnitudes as real numbers *)

(** Location of the fraction [A / B] between [A / B] and its successor. *)
Definition locq (A B : Z) : location :=
  if A mod B =? 0 then loc_Exact else loc_Inexact (2 * (A mod B) ?= B).

(** The integer nearest to the fraction [A / B], ties to even. *)
Definition rneq (A B : Z) : Z := round_nearest_even (A / B) (locq A B).

(** The value of a double as a real, in units of [2^-1074]; and the
    real 1.0 in these units. *)
Definition Rv (x : double) : R := IZR (V x).
Definition W : R := IZR (2 ^ 1074).

(** A well-formed finite double of magnitude at most [b]. *)
Definition Bd (x : double) (b : R) : Prop :=
  valid x = true /\ is_finite x = true /\ (Rabs (Rv x) <= b)%R.

(** The unit roundoff [2^-53], and a magnitude far below the overflow
    threshold: [2^64], in units of [2^-1074]. *)
Local Abbreviation ur := (/ 9007199254740992)%R.
Local Abbreviation Big := (18446744073709551616 * W)%R.

(** ** The loop of [sinh]: counter, divisors and bound on the term *)

(** The counter [m] of the loop of [sinh] after [k] iterations, and the
    divisor [(m-1) * m] of the iteration that follows. *)
Fixpoint sinh_m (k : nat) : double :=
  match k with
  | O => d_one
  | S k' => (sinh_m k' + d_two)%D
  end.

Definition sinh_den (k : nat) : double :=
  let m := sinh_m (S k) in ((m - d_one) * m)%D.

Definition den_ok (d : double) : bool :=
  valid d && is_finite d
  && (6 * 2 ^ 1074 <=? V d) && (V d <=? 1048576 * 2 ^ 1074).

(** The bound on the limbs of the term after [k] iterations. *)
Definition sinh_bound (k : nat) : R := (51 / 1000 * W * (/ 160) ^ k + 49)%R.

(** ** Loops: the states in which the body runs *)

(** The states in which a [do { body } while (cond)] loop started in
    [s0] runs its body: [s0] itself, and every state reached at the end
    of an iteration with [cond] true. *)
Inductive do_while_enters {S : Type} (body : S -> S) (cond : S -> bool)
    (s0 : S) : S -> Prop :=
  | enters_first : do_while_enters body cond s0 s0
  | enters_next (s : S) :
      do_while_enters body cond s0 s -> cond (body s) = true ->
      do_while_enters body cond s0 (body s).

(** ** [c_dd.cpp]: negation and the comparisons with a [double] *)

Definition c_dd_neg (a : dd_real) : dd_real :=
  mk_dd (- x0 a)%D (- x1 a)%D.

Definition c_dd_comp_dd_d (a : dd_real) (b : double) : Z :=
  let bb := dd.of_double b in
  if (a < bb)%DD then -1
  else if (a > bb)%DD then 1
  else 0.

Definition c_dd_comp_d_dd (a : double) (b : dd_real) : Z :=
  let aa := dd.of_double a in
  if (aa < b)%DD then -1
  else if (aa > b)%DD then 1
  else 0.


(** ** The loop of [npwr], literally *)

(** [while (N > 0) { if (N % 2 == 1) s *= r; N /= 2; if (N > 0) r = sqr(r); }]
    on the state [(N, r, s)]: [None] when the loop is still running after
    [fuel] iterations.  [npwr] returns the final [s]. *)
Fixpoint npwr_while (fuel : nat) (N : Z) (r s : dd_real) : option dd_real :=
  match fuel with
  | O => None
  | S fuel' =>
      if N >? 0 then
        let s := if Z.rem N 2 =? 1 then (s * r)%DD else s in
        let N := Z.quot N 2 in
        let r := if N >? 0 then dd.sqr r else r in
        npwr_while fuel' N r s
      else Some s
  end.


(** ** The value of an expansion; factorials *)

(** The exact sum of the limbs of a finite expansion, in units of
    [2^-1074]. *)
Definition dd_val (a : dd_real) : Z := V (x0 a) + V (x1 a).

Fixpoint fact_Z (n : nat) : Z :=
  match n with
  | O => 1
  | S k => Z.of_nat n * fact_Z k
  end.


(** ** The fused path of [two_sqr] *)

(** The [#ifdef QD_FMS] branch of [two_sqr]. *)
Definition two_sqr_fms (a : double) : double * double :=
  let p := (a * a)%D in
  let err := qd.QD_FMS a a p in
  (p, err).
(** * Properties *)

(** ** NaN in the double operators *)

Lemma add_nan_r (x : double) : (x + S754_nan)%D = S754_nan.
Proof. destruct x as [ | | |s m e]; reflexivity. Qed.

Lemma sub_nan_r (x : double) : (x - S754_nan)%D = S754_nan.
Proof. destruct x as [ | | |s m e]; reflexivity. Qed.

Lemma mul_nan_r (x : double) : (x * S754_nan)%D = S754_nan.
Proof. destruct x as [ | | |s m e]; reflexivity. Qed.

Lemma div_nan_r (x : double) : (x / S754_nan)%D = S754_nan.
Proof. destruct x as [ | | |s m e]; reflexivity. Qed.

Lemma add_nan_l (x : double) : (S754_nan + x)%D = S754_nan.
Proof. reflexivity. Qed.

Lemma sub_nan_l (x : double) : (S754_nan - x)%D = S754_nan.
Proof. reflexivity. Qed.

Lemma mul_nan_l (x : double) : (S754_nan * x)%D = S754_nan.
Proof. reflexivity. Qed.

Lemma div_nan_l (x : double) : (S754_nan / x)%D = S754_nan.
Proof. reflexivity. Qed.

Lemma ltb_nan_r (x : double) : (x < S754_nan)%D = false.
Proof. destruct x as [ | | |s m e]; reflexivity. Qed.

Lemma gtb_nan_r (x : double) : (x > S754_nan)%D = false.
Proof. reflexivity. Qed.

Lemma eqb_nan_r (x : double) : (x == S754_nan)%D = false.
Proof. destruct x as [ | | |s m e]; reflexivity. Qed.

Lemma ltb_nan_l (x : double) : (S754_nan < x)%D = false.
Proof. reflexivity. Qed.

Lemma gtb_nan_l (x : double) : (S754_nan > x)%D = false.
Proof. destruct x as [ | | |s m e]; reflexivity. Qed.

Lemma eqb_nan_l (x : double) : (S754_nan == x)%D = false.
Proof. reflexivity. Qed.

Create Rewrite HintDb nan.
#[global] Hint Rewrite add_nan_r sub_nan_r mul_nan_r div_nan_r
  add_nan_l sub_nan_l mul_nan_l div_nan_l
  ltb_nan_r gtb_nan_r eqb_nan_r ltb_nan_l gtb_nan_l eqb_nan_l : nan.

Lemma is_nan_eq (x : double) : is_nan x = true -> x = S754_nan.
Proof. destruct x; simpl; congruence. Qed.

(** ** Comparison of doubles *)

Lemma SFcompare_antisym (x y : double) :
  SFcompare y x = option_map CompOpp (SFcompare x y).
Proof.
  destruct x as [[|]|[|]| |[|] m e], y as [[|]|[|]| |[|] m' e'];
    simpl; try reflexivity;
    rewrite (Z.compare_antisym e e');
    destruct (e ?= e'); simpl; try reflexivity;
    change (Pos.compare_cont Eq m' m) with (Pos.compare m' m);
    change (Pos.compare_cont Eq m m') with (Pos.compare m m');
    rewrite (Pos.compare_antisym m m');
    destruct (m ?= m')%positive; reflexivity.
Qed.

Lemma eqb_not_ltb (x y : double) : (x == y)%D = true -> (x < y)%D = false.
Proof.
  unfold eqb, ltb, SFeqb, SFltb.
  destruct (SFcompare x y) as [[ | | ]| ]; congruence.
Qed.


Lemma ltb_not_eqb (x y : double) : (x < y)%D = true -> (x == y)%D = false.
Proof.
  unfold eqb, ltb, SFeqb, SFltb.
  destruct (SFcompare x y) as [[ | | ]| ]; congruence.
Qed.

Lemma ltb_leb (x y : double) : (x < y)%D = true -> (x <= y)%D = true.
Proof.
  unfold leb, ltb, SFleb, SFltb.
  destruct (SFcompare x y) as [[ | | ]| ]; congruence.
Qed.

Lemma ltb_not_gtb (x y : double) : (x < y)%D = true -> (x > y)%D = false.
Proof.
  unfold ltb, gtb, SFltb. rewrite (SFcompare_antisym x y).
  destruct (SFcompare x y) as [[ | | ]| ]; simpl; congruence.
Qed.

Lemma gtb_not_eqb (x y : double) : (x > y)%D = true -> (x == y)%D = false.
Proof.
  unfold eqb, gtb, SFeqb, SFltb. rewrite (SFcompare_antisym x y).
  destruct (SFcompare x y) as [[ | | ]| ]; simpl; congruence.
Qed.

Lemma gtb_geb (x y : double) : (x > y)%D = true -> (x >= y)%D = true.
Proof. apply ltb_leb. Qed.

Lemma eqb_leb (x y : double) : (x == y)%D = true -> (x <= y)%D = true.
Proof.
  unfold leb, eqb, SFleb, SFeqb.
  destruct (SFcompare x y) as [[ | | ]| ]; congruence.
Qed.

Lemma eqb_geb (x y : double) : (x == y)%D = true -> (x >= y)%D = true.
Proof.
  unfold geb, eqb, SFleb, SFeqb. rewrite (SFcompare_antisym x y).
  destruct (SFcompare x y) as [[ | | ]| ]; simpl; congruence.
Qed.

(** ** The tri-state comparison [c_dd_comp] *)









Lemma eqb_finite_eq (x : double) (s : bool) (m : positive) (e : Z) :
  (x == S754_finite s m e)%D = true -> x = S754_finite s m e.
Proof.
  unfold eqb, SFeqb.
  destruct x as [[|]|[|]| |[|] m' e'], s; simpl; try discriminate;
    destruct (e' ?= e) eqn:E; try discriminate;
    change (Pos.compare_cont Eq m' m) with (Pos.compare m' m);
    destruct (m' ?= m)%positive eqn:M; try discriminate;
    apply Z.compare_eq in E; apply Pos.compare_eq in M; subst; reflexivity.
Qed.

Lemma eqb_zero_cases (x : double) :
  (x == d_zero)%D = true -> x = S754_zero false \/ x = S754_zero true.
Proof. destruct x as [[|]|[|]| |[|] m e]; simpl; try discriminate; auto. Qed.

(** ** Special values of [exp] *)

(** C6: [exp] returns 0 when [a <= -709], the +infinity expansion when
    [a >= 709], exactly 1 when [a == 0] and the cached constant e when
    [a == 1], the comparisons being those of [dd_real] against a double;
    the cached e is the literal pair of [c_dd_init]. *)
Theorem exp_special_values (a : dd_real) :
  (dd.le_d a d_m709 = true -> exp G a = ret (dd.of_double d_zero)) /\
  (dd.ge_d a d_709 = true -> exp G a = ret dd_inf) /\
  (dd.eq_d a d_zero = true -> exp G a = ret (dd.of_double d_one)) /\
  (dd.eq_d a d_one = true -> exp G a = ret (_e G) /\ _e G = lit_e).
Proof.
  destruct a as [a0 a1]; unfold dd.le_d, dd.ge_d, dd.eq_d; simpl.
  repeat split.
  - intros H.
    assert (Hle : (a0 <= d_m709)%D = true).
    { apply orb_true_iff in H as [H | H].
      - now apply ltb_leb.
      - apply andb_true_iff in H as [H _]. now apply eqb_leb. }
    unfold exp; simpl x0. rewrite Hle. reflexivity.
  - intros H.
    assert (Hge : (a0 >= d_709)%D = true).
    { apply orb_true_iff in H as [H | H].
      - now apply gtb_geb.
      - apply andb_true_iff in H as [H _]. now apply eqb_geb. }
    assert (Hle : (a0 <= d_m709)%D = false).
    { revert Hge. clear. unfold geb, leb, SFleb, d_709, d_m709.
      destruct a0 as [[|]|[|]| |[|] m e];
        cbv beta iota delta [SFcompare]; intros H;
        try discriminate H; reflexivity. }
    unfold exp; simpl x0. rewrite Hle, Hge. reflexivity.
  - intros H. apply andb_true_iff in H as [H _].
    apply eqb_zero_cases in H as [-> | ->]; reflexivity.
  - apply andb_true_iff in H as [H0 H1].
    apply eqb_finite_eq in H0. subst a0.
    unfold exp, dd.is_one, dd.is_zero; simpl x0; simpl x1.
    rewrite H1. reflexivity.
Qed.

Lemma exp_special_values_witness :
  exp G (mk_dd d_one d_zero) = ret (_e G) /\ _e G = lit_e.
Proof.
  apply (proj2 (proj2 (proj2 (exp_special_values (mk_dd d_one d_zero))))).
  reflexivity.
Defined.

(** ** Special cases of [atan2] *)

Lemma eqb_opp_not_eqb (x y : double) :
  (x == y)%D = true -> (x == - y)%D = true -> (y == d_zero)%D = true.
Proof.
  unfold eqb, SFeqb, neg, d_zero.
  destruct x as [[|]|[|]| |[|] m e], y as [[|]|[|]| |[|] m' e'];
    cbv beta iota delta [SFcompare SFopp negb]; intros H1 H2;
    try discriminate H1; try discriminate H2; reflexivity.
Qed.

Lemma is_positive_not_zero (y : dd_real) :
  dd.is_positive y = true -> dd.is_zero y = false.
Proof. unfold dd.is_positive, dd.is_zero. apply gtb_not_eqb. Qed.

Lemma is_negative_not_zero (y : dd_real) :
  dd.is_negative y = true -> dd.is_zero y = false.
Proof. unfold dd.is_negative, dd.is_zero. apply ltb_not_eqb. Qed.

Lemma is_negative_not_positive (y : dd_real) :
  dd.is_negative y = true -> dd.is_positive y = false.
Proof. unfold dd.is_negative, dd.is_positive. apply ltb_not_gtb. Qed.

Section Atan2Special.
Variables qd_log qd_exp : double -> double.
Variable qd_atan2 : double -> double -> double.

(** C8: on the axes and the diagonals [atan2(y, x)] returns a stored
    constant, or its negation limb by limb, with no further arithmetic;
    [atan2(1, 1)] is the stored pi/4. *)
Theorem atan2_special_cases (y x : dd_real) :
  (dd.is_zero x = true -> dd.is_positive y = true ->
   atan2 G qd_atan2 y x = ret (Some (_pi2 G))) /\
  (dd.is_zero x = true -> dd.is_negative y = true ->
   atan2 G qd_atan2 y x = ret (Some (- _pi2 G)%DD)) /\
  (dd.is_zero y = true -> dd.is_positive x = true ->
   atan2 G qd_atan2 y x = ret (Some (dd.of_double d_zero))) /\
  (dd.is_zero y = true -> dd.is_negative x = true ->
   atan2 G qd_atan2 y x = ret (Some (_pi G))) /\
  ((x == y)%DD = true -> dd.is_positive y = true ->
   atan2 G qd_atan2 y x = ret (Some (_pi4 G))) /\
  ((x == y)%DD = true -> dd.is_negative y = true ->
   atan2 G qd_atan2 y x = ret (Some (- _3pi4 G)%DD)) /\
  ((x == - y)%DD = true -> dd.is_positive y = true ->
   atan2 G qd_atan2 y x = ret (Some (_3pi4 G))) /\
  ((x == - y)%DD = true -> dd.is_negative y = true ->
   atan2 G qd_atan2 y x = ret (Some (- _pi4 G)%DD)) /\
  atan2 G qd_atan2 (dd.of_double d_one) (dd.of_double d_one)
  = ret (Some (_pi4 G)) /\
  _pi2 G = lit_pi2 /\ _pi G = lit_pi /\ _pi4 G = lit_pi4 /\ _3pi4 G = lit_3pi4.
Proof.
  assert (Hxy : forall x y, (x == y)%DD = true -> dd.is_zero y = false ->
                  dd.is_zero x = false).
  { clear. intros [x0 x1] [y0 y1]. unfold dd.eq, dd.is_zero; simpl.
    intros H. apply andb_true_iff in H as [H _]. revert H.
    unfold eqb, SFeqb, d_zero.
    destruct x0 as [[|]|[|]| |[|] m e], y0 as [[|]|[|]| |[|] m' e'];
      cbv beta iota delta [SFcompare]; intros H1 H2;
      try discriminate H1; try discriminate H2; reflexivity. }
  assert (Hneg : forall y, dd.is_zero (- y)%DD = dd.is_zero y).
  { clear. intros [y0 y1]. unfold dd.is_zero, dd.neg; simpl x0.
    destruct y0 as [[|]|[|]| |[|] m e]; reflexivity. }
  assert (Hxny : forall x y, (x == - y)%DD = true -> dd.is_zero y = false ->
                   (x == y)%DD = false).
  { clear. intros [x0 x1] [y0 y1]. unfold dd.eq, dd.is_zero, dd.neg; simpl.
    intros H Hz. apply andb_true_iff in H as [H _].
    destruct (x0 == y0)%D eqn:E; [ | reflexivity ].
    rewrite (eqb_opp_not_eqb _ _ E H) in Hz. discriminate. }
  repeat split.
  - intros Hx Hy. unfold atan2.
    rewrite Hx, (is_positive_not_zero _ Hy), Hy. reflexivity.
  - intros Hx Hy. unfold atan2.
    rewrite Hx, (is_negative_not_zero _ Hy), (is_negative_not_positive _ Hy).
    reflexivity.
  - intros Hy Hx. unfold atan2.
    rewrite (is_positive_not_zero _ Hx), Hy, Hx. reflexivity.
  - intros Hy Hx. unfold atan2.
    rewrite (is_negative_not_zero _ Hx), Hy, (is_negative_not_positive _ Hx).
    reflexivity.
  - intros He Hy. unfold atan2.
    pose proof (is_positive_not_zero _ Hy) as Hz.
    rewrite (Hxy _ _ He Hz), Hz, He, Hy. reflexivity.
  - intros He Hy. unfold atan2.
    pose proof (is_negative_not_zero _ Hy) as Hz.
    rewrite (Hxy _ _ He Hz), Hz, He, (is_negative_not_positive _ Hy).
    reflexivity.
  - intros He Hy. unfold atan2.
    pose proof (is_positive_not_zero _ Hy) as Hz.
    assert (Hz' : dd.is_zero (- y)%DD = false) by (now rewrite Hneg).
    rewrite (Hxy _ _ He Hz'), Hz, (Hxny _ _ He Hz), He, Hy. reflexivity.
  - intros He Hy. unfold atan2.
    pose proof (is_negative_not_zero _ Hy) as Hz.
    assert (Hz' : dd.is_zero (- y)%DD = false) by (now rewrite Hneg).
    rewrite (Hxy _ _ He Hz'), Hz, (Hxny _ _ He Hz), He,
      (is_negative_not_positive _ Hy).
    reflexivity.
Qed.

End Atan2Special.

Lemma atan2_special_cases_witness :
  atan2 G (fun _ _ => d_zero) (mk_dd d_two d_zero) (mk_dd d_zero d_zero)
  = ret (Some (_pi2 G)).
Proof.
  apply (proj1 (atan2_special_cases (fun _ _ => d_zero)
                  (mk_dd d_two d_zero) (mk_dd d_zero d_zero)));
    reflexivity.
Defined.

(** ** Domain errors *)

Lemma leb_zero_not_one (x : double) :
  (x <= d_zero)%D = true -> (x == d_one)%D = false.
Proof.
  unfold leb, eqb, SFleb, SFeqb, d_zero, d_one.
  destruct x as [[|]|[|]| |[|] m e];
    cbv beta iota delta [SFcompare]; intros H;
    try discriminate H; reflexivity.
Qed.

Lemma qd_abs_gt (n c : Z) :
  0 <= c -> INT_MIN < n -> c < Z.abs n -> (qd_abs n >? c) = true.
Proof.
  intros Hc Hn H. unfold qd_abs.
  destruct (Z.eqb_spec n INT_MIN) as [E | E]; [ lia | ].
  apply Z.gtb_lt. lia.
Qed.

Lemma qd_abs_le (n c : Z) :
  Z.abs n <= c -> (qd_abs n >? c) = false.
Proof.
  intros H. unfold qd_abs.
  destruct (Z.eqb_spec n INT_MIN) as [E | E]; lia.
Qed.

Section DomainErrors.
Variables qd_log qd_exp : double -> double.
Variable qd_atan2 : double -> double -> double.

(** X25.  What the domain checks do: each of them calls the error hook
    once, with the message of the operation, and returns the canonical
    NaN expansion; nothing is thrown and no error code is returned.  For
    the reduction failures, [j] and [k] are the [int] multipliers the
    code computes.  [sin] and [cos] test [j] itself and report every [j]
    outside [-2, 2]; [sincos] tests [qd_abs j], and reports when [j] is
    not [INT_MIN]; the test of [qd_abs k] reports when [k] is not
    [INT_MIN]. *)
Theorem domain_checks_report (a y x : dd_real) (n : Z) :
  (dd.is_negative a = true ->
   sqrt G a = (dd_nan, ["(dd_real::sqrt): Negative argument."%string])) /\
  ((x0 a <= d_zero)%D = true ->
   log G qd_log a = (dd_nan, ["(dd_real::log): Non-positive argument."%string])) /\
  (dd.is_zero a = true ->
   npwr G a 0 = (dd_nan, ["(dd_real::npwr): Invalid argument."%string])) /\
  (n <= 0 ->
   nroot G qd_log qd_exp a n
   = (dd_nan, ["(dd_real::nroot): N must be positive."%string])) /\
  (0 < n -> Z.rem n 2 = 0 -> dd.is_negative a = true ->
   nroot G qd_log qd_exp a n
   = (dd_nan, ["(dd_real::nroot): Negative argument."%string])) /\
  (dd.gt_d (dd.abs a) d_one = true ->
   asin G qd_atan2 a
   = (Some dd_nan, ["(dd_real::asin): Argument out of domain."%string]) /\
   acos G qd_atan2 a
   = (Some dd_nan, ["(dd_real::acos): Argument out of domain."%string])) /\
  (dd.lt_d a d_one = true ->
   acosh G qd_log a = (dd_nan, ["(dd_real::acosh): Argument out of domain."%string])) /\
  (dd.ge_d (dd.abs a) d_one = true ->
   atanh G qd_log a = (dd_nan, ["(dd_real::atanh): Argument out of domain."%string])) /\
  (dd.is_zero y = true -> dd.is_zero x = true ->
   atan2 G qd_atan2 y x
   = (Some dd_nan, ["(dd_real::atan2): Both arguments zero."%string])) /\
  (dd.is_zero a = false ->
   let j := reduce_j G (reduce_r_sin G a) in
   let k := reduce_k G (reduce_r_sin G a) in
   (j < -2 \/ 2 < j ->
    sin G a
    = (Some dd_nan, ["(dd_real::sin): Cannot reduce modulo pi/2."%string])) /\
   (-2 <= j <= 2 -> INT_MIN < k -> 4 < Z.abs k ->
    sin G a
    = (Some dd_nan, ["(dd_real::sin): Cannot reduce modulo pi/16."%string])) /\
   (INT_MIN < j -> 2 < Z.abs j ->
    sincos G a
    = (Some (dd_nan, dd_nan),
       ["(dd_real::sincos): Cannot reduce modulo pi/2."%string])) /\
   (Z.abs j <= 2 -> INT_MIN < k -> 4 < Z.abs k ->
    sincos G a
    = (Some (dd_nan, dd_nan),
       ["(dd_real::sincos): Cannot reduce modulo pi/16."%string]))) /\
  (dd.is_zero a = false ->
   let j := reduce_j G (reduce_r_cos G a) in
   let k := reduce_k G (reduce_r_cos G a) in
   (j < -2 \/ 2 < j ->
    cos G a
    = (Some dd_nan, ["(dd_real::cos): Cannot reduce modulo pi/2."%string])) /\
   (-2 <= j <= 2 -> INT_MIN < k -> 4 < Z.abs k ->
    cos G a
    = (Some dd_nan, ["(dd_real::cos): Cannot reduce modulo pi/16."%string]))).
Proof.
  repeat match goal with |- _ /\ _ => split end.
  - intros H. unfold sqrt.
    rewrite (is_negative_not_zero _ H), H. reflexivity.
  - intros H. unfold log, dd.is_one.
    rewrite (leb_zero_not_one _ H), H. reflexivity.
  - intros H. unfold npwr. rewrite H. reflexivity.
  - intros H. unfold nroot.
    destruct (Z.leb_spec n 0) as [_ | ?]; [ reflexivity | lia ].
  - intros Hn He H. unfold nroot.
    destruct (Z.leb_spec n 0) as [? | _]; [ lia | ].
    rewrite He, H. reflexivity.
  - intros H. split; [ unfold asin | unfold acos ]; rewrite H; reflexivity.
  - intros H. unfold acosh. rewrite H. reflexivity.
  - intros H. unfold atanh. rewrite H. reflexivity.
  - intros Hy Hx. unfold atan2. rewrite Hx, Hy. reflexivity.
  - intros Hz j k. subst j k.
    unfold reduce_j, reduce_k, reduce_r_sin.
    repeat match goal with |- _ /\ _ => split end.
    + intros Hj. unfold sin. rewrite Hz. cbv zeta.
      assert (E : forall j, j < -2 \/ 2 < j -> (j <? -2) || (j >? 2) = true).
      { clear. intros j [H | H]; apply orb_true_iff;
          [ left; now apply Z.ltb_lt | right; apply Z.gtb_lt; lia ]. }
      rewrite (E _ Hj). reflexivity.
    + intros Hj Hk Hk'. unfold sin. rewrite Hz. cbv zeta.
      assert (E : forall j, -2 <= j <= 2 -> (j <? -2) || (j >? 2) = false).
      { clear. intros j H. apply orb_false_iff; split;
          [ apply Z.ltb_ge; lia | ].
        destruct (Z.gtb_spec j 2); [ lia | reflexivity ]. }
      rewrite (E _ Hj), (qd_abs_gt _ 4 ltac:(lia) Hk Hk'). reflexivity.
    + intros Hj Hj'. unfold sincos. rewrite Hz. cbv zeta.
      rewrite (qd_abs_gt _ 2 ltac:(lia) Hj Hj'). reflexivity.
    + intros Hj Hk Hk'. unfold sincos. rewrite Hz. cbv zeta.
      rewrite (qd_abs_le _ 2 Hj), (qd_abs_gt _ 4 ltac:(lia) Hk Hk').
      reflexivity.
  - intros Hz j k. subst j k.
    unfold reduce_j, reduce_k, reduce_r_cos.
    repeat match goal with |- _ /\ _ => split end.
    + intros Hj. unfold cos. rewrite Hz. cbv zeta.
      assert (E : forall j, j < -2 \/ 2 < j -> (j <? -2) || (j >? 2) = true).
      { clear. intros j [H | H]; apply orb_true_iff;
          [ left; now apply Z.ltb_lt | right; apply Z.gtb_lt; lia ]. }
      rewrite (E _ Hj). reflexivity.
    + intros Hj Hk Hk'. unfold cos. rewrite Hz. cbv zeta.
      assert (E : forall j, -2 <= j <= 2 -> (j <? -2) || (j >? 2) = false).
      { clear. intros j H. apply orb_false_iff; split;
          [ apply Z.ltb_ge; lia | ].
        destruct (Z.gtb_spec j 2); [ lia | reflexivity ]. }
      rewrite (E _ Hj), (qd_abs_gt _ 4 ltac:(lia) Hk Hk'). reflexivity.
Qed.

End DomainErrors.

Lemma domain_checks_report_witness :
  sqrt G (mk_dd (S754_finite true 4503599627370496 (-52)) d_zero)
  = (dd_nan, ["(dd_real::sqrt): Negative argument."%string]).
Proof.
  apply (proj1 (domain_checks_report (fun x => x) (fun x => x)
                  (fun x _ => x)
                  (mk_dd (S754_finite true 4503599627370496 (-52)) d_zero)
                  dd_nan dd_nan 0)).
  reflexivity.
Defined.

(** C4.  An exceeded reduction range that [sincos] and [tan] do not
    report.  The argument is the double nearest to 1.5e45, a normal
    form; its remainder modulo 2*pi comes out as [-2^43], so the
    multiplier of pi/2 is far outside the range of [int] and [j] is
    [INT_MIN].  [sin] and [cos], which test [j < -2 || j > 2], call the
    hook and return the NaN expansion.  [sincos] tests [qd_abs j > 2], and
    [qd_abs] leaves [INT_MIN] negative: it calls no hook and returns two
    ordinary numbers, and so does [tan]. *)
Theorem sincos_reduction_unreported :
  let a := mk_dd (S754_finite false 4733165431326071 98) d_zero in
  normal_form a = true /\
  reduce_r_sin G a = mk_dd (S754_finite true 4503599627370496 (-9)) d_zero /\
  reduce_j G (reduce_r_sin G a) = INT_MIN /\
  qd_abs INT_MIN = INT_MIN /\
  sin G a
  = (Some dd_nan, ["(dd_real::sin): Cannot reduce modulo pi/2."%string]) /\
  cos G a
  = (Some dd_nan, ["(dd_real::cos): Cannot reduce modulo pi/2."%string]) /\
  sincos G a
  = (Some (mk_dd (S754_finite false 7172212105148574 (-55))
                 (S754_finite false 6734176215751095 (-109)),
           mk_dd (S754_finite true 8826924677345400 (-53))
                 (S754_finite true 7643851799715010 (-108))), []) /\
  tan G a
  = (Some (mk_dd (S754_finite true 7318692057511332 (-55))
                 (S754_finite true 6171389021101827 (-109))), []).
Proof. repeat split; vm_compute; reflexivity. Qed.

(** ** NaN through the error-free transformations and the operators *)

Ltac nan_simpl :=
  repeat (cbn [fst snd x0 x1 dd.of_pair dd.of_double dd.to_double];
          autorewrite with nan).

Lemma quick_two_sum_nan_l b : qd.quick_two_sum S754_nan b = (S754_nan, S754_nan).
Proof. unfold qd.quick_two_sum. now nan_simpl. Qed.

Lemma quick_two_sum_nan_r a : qd.quick_two_sum a S754_nan = (S754_nan, S754_nan).
Proof. unfold qd.quick_two_sum. now nan_simpl. Qed.

Lemma two_sum_nan_l b : qd.two_sum S754_nan b = (S754_nan, S754_nan).
Proof. unfold qd.two_sum. now nan_simpl. Qed.

Lemma two_sum_nan_r a : qd.two_sum a S754_nan = (S754_nan, S754_nan).
Proof. unfold qd.two_sum. now nan_simpl. Qed.

Lemma two_diff_nan_l b : qd.two_diff S754_nan b = (S754_nan, S754_nan).
Proof. unfold qd.two_diff. now nan_simpl. Qed.

Lemma two_diff_nan_r a : qd.two_diff a S754_nan = (S754_nan, S754_nan).
Proof. unfold qd.two_diff. now nan_simpl. Qed.

Lemma split_nan : qd.split S754_nan = (S754_nan, S754_nan).
Proof. reflexivity. Qed.

Lemma two_prod_nan_l b : qd.two_prod S754_nan b = (S754_nan, S754_nan).
Proof.
  unfold qd.two_prod. rewrite split_nan. destruct (qd.split b) as [b_hi b_lo].
  now nan_simpl.
Qed.

Lemma two_prod_nan_r a : qd.two_prod a S754_nan = (S754_nan, S754_nan).
Proof.
  unfold qd.two_prod. rewrite split_nan. destruct (qd.split a) as [a_hi a_lo].
  now nan_simpl.
Qed.

Lemma two_sqr_nan : qd.two_sqr S754_nan = (S754_nan, S754_nan).
Proof. reflexivity. Qed.

#[global] Hint Rewrite quick_two_sum_nan_l quick_two_sum_nan_r
  two_sum_nan_l two_sum_nan_r two_diff_nan_l two_diff_nan_r
  two_prod_nan_l two_prod_nan_r two_sqr_nan split_nan : nan.

(** An operand whose leading limb is NaN makes the result of each
    arithmetic operator the canonical NaN expansion. *)

Lemma dd_add_nan_l a1 b : (mk_dd S754_nan a1 + b)%DD = dd_nan.
Proof. unfold dd.add. now nan_simpl. Qed.

Lemma dd_add_nan_r a b1 : (a + mk_dd S754_nan b1)%DD = dd_nan.
Proof. unfold dd.add. now nan_simpl. Qed.

Lemma dd_sub_nan_l a1 b : (mk_dd S754_nan a1 - b)%DD = dd_nan.
Proof. unfold dd.sub. now nan_simpl. Qed.

Lemma dd_sub_nan_r a b1 : (a - mk_dd S754_nan b1)%DD = dd_nan.
Proof. unfold dd.sub. now nan_simpl. Qed.

Lemma dd_mul_nan_l a1 b : (mk_dd S754_nan a1 * b)%DD = dd_nan.
Proof. unfold dd.mul. now nan_simpl. Qed.

Lemma dd_mul_nan_r a b1 : (a * mk_dd S754_nan b1)%DD = dd_nan.
Proof. unfold dd.mul. now nan_simpl. Qed.

Lemma dd_mul_dd_d_nan a1 b : dd.mul_dd_d (mk_dd S754_nan a1) b = dd_nan.
Proof. unfold dd.mul_dd_d. now nan_simpl. Qed.

Lemma dd_mul_dd_d_nan_r a : dd.mul_dd_d a S754_nan = dd_nan.
Proof. unfold dd.mul_dd_d. now nan_simpl. Qed.

Lemma dd_div_nan_l a1 b : (mk_dd S754_nan a1 / b)%DD = dd_nan.
Proof.
  unfold dd.div. cbv zeta. now nan_simpl.
Qed.

Lemma dd_div_nan_r a b1 : (a / mk_dd S754_nan b1)%DD = dd_nan.
Proof.
  unfold dd.div. cbv zeta. now nan_simpl.
Qed.

Lemma dd_add_dd_d_nan a1 b : dd.add_dd_d (mk_dd S754_nan a1) b = dd_nan.
Proof. unfold dd.add_dd_d. now nan_simpl. Qed.

Lemma dd_sub_dd_d_nan a1 b : dd.sub_dd_d (mk_dd S754_nan a1) b = dd_nan.
Proof. unfold dd.sub_dd_d. now nan_simpl. Qed.

Lemma dd_sub_d_dd_nan a b1 : dd.sub_d_dd a (mk_dd S754_nan b1) = dd_nan.
Proof. unfold dd.sub_d_dd. now nan_simpl. Qed.

Lemma dd_div_dd_d_nan a1 b : dd.div_dd_d (mk_dd S754_nan a1) b = dd_nan.
Proof. unfold dd.div_dd_d. cbv zeta. now nan_simpl. Qed.

Lemma dd_mul_pwr2_nan b : dd.mul_pwr2 dd_nan b = dd_nan.
Proof. reflexivity. Qed.

Lemma dd_ldexp_nan e : dd.ldexp dd_nan e = dd_nan.
Proof. reflexivity. Qed.

#[global] Hint Rewrite dd_add_nan_l dd_add_nan_r dd_sub_nan_l dd_sub_nan_r
  dd_mul_nan_l dd_mul_nan_r dd_mul_dd_d_nan dd_mul_dd_d_nan_r
  dd_div_nan_l dd_div_nan_r dd_add_dd_d_nan dd_sub_dd_d_nan dd_sub_d_dd_nan
  dd_div_dd_d_nan dd_mul_pwr2_nan dd_ldexp_nan : nan.

(** ** NaN through the kernel *)

Lemma npwr_loop_nan (N : positive) (s : dd_real) :
  npwr_loop N dd_nan s = dd_nan.
Proof.
  revert s. induction N as [N IH | N IH | ]; intros s; simpl.
  - change (dd.sqr dd_nan) with dd_nan. apply IH.
  - change (dd.sqr dd_nan) with dd_nan. apply IH.
  - apply dd_mul_nan_r.
Qed.

Lemma sqrt_nan : sqrt G dd_nan = ret dd_nan.
Proof. reflexivity. Qed.

Lemma exp_nan : exp G dd_nan = ret dd_nan.
Proof. vm_compute. reflexivity. Qed.

Section NanPropagation.
Variables qd_log qd_exp : double -> double.
Variable qd_atan2 : double -> double -> double.

Lemma log_nan : value (log G qd_log dd_nan) = dd_nan.
Proof.
  unfold log. change (dd.is_one dd_nan) with false.
  change (x0 dd_nan <= d_zero)%D with false. cbv iota zeta.
  destruct (exp G _) as [e l]. unfold bind, ret, value. cbn [fst].
  now nan_simpl.
Qed.

Lemma npwr_nan (n : Z) : n <> 0 -> npwr G dd_nan n = ret dd_nan.
Proof.
  intros Hn. unfold npwr.
  destruct (Z.eqb_spec n 0) as [? | _]; [ contradiction | ].
  cbv zeta.
  assert (E : (if qd_abs n >? 1
               then npwr_loop (Z.to_pos (qd_abs n)) dd_nan (dd.of_double d_one)
               else dd_nan) = dd_nan).
  { destruct (qd_abs n >? 1); [ apply npwr_loop_nan | reflexivity ]. }
  rewrite E. destruct (n <? 0); reflexivity.
Qed.

Lemma nroot_nan (n : Z) : value (nroot G qd_log qd_exp dd_nan n) = dd_nan.
Proof.
  unfold nroot.
  destruct (n <=? 0); [ reflexivity | ].
  change (dd.is_negative dd_nan) with false. rewrite andb_false_r.
  destruct (n =? 1); [ reflexivity | ].
  destruct (n =? 2); [ reflexivity | ].
  change (dd.is_zero dd_nan) with false. cbv iota zeta.
  change (dd.abs dd_nan) with dd_nan.
  destruct (npwr G _ n) as [p l]. unfold bind, ret, value. cbn [fst].
  change (x0 dd_nan < d_zero)%D with false. cbv iota. nan_simpl.
  reflexivity.
Qed.

Lemma pow_nan (a b : dd_real) :
  value (pow G qd_log dd_nan b) = dd_nan /\
  value (pow G qd_log a dd_nan) = dd_nan.
Proof.
  split; unfold pow.
  - pose proof log_nan as H. destruct (log G qd_log dd_nan) as [l m].
    unfold value in H; cbn [fst] in H; subst l.
    unfold bind. nan_simpl. rewrite exp_nan. reflexivity.
  - destruct (log G qd_log a) as [l m].
    unfold bind. nan_simpl. rewrite exp_nan. reflexivity.
Qed.

Lemma log10_nan : value (log10 G qd_log dd_nan) = dd_nan.
Proof.
  unfold log10. pose proof log_nan as H.
  destruct (log G qd_log dd_nan) as [l m].
  unfold value in H; cbn [fst] in H; subst l. reflexivity.
Qed.

(** [sincos] on a NaN seed: the multipliers [j] and [k] are both
    [INT_MIN], which [qd_abs] leaves negative, so both guards are passed
    and the tables are read at index [INT_MIN - 1], outside them.  [tan]
    calls [sincos] on its argument. *)
Lemma sincos_nan_read :
  qd_abs (qd.to_int S754_nan) - 1 = INT_MIN - 1 /\
  table_read cos_table (INT_MIN - 1) = None /\
  sincos G dd_nan = (None, []) /\
  sincos G (dd.of_double S754_nan) = (None, []) /\
  tan G dd_nan = (None, []).
Proof. repeat split; vm_compute; reflexivity. Qed.

(** Off the axes [atan2] calls [sincos] on its seed, the native
    [atan2] of the leading limbs; that seed is NaN as soon as a leading
    limb is, as the C library has it. *)
Lemma atan2_nan_seed (b : dd_real) :
  (forall u v, is_nan u || is_nan v = true -> qd_atan2 u v = S754_nan) ->
  dd.is_zero b = false ->
  value (atan2 G qd_atan2 dd_nan b) = None /\
  value (atan2 G qd_atan2 b dd_nan) = None.
Proof.
  intros Hq Hz.
  destruct sincos_nan_read as (_ & _ & _ & Hs & _).
  split; unfold atan2.
  - rewrite Hz. change (dd.is_zero dd_nan) with false. cbv iota.
    assert (E1 : (b == dd_nan)%DD = false).
    { unfold dd.eq; cbn [x0 x1]. now nan_simpl. }
    assert (E2 : (b == - dd_nan)%DD = false).
    { unfold dd.eq, dd.neg; cbn [x0 x1 neg SFopp]. now nan_simpl. }
    rewrite E1, E2.
    change (dd.sqr dd_nan) with dd_nan. rewrite dd_add_nan_r, sqrt_nan.
    unfold bind at 1, ret at 1. cbv beta iota. rewrite dd_div_nan_r, dd_div_nan_r.
    change (qd_fabs (x0 dd_nan) > qd_fabs (x0 dd_nan))%D with false.
    cbv iota. rewrite (Hq (dd.to_double dd_nan) (dd.to_double b) eq_refl), Hs.
    reflexivity.
  - change (dd.is_zero dd_nan) with false. rewrite Hz. cbv iota.
    assert (E1 : (dd_nan == b)%DD = false) by reflexivity.
    assert (E2 : (dd_nan == - b)%DD = false) by reflexivity.
    rewrite E1, E2.
    change (dd.sqr dd_nan) with dd_nan. rewrite dd_add_nan_l, sqrt_nan.
    unfold bind at 1, ret at 1. cbv beta iota. rewrite dd_div_nan_l, dd_div_nan_r.
    change (qd_fabs (x0 dd_nan) > qd_fabs (x0 dd_nan))%D with false.
    cbv iota.
    rewrite (Hq (dd.to_double b) (dd.to_double dd_nan)
               ltac:(apply orb_true_r)), Hs.
    reflexivity.
Qed.

Lemma inverse_trig_nan_seed :
  (forall u v, is_nan u || is_nan v = true -> qd_atan2 u v = S754_nan) ->
  value (atan G qd_atan2 dd_nan) = None /\
  value (asin G qd_atan2 dd_nan) = None /\
  value (acos G qd_atan2 dd_nan) = None.
Proof.
  intros Hq.
  destruct (atan2_nan_seed dd_nan Hq eq_refl) as [H _].
  split; [ | split ].
  - unfold atan.
    exact (proj1 (atan2_nan_seed (dd.of_double d_one) Hq eq_refl)).
  - unfold asin. change (dd.abs dd_nan) with dd_nan.
    change (dd.gt_d dd_nan d_one) with false.
    change (dd.is_one dd_nan) with false. cbv iota.
    change (dd.sub_d_dd d_one (dd.sqr dd_nan)) with dd_nan.
    rewrite sqrt_nan. unfold bind at 1, ret at 1.
    destruct (atan2 G qd_atan2 dd_nan dd_nan) as [r l].
    unfold value in *. cbn [fst] in *. now subst r.
  - unfold acos. change (dd.abs dd_nan) with dd_nan.
    change (dd.gt_d dd_nan d_one) with false.
    change (dd.is_one dd_nan) with false. cbv iota.
    change (dd.sub_d_dd d_one (dd.sqr dd_nan)) with dd_nan.
    rewrite sqrt_nan. unfold bind at 1, ret at 1.
    destruct (atan2 G qd_atan2 dd_nan dd_nan) as [r l].
    unfold value in *. cbn [fst] in *. now subst r.
Qed.

(** X26.  On a NaN argument the reduction of [sincos] is not reported
    and its tables are read out of bounds: [j] and [k] are [INT_MIN],
    which [qd_abs] leaves negative, so that both guards are passed and
    [cos_table] and [sin_table] are indexed at [INT_MIN - 1].  [tan]
    calls [sincos] on its argument; [atan2] off the axes, [atan], [asin]
    and [acos] call it on the seed of their Newton step, the native
    [atan2] of the leading limbs, which is NaN as soon as one of them
    is.  [None] stands for the read outside the tables. *)
Theorem nan_reads_tables_out_of_bounds (b : dd_real) :
  (forall u v, is_nan u || is_nan v = true -> qd_atan2 u v = S754_nan) ->
  reduce_j G (reduce_r_sin G dd_nan) = INT_MIN /\
  reduce_k G (reduce_r_sin G dd_nan) = INT_MIN /\
  qd_abs INT_MIN - 1 = INT_MIN - 1 /\
  table_read cos_table (INT_MIN - 1) = None /\
  table_read sin_table (INT_MIN - 1) = None /\
  sincos G dd_nan = (None, []) /\
  tan G dd_nan = (None, []) /\
  (dd.is_zero b = false ->
   value (atan2 G qd_atan2 dd_nan b) = None /\
   value (atan2 G qd_atan2 b dd_nan) = None) /\
  value (atan G qd_atan2 dd_nan) = None /\
  value (asin G qd_atan2 dd_nan) = None /\
  value (acos G qd_atan2 dd_nan) = None.
Proof.
  intros Hq.
  destruct (inverse_trig_nan_seed Hq) as (H1 & H2 & H3).
  destruct sincos_nan_read as (_ & _ & S1 & _ & S2).
  split; [ vm_compute; reflexivity | ].
  split; [ vm_compute; reflexivity | ].
  split; [ reflexivity | ].
  split; [ reflexivity | ].
  split; [ reflexivity | ].
  split; [ exact S1 | ].
  split; [ exact S2 | ].
  split; [ intros Hz; exact (atan2_nan_seed b Hq Hz) | ].
  split; [ exact H1 | ]. split; [ exact H2 | exact H3 ].
Qed.

Lemma inverse_hyperbolic_nan :
  value (asinh G qd_log dd_nan) = dd_nan /\
  value (acosh G qd_log dd_nan) = dd_nan /\
  value (atanh G qd_log dd_nan) = dd_nan.
Proof.
  pose proof log_nan as H.
  repeat split.
  - unfold asinh.
    change (dd.add_dd_d (dd.sqr dd_nan) d_one) with dd_nan.
    rewrite sqrt_nan. unfold bind at 1, ret at 1.
    change (dd_nan + dd_nan)%DD with dd_nan.
    destruct (log G qd_log dd_nan) as [r l].
    unfold value in *. cbn [fst] in *. now subst r.
  - unfold acosh. change (dd.lt_d dd_nan d_one) with false. cbv iota.
    change (dd.sub_dd_d (dd.sqr dd_nan) d_one) with dd_nan.
    rewrite sqrt_nan. unfold bind at 1, ret at 1.
    change (dd_nan + dd_nan)%DD with dd_nan.
    destruct (log G qd_log dd_nan) as [r l].
    unfold value in *. cbn [fst] in *. now subst r.
  - unfold atanh. change (dd.abs dd_nan) with dd_nan.
    change (dd.ge_d dd_nan d_one) with false. cbv iota.
    change (dd.add_d_dd d_one dd_nan / dd.sub_d_dd d_one dd_nan)%DD
      with dd_nan.
    destruct (log G qd_log dd_nan) as [r l].
    unfold value in *. cbn [fst] in *. now subst r.
Qed.

End NanPropagation.

Lemma nan_reads_tables_out_of_bounds_witness :
  value (atan G (fun u v => (u + v)%D) dd_nan) = None.
Proof.
  assert (H : forall u v : double,
            is_nan u || is_nan v = true -> (u + v)%D = S754_nan).
  { intros u v H. destruct u, v; try discriminate H; reflexivity. }
  destruct (nan_reads_tables_out_of_bounds (fun u v => (u + v)%D) dd_nan H)
    as (_ & _ & _ & _ & _ & _ & _ & _ & Ha & _).
  exact Ha.
Defined.

Lemma trig_nan :
  value (sin G dd_nan) = Some dd_nan /\ value (cos G dd_nan) = Some dd_nan.
Proof. repeat split; vm_compute; reflexivity. Qed.

Lemma hyperbolic_nan (fuel : nat) :
  value (sinh G (S fuel) dd_nan) = Some dd_nan /\
  value (cosh G dd_nan) = dd_nan /\
  value (tanh G (S fuel) dd_nan) = Some dd_nan /\
  value (sincosh G (S fuel) dd_nan) = Some (dd_nan, dd_nan).
Proof. repeat split; vm_compute; reflexivity. Qed.

Lemma round_nan :
  dd.nint dd_nan = mk_dd S754_nan d_zero /\
  dd.floor dd_nan = mk_dd S754_nan d_zero /\
  dd.ceil dd_nan = mk_dd S754_nan d_zero /\
  dd.aint dd_nan = mk_dd S754_nan d_zero.
Proof. repeat split; vm_compute; reflexivity. Qed.

Lemma fmod_nan (a b : dd_real) :
  fmod dd_nan b = dd_nan /\ fmod a dd_nan = dd_nan /\
  dd.drem dd_nan b = dd_nan /\ dd.drem a dd_nan = dd_nan /\
  dd.isnan (fst (dd.divrem dd_nan b)) = true /\
  snd (dd.divrem dd_nan b) = dd_nan /\
  dd.isnan (fst (dd.divrem a dd_nan)) = true /\
  snd (dd.divrem a dd_nan) = dd_nan.
Proof.
  destruct round_nan as (Hn & _ & _ & Ha).
  unfold fmod, dd.drem, dd.divrem; cbv zeta; cbn [fst snd].
  rewrite !dd_div_nan_l, !dd_div_nan_r, Ha, Hn.
  rewrite !dd_mul_nan_l, !dd_mul_nan_r, !dd_sub_nan_r.
  repeat split.
Qed.

Section NanTheorem.
Variables qd_log qd_exp : double -> double.
Variable qd_atan2 : double -> double -> double.

(** C5, as amended: a canonical NaN argument makes the result of every
    kernel operation NaN (a limb of it is NaN; both limbs, but for the
    roundings to an integer, whose trailing limb is 0), with these
    exceptions: [npwr] with exponent 0 returns 1, and [atan2] with its
    other argument zero returns -pi/2 (NaN ordinate) or pi (NaN abscissa).
    The statement says nothing of [sincos] and [tan], nor of [atan2] off
    the axes, [atan], [asin] and [acos], which call [sincos] on a NaN
    seed: there [sincos] reads its tables out of bounds. *)
Theorem nan_propagates (b : dd_real) (d : double) (n e : Z) (fuel : nat) :
  (* the operators *)
  (dd.isnan (dd_nan + b) = true /\ dd.isnan (b + dd_nan) = true /\
   dd.isnan (dd_nan - b) = true /\ dd.isnan (b - dd_nan) = true /\
   dd.isnan (dd_nan * b) = true /\ dd.isnan (b * dd_nan) = true /\
   dd.isnan (dd_nan / b) = true /\ dd.isnan (b / dd_nan) = true /\
   dd.isnan (dd.add_dd_d dd_nan d) = true /\
   dd.isnan (dd.add_d_dd d dd_nan) = true /\
   dd.isnan (dd.sub_dd_d dd_nan d) = true /\
   dd.isnan (dd.sub_d_dd d dd_nan) = true /\
   dd.isnan (dd.mul_dd_d dd_nan d) = true /\
   dd.isnan (dd.mul_d_dd d dd_nan) = true /\
   dd.isnan (dd.div_dd_d dd_nan d) = true /\
   dd.isnan (dd.div_d_dd d dd_nan) = true /\
   dd.isnan (- dd_nan) = true /\ dd.isnan (dd.abs dd_nan) = true /\
   dd.isnan (dd.sqr dd_nan) = true /\ dd.isnan (dd.inv dd_nan) = true /\
   dd.isnan (dd.mul_pwr2 dd_nan d) = true /\
   dd.isnan (dd.ldexp dd_nan e) = true /\
   dd.isnan (dd.nint dd_nan) = true /\ dd.isnan (dd.aint dd_nan) = true /\
   dd.isnan (dd.floor dd_nan) = true /\ dd.isnan (dd.ceil dd_nan) = true /\
   dd.isnan (fmod dd_nan b) = true /\ dd.isnan (fmod b dd_nan) = true /\
   dd.isnan (dd.drem dd_nan b) = true /\ dd.isnan (dd.drem b dd_nan) = true /\
   dd.isnan (fst (dd.divrem dd_nan b)) = true /\
   dd.isnan (snd (dd.divrem dd_nan b)) = true /\
   dd.isnan (fst (dd.divrem b dd_nan)) = true /\
   dd.isnan (snd (dd.divrem b dd_nan)) = true) /\
  (* roots, powers, exponential and logarithms *)
  (dd.isnan (value (sqrt G dd_nan)) = true /\
   dd.isnan (value (nroot G qd_log qd_exp dd_nan n)) = true /\
   (n <> 0 -> dd.isnan (value (npwr G dd_nan n)) = true) /\
   dd.isnan (value (pow G qd_log dd_nan b)) = true /\
   dd.isnan (value (pow G qd_log b dd_nan)) = true /\
   dd.isnan (value (exp G dd_nan)) = true /\
   dd.isnan (value (log G qd_log dd_nan)) = true /\
   dd.isnan (value (log10 G qd_log dd_nan)) = true) /\
  (* trigonometric and hyperbolic functions *)
  (option_map dd.isnan (value (sin G dd_nan)) = Some true /\
   option_map dd.isnan (value (cos G dd_nan)) = Some true /\
   option_map dd.isnan (value (sinh G (S fuel) dd_nan)) = Some true /\
   dd.isnan (value (cosh G dd_nan)) = true /\
   option_map dd.isnan (value (tanh G (S fuel) dd_nan)) = Some true /\
   option_map (fun sc => dd.isnan (fst sc) && dd.isnan (snd sc))
     (value (sincosh G (S fuel) dd_nan)) = Some true /\
   dd.isnan (value (asinh G qd_log dd_nan)) = true /\
   dd.isnan (value (acosh G qd_log dd_nan)) = true /\
   dd.isnan (value (atanh G qd_log dd_nan)) = true) /\
  (* the exceptions *)
  (npwr G dd_nan 0 = ret (dd.of_double d_one) /\
   (dd.is_zero b = true ->
    atan2 G qd_atan2 dd_nan b = ret (Some (- _pi2 G)%DD) /\
    atan2 G qd_atan2 b dd_nan = ret (Some (_pi G)))).
Proof.
  destruct (fmod_nan b b) as (F1 & F2 & F3 & F4 & F5 & F6 & F7 & F8).
  destruct (pow_nan qd_log b b) as [P1 P2].
  destruct (inverse_hyperbolic_nan qd_log) as (I1 & I2 & I3).
  destruct trig_nan as (T1 & T2).
  destruct (hyperbolic_nan fuel) as (H1 & H2 & H3 & H4).
  split; [ | split; [ | split ] ].
  - rewrite F1, F2, F3, F4, F5, F6, F7, F8.
    unfold dd.add_d_dd, dd.mul_d_dd, dd.div_d_dd, dd.inv, dd.of_double.
    autorewrite with nan. repeat split.
  - rewrite P1, P2, (nroot_nan qd_log qd_exp n), (log_nan qd_log),
      (log10_nan qd_log), exp_nan, sqrt_nan.
    repeat split. intros Hn. now rewrite (npwr_nan n Hn).
  - rewrite T1, T2, I1, I2, I3, H1, H2, H3, H4.
    repeat split.
  - split; [ reflexivity | ]. intros Hz. unfold atan2. rewrite Hz.
    split; reflexivity.
Qed.

End NanTheorem.

Lemma nan_propagates_witness :
  dd.isnan (value (npwr G dd_nan 3)) = true.
Proof.
  destruct (nan_propagates (fun x => x) (fun x => x) (fun x _ => x)
              dd_nan d_zero 3 0 0) as (_ & (_ & _ & H & _) & _).
  apply H. discriminate.
Defined.

(** C5, as stated, fails: with exponent 0 [npwr] tests only whether its
    argument is zero, and returns 1 for the NaN expansion. *)
Lemma npwr_nan_zero_exponent_counterexample :
  ~ (forall n : Z, dd.isnan (value (npwr G dd_nan n)) = true).
Proof.
  intro H. specialize (H 0). vm_compute in H. discriminate H.
Qed.

(** * Rounding *)

(** ** Round to nearest, ties to even, on scaled integers *)

Lemma ulpexp_nonneg n : 0 <= ulpexp n.
Proof. unfold ulpexp; lia. Qed.

Lemma ulpexp_opp n : ulpexp (- n) = ulpexp n.
Proof. unfold ulpexp. now rewrite Z.abs_opp. Qed.

Lemma ulpexp_abs n : ulpexp (Z.abs n) = ulpexp n.
Proof. unfold ulpexp. now rewrite Z.abs_idemp. Qed.

Lemma pow2_pos k : 0 <= k -> 0 < 2 ^ k.
Proof. intros; apply Z.pow_pos_nonneg; lia. Qed.

Lemma pow2_le a b : 0 <= a <= b -> 2 ^ a <= 2 ^ b.
Proof. intros; apply Z.pow_le_mono_r; lia. Qed.

Lemma pow2_lt a b : 0 <= a < b -> 2 ^ a < 2 ^ b.
Proof. intros; apply Z.pow_lt_mono_r; lia. Qed.

Lemma pow2_divide a b : 0 <= a <= b -> (2 ^ a | 2 ^ b).
Proof.
  intros H. exists (2 ^ (b - a)). rewrite <- Z.pow_add_r by lia. f_equal; lia.
Qed.

(** [|n| < 2^(53 + ulpexp n)], and [2^(52 + ulpexp n) <= |n|] above the
    first binade. *)
Lemma ulpexp_upper n : Z.abs n < 2 ^ (53 + ulpexp n).
Proof.
  unfold ulpexp. destruct (Z.eq_dec n 0) as [-> | Hn].
  - simpl. lia.
  - pose proof (Z.log2_spec (Z.abs n) ltac:(lia)) as [_ H].
    eapply Z.lt_le_trans; [ exact H | ].
    apply pow2_le. pose proof (Z.log2_nonneg (Z.abs n)). lia.
Qed.

Lemma ulpexp_lower n : 0 < ulpexp n -> 2 ^ (52 + ulpexp n) <= Z.abs n.
Proof.
  unfold ulpexp. intros H.
  assert (Hl : 52 < Z.log2 (Z.abs n)) by lia.
  assert (Hn : 0 < Z.abs n).
  { destruct (Z.eq_dec (Z.abs n) 0) as [E | E]; [ rewrite E in Hl; simpl in Hl; lia | lia ]. }
  pose proof (Z.log2_spec (Z.abs n) Hn) as [H1 _].
  replace (52 + Z.max 0 (Z.log2 (Z.abs n) - 52)) with (Z.log2 (Z.abs n)) by lia.
  exact H1.
Qed.

Lemma ulpexp_small n : Z.abs n < 2 ^ 53 -> ulpexp n = 0.
Proof.
  intros H. unfold ulpexp.
  destruct (Z.eq_dec n 0) as [-> | Hn]; [ reflexivity | ].
  assert (Z.log2 (Z.abs n) < 53); [ | lia ].
  apply Z.log2_lt_pow2; lia.
Qed.

Lemma ulpexp_bound n k : 0 <= k -> Z.abs n < 2 ^ (53 + k) -> ulpexp n <= k.
Proof.
  intros Hk H. unfold ulpexp.
  destruct (Z.eq_dec n 0) as [-> | Hn]; [ simpl; lia | ].
  assert (Z.log2 (Z.abs n) < 53 + k); [ | lia ].
  apply Z.log2_lt_pow2; lia.
Qed.

Lemma ulpexp_le_mono x y : Z.abs x <= Z.abs y -> ulpexp x <= ulpexp y.
Proof.
  intros H. unfold ulpexp.
  pose proof (Z.log2_le_mono (Z.abs x) (Z.abs y) H). lia.
Qed.

Lemma ulpexp_ge n k : 0 <= k -> 2 ^ (52 + k) <= Z.abs n -> k <= ulpexp n.
Proof.
  intros Hk H. unfold ulpexp.
  assert (52 + k <= Z.log2 (Z.abs n)); [ | lia ].
  apply Z.log2_le_pow2; [ | exact H ].
  pose proof (pow2_pos (52 + k) ltac:(lia)). lia.
Qed.

(** Representable integers *)

Lemma F_0 : F 0.
Proof. exists 0; reflexivity. Qed.

Lemma F_opp n : F n -> F (- n).
Proof.
  unfold F. rewrite ulpexp_opp. intros [c H]. exists (- c). lia.
Qed.

Lemma F_abs n : F n <-> F (Z.abs n).
Proof.
  destruct (Z.abs_spec n) as [[_ E] | [_ E]]; rewrite E; [ tauto | ].
  split; intros H.
  - now apply F_opp.
  - apply F_opp in H. now rewrite Z.opp_involutive in H.
Qed.

(** A multiple of [2^k] of magnitude at most [2^(53+k)] is representable. *)
Lemma F_multiple n k :
  0 <= k -> (2 ^ k | n) -> Z.abs n <= 2 ^ (53 + k) -> F n.
Proof.
  intros Hk Hd Hb. unfold F.
  destruct (Z.eq_dec (Z.abs n) (2 ^ (53 + k))) as [E | E].
  - assert (Hu : ulpexp n <= k + 1).
    { apply ulpexp_bound; [ lia | ]. rewrite E. apply pow2_lt; lia. }
    apply Z.divide_trans with (2 ^ (k + 1)).
    + apply pow2_divide. pose proof (ulpexp_nonneg n); lia.
    + apply Z.divide_abs_r. rewrite E. apply pow2_divide; lia.
  - apply Z.divide_trans with (2 ^ k); [ | exact Hd ].
    apply pow2_divide. split; [ apply ulpexp_nonneg | ].
    apply ulpexp_bound; lia.
Qed.

Lemma F_small n : Z.abs n <= 2 ^ 53 -> F n.
Proof.
  intros H. apply (F_multiple n 0); [ lia | apply Z.divide_1_l | exact H ].
Qed.

Lemma F_pow2_mul n k : 0 <= k -> F n -> F (n * 2 ^ k).
Proof.
  intros Hk [c Hc].
  apply (F_multiple _ (ulpexp n + k)).
  - pose proof (ulpexp_nonneg n); lia.
  - exists c. rewrite Z.pow_add_r by (pose proof (ulpexp_nonneg n); lia). lia.
  - rewrite Z.abs_mul, (Z.abs_eq (2 ^ k)) by (pose proof (pow2_pos k Hk); lia).
    replace (53 + (ulpexp n + k)) with ((53 + ulpexp n) + k) by lia.
    rewrite Z.pow_add_r by (pose proof (ulpexp_nonneg n); lia).
    pose proof (ulpexp_upper n). pose proof (pow2_pos k Hk). nia.
Qed.

(** ** [rne]: the integer nearest to [a / 2^k], ties to even *)

Lemma rne_cases a k :
  0 <= k ->
  let q := a / 2 ^ k in
  let r := a mod 2 ^ k in
  a = q * 2 ^ k + r /\ 0 <= r < 2 ^ k /\
  ((rne a k = q /\ 2 * r <= 2 ^ k) \/ (rne a k = q + 1 /\ 2 ^ k <= 2 * r)).
Proof.
  intros Hk q r. pose proof (pow2_pos k Hk) as Hp.
  pose proof (Z.div_mod a (2 ^ k) ltac:(lia)) as Hdm.
  pose proof (Z.mod_pos_bound a (2 ^ k) Hp) as Hr.
  fold q r in Hdm, Hr.
  split; [ lia | split; [ exact Hr | ] ].
  unfold rne. fold q r.
  destruct (Z.compare_spec (2 * r) (2 ^ k)) as [E | E | E].
  - destruct (Z.even q); [ left | right ]; lia.
  - left; lia.
  - right; lia.
Qed.

Lemma rne_exact a k : 0 <= k -> (2 ^ k | a) -> rne a k * 2 ^ k = a.
Proof.
  intros Hk Hd. pose proof (pow2_pos k Hk) as Hp.
  unfold rne.
  assert (Hr : a mod 2 ^ k = 0) by (apply Z.mod_divide; [ lia | exact Hd ]).
  rewrite Hr.
  destruct (Z.compare_spec (2 * 0) (2 ^ k)) as [E | E | E]; try lia.
  pose proof (Z.div_mod a (2 ^ k) ltac:(lia)). lia.
Qed.

Lemma rne_mono a b k : 0 <= k -> a <= b -> rne a k <= rne b k.
Proof.
  intros Hk Hab. pose proof (pow2_pos k Hk) as Hp.
  pose proof (Z.div_le_mono a b (2 ^ k) Hp Hab) as Hq.
  destruct (rne_cases a k Hk) as (Ea & Ra & Ca).
  destruct (rne_cases b k Hk) as (Eb & Rb & Cb).
  destruct (Z.eq_dec (a / 2 ^ k) (b / 2 ^ k)) as [E | E].
  - assert (Hr : a mod 2 ^ k <= b mod 2 ^ k) by (rewrite E in Ea; lia).
    unfold rne. rewrite E.
    destruct (Z.compare_spec (2 * (a mod 2 ^ k)) (2 ^ k));
      destruct (Z.compare_spec (2 * (b mod 2 ^ k)) (2 ^ k));
      destruct (Z.even (b / 2 ^ k)); lia.
  - destruct Ca as [[-> _] | [-> _]], Cb as [[-> _] | [-> _]]; lia.
Qed.

(** ** [rnd] *)

Lemma rnd_0 : rnd 0 = 0.
Proof. reflexivity. Qed.

Lemma rnd_opp n : rnd (- n) = - rnd n.
Proof.
  unfold rnd. rewrite ulpexp_opp, Z.abs_opp, Z.sgn_opp. lia.
Qed.

Lemma rnd_pos n :
  0 <= n -> rnd n = rne n (ulpexp n) * 2 ^ ulpexp n.
Proof.
  intros Hn. unfold rnd. rewrite (Z.abs_eq n Hn).
  destruct (Z.eq_dec n 0) as [-> | Hz]; [ reflexivity | ].
  rewrite Z.sgn_pos by lia. lia.
Qed.

Lemma rnd_abs n : Z.abs (rnd n) = rnd (Z.abs n).
Proof.
  assert (H : forall m, 0 <= m -> 0 <= rnd m).
  { intros m Hm. rewrite (rnd_pos m Hm).
    pose proof (ulpexp_nonneg m) as Hk. pose proof (pow2_pos _ Hk).
    destruct (rne_cases m (ulpexp m) Hk) as (E & R & [[-> _] | [-> _]]);
      pose proof (Z.div_pos m (2 ^ ulpexp m) Hm ltac:(lia)); nia. }
  destruct (Z.abs_spec n) as [[Hn E] | [Hn E]]; rewrite E.
  - apply Z.abs_eq. now apply H.
  - rewrite rnd_opp. specialize (H (- n) ltac:(lia)). rewrite rnd_opp in H. lia.
Qed.

Lemma rnd_nonneg n : 0 <= n -> 0 <= rnd n.
Proof.
  intros Hn. pose proof (rnd_abs n) as H. rewrite (Z.abs_eq n Hn) in H. lia.
Qed.

Lemma rnd_nonpos n : n <= 0 -> rnd n <= 0.
Proof.
  intros Hn. pose proof (rnd_nonneg (- n) ltac:(lia)) as H.
  rewrite rnd_opp in H. lia.
Qed.

Lemma rnd_divide n : (2 ^ ulpexp n | rnd n).
Proof.
  unfold rnd. exists (Z.sgn n * rne (Z.abs n) (ulpexp n)). lia.
Qed.

(** The rounding error is at most half a unit in the last place. *)
Lemma rnd_error n : 2 * Z.abs (rnd n - n) <= 2 ^ ulpexp n.
Proof.
  assert (H : forall m, 0 <= m -> 2 * Z.abs (rnd m - m) <= 2 ^ ulpexp m).
  { intros m Hm. rewrite (rnd_pos m Hm).
    pose proof (ulpexp_nonneg m) as Hk.
    destruct (rne_cases m (ulpexp m) Hk) as (E & R & [[-> C] | [-> C]]); lia. }
  destruct (Z.le_ge_cases 0 n) as [Hn | Hn]; [ now apply H | ].
  specialize (H (- n) ltac:(lia)). rewrite rnd_opp, ulpexp_opp in H. lia.
Qed.

Lemma rnd_id n : F n -> rnd n = n.
Proof.
  assert (H : forall m, 0 <= m -> F m -> rnd m = m).
  { intros m Hm Hf. rewrite (rnd_pos m Hm).
    apply rne_exact; [ apply ulpexp_nonneg | exact Hf ]. }
  intros Hf. destruct (Z.le_ge_cases 0 n) as [Hn | Hn]; [ now apply H | ].
  specialize (H (- n) ltac:(lia) (F_opp _ Hf)). rewrite rnd_opp in H. lia.
Qed.

(** Above the first binade a rounded value stays within its binade,
    upper end included. *)
Lemma rnd_range n :
  0 <= n -> 0 < ulpexp n ->
  2 ^ (52 + ulpexp n) <= rnd n <= 2 ^ (53 + ulpexp n).
Proof.
  intros Hn Hk. rewrite (rnd_pos n Hn).
  pose proof (ulpexp_lower n Hk) as Hl. pose proof (ulpexp_upper n) as Hu.
  rewrite (Z.abs_eq n Hn) in Hl, Hu.
  set (k := ulpexp n) in *.
  assert (Hp : 0 < 2 ^ k) by (apply pow2_pos; lia).
  rewrite !Z.pow_add_r in * by lia.
  destruct (rne_cases n k ltac:(lia)) as (E & R & [[-> C] | [-> C]]).
  - split; [ | nia ].
    assert (2 ^ 52 <= n / 2 ^ k); [ | nia ].
    apply Z.div_le_lower_bound; lia.
  - assert (n / 2 ^ k < 2 ^ 53) by (apply Z.div_lt_upper_bound; lia).
    assert (2 ^ 52 <= n / 2 ^ k) by (apply Z.div_le_lower_bound; lia).
    nia.
Qed.

Lemma rnd_small n : Z.abs n < 2 ^ 53 -> rnd n = n.
Proof. intros H. apply rnd_id, F_small. lia. Qed.

Lemma rnd_F n : F (rnd n).
Proof.
  assert (H : forall m, 0 <= m -> F (rnd m)).
  { intros m Hm.
    destruct (Z.eq_dec (ulpexp m) 0) as [E | E].
    - rewrite rnd_id; unfold F; rewrite E; apply Z.divide_1_l.
    - pose proof (ulpexp_nonneg m).
      pose proof (rnd_range m Hm ltac:(lia)) as [H1 H2].
      apply (F_multiple _ (ulpexp m)); [ lia | apply rnd_divide | ].
      rewrite Z.abs_eq; [ exact H2 | ].
      pose proof (pow2_pos (52 + ulpexp m) ltac:(lia)). lia. }
  destruct (Z.le_ge_cases 0 n) as [Hn | Hn]; [ now apply H | ].
  specialize (H (- n) ltac:(lia)). rewrite rnd_opp in H.
  apply F_opp in H. now rewrite Z.opp_involutive in H.
Qed.

Lemma rnd_mono x y : x <= y -> rnd x <= rnd y.
Proof.
  assert (H : forall a b, 0 <= a <= b -> rnd a <= rnd b).
  { intros a b [Ha Hab].
    pose proof (ulpexp_le_mono a b ltac:(lia)) as Hk.
    destruct (Z.eq_dec (ulpexp a) (ulpexp b)) as [E | E].
    - rewrite (rnd_pos a), (rnd_pos b), E by lia.
      pose proof (pow2_pos (ulpexp b) (ulpexp_nonneg b)).
      pose proof (rne_mono a b (ulpexp b) (ulpexp_nonneg b) Hab). nia.
    - pose proof (ulpexp_nonneg a).
      pose proof (rnd_range b ltac:(lia) ltac:(lia)) as [Hb _].
      assert (Hra : rnd a <= 2 ^ (53 + ulpexp a)).
      { destruct (Z.eq_dec (ulpexp a) 0) as [E0 | E0].
        - pose proof (ulpexp_upper a). rewrite rnd_id; [ lia | ].
          unfold F; rewrite E0; apply Z.divide_1_l.
        - apply rnd_range; lia. }
      pose proof (pow2_le (53 + ulpexp a) (52 + ulpexp b) ltac:(lia)). lia. }
  intros Hxy.
  destruct (Z.le_ge_cases 0 x) as [Hx | Hx].
  - apply H; lia.
  - destruct (Z.le_ge_cases 0 y) as [Hy | Hy].
    + pose proof (rnd_nonpos x Hx). pose proof (rnd_nonneg y Hy). lia.
    + specialize (H (- y) (- x) ltac:(lia)). rewrite !rnd_opp in H. lia.
Qed.

(** No representable integer is nearer to [n] than [rnd n]. *)
Lemma rnd_nearest n f : F f -> Z.abs (rnd n - n) <= Z.abs (f - n).
Proof.
  assert (H : forall m g, 0 <= m -> F g -> Z.abs (rnd m - m) <= Z.abs (g - m)).
  { intros m g Hm Hg.
    destruct (Z.eq_dec (ulpexp m) 0) as [E | E].
    { rewrite rnd_id; [ lia | ]. unfold F; rewrite E; apply Z.divide_1_l. }
    pose proof (ulpexp_nonneg m) as Hk0.
    assert (Hk : 0 < ulpexp m) by lia.
    pose proof (ulpexp_lower m Hk) as Hl. rewrite (Z.abs_eq m Hm) in Hl.
    rewrite (rnd_pos m Hm).
    set (k := ulpexp m) in *.
    assert (Hp : 0 < 2 ^ k) by (apply pow2_pos; lia).
    destruct (rne_cases m k ltac:(lia)) as (Em & R & C).
    set (q := m / 2 ^ k) in *. set (r := m mod 2 ^ k) in *.
    assert (Hq : 2 ^ 52 <= q).
    { apply Z.div_le_lower_bound; [ lia | ].
      rewrite Z.pow_add_r in Hl by lia. lia. }
    (* g is not strictly between q*2^k and (q+1)*2^k *)
    assert (Hout : g <= q * 2 ^ k \/ (q + 1) * 2 ^ k <= g).
    { destruct (Z.le_gt_cases g (q * 2 ^ k)) as [? | Hlo]; [ now left | right ].
      assert (Hgk : k <= ulpexp g).
      { apply ulpexp_ge; [ lia | ].
        rewrite Z.pow_add_r by lia. rewrite Z.abs_eq by nia. nia. }
      destruct Hg as [c Hc].
      pose proof (pow2_divide k (ulpexp g) ltac:(lia)) as [d Hd].
      rewrite Hd in Hc.
      assert (q < c * d) by nia. nia. }
    destruct C as [[-> C] | [-> C]]; destruct Hout; lia. }
  intros Hf.
  destruct (Z.le_ge_cases 0 n) as [Hn | Hn]; [ now apply H | ].
  specialize (H (- n) (- f) ltac:(lia) (F_opp _ Hf)).
  rewrite rnd_opp in H. lia.
Qed.

(** The relative error is at most [2^-53]. *)
Lemma rnd_rel_error n : 2 ^ 53 * Z.abs (rnd n - n) <= Z.abs n.
Proof.
  destruct (Z.eq_dec (ulpexp n) 0) as [E | E].
  - rewrite rnd_id; [ lia | ]. unfold F; rewrite E; apply Z.divide_1_l.
  - pose proof (ulpexp_nonneg n).
    pose proof (ulpexp_lower n ltac:(lia)) as Hl.
    pose proof (rnd_error n) as He.
    rewrite Z.pow_add_r in Hl by lia.
    pose proof (pow2_pos (ulpexp n) ltac:(lia)).
    change (2 ^ 53) with (2 * 2 ^ 52). nia.
Qed.

(** [ulpexp] and divisibility of representable integers *)
Lemma F_divide n k : F n -> 0 <= k <= ulpexp n -> (2 ^ k | n).
Proof.
  intros Hf Hk. apply Z.divide_trans with (2 ^ ulpexp n); [ | exact Hf ].
  now apply pow2_divide.
Qed.

(** A sum of representable integers that is not larger in magnitude than
    one of them, the smaller, is representable (Sterbenz). *)
Lemma F_add_small x y :
  F x -> F y -> Z.abs x <= Z.abs y -> Z.abs (x + y) <= Z.abs x ->
  F (x + y).
Proof.
  intros Hx Hy Hxy Hs.
  apply (F_multiple _ (ulpexp x)).
  - apply ulpexp_nonneg.
  - apply Z.divide_add_r; [ exact Hx | ].
    apply F_divide; [ exact Hy | ].
    split; [ apply ulpexp_nonneg | now apply ulpexp_le_mono ].
  - pose proof (ulpexp_upper x). lia.
Qed.

Lemma F_sub_small x y :
  F x -> F y -> Z.abs x <= Z.abs y -> Z.abs (x - y) <= Z.abs x ->
  F (x - y).
Proof.
  intros Hx Hy Hxy Hs.
  apply (F_add_small x (- y)); [ exact Hx | now apply F_opp | lia | ].
  replace (x + - y) with (x - y) by lia. exact Hs.
Qed.

Lemma F_sub_small_r x y :
  F x -> F y -> Z.abs y <= Z.abs x -> Z.abs (x - y) <= Z.abs y ->
  F (x - y).
Proof.
  intros Hx Hy Hxy Hs.
  replace (x - y) with (- (y - x)) by lia. apply F_opp.
  apply F_sub_small; [ exact Hy | exact Hx | exact Hxy | lia ].
Qed.

(** The rounding error of a sum of representable integers is representable. *)
Lemma F_add_error a b : F a -> F b -> F (a + b - rnd (a + b)).
Proof.
  assert (H : forall a b, F a -> F b -> Z.abs b <= Z.abs a ->
                F (a + b - rnd (a + b))).
  { clear. intros a b Ha Hb Hab.
    destruct (Z.le_gt_cases (ulpexp b) (ulpexp (a + b))) as [Hk | Hk].
    - apply (F_multiple _ (ulpexp b)).
      + apply ulpexp_nonneg.
      + apply Z.divide_sub_r.
        * apply Z.divide_add_r; [ | exact Hb ].
          apply F_divide; [ exact Ha | ].
          split; [ apply ulpexp_nonneg | now apply ulpexp_le_mono ].
        * apply Z.divide_trans with (2 ^ ulpexp (a + b)); [ | apply rnd_divide ].
          apply pow2_divide. split; [ apply ulpexp_nonneg | exact Hk ].
      + pose proof (rnd_nearest (a + b) a Ha).
        pose proof (ulpexp_upper b). lia.
    - assert (Hf : F (a + b)).
      { apply (F_multiple _ (ulpexp b)).
        - apply ulpexp_nonneg.
        - apply Z.divide_add_r; [ | exact Hb ].
          apply F_divide; [ exact Ha | ].
          split; [ apply ulpexp_nonneg | now apply ulpexp_le_mono ].
        - pose proof (ulpexp_upper (a + b)).
          pose proof (ulpexp_nonneg (a + b)).
          pose proof (pow2_le (53 + ulpexp (a + b)) (53 + ulpexp b) ltac:(lia)).
          lia. }
      rewrite (rnd_id _ Hf). replace (a + b - (a + b)) with 0 by lia.
      apply F_0. }
  intros Ha Hb.
  destruct (Z.le_ge_cases (Z.abs b) (Z.abs a)) as [Hab | Hab].
  - now apply H.
  - replace (a + b) with (b + a) by lia. now apply H.
Qed.

(** Halving an even representable integer of at least 53 bits keeps it
    representable. *)
Lemma F_half a : F a -> 2 ^ 53 <= Z.abs a -> exists h, a = 2 * h /\ F h.
Proof.
  intros Ha Hl.
  assert (Hk : 1 <= ulpexp a) by (apply ulpexp_ge; [ lia | exact Hl ]).
  pose proof (ulpexp_upper a) as Hu.
  destruct Ha as [c Hc]. revert Hc Hu.
  set (k := ulpexp a) in *. intros Hc Hu.
  assert (E2 : 2 ^ k = 2 * 2 ^ (k - 1)).
  { replace k with (1 + (k - 1)) at 1 by lia. now rewrite Z.pow_add_r by lia. }
  assert (E53 : 2 ^ (53 + k) = 2 * 2 ^ (53 + (k - 1))).
  { replace (53 + k) with (1 + (53 + (k - 1))) by lia.
    now rewrite Z.pow_add_r by lia. }
  exists (c * 2 ^ (k - 1)). split; [ lia | ].
  apply (F_multiple _ (k - 1)); [ lia | exists c; reflexivity | lia ].
Qed.

(** First step of Fast2Sum: when [|b| <= |a|], the difference between the
    rounded sum and [a] is representable. *)
Lemma F_fast2sum a b :
  F a -> F b -> Z.abs b <= Z.abs a -> F (rnd (a + b) - a).
Proof.
  assert (H : forall a b, 0 <= a -> F a -> F b -> Z.abs b <= a ->
                F (rnd (a + b) - a)).
  { clear. intros a b Ha0 Ha Hb Hab.
    destruct (Z.le_ge_cases 0 b) as [Hb0 | Hb0].
    - (* b >= 0: a <= s <= 2a *)
      pose proof (rnd_mono a (a + b) ltac:(lia)) as H1.
      rewrite (rnd_id a Ha) in H1.
      assert (H2 : rnd (a + b) <= 2 * a).
      { pose proof (rnd_mono (a + b) (a * 2 ^ 1) ltac:(change (2 ^ 1) with 2; lia)) as H2.
        rewrite (rnd_id (a * 2 ^ 1)) in H2 by (apply F_pow2_mul; [ lia | exact Ha ]).
        change (2 ^ 1) with 2 in H2. lia. }
      apply F_sub_small_r; [ apply rnd_F | exact Ha | lia | lia ].
    - (* b < 0 *)
      destruct (Z.lt_ge_cases a (2 ^ 53)) as [Hs | Hs].
      { (* everything below 2^53: exact *)
        rewrite rnd_small by lia. apply F_small. lia. }
      destruct (Z.le_gt_cases (a + b) (- b)) as [Hc | Hc].
      + (* |a + b| <= |b|: the sum is exact *)
        assert (Hf : F (a + b)).
        { replace (a + b) with (b + a) by lia.
          apply F_add_small; [ exact Hb | exact Ha | lia | lia ]. }
        rewrite (rnd_id _ Hf). replace (a + b - a) with b by lia. exact Hb.
      + (* a + b > |b|, so a + b > a / 2 *)
        assert (H2a : 2 ^ 53 <= Z.abs a) by lia.
        destruct (F_half a Ha H2a) as (h & Eh & Hh).
        pose proof (rnd_mono h (a + b) ltac:(lia)) as H1.
        rewrite (rnd_id h Hh) in H1.
        pose proof (rnd_mono (a + b) a ltac:(lia)) as H2.
        rewrite (rnd_id a Ha) in H2.
        apply F_sub_small; [ apply rnd_F | exact Ha | lia | lia ]. }
  intros Ha Hb Hab.
  destruct (Z.le_ge_cases 0 a) as [Ha0 | Ha0].
  - apply H; [ exact Ha0 | exact Ha | exact Hb | lia ].
  - specialize (H (- a) (- b) ltac:(lia) (F_opp _ Ha) (F_opp _ Hb) ltac:(lia)).
    replace (- a + - b) with (- (a + b)) in H by lia.
    rewrite rnd_opp in H. apply F_opp in H.
    replace (- (- rnd (a + b) - - a)) with (rnd (a + b) - a) in H by lia.
    exact H.
Qed.

(** ** Fast2Sum and 2Sum on scaled integers *)

Theorem Z_quick_two_sum a b :
  F a -> F b -> Z.abs b <= Z.abs a ->
  let s := rnd (a + b) in
  rnd (s - a) = s - a /\ rnd (b - rnd (s - a)) = a + b - s.
Proof.
  intros Ha Hb Hab s.
  assert (E : rnd (s - a) = s - a) by (apply rnd_id, F_fast2sum; assumption).
  split; [ exact E | ].
  rewrite E. replace (b - (s - a)) with (a + b - s) by lia.
  apply rnd_id, F_add_error; assumption.
Qed.

Theorem Z_two_sum a b :
  F a -> F b ->
  let s := rnd (a + b) in
  let bb := rnd (s - a) in
  let t1 := rnd (s - bb) in
  let t2 := rnd (a - t1) in
  let t3 := rnd (b - bb) in
  t1 = s - bb /\ t2 = a - t1 /\ t3 = b - bb /\
  rnd (t2 + t3) = a + b - s.
Proof.
  intros Ha Hb s bb t1 t2 t3.
  pose proof (F_add_error a b Ha Hb) as Hd. fold s in Hd.
  destruct (Z.le_gt_cases (Z.abs b) (Z.abs a)) as [Hab | Hab].
  - (* |b| <= |a| *)
    assert (Ebb : bb = s - a) by (apply rnd_id, F_fast2sum; assumption).
    assert (E1 : t1 = a).
    { unfold t1. rewrite Ebb. replace (s - (s - a)) with a by lia.
      now apply rnd_id. }
    assert (E2 : t2 = 0).
    { unfold t2. rewrite E1, Z.sub_diag. apply rnd_0. }
    assert (E3 : t3 = a + b - s).
    { unfold t3. rewrite Ebb. replace (b - (s - a)) with (a + b - s) by lia.
      now apply rnd_id. }
    repeat split; try lia.
    rewrite E2, E3. now apply rnd_id.
  - destruct (Z.le_gt_cases (Z.abs (a + b)) (Z.abs a)) as [Hs | Hs].
    + (* massive cancellation: the sum is exact *)
      assert (Es : s = a + b).
      { apply rnd_id. apply F_add_small; [ exact Ha | exact Hb | lia | exact Hs ]. }
      assert (Ebb : bb = b).
      { unfold bb. rewrite Es. replace (a + b - a) with b by lia.
        now apply rnd_id. }
      assert (E1 : t1 = a).
      { unfold t1. rewrite Ebb, Es. replace (a + b - b) with a by lia.
        now apply rnd_id. }
      assert (E2 : t2 = 0).
      { unfold t2. rewrite E1, Z.sub_diag. apply rnd_0. }
      assert (E3 : t3 = 0).
      { unfold t3. rewrite Ebb, Z.sub_diag. apply rnd_0. }
      repeat split; try lia.
      rewrite E2, E3. simpl. rewrite rnd_0. lia.
    + (* |a| < |a + b| and |a| < |b| *)
      assert (Hsa : Z.abs a <= Z.abs s).
      { unfold s. rewrite rnd_abs.
        pose proof (rnd_mono (Z.abs a) (Z.abs (a + b)) ltac:(lia)) as H.
        rewrite (rnd_id (Z.abs a)) in H by (apply (proj1 (F_abs a)); exact Ha).
        exact H. }
      assert (Hfs : F s) by apply rnd_F.
      assert (E1 : t1 = s - bb).
      { apply rnd_id.
        pose proof (F_fast2sum s (- a) Hfs (F_opp _ Ha) ltac:(lia)) as H.
        replace (s + - a) with (s - a) in H by lia. fold bb in H.
        apply F_opp in H. now replace (- (bb - s)) with (s - bb) in H by lia. }
      assert (E2 : t2 = a - t1).
      { apply rnd_id. rewrite E1.
        pose proof (F_add_error s (- a) Hfs (F_opp _ Ha)) as H.
        replace (s + - a) with (s - a) in H by lia. fold bb in H.
        apply F_opp in H.
        now replace (- (s - a - bb)) with (a - (s - bb)) in H by lia. }
      assert (E3 : t3 = b - bb).
      { apply rnd_id.
        pose proof (rnd_rel_error (a + b)) as Rd. fold s in Rd.
        pose proof (rnd_rel_error (s - a)) as Re. fold bb in Re.
        change (2 ^ 53) with 9007199254740992 in Rd, Re.
        destruct (Z.le_ge_cases (Z.abs b) (Z.abs bb)) as [Hc | Hc].
        - apply F_sub_small; [ exact Hb | apply rnd_F | exact Hc | lia ].
        - apply F_sub_small_r; [ exact Hb | apply rnd_F | exact Hc | lia ]. }
      repeat split; try assumption.
      rewrite E2, E3, E1.
      replace (a - (s - bb) + (b - bb)) with (a + b - s) by lia.
      now apply rnd_id.
Qed.

(** ** The value of a double *)

Lemma fexp_eq k : fexp prec emax k = Z.max (k - 53) (-1074).
Proof. reflexivity. Qed.

Lemma digits2_pos_size m : digits2_pos m = Pos.size m.
Proof. induction m as [m IH | m IH | ]; simpl; now rewrite ?IH. Qed.

Lemma digits2_log2 m : Zpos (digits2_pos m) = Z.log2 (Zpos m) + 1.
Proof.
  rewrite digits2_pos_size.
  destruct m as [m | m | ]; simpl; try reflexivity; lia.
Qed.

Lemma log2_scaled m j : 0 <= j -> Z.log2 (Zpos m * 2 ^ j) = Z.log2 (Zpos m) + j.
Proof. intros Hj. rewrite Z.log2_mul_pow2; lia. Qed.

Lemma ulpexp_scaled m e :
  -1074 <= e ->
  ulpexp (Zpos m * 2 ^ (e + 1074))
  = fexp prec emax (Zpos (digits2_pos m) + e) + 1074.
Proof.
  intros He. unfold ulpexp. rewrite fexp_eq, digits2_log2.
  assert (Hp : 0 < 2 ^ (e + 1074)) by (apply pow2_pos; lia).
  rewrite Z.abs_eq by nia. rewrite log2_scaled by lia. lia.
Qed.

Lemma valid_finite s m e :
  valid (S754_finite s m e) = true <->
  fexp prec emax (Zpos (digits2_pos m) + e) = e /\ e <= 971.
Proof.
  unfold valid, valid_binary, bounded, canonical_mantissa.
  rewrite andb_true_iff, Z.eqb_eq, Z.leb_le. reflexivity.
Qed.

Lemma valid_exponent s m e : valid (S754_finite s m e) = true -> -1074 <= e <= 971.
Proof. rewrite valid_finite, fexp_eq. lia. Qed.

Lemma V_cond_Zopp s n : Z.abs (cond_Zopp s n) = Z.abs n.
Proof. destruct s; simpl; lia. Qed.

Lemma ulpexp_cond_Zopp s n : ulpexp (cond_Zopp s n) = ulpexp n.
Proof. destruct s; simpl; [ apply ulpexp_opp | reflexivity ]. Qed.

Lemma ulpexp_V s m e :
  valid (S754_finite s m e) = true -> ulpexp (V (S754_finite s m e)) = e + 1074.
Proof.
  intros Hv. pose proof (valid_exponent _ _ _ Hv) as He.
  apply valid_finite in Hv as [Hc _].
  unfold V. rewrite ulpexp_cond_Zopp, ulpexp_scaled by lia. lia.
Qed.

Lemma F_V x : valid x = true -> F (V x).
Proof.
  destruct x as [s | s | | s m e]; intros Hv; try apply F_0.
  unfold F. rewrite (ulpexp_V _ _ _ Hv). unfold V.
  exists (cond_Zopp s (Zpos m)). unfold cond_Zopp. destruct s; lia.
Qed.

Lemma V_bound x : valid x = true -> Z.abs (V x) < 2 ^ 2098.
Proof.
  destruct x as [s | s | | s m e]; intros Hv; try reflexivity.
  pose proof (ulpexp_upper (V (S754_finite s m e))) as Hu.
  rewrite (ulpexp_V _ _ _ Hv) in Hu.
  pose proof (valid_exponent _ _ _ Hv).
  eapply Z.lt_le_trans; [ exact Hu | apply pow2_le; lia ].
Qed.

(** ** The shift-and-round of [SpecFloat] computes [rne] *)

Lemma shr_1_spec m r s :
  0 <= m ->
  shr_1 {| shr_m := m; shr_r := r; shr_s := s |}
  = {| shr_m := m / 2; shr_r := Z.odd m; shr_s := r || s |}.
Proof.
  intros Hm. rewrite <- Z.div2_div.
  destruct m as [ | [p | p | ] | p]; try reflexivity. lia.
Qed.

Lemma iter_pos_nat {A : Type} (f : A -> A) (p : positive) (x : A) :
  iter_pos f p x = Nat.iter (Pos.to_nat p) f x.
Proof.
  revert x. induction p as [p IH | p IH | ]; intros x; simpl iter_pos.
  - rewrite !IH, Pos2Nat.inj_xI.
    replace (S (2 * Pos.to_nat p))%nat with (Pos.to_nat p + S (Pos.to_nat p))%nat by lia.
    rewrite Nat.iter_add. f_equal. now rewrite Nat.iter_succ_r.
  - rewrite !IH, Pos2Nat.inj_xO.
    replace (2 * Pos.to_nat p)%nat with (Pos.to_nat p + Pos.to_nat p)%nat by lia.
    now rewrite Nat.iter_add.
  - reflexivity.
Qed.

Lemma iter_shr_1 (n : nat) (N0 : Z) :
  0 <= N0 ->
  let rec := Nat.iter n shr_1 {| shr_m := N0; shr_r := false; shr_s := false |} in
  shr_m rec = N0 / 2 ^ Z.of_nat n /\
  loc_of_shr_record rec = loc_spec (N0 mod 2 ^ Z.of_nat n) (Z.of_nat n).
Proof.
  intros HN. induction n as [ | n IH].
  - simpl. rewrite Z.div_1_r, Z.mod_1_r. split; reflexivity.
  - cbv zeta in *. rewrite Nat2Z.inj_succ. simpl Nat.iter.
    destruct (Nat.iter n shr_1 _) as [m r s]. simpl shr_m in IH.
    destruct IH as [Em El].
    set (k := Z.of_nat n) in *. assert (Hk : 0 <= k) by lia.
    assert (Hp : 0 < 2 ^ k) by (now apply pow2_pos).
    assert (Hm : 0 <= m) by (rewrite Em; apply Z.div_pos; lia).
    rewrite (shr_1_spec m r s Hm). simpl shr_m.
    rewrite Z.pow_succ_r by lia.
    assert (Eqq : N0 / (2 * 2 ^ k) = m / 2).
    { rewrite Em, Z.div_div by lia. f_equal; lia. }
    assert (Er : N0 mod (2 * 2 ^ k) = N0 mod 2 ^ k + 2 ^ k * (m mod 2)).
    { rewrite (Z.mul_comm 2), Z.rem_mul_r by lia. now rewrite Em. }
    split; [ now rewrite Eqq | ].
    rewrite Er.
    pose proof (Z.mod_pos_bound N0 (2 ^ k) Hp) as Hr.
    set (rem := N0 mod 2 ^ k) in *.
    assert (Hrs : r || s = negb (rem =? 0)).
    { revert El. unfold loc_spec.
      destruct (Z.eqb_spec rem 0); destruct r, s; simpl; congruence. }
    rewrite (Zmod_odd m). unfold loc_of_shr_record, loc_spec.
    rewrite Hrs, Z.pow_succ_r by lia.
    destruct (Z.odd m); destruct (Z.eqb_spec rem 0) as [E0 | E0]; simpl negb.
    + rewrite E0. replace (0 + 2 ^ k * 1) with (2 ^ k) by lia.
      destruct (Z.eqb_spec (2 ^ k) 0); [ lia | ].
      now rewrite Z.compare_refl.
    + destruct (Z.eqb_spec (rem + 2 ^ k * 1) 0); [ lia | ].
      f_equal. symmetry. apply Z.compare_gt_iff. lia.
    + rewrite E0. replace (0 + 2 ^ k * 0) with 0 by lia. reflexivity.
    + replace (rem + 2 ^ k * 0) with rem by lia.
      destruct (Z.eqb_spec rem 0); [ lia | ].
      f_equal. symmetry. apply Z.compare_lt_iff. lia.
Qed.

Lemma round_nearest_even_spec N0 n :
  0 <= n ->
  round_nearest_even (N0 / 2 ^ n) (loc_spec (N0 mod 2 ^ n) n) = rne N0 n.
Proof.
  intros Hn. pose proof (pow2_pos n Hn) as Hp.
  unfold loc_spec, rne, round_nearest_even.
  destruct (Z.eqb_spec (N0 mod 2 ^ n) 0) as [E | E].
  - rewrite E. simpl (2 * 0).
    destruct (Z.compare_spec 0 (2 ^ n)) as [H | H | H]; try reflexivity; lia.
  - destruct (2 * (N0 mod 2 ^ n) ?= 2 ^ n); reflexivity.
Qed.

(** Shifting [N0 >= 0] right by [n > 0] bits, then rounding. *)
Lemma shr_round N0 e n :
  0 <= N0 -> 0 < n ->
  let '(mrs, e') := shr {| shr_m := N0; shr_r := false; shr_s := false |} e n in
  e' = e + n /\
  round_nearest_even (shr_m mrs) (loc_of_shr_record mrs) = rne N0 n.
Proof.
  intros HN Hn. destruct n as [ | p | p]; try lia.
  unfold shr. split; [ reflexivity | ].
  rewrite iter_pos_nat.
  destruct (iter_shr_1 (Pos.to_nat p) N0 HN) as [Em El].
  rewrite Em, El, positive_nat_Z. apply round_nearest_even_spec. lia.
Qed.

Lemma shr_none mrs e n : n <= 0 -> shr mrs e n = (mrs, e).
Proof. destruct n; try reflexivity. lia. Qed.

(** ** [binary_round] rounds to nearest even *)

Lemma Zdigits2_log2 z : 0 < z -> Zdigits2 z = Z.log2 z + 1.
Proof.
  destruct z as [ | p | p]; try lia. intros _. simpl Zdigits2.
  apply digits2_log2.
Qed.

Lemma rne_scale a n j :
  0 <= n -> 0 <= j -> rne (a * 2 ^ j) (n + j) = rne a n.
Proof.
  intros Hn Hj. unfold rne.
  pose proof (pow2_pos n Hn) as Hpn. pose proof (pow2_pos j Hj) as Hpj.
  rewrite Z.pow_add_r by lia.
  rewrite Z.div_mul_cancel_r by lia.
  rewrite Z.mul_mod_distr_r by lia.
  assert (E : (2 * (a mod 2 ^ n * 2 ^ j) ?= 2 ^ n * 2 ^ j)
              = (2 * (a mod 2 ^ n) ?= 2 ^ n)).
  { destruct (Z.compare_spec (2 * (a mod 2 ^ n)) (2 ^ n)) as [H | H | H].
    - apply Z.compare_eq_iff. nia.
    - apply Z.compare_lt_iff. nia.
    - apply Z.compare_gt_iff. nia. }
  now rewrite E.
Qed.

Lemma log2_range z k : 0 <= k -> 2 ^ k <= z < 2 ^ (k + 1) -> Z.log2 z = k.
Proof. intros Hk H. apply Z.log2_unique; [ lia | ]. now rewrite Z.add_1_r in H. Qed.

Lemma ulpexp_range z k :
  0 <= k -> 2 ^ (52 + k) <= z < 2 ^ (53 + k) -> ulpexp z = k.
Proof.
  intros Hk H. unfold ulpexp.
  assert (0 < 2 ^ (52 + k)) by (apply pow2_pos; lia).
  rewrite Z.abs_eq by lia.
  rewrite (log2_range z (52 + k)); [ lia | lia | ].
  now replace (52 + k + 1) with (53 + k) by lia.
Qed.

Lemma binary_round_aux_correct s m e :
  -1074 <= e -> e <= fexp prec emax (Zpos (digits2_pos m) + e) ->
  binary_round_aux prec emax s (Zpos m) e loc_Exact
  = encode s (rnd (Zpos m * 2 ^ (e + 1074))).
Proof.
  intros He HE.
  pose proof (ulpexp_scaled m e He) as HK.
  set (P := Zpos m * 2 ^ (e + 1074)) in *.
  set (E := fexp prec emax (Zpos (digits2_pos m) + e)) in *.
  assert (HEmax : E = Z.max (Zpos (digits2_pos m) + e - 53) (-1074))
    by reflexivity.
  assert (Hpe : 0 < 2 ^ (e + 1074)) by (apply pow2_pos; lia).
  assert (HP : 0 < P) by (unfold P; nia).
  unfold binary_round_aux, shr_fexp. simpl Zdigits2. fold E.
  simpl shr_record_of_loc.
  destruct (Z.eq_dec (E - e) 0) as [En | En].
  - (* no shift: the value is representable *)
    rewrite shr_none by lia. simpl shr_m. simpl loc_of_shr_record.
    simpl round_nearest_even. simpl Zdigits2. fold E.
    rewrite shr_none by lia. simpl shr_m.
    assert (HF : F P).
    { unfold F. rewrite HK. exists (Zpos m). unfold P. f_equal. f_equal. lia. }
    rewrite (rnd_id P HF). unfold encode. rewrite HK.
    replace (E + 1074 - 1074) with e by lia.
    replace (P / 2 ^ (E + 1074)) with (Zpos m).
    2:{ unfold P. replace (E + 1074) with (e + 1074) by lia.
        now rewrite Z.div_mul by lia. }
    simpl Z.to_pos.
    change (emax - prec) with 971.
    destruct (Z.leb_spec e 971); destruct (Z.leb_spec (E + 1074) 2045);
      try reflexivity; lia.
  - (* a shift by n = digits - 53 > 0 bits *)
    remember (E - e) as n eqn:Hndef. assert (Hn : 0 < n) by lia.
    pose proof (shr_round (Zpos m) e n ltac:(lia) Hn) as Hs.
    destruct (shr {| shr_m := Z.pos m; shr_r := false; shr_s := false |} e n)
      as [mrs e'].
    destruct Hs as [-> Hr]. rewrite Hr. clear Hr mrs.
    replace (e + n) with E by lia.
    assert (HEd : E = Zpos (digits2_pos m) + e - 53) by lia.
    rewrite digits2_log2 in HEd.
    assert (Hlog : Z.log2 (Zpos m) = 52 + n) by lia.
    pose proof (Z.log2_spec (Zpos m) ltac:(lia)) as [Hm1 Hm2].
    rewrite Hlog in Hm1, Hm2.
    replace (Z.succ (52 + n)) with (53 + n) in Hm2 by lia.
    assert (Hpn : 0 < 2 ^ n) by (apply pow2_pos; lia).
    rewrite !Z.pow_add_r in Hm1, Hm2 by lia.
    destruct (rne_cases (Zpos m) n ltac:(lia)) as (Em & Rm & Cm).
    assert (Hq1 : 2 ^ 52 <= Zpos m / 2 ^ n) by (apply Z.div_le_lower_bound; lia).
    assert (Hq2 : Zpos m / 2 ^ n < 2 ^ 53) by (apply Z.div_lt_upper_bound; lia).
    assert (Hm1r : 2 ^ 52 <= rne (Zpos m) n <= 2 ^ 53) by lia.
    (* the rounded value in terms of [rnd] *)
    assert (Ernd : rnd P = rne (Zpos m) n * 2 ^ (E + 1074)).
    { rewrite (rnd_pos P) by lia. rewrite HK. f_equal.
      unfold P. replace (E + 1074) with (n + (e + 1074)) by lia.
      apply rne_scale; lia. }
    rewrite Ernd. clear Em Rm Cm Hq1 Hq2.
    set (m1 := rne (Zpos m) n) in *.
    assert (HpK : 0 < 2 ^ (E + 1074)) by (apply pow2_pos; lia).
    destruct (Z.eq_dec m1 (2 ^ 53)) as [E53 | E53].
    + (* the mantissa overflows to 2^53: one more shift *)
      rewrite E53. change (2 ^ 53) with (Zpos (Pos.pow 2 53)).
      simpl Zdigits2. rewrite fexp_eq.
      replace (Z.max _ _ - E) with 1
        by (change (Zpos (digits2_pos (2 ^ 53))) with 54; lia).
      unfold shr. simpl iter_pos. simpl shr_m.
      change (Zpos (Pos.pow 2 53)) with (2 ^ 53).
      unfold encode.
      assert (Hu : ulpexp (2 ^ 53 * 2 ^ (E + 1074)) = E + 1074 + 1).
      { apply ulpexp_range; [ lia | ].
        rewrite <- !Z.pow_add_r by lia.
        split; [ apply pow2_le; lia | apply pow2_lt; lia ]. }
      rewrite Hu.
      replace (2 ^ 53 * 2 ^ (E + 1074) / 2 ^ (E + 1074 + 1)) with (2 ^ 52).
      2:{ rewrite (Z.pow_add_r 2 (E + 1074) 1) by lia.
          change (2 ^ 53) with (2 ^ 52 * 2 ^ 1).
          rewrite <- Z.mul_assoc, (Z.mul_comm (2 ^ 1)).
          now rewrite Z.div_mul by lia. }
      change (emax - prec) with 971.
      replace (E + 1074 + 1 - 1074) with (E + 1) by lia.
      destruct (Z.leb_spec (E + 1) 971); destruct (Z.leb_spec (E + 1074 + 1) 2045);
        try reflexivity; lia.
    + (* 53 digits: done *)
      assert (Hd : Zdigits2 m1 = 53).
      { rewrite Zdigits2_log2 by lia.
        rewrite (log2_range m1 52); [ reflexivity | lia | ].
        change (52 + 1) with 53. lia. }
      rewrite Hd, fexp_eq.
      rewrite shr_none by lia. simpl shr_m.
      unfold encode.
      assert (Hu : ulpexp (m1 * 2 ^ (E + 1074)) = E + 1074).
      { apply ulpexp_range; [ lia | ].
        rewrite (Z.pow_add_r 2 52), (Z.pow_add_r 2 53) by lia. nia. }
      rewrite Hu, Z.div_mul by lia.
      change (emax - prec) with 971.
      replace (E + 1074 - 1074) with E by lia.
      destruct m1 as [ | p1 | p1] eqn:Em1; try lia.
      simpl Z.to_pos.
      destruct (Z.leb_spec E 971); destruct (Z.leb_spec (E + 1074) 2045);
        try reflexivity; lia.
Qed.

Lemma iter_xO m d : Zpos (Pos.iter xO m d) = Zpos m * 2 ^ Zpos d.
Proof.
  induction d as [ | d IH] using Pos.peano_ind.
  - simpl. lia.
  - rewrite Pos.iter_succ, Pos2Z.inj_xO, IH, Pos2Z.inj_succ, Z.pow_succ_r by lia.
    lia.
Qed.

(** Aligning a mantissa to a smaller exponent keeps the value. *)
Lemma shl_align_spec m e e' :
  e' <= e ->
  let '(m', e'') := shl_align m e e' in
  e'' = e' /\ Zpos m' = Zpos m * 2 ^ (e - e').
Proof.
  intros H. unfold shl_align.
  destruct (e' - e) as [ | d | d] eqn:E; try lia.
  - replace (e - e') with 0 by lia. split; lia.
  - split; [ reflexivity | ]. rewrite iter_xO. f_equal. f_equal. lia.
Qed.

Lemma shl_align_none m e e' : e <= e' -> shl_align m e e' = (m, e).
Proof.
  intros H. unfold shl_align. destruct (e' - e) eqn:E; try reflexivity. lia.
Qed.

Lemma binary_round_correct s m e :
  -1074 <= e ->
  binary_round prec emax s m e = encode s (rnd (Zpos m * 2 ^ (e + 1074))).
Proof.
  intros He. unfold binary_round.
  set (E := fexp prec emax (Zpos (digits2_pos m) + e)).
  assert (HEmax : E = Z.max (Zpos (digits2_pos m) + e - 53) (-1074))
    by reflexivity.
  destruct (Z.le_gt_cases e E) as [H | H].
  - rewrite shl_align_none by exact H.
    now apply binary_round_aux_correct.
  - pose proof (shl_align_spec m e E ltac:(lia)) as Hs.
    destruct (shl_align m e E) as [mz ez]. destruct Hs as [-> Hmz].
    rewrite binary_round_aux_correct.
    + f_equal. f_equal. rewrite Hmz, <- Z.mul_assoc, <- Z.pow_add_r by lia.
      f_equal. f_equal. lia.
    + lia.
    + rewrite fexp_eq, digits2_log2, Hmz, log2_scaled by lia.
      rewrite digits2_log2 in HEmax. lia.
Qed.

Lemma binary_normalize_correct M e sz :
  -1074 <= e ->
  binary_normalize prec emax M e sz
  = if M =? 0 then S754_zero sz
    else encode (M <? 0) (rnd (Z.abs M * 2 ^ (e + 1074))).
Proof.
  intros He. destruct M as [ | p | p]; simpl binary_normalize.
  - reflexivity.
  - now rewrite binary_round_correct.
  - now rewrite binary_round_correct.
Qed.

(** ** Decoding an encoded value *)

Lemma encode_spec s R :
  0 < R -> F R ->
  (R < 2 ^ 2098 ->
   is_finite (encode s R) = true /\ valid (encode s R) = true /\
   V (encode s R) = cond_Zopp s R) /\
  (2 ^ 2098 <= R -> encode s R = S754_infinity s).
Proof.
  intros HR HF. unfold encode.
  pose proof (ulpexp_nonneg R) as Hk. pose proof (ulpexp_upper R) as Hu.
  rewrite (Z.abs_eq R) in Hu by lia.
  assert (Hkdef : ulpexp R = Z.max 0 (Z.log2 R - 52)).
  { unfold ulpexp. now rewrite Z.abs_eq by lia. }
  set (k := ulpexp R) in *.
  assert (Hpk : 0 < 2 ^ k) by (now apply pow2_pos).
  destruct HF as [c Hc]. fold k in Hc.
  assert (Hc0 : 0 < c) by nia.
  split.
  - intros Hlt.
    assert (Hk2 : k <= 2045).
    { destruct (Z.le_gt_cases k 2045) as [? | Hgt]; [ assumption | exfalso ].
      pose proof (ulpexp_lower R ltac:(fold k; lia)) as Hl. fold k in Hl.
      rewrite (Z.abs_eq R) in Hl by lia.
      pose proof (pow2_le 2098 (52 + k) ltac:(lia)). lia. }
    destruct (Z.leb_spec k 2045) as [_ | ?]; [ | lia ].
    rewrite Hc, Z.div_mul by lia.
    split; [ reflexivity | ].
    assert (Hlog : Z.log2 (Zpos (Z.to_pos c)) + k = Z.log2 R).
    { rewrite Z2Pos.id by lia. rewrite Hc, Z.log2_mul_pow2 by lia. lia. }
    split.
    + apply valid_finite. rewrite fexp_eq, digits2_log2. lia.
    + unfold V. f_equal. rewrite Z2Pos.id by lia. f_equal. f_equal. lia.
  - intros Hge.
    assert (Hk2 : 2045 < k).
    { assert (2046 <= k); [ | lia ].
      apply ulpexp_ge; [ lia | ]. rewrite Z.abs_eq by lia. exact Hge. }
    destruct (Z.leb_spec k 2045); [ lia | reflexivity ].
Qed.

(** ** Addition and subtraction of doubles are the rounded exact ones *)

Lemma rnd_pos_pos n : 0 < n -> 0 < rnd n.
Proof.
  intros H. pose proof (rnd_mono 1 n ltac:(lia)) as H1.
  rewrite (rnd_small 1) in H1 by (simpl; lia). lia.
Qed.

(** Rounding the integer [M * 2^(e+1074)] as [binary_normalize] does. *)
Lemma binary_normalize_spec M e :
  -1074 <= e ->
  let N := M * 2 ^ (e + 1074) in
  let r := binary_normalize prec emax M e false in
  (Z.abs (rnd N) < 2 ^ 2098 ->
   is_finite r = true /\ valid r = true /\ V r = rnd N) /\
  (2 ^ 2098 <= Z.abs (rnd N) -> r = S754_infinity (N <? 0)).
Proof.
  intros He N r. unfold r. rewrite binary_normalize_correct by exact He.
  assert (Hp : 0 < 2 ^ (e + 1074)) by (apply pow2_pos; lia).
  destruct (Z.eqb_spec M 0) as [E | E].
  - subst M. unfold N. simpl. rewrite rnd_0. split; [ | simpl; lia ].
    intros _. repeat split.
  - assert (HN : Z.abs N = Z.abs M * 2 ^ (e + 1074)).
    { unfold N. rewrite Z.abs_mul. f_equal. lia. }
    rewrite <- HN, <- rnd_abs.
    assert (HR : 0 < Z.abs (rnd N)).
    { rewrite rnd_abs. apply rnd_pos_pos. rewrite HN. nia. }
    assert (HF : F (Z.abs (rnd N))) by (apply (proj1 (F_abs _)), rnd_F).
    destruct (encode_spec (M <? 0) _ HR HF) as [H1 H2].
    split.
    + intros Hlt. destruct (H1 Hlt) as (Hf & Hv & HV).
      repeat split; try assumption.
      rewrite HV. unfold cond_Zopp.
      destruct (Z.ltb_spec M 0) as [Hm | Hm].
      * assert (N < 0) by (unfold N; nia).
        pose proof (rnd_nonpos N ltac:(lia)). lia.
      * assert (0 <= N) by (unfold N; nia).
        pose proof (rnd_nonneg N ltac:(lia)). lia.
    + intros Hge. rewrite (H2 Hge). f_equal.
      destruct (Z.ltb_spec M 0); destruct (Z.ltb_spec N 0);
        try reflexivity; unfold N in *; nia.
Qed.

Lemma aligned_value s m e ez :
  ez <= e -> -1074 <= ez ->
  cond_Zopp s (Zpos (fst (shl_align m e ez))) * 2 ^ (ez + 1074)
  = V (S754_finite s m e).
Proof.
  intros H He. pose proof (shl_align_spec m e ez H) as Hs.
  destruct (shl_align m e ez) as [m' e']. destruct Hs as [_ Hm].
  cbn [fst]. unfold V. rewrite Hm.
  replace (e + 1074) with ((e - ez) + (ez + 1074)) by lia.
  rewrite (Z.pow_add_r 2 (e - ez) (ez + 1074)) by lia.
  unfold cond_Zopp. destruct s; ring.
Qed.

Section AddSub.
Variables x y : spec_float.
Hypothesis Hvx : valid x = true.
Hypothesis Hvy : valid y = true.
Hypothesis Hfx : is_finite x = true.
Hypothesis Hfy : is_finite y = true.

Lemma SFadd_spec :
  let N := V x + V y in
  let r := SFadd prec emax x y in
  (Z.abs (rnd N) < 2 ^ 2098 ->
   is_finite r = true /\ valid r = true /\ V r = rnd N) /\
  (2 ^ 2098 <= Z.abs (rnd N) -> r = S754_infinity (N <? 0)).
Proof.
  destruct x as [sx | sx | | sx mx ex], y as [sy | sy | | sy my ey];
    try discriminate Hfx; try discriminate Hfy; cbv zeta.
  - simpl V. simpl Z.add. rewrite rnd_0.
    split; [ | simpl; lia ]. intros _. destruct sx, sy; repeat split.
  - simpl SFadd. change (V (S754_zero sx)) with 0. rewrite Z.add_0_l.
    rewrite (rnd_id _ (F_V _ Hvy)). pose proof (V_bound _ Hvy).
    split; [ intros _; repeat split; assumption | lia ].
  - simpl SFadd. change (V (S754_zero sy)) with 0. rewrite Z.add_0_r.
    rewrite (rnd_id _ (F_V _ Hvx)). pose proof (V_bound _ Hvx).
    split; [ intros _; repeat split; assumption | lia ].
  - pose proof (valid_exponent _ _ _ Hvx) as Hex.
    pose proof (valid_exponent _ _ _ Hvy) as Hey.
    unfold SFadd.
    set (ez := Z.min ex ey).
    pose proof (binary_normalize_spec
                  (cond_Zopp sx (Zpos (fst (shl_align mx ex ez)))
                   + cond_Zopp sy (Zpos (fst (shl_align my ey ez)))) ez
                  ltac:(unfold ez; lia)) as H.
    cbv zeta in H.
    rewrite Z.mul_add_distr_r in H.
    rewrite !aligned_value in H by (unfold ez; lia).
    exact H.
Qed.

Lemma SFsub_spec :
  let N := V x - V y in
  let r := SFsub prec emax x y in
  (Z.abs (rnd N) < 2 ^ 2098 ->
   is_finite r = true /\ valid r = true /\ V r = rnd N) /\
  (2 ^ 2098 <= Z.abs (rnd N) -> r = S754_infinity (N <? 0)).
Proof.
  destruct x as [sx | sx | | sx mx ex], y as [sy | sy | | sy my ey];
    try discriminate Hfx; try discriminate Hfy; cbv zeta.
  - simpl V. simpl Z.sub. rewrite rnd_0.
    split; [ | simpl; lia ]. intros _. destruct sx, sy; repeat split.
  - simpl SFsub. change (V (S754_zero sx)) with 0. rewrite Z.sub_0_l.
    pose proof (F_V _ Hvy) as HF. pose proof (V_bound _ Hvy) as HB.
    rewrite (rnd_id _ (F_opp _ HF)).
    split; [ intros _ | lia ].
    split; [ reflexivity | ]. split.
    + apply valid_finite. now apply valid_finite in Hvy.
    + unfold V. destruct sy; simpl; lia.
  - simpl SFsub. change (V (S754_zero sy)) with 0. rewrite Z.sub_0_r.
    rewrite (rnd_id _ (F_V _ Hvx)). pose proof (V_bound _ Hvx).
    split; [ intros _; repeat split; assumption | lia ].
  - pose proof (valid_exponent _ _ _ Hvx) as Hex.
    pose proof (valid_exponent _ _ _ Hvy) as Hey.
    unfold SFsub.
    set (ez := Z.min ex ey).
    pose proof (binary_normalize_spec
                  (cond_Zopp sx (Zpos (fst (shl_align mx ex ez)))
                   - cond_Zopp sy (Zpos (fst (shl_align my ey ez)))) ez
                  ltac:(unfold ez; lia)) as H.
    cbv zeta in H.
    rewrite Z.mul_sub_distr_r in H.
    rewrite !aligned_value in H by (unfold ez; lia).
    exact H.
Qed.

End AddSub.

(** ** Finite results of additions and subtractions *)

Lemma F_pow2 k : 0 <= k -> F (2 ^ k).
Proof.
  intros Hk. replace (2 ^ k) with (1 * 2 ^ k) by ring.
  apply F_pow2_mul; [ exact Hk | apply F_small; simpl; lia ].
Qed.

Lemma pow2_2098 : 2 ^ 2098 = 2 ^ 53 * 2 ^ 2045.
Proof. now rewrite <- Z.pow_add_r by lia. Qed.

Lemma pow2_2045 : 2 ^ 2045 = 2 * 2 ^ 2044.
Proof. now rewrite <- (Z.pow_succ_r 2 2044) by lia. Qed.

(** The largest representable magnitude below the overflow threshold. *)
Lemma F_le_omega n : F n -> Z.abs n < 2 ^ 2098 -> Z.abs n <= 2 ^ 2098 - 2 ^ 2045.
Proof.
  intros Hf Hn.
  destruct (Z_le_gt_dec (Z.abs n) (2 ^ 2098 - 2 ^ 2045)) as [H | H]; [ exact H | ].
  exfalso.
  assert (Hp : 0 < 2 ^ 2045) by (apply pow2_pos; lia).
  assert (Hl : Z.log2 (Z.abs n) = 2097).
  { apply log2_range; [ lia | ].
    replace (2097 + 1) with 2098 by lia.
    assert (2 ^ 2098 = 2 * 2 ^ 2097) by (now rewrite <- (Z.pow_succ_r 2 2097) by lia).
    assert (2 ^ 2097 = 2 ^ 52 * 2 ^ 2045) by (now rewrite <- Z.pow_add_r by lia).
    assert (E52 : 2 ^ 52 = 4503599627370496) by reflexivity.
    lia. }
  apply (proj1 (F_abs n)) in Hf. unfold F, ulpexp in Hf.
  rewrite Z.abs_idemp, Hl in Hf.
  replace (Z.max 0 (2097 - 52)) with 2045 in Hf by lia.
  destruct Hf as [q Hq].
  pose proof pow2_2098 as E.
  assert (E53 : 2 ^ 53 = 9007199254740992) by reflexivity.
  rewrite Hq, E in *. nia.
Qed.

Lemma rnd_lt_omega n : Z.abs (rnd n) < 2 ^ 2098 -> Z.abs n < 2 ^ 2098.
Proof.
  intros H.
  destruct (Z_lt_le_dec (Z.abs n) (2 ^ 2098)) as [Hlt | Hge]; [ exact Hlt | ].
  exfalso. rewrite rnd_abs in H.
  pose proof (rnd_mono _ _ Hge) as Hm.
  rewrite (rnd_id (2 ^ 2098)) in Hm by (apply F_pow2; lia). lia.
Qed.

Lemma half_ulp_omega n : Z.abs n < 2 ^ 2098 -> Z.abs (rnd n - n) <= 2 ^ 2044.
Proof.
  intros H. pose proof (rnd_error n) as He.
  assert (Hk : ulpexp n <= 2045) by (apply ulpexp_bound; [ lia | exact H ]).
  pose proof (pow2_le (ulpexp n) 2045 (conj (ulpexp_nonneg n) Hk)).
  pose proof pow2_2045. lia.
Qed.

Lemma rnd_bound_omega n : Z.abs n <= 2 ^ 2098 - 2 ^ 2044 - 1 -> Z.abs (rnd n) < 2 ^ 2098.
Proof.
  intros H.
  assert (Hp : 0 < 2 ^ 2044) by (apply pow2_pos; lia).
  assert (Hb : 2 ^ 2098 - 2 ^ 2045 <= 2 ^ 2098 - 2 ^ 2044 - 1).
  { pose proof pow2_2045. lia. }
  rewrite rnd_abs.
  assert (Hf : F (2 ^ 2098 - 2 ^ 2045)).
  { apply (F_multiple _ 2045); [ lia | | ].
    - exists (2 ^ 53 - 1). rewrite pow2_2098. ring.
    - rewrite Z.abs_eq.
      + replace (53 + 2045) with 2098 by lia. pose proof pow2_2045. lia.
      + rewrite pow2_2098. assert (0 < 2 ^ 53) by reflexivity.
        pose proof (pow2_pos 2045 ltac:(lia)). nia. }
  destruct (Z_le_gt_dec (Z.abs n) (2 ^ 2098 - 2 ^ 2045)) as [Hle | Hgt].
  - pose proof (rnd_mono _ _ Hle) as Hm. rewrite (rnd_id _ Hf) in Hm.
    pose proof pow2_2045. lia.
  - (* strictly between the largest double and the midpoint to 2^2098 *)
    pose proof (rnd_nearest (Z.abs n) _ Hf) as Hn.
    pose proof (rnd_mono _ _ (Z.lt_le_incl _ _ (Z.gt_lt _ _ Hgt))) as Hm.
    rewrite (rnd_id _ Hf) in Hm.
    pose proof pow2_2045. lia.
Qed.

Section FiniteOps.
Variables x y : double.
Hypothesis Hvx : valid x = true.
Hypothesis Hvy : valid y = true.
Hypothesis Hfx : is_finite x = true.
Hypothesis Hfy : is_finite y = true.

Lemma add_bounded :
  Z.abs (rnd (V x + V y)) < 2 ^ 2098 ->
  is_finite (x + y)%D = true /\ valid (x + y)%D = true /\
  V (x + y)%D = rnd (V x + V y).
Proof. exact (proj1 (SFadd_spec x y Hvx Hvy Hfx Hfy)). Qed.

Lemma sub_bounded :
  Z.abs (rnd (V x - V y)) < 2 ^ 2098 ->
  is_finite (x - y)%D = true /\ valid (x - y)%D = true /\
  V (x - y)%D = rnd (V x - V y).
Proof. exact (proj1 (SFsub_spec x y Hvx Hvy Hfx Hfy)). Qed.

Lemma add_overflow :
  is_finite (x + y)%D = false -> (x + y)%D = S754_infinity (V x + V y <? 0).
Proof.
  intros H.
  destruct (Z_lt_le_dec (Z.abs (rnd (V x + V y))) (2 ^ 2098)) as [Hlt | Hge].
  - destruct (add_bounded Hlt) as [Hf _]. rewrite Hf in H. discriminate H.
  - exact (proj2 (SFadd_spec x y Hvx Hvy Hfx Hfy) Hge).
Qed.

Lemma sub_overflow :
  is_finite (x - y)%D = false -> (x - y)%D = S754_infinity (V x - V y <? 0).
Proof.
  intros H.
  destruct (Z_lt_le_dec (Z.abs (rnd (V x - V y))) (2 ^ 2098)) as [Hlt | Hge].
  - destruct (sub_bounded Hlt) as [Hf _]. rewrite Hf in H. discriminate H.
  - exact (proj2 (SFsub_spec x y Hvx Hvy Hfx Hfy) Hge).
Qed.

Lemma add_finite :
  is_finite (x + y)%D = true ->
  valid (x + y)%D = true /\ V (x + y)%D = rnd (V x + V y) /\
  Z.abs (rnd (V x + V y)) < 2 ^ 2098.
Proof.
  intros H.
  destruct (Z_lt_le_dec (Z.abs (rnd (V x + V y))) (2 ^ 2098)) as [Hlt | Hge].
  - destruct (add_bounded Hlt) as (_ & Hv & HV). now repeat split.
  - unfold add in H.
    rewrite (proj2 (SFadd_spec x y Hvx Hvy Hfx Hfy) Hge) in H. discriminate H.
Qed.

Lemma sub_finite :
  is_finite (x - y)%D = true ->
  valid (x - y)%D = true /\ V (x - y)%D = rnd (V x - V y) /\
  Z.abs (rnd (V x - V y)) < 2 ^ 2098.
Proof.
  intros H.
  destruct (Z_lt_le_dec (Z.abs (rnd (V x - V y))) (2 ^ 2098)) as [Hlt | Hge].
  - destruct (sub_bounded Hlt) as (_ & Hv & HV). now repeat split.
  - unfold sub in H.
    rewrite (proj2 (SFsub_spec x y Hvx Hvy Hfx Hfy) Hge) in H. discriminate H.
Qed.

End FiniteOps.

(** Doubles of equal value compare equal. *)
Lemma V_eq_eqb x y :
  valid x = true -> valid y = true -> is_finite x = true -> is_finite y = true ->
  V x = V y -> (x == y)%D = true.
Proof.
  intros Hvx Hvy Hfx Hfy HV.
  destruct x as [sx | sx | | sx mx ex], y as [sy | sy | | sy my ey];
    try discriminate Hfx; try discriminate Hfy.
  - reflexivity.
  - exfalso. unfold V, cond_Zopp in HV.
    pose proof (valid_exponent _ _ _ Hvy).
    pose proof (pow2_pos (ey + 1074) ltac:(lia)).
    pose proof (Pos2Z.is_pos my).
    destruct sy; nia.
  - exfalso. unfold V, cond_Zopp in HV.
    pose proof (valid_exponent _ _ _ Hvx).
    pose proof (pow2_pos (ex + 1074) ltac:(lia)).
    pose proof (Pos2Z.is_pos mx).
    destruct sx; nia.
  - pose proof (valid_exponent _ _ _ Hvx) as Hex.
    pose proof (valid_exponent _ _ _ Hvy) as Hey.
    pose proof (ulpexp_V _ _ _ Hvx) as Ux.
    pose proof (ulpexp_V _ _ _ Hvy) as Uy.
    rewrite HV in Ux. rewrite Ux in Uy.
    assert (Hee : ex = ey) by lia. subst ey.
    pose proof (pow2_pos (ex + 1074) ltac:(lia)) as Hp.
    unfold V, cond_Zopp in HV.
    pose proof (Pos2Z.is_pos mx). pose proof (Pos2Z.is_pos my).
    assert (Hs : sx = sy).
    { destruct sx, sy; try reflexivity; nia. }
    subst sy.
    assert (Hm : mx = my).
    { destruct sx; apply Pos2Z.inj; nia. }
    subst my.
    unfold eqb, SFeqb, SFcompare.
    rewrite Z.compare_refl.
    change (Pos.compare_cont Eq mx mx) with (Pos.compare mx mx).
    rewrite Pos.compare_refl. now destruct sx.
Qed.

(** ** The error-free sums [two_sum] and [quick_two_sum] *)

Lemma ulpexp_rnd_ge n : ulpexp n <= ulpexp (rnd n).
Proof.
  destruct (Z.eq_dec (ulpexp n) 0) as [E | E].
  - rewrite E. apply ulpexp_nonneg.
  - pose proof (ulpexp_nonneg n) as Hk.
    assert (Hk' : 0 < ulpexp (Z.abs n)) by (rewrite ulpexp_abs; lia).
    pose proof (rnd_range (Z.abs n) (Z.abs_nonneg n) Hk') as [Hlo _].
    rewrite ulpexp_abs in Hlo.
    apply ulpexp_ge; [ lia | ]. rewrite rnd_abs. exact Hlo.
Qed.

(** The rounding error of a sum is at most half a unit in the last place
    of the rounded sum. *)
Lemma rnd_half_ulp n : 2 * Z.abs (n - rnd n) <= 2 ^ ulpexp (rnd n).
Proof.
  pose proof (rnd_error n) as He.
  pose proof (pow2_le _ _ (conj (ulpexp_nonneg n) (ulpexp_rnd_ge n))).
  lia.
Qed.

Section TwoSum.
Variables a b : double.
Hypothesis Hva : valid a = true.
Hypothesis Hvb : valid b = true.
Hypothesis Hfa : is_finite a = true.
Hypothesis Hfb : is_finite b = true.

Lemma two_sum_finite :
  is_finite (a + b)%D = true -> is_finite ((a + b) - a)%D = true ->
  let err := snd (qd.two_sum a b) in
  is_finite err = true /\ valid err = true /\
  V err = V a + V b - V (a + b)%D.
Proof.
  intros Hfs Hfbb.
  destruct (add_finite a b Hva Hvb Hfa Hfb Hfs) as (Hvs & HVs & Hbs).
  destruct (sub_finite _ a Hvs Hva Hfs Hfa Hfbb) as (Hvbb & HVbb & Hbbb).
  pose proof (Z_two_sum (V a) (V b) (F_V a Hva) (F_V b Hvb)) as HZ.
  cbv zeta in HZ. rewrite <- HVs in HZ. rewrite <- HVbb in HZ.
  destruct HZ as (T1 & T2 & T3 & T4).
  pose proof (half_ulp_omega _ (rnd_lt_omega _ Hbs)) as Hd.
  pose proof (half_ulp_omega _ (rnd_lt_omega _ Hbbb)) as He.
  rewrite <- HVs in Hd. rewrite <- HVbb in He.
  pose proof (F_le_omega _ (F_V a Hva) (V_bound a Hva)) as Ha.
  pose proof pow2_2045 as E45. pose proof pow2_2098 as E98.
  assert (Hp : 0 < 2 ^ 2044) by (apply pow2_pos; lia).
  assert (E53 : 2 ^ 53 = 9007199254740992) by reflexivity.
  destruct (sub_bounded (a + b)%D ((a + b) - a)%D Hvs Hvbb Hfs Hfbb)
    as (Hf1 & Hv1 & HV1); [ rewrite T1; lia | ].
  destruct (sub_bounded a ((a + b) - ((a + b) - a))%D Hva Hv1 Hfa Hf1)
    as (Hf2 & Hv2 & HV2); [ rewrite HV1, T2, T1; lia | ].
  destruct (sub_bounded b ((a + b) - a)%D Hvb Hvbb Hfb Hfbb)
    as (Hf3 & Hv3 & HV3); [ rewrite T3; lia | ].
  destruct (add_bounded _ _ Hv2 Hv3 Hf2 Hf3) as (Hf4 & Hv4 & HV4).
  { rewrite HV2, HV3, HV1, T4. lia. }
  unfold qd.two_sum. cbv zeta. unfold snd.
  repeat split; [ exact Hf4 | exact Hv4 | ].
  rewrite HV4, HV2, HV3, HV1, T4. ring.
Qed.

Lemma two_sum_intermediate_overflow :
  is_finite (a + b)%D = true -> is_finite ((a + b) - a)%D = false ->
  snd (qd.two_sum a b) = S754_nan.
Proof.
  intros Hfs Hfbb.
  destruct (add_finite a b Hva Hvb Hfa Hfb Hfs) as (Hvs & _).
  pose proof (sub_overflow _ a Hvs Hva Hfs Hfa Hfbb) as Hbb.
  unfold qd.two_sum. cbv zeta. unfold snd. rewrite Hbb.
  destruct (a + b)%D as [ss | ss | | ss ms es]; try discriminate Hfs;
    destruct a as [sa | sa | | sa ma ea]; try discriminate Hfa;
    destruct b as [sb | sb | | sb mb eb]; try discriminate Hfb;
    destruct (_ <? 0); reflexivity.
Qed.

End TwoSum.

(** C2 (amended).  For finite doubles [a] and [b] whose rounded sum
    [s = fl(a+b)] is finite, [two_sum] returns [s]; when the intermediate
    [fl(s - a)] is finite as well, [err] is finite, [s + err] is the
    exact [a + b], and [|err| <= ulp(s)/2]; when that intermediate
    overflows, [err] is NaN. *)
Theorem two_sum_exact (a b : double) :
  valid a = true -> valid b = true ->
  is_finite a = true -> is_finite b = true ->
  let s := fst (qd.two_sum a b) in
  let err := snd (qd.two_sum a b) in
  is_finite s = true ->
  s = (a + b)%D /\ V s = rnd (V a + V b) /\
  (is_finite (s - a)%D = true ->
   is_finite err = true /\ V s + V err = V a + V b /\
   2 * Z.abs (V err) <= ulp s) /\
  (is_finite (s - a)%D = false -> err = S754_nan).
Proof.
  intros Hva Hvb Hfa Hfb s err Hfs.
  change s with (a + b)%D in *.
  destruct (add_finite a b Hva Hvb Hfa Hfb Hfs) as (Hvs & HVs & Hbs).
  split; [ reflexivity | ]. split; [ exact HVs | ]. split.
  - intros Hfbb.
    destruct (two_sum_finite a b Hva Hvb Hfa Hfb Hfs Hfbb) as (Hfe & Hve & HVe).
    fold err in Hfe, Hve, HVe.
    split; [ exact Hfe | ]. split; [ rewrite HVe; ring | ].
    unfold ulp. rewrite HVe, HVs. apply rnd_half_ulp.
  - intros Hfbb. exact (two_sum_intermediate_overflow a b Hva Hvb Hfa Hfb Hfs Hfbb).
Qed.

Lemma two_sum_exact_witness :
  V (fst (qd.two_sum d_one _eps)) + V (snd (qd.two_sum d_one _eps))
  = V d_one + V _eps.
Proof.
  destruct (two_sum_exact d_one _eps eq_refl eq_refl eq_refl eq_refl eq_refl)
    as (_ & _ & H & _).
  exact (proj1 (proj2 (H eq_refl))).
Defined.

(** C2, as stated, fails: the rounded sum of [-0x1.8p+971] and the largest
    double is finite, but [fl(s - a)] overflows and [err] is NaN. *)
Lemma two_sum_overflow_counterexample :
  ~ (forall a b : double,
       valid a = true -> valid b = true ->
       is_finite a = true -> is_finite b = true ->
       is_finite (a + b)%D = true ->
       is_nan (snd (qd.two_sum a b)) = false /\
       V (fst (qd.two_sum a b)) + V (snd (qd.two_sum a b)) = V a + V b).
Proof.
  intro H.
  destruct (H (S754_finite true 6755399441055744 919) DBL_MAX
              eq_refl eq_refl eq_refl eq_refl eq_refl) as [Hn _].
  vm_compute in Hn. discriminate Hn.
Qed.

Section QuickTwoSum.
Variables a b : double.
Hypothesis Hva : valid a = true.
Hypothesis Hvb : valid b = true.
Hypothesis Hfa : is_finite a = true.
Hypothesis Hfb : is_finite b = true.
Hypothesis Hab : Z.abs (V b) <= Z.abs (V a).

Lemma quick_two_sum_finite :
  is_finite (a + b)%D = true ->
  let err := snd (qd.quick_two_sum a b) in
  is_finite err = true /\ valid err = true /\
  V err = V a + V b - V (a + b)%D.
Proof.
  intros Hfs.
  destruct (add_finite a b Hva Hvb Hfa Hfb Hfs) as (Hvs & HVs & Hbs).
  pose proof (Z_quick_two_sum (V a) (V b) (F_V a Hva) (F_V b Hvb) Hab) as HZ.
  cbv zeta in HZ. rewrite <- HVs in HZ. destruct HZ as (T1 & T2).
  pose proof (half_ulp_omega _ (rnd_lt_omega _ Hbs)) as Hd.
  rewrite <- HVs in Hd.
  pose proof (F_le_omega _ (F_V b Hvb) (V_bound b Hvb)) as Hb.
  pose proof pow2_2045 as E45. pose proof pow2_2098 as E98.
  assert (Hp : 0 < 2 ^ 2044) by (apply pow2_pos; lia).
  assert (E53 : 2 ^ 53 = 9007199254740992) by reflexivity.
  destruct (sub_bounded (a + b)%D a Hvs Hva Hfs Hfa)
    as (Hf1 & Hv1 & HV1); [ rewrite T1; lia | ].
  destruct (sub_bounded b ((a + b) - a)%D Hvb Hv1 Hfb Hf1)
    as (Hf2 & Hv2 & HV2); [ rewrite HV1, T2; lia | ].
  unfold qd.quick_two_sum. cbv zeta. unfold snd.
  repeat split; [ exact Hf2 | exact Hv2 | ].
  rewrite HV2, HV1, T2. ring.
Qed.

End QuickTwoSum.

(** A finite rounded sum with its exact rounding error is in normal form. *)
Lemma normal_form_sum (a b s err : double) :
  valid a = true -> valid b = true ->
  is_finite a = true -> is_finite b = true ->
  s = (a + b)%D -> is_finite s = true -> is_finite err = true ->
  V err = V a + V b - V s ->
  normal_form (mk_dd s err) = true.
Proof.
  intros Hva Hvb Hfa Hfb -> Hfs Hfe HVe.
  destruct (add_finite a b Hva Hvb Hfa Hfb Hfs) as (Hvs & HVs & Hbs).
  unfold normal_form; simpl x0; simpl x1.
  rewrite Hfs, Hfe, !andb_true_l, andb_true_iff, Z.leb_le, Z.eqb_eq.
  split.
  - unfold ulp. rewrite HVe, HVs. apply rnd_half_ulp.
  - rewrite HVe. replace (V (a + b)%D + (V a + V b - V (a + b)%D)) with (V a + V b) by ring.
    now rewrite HVs.
Qed.

(** ** Rounding [v + 1/2], then taking the integer part *)

Lemma not_integer_small v :
  F v -> ~ (2 ^ 1074 | v) -> Z.abs v < 2 ^ 1126 /\ ulpexp v <= 1073.
Proof.
  intros Hf Hnd. split.
  - destruct (Z_lt_le_dec (Z.abs v) (2 ^ 1126)) as [H | H]; [ exact H | ].
    exfalso. apply Hnd. apply (F_divide v 1074 Hf). split; [ lia | ].
    apply ulpexp_ge; [ lia | exact H ].
  - destruct (Z_le_gt_dec (ulpexp v) 1073) as [H | H]; [ exact H | ].
    exfalso. apply Hnd. apply (F_divide v 1074 Hf). lia.
Qed.

(** Below 1/2 the largest double is [1/2 - 2^-54]; every other one is at
    most [1/2 - 2^-53]. *)
Lemma below_half v :
  F v -> v < 2 ^ 1073 -> v <> 2 ^ 1073 - 2 ^ 1020 -> v <= 2 ^ 1073 - 2 ^ 1021.
Proof.
  intros Hf Hlt Hne.
  destruct (Z_lt_le_dec v (2 ^ 1072)) as [Hs | Hs]; [ lia | ].
  assert (Hk : ulpexp v = 1020) by (apply ulpexp_range; [ lia | split; [ exact Hs | exact Hlt ] ]).
  destruct (F_divide v 1020 Hf ltac:(lia)) as [c Hc].
  lia.
Qed.

Lemma nint_round v :
  F v -> ~ (2 ^ 1074 | v) -> v <> 2 ^ 1073 - 2 ^ 1020 ->
  rnd (v + 2 ^ 1073) / 2 ^ 1074 = (v + 2 ^ 1073) / 2 ^ 1074.
Proof.
  intros Hf Hnd Hne.
  destruct (not_integer_small v Hf Hnd) as [Hv Hk].
  pose proof (ulpexp_nonneg v) as Hk0.
  set (w := v + 2 ^ 1073). set (j := w / 2 ^ 1074).
  assert (Hj : j * 2 ^ 1074 <= w < (j + 1) * 2 ^ 1074).
  { pose proof (Z.div_mod w (2 ^ 1074) ltac:(lia)) as Hd.
    pose proof (Z.mod_pos_bound w (2 ^ 1074) ltac:(lia)) as Hm.
    fold j in Hd. lia. }
  assert (Lower : j * 2 ^ 1074 <= rnd w).
  { rewrite <- (rnd_id (j * 2 ^ 1074)); [ apply rnd_mono; lia | ].
    apply (F_multiple _ 1074); [ lia | exists j; ring | ].
    replace (53 + 1074) with 1127 by lia. unfold w in Hj. lia. }
  assert (Upper : exists B, w <= B /\ B < (j + 1) * 2 ^ 1074 /\ F B).
  { destruct (Z_le_gt_dec v (- 2 ^ 1073)) as [Hneg | Hneg].
    - (* [v + 1/2] is exact *)
      exists w. split; [ lia | ]. split; [ lia | ].
      apply (F_multiple _ (ulpexp v)); [ exact Hk0 | | ].
      + apply Z.divide_add_r; [ apply (F_divide v _ Hf); lia | apply pow2_divide; lia ].
      + pose proof (ulpexp_upper v). unfold w. lia.
    - destruct (Z_lt_le_dec v (2 ^ 1073)) as [Hsm | Hbig].
      + (* [0 < v + 1/2 < 1] *)
        pose proof (below_half v Hf Hsm Hne) as Hb.
        assert (Ej : j = 0) by (unfold j; apply Z.div_small; unfold w; lia).
        exists (2 ^ 1074 - 2 ^ 1021). split; [ unfold w; lia | ].
        split; [ rewrite Ej; lia | ].
        apply (F_multiple _ 1021); [ lia | exists (2 ^ 53 - 1); lia | ].
        replace (53 + 1021) with 1074 by lia. lia.
      + (* [v >= 1/2] *)
        assert (Hk1 : 1021 <= ulpexp v).
        { apply ulpexp_ge; [ lia | ]. replace (52 + 1021) with 1073 by lia. lia. }
        pose proof (ulpexp_upper v) as Hu. rewrite Z.abs_eq in Hu by lia.
        destruct (F_divide v (ulpexp v) Hf ltac:(lia)) as [c Hc].
        assert (Hdw : (2 ^ ulpexp v | w)).
        { apply Z.divide_add_r; [ now exists c | apply pow2_divide; lia ]. }
        destruct (Z_lt_le_dec w (2 ^ (53 + ulpexp v))) as [Hw | Hw].
        * exists w. split; [ lia | ]. split; [ lia | ].
          apply (F_multiple _ (ulpexp v)); [ lia | exact Hdw | ].
          rewrite Z.abs_eq; unfold w in *; lia.
        * destruct (Z.eq_dec (ulpexp v) 1073) as [E | E].
          -- rewrite E in *. replace (53 + 1073) with 1126 in * by lia.
             assert (Ew : w = 2 ^ 1126) by (unfold w in *; lia).
             exists w. split; [ lia | ]. split; [ lia | ].
             rewrite Ew. apply F_pow2. lia.
          -- set (k := ulpexp v) in *.
             assert (ET : 2 ^ (53 + k) = 2 ^ (53 + k - 1074) * 2 ^ 1074).
             { rewrite <- Z.pow_add_r by lia. f_equal. lia. }
             assert (Ht : 2 ^ (53 + k - 1074) <= j).
             { unfold j. rewrite <- (Z.div_mul (2 ^ (53 + k - 1074)) (2 ^ 1074)) by lia.
               apply Z.div_le_mono; [ lia | ]. rewrite <- ET. exact Hw. }
             assert (HT : 2 ^ 1073 <= 2 ^ (53 + k)) by (apply pow2_le; lia).
             exists (2 ^ (53 + k) + 2 ^ 1073).
             split; [ unfold w; lia | ]. split; [ nia | ].
             apply (F_multiple _ (k + 1)); [ lia | | ].
             ++ apply Z.divide_add_r; apply pow2_divide; lia.
             ++ replace (53 + (k + 1)) with (Z.succ (53 + k)) by lia.
                rewrite Z.pow_succ_r by lia. lia. }
  destruct Upper as (B & HwB & HB & FB).
  pose proof (rnd_mono _ _ HwB) as Hm. rewrite (rnd_id B FB) in Hm.
  symmetry. apply (Z.div_unique (rnd w) (2 ^ 1074) j (rnd w - j * 2 ^ 1074)).
  - left. lia.
  - ring.
Qed.

(** ** [floor], [ceil] and the integer conversions *)

Lemma of_Z_spec n sz :
  Z.abs n <= 2 ^ 53 ->
  is_finite (of_Z n sz) = true /\ valid (of_Z n sz) = true /\
  V (of_Z n sz) = n * 2 ^ 1074.
Proof.
  intros Hn. unfold of_Z. rewrite binary_normalize_correct by lia.
  destruct (Z.eqb_spec n 0) as [-> | Hz]; [ now repeat split | ].
  change (0 + 1074) with 1074.
  assert (Hf : F (Z.abs n * 2 ^ 1074)).
  { apply F_pow2_mul; [ lia | apply F_small; rewrite Z.abs_idemp; exact Hn ]. }
  rewrite (rnd_id _ Hf).
  assert (Hpos : 0 < Z.abs n * 2 ^ 1074) by lia.
  destruct (encode_spec (n <? 0) _ Hpos Hf) as [Henc _].
  destruct Henc as (H1 & H2 & H3).
  { assert (E : 2 ^ 2098 = 2 ^ 1024 * 2 ^ 1074) by (now rewrite <- Z.pow_add_r by lia).
    rewrite E. apply Z.mul_lt_mono_pos_r; lia. }
  repeat split; [ exact H1 | exact H2 | ].
  rewrite H3. unfold cond_Zopp. destruct (Z.ltb_spec n 0); lia.
Qed.

Lemma mantissa_bound s m e :
  valid (S754_finite s m e) = true -> Zpos m < 2 ^ 53.
Proof.
  intros Hv. pose proof (valid_exponent _ _ _ Hv) as He.
  pose proof (ulpexp_upper (V (S754_finite s m e))) as Hu.
  rewrite (ulpexp_V _ _ _ Hv) in Hu. unfold V in Hu. rewrite V_cond_Zopp in Hu.
  rewrite (Z.pow_add_r 2 53 (e + 1074)) in Hu by lia.
  pose proof (pow2_pos (e + 1074) ltac:(lia)) as Hp.
  rewrite Z.abs_eq in Hu by (apply Z.mul_nonneg_nonneg; lia). nia.
Qed.

(** The value of a double with a negative exponent, split at the binary point. *)
Lemma V_split e :
  -1074 <= e < 0 ->
  2 ^ 1074 = 2 ^ (- e) * 2 ^ (e + 1074) /\
  0 < 2 ^ (- e) /\ 0 < 2 ^ (e + 1074).
Proof.
  intros He. split; [ | split; apply pow2_pos; lia ].
  rewrite <- Z.pow_add_r by lia. f_equal. lia.
Qed.

Lemma qd_floor_spec d :
  valid d = true -> is_finite d = true ->
  is_finite (qd_floor d) = true /\ valid (qd_floor d) = true /\
  V (qd_floor d) = 2 ^ 1074 * (V d / 2 ^ 1074).
Proof.
  intros Hv Hf.
  destruct d as [s | s | | s m e]; try discriminate Hf.
  - now repeat split.
  - pose proof (valid_exponent _ _ _ Hv) as He.
    pose proof (mantissa_bound _ _ _ Hv) as Hm.
    unfold qd_floor. destruct (Z.leb_spec 0 e) as [H0 | H0].
    + repeat split; [ exact Hv | ].
      unfold V. rewrite Z.pow_add_r by lia.
      replace (cond_Zopp s (Zpos m * (2 ^ e * 2 ^ 1074)))
        with (cond_Zopp s (Zpos m * 2 ^ e) * 2 ^ 1074)
        by (unfold cond_Zopp; destruct s; ring).
      rewrite Z.div_mul by lia. ring.
    + destruct (V_split e ltac:(lia)) as (EU & HP & HQ).
      pose proof (Z.div_mod (Zpos m) (2 ^ (- e)) ltac:(lia)) as Hd.
      pose proof (Z.mod_pos_bound (Zpos m) (2 ^ (- e)) HP) as Hr.
      assert (Hq : 0 <= Zpos m / 2 ^ (- e) <= Zpos m).
      { split; [ apply Z.div_pos; lia | ]. apply Z.div_le_upper_bound; nia. }
      cbv zeta.
      change (V (S754_finite s m e)) with (cond_Zopp s (Zpos m * 2 ^ (e + 1074))).
      rewrite EU.
      destruct s; unfold cond_Zopp.
      * set (q := Zpos m / 2 ^ (- e)) in *. set (r := Zpos m mod 2 ^ (- e)) in *.
        assert (Hdiv : - (Zpos m * 2 ^ (e + 1074)) / (2 ^ (- e) * 2 ^ (e + 1074))
                       = if r =? 0 then - q else - (q + 1)).
        { rewrite <- Z.mul_opp_l, Z.div_mul_cancel_r by lia.
          destruct (Z.eqb_spec r 0) as [E | E].
          - symmetry. apply (Z.div_unique _ _ _ 0); [ left; lia | lia ].
          - symmetry. apply (Z.div_unique _ _ _ (2 ^ (- e) - r)); [ left; lia | lia ]. }
        rewrite Hdiv.
        destruct (of_Z_spec (- (if r =? 0 then q else q + 1)) true) as (H1 & H2 & H3).
        { destruct (r =? 0); lia. }
        repeat split; [ exact H1 | exact H2 | ].
        rewrite H3, <- EU. destruct (r =? 0); ring.
      * rewrite Z.div_mul_cancel_r by lia.
        destruct (of_Z_spec (Zpos m / 2 ^ (- e)) false) as (H1 & H2 & H3); [ lia | ].
        repeat split; [ exact H1 | exact H2 | ].
        rewrite H3, <- EU. ring.
Qed.

Lemma qd_ceil_spec d :
  valid d = true -> is_finite d = true ->
  is_finite (qd_ceil d) = true /\ valid (qd_ceil d) = true /\
  V (qd_ceil d) = - (2 ^ 1074 * (- V d / 2 ^ 1074)).
Proof.
  intros Hv Hf.
  destruct d as [s | s | | s m e]; try discriminate Hf.
  - now repeat split.
  - pose proof (valid_exponent _ _ _ Hv) as He.
    pose proof (mantissa_bound _ _ _ Hv) as Hm.
    unfold qd_ceil. destruct (Z.leb_spec 0 e) as [H0 | H0].
    + repeat split; [ exact Hv | ].
      unfold V. rewrite Z.pow_add_r by lia.
      replace (- cond_Zopp s (Zpos m * (2 ^ e * 2 ^ 1074)))
        with (- cond_Zopp s (Zpos m * 2 ^ e) * 2 ^ 1074)
        by (unfold cond_Zopp; destruct s; ring).
      rewrite Z.div_mul by lia.
      unfold cond_Zopp; destruct s; ring.
    + destruct (V_split e ltac:(lia)) as (EU & HP & HQ).
      pose proof (Z.div_mod (Zpos m) (2 ^ (- e)) ltac:(lia)) as Hd.
      pose proof (Z.mod_pos_bound (Zpos m) (2 ^ (- e)) HP) as Hr.
      assert (Hq : 0 <= Zpos m / 2 ^ (- e) <= Zpos m).
      { split; [ apply Z.div_pos; lia | ]. apply Z.div_le_upper_bound; nia. }
      cbv zeta.
      change (V (S754_finite s m e)) with (cond_Zopp s (Zpos m * 2 ^ (e + 1074))).
      rewrite EU.
      destruct s; unfold cond_Zopp.
      * rewrite Z.opp_involutive, Z.div_mul_cancel_r by lia.
        destruct (of_Z_spec (- (Zpos m / 2 ^ (- e))) true) as (H1 & H2 & H3); [ lia | ].
        repeat split; [ exact H1 | exact H2 | ].
        rewrite H3, <- EU. ring.
      * set (q := Zpos m / 2 ^ (- e)) in *. set (r := Zpos m mod 2 ^ (- e)) in *.
        assert (Hdiv : - (Zpos m * 2 ^ (e + 1074)) / (2 ^ (- e) * 2 ^ (e + 1074))
                       = if r =? 0 then - q else - (q + 1)).
        { rewrite <- Z.mul_opp_l, Z.div_mul_cancel_r by lia.
          destruct (Z.eqb_spec r 0) as [E | E].
          - symmetry. apply (Z.div_unique _ _ _ 0); [ left; lia | lia ].
          - symmetry. apply (Z.div_unique _ _ _ (2 ^ (- e) - r)); [ left; lia | lia ]. }
        rewrite Hdiv.
        destruct (of_Z_spec (if r =? 0 then q else q + 1) false) as (H1 & H2 & H3).
        { destruct (r =? 0); lia. }
        repeat split; [ exact H1 | exact H2 | ].
        rewrite H3, <- EU. destruct (r =? 0); ring.
Qed.

(** ** [nint] and [aint] *)

Lemma geb_zero_V d :
  valid d = true -> is_finite d = true -> (d >= d_zero)%D = (0 <=? V d).
Proof.
  intros Hv Hf. destruct d as [s | s | | s m e]; try discriminate Hf.
  - now destruct s.
  - pose proof (valid_exponent _ _ _ Hv) as He.
    pose proof (pow2_pos (e + 1074) ltac:(lia)) as Hp.
    pose proof (Pos2Z.is_pos m) as Hm.
    unfold V, cond_Zopp. destruct s.
    + destruct (Z.leb_spec 0 (- (Zpos m * 2 ^ (e + 1074)))); [ nia | reflexivity ].
    + destruct (Z.leb_spec 0 (Zpos m * 2 ^ (e + 1074))); [ reflexivity | nia ].
Qed.

Lemma eqb_V x y :
  is_finite x = true -> is_finite y = true -> (x == y)%D = true -> V x = V y.
Proof.
  intros Hfx Hfy H.
  destruct y as [sy | sy | | sy my ey]; try discriminate Hfy.
  - destruct x as [sx | sx | | sx mx ex]; try discriminate Hfx.
    + reflexivity.
    + destruct sx, sy; discriminate H.
  - now rewrite (eqb_finite_eq _ _ _ _ H).
Qed.

Lemma V_d_half : V d_half = 2 ^ 1073.
Proof. vm_compute. reflexivity. Qed.

Lemma nint_spec d :
  valid d = true -> is_finite d = true -> V d <> 2 ^ 1073 - 2 ^ 1020 ->
  is_finite (qd.nint d) = true /\
  V (qd.nint d) = 2 ^ 1074 * ((V d + 2 ^ 1073) / 2 ^ 1074).
Proof.
  intros Hv Hf Hne.
  destruct (qd_floor_spec d Hv Hf) as (Hff & Hvf & HVf).
  unfold qd.nint. destruct (d == qd_floor d)%D eqn:E.
  - split; [ exact Hf | ].
    pose proof (eqb_V _ _ Hf Hff E) as HV. rewrite HVf in HV.
    assert (Hq : (V d + 2 ^ 1073) / 2 ^ 1074 = V d / 2 ^ 1074).
    { symmetry. apply (Z.div_unique _ _ _ (2 ^ 1073)); [ left; lia | lia ]. }
    rewrite Hq. exact HV.
  - assert (Hnd : ~ (2 ^ 1074 | V d)).
    { intros [c Hc].
      assert (HV : V d = V (qd_floor d)).
      { rewrite HVf, Hc, Z.div_mul by lia. ring. }
      rewrite (V_eq_eqb _ _ Hv Hvf Hf Hff HV) in E. discriminate E. }
    destruct (not_integer_small _ (F_V d Hv) Hnd) as [Hb _].
    destruct (add_bounded d d_half Hv eq_refl Hf eq_refl) as (Hfa & Hva & HVa).
    { apply rnd_bound_omega. rewrite V_d_half. lia. }
    destruct (qd_floor_spec _ Hva Hfa) as (H1 & _ & H3).
    split; [ exact H1 | ].
    rewrite H3, HVa, V_d_half. f_equal.
    apply nint_round; [ apply F_V; exact Hv | exact Hnd | exact Hne ].
Qed.

Lemma aint_spec d :
  valid d = true -> is_finite d = true ->
  is_finite (qd.aint d) = true /\
  V (qd.aint d) = 2 ^ 1074 * (V d ÷ 2 ^ 1074).
Proof.
  intros Hv Hf. unfold qd.aint. rewrite (geb_zero_V d Hv Hf).
  destruct (Z.leb_spec 0 (V d)) as [H | H].
  - destruct (qd_floor_spec d Hv Hf) as (H1 & _ & H3).
    split; [ exact H1 | ]. rewrite H3, Z.quot_div_nonneg by lia. reflexivity.
  - destruct (qd_ceil_spec d Hv Hf) as (H1 & _ & H3).
    split; [ exact H1 | ]. rewrite H3.
    rewrite <- (Z.opp_involutive (V d)) at 2.
    rewrite Z.quot_opp_l, Z.quot_div_nonneg by lia. ring.
Qed.

Lemma V_pred_half d :
  valid d = true -> is_finite d = true ->
  V d = 2 ^ 1073 - 2 ^ 1020 -> d = pred_half.
Proof.
  intros Hv Hf HV. apply eqb_finite_eq.
  apply V_eq_eqb; [ exact Hv | reflexivity | exact Hf | reflexivity | ].
  rewrite HV. vm_compute. reflexivity.
Qed.

(** C7 (amended).  For every finite double [d], [aint d] is [d] truncated
    toward zero, and [nint d] is [floor (d + 1/2)], the nearest integer
    with ties toward plus infinity; except that for the largest double
    below 1/2 [nint] returns 1. *)
Theorem nint_aint_spec (d : double) :
  valid d = true -> is_finite d = true ->
  is_finite (qd.nint d) = true /\ is_finite (qd.aint d) = true /\
  V (qd.aint d) = 2 ^ 1074 * (V d ÷ 2 ^ 1074) /\
  (d <> pred_half ->
   V (qd.nint d) = 2 ^ 1074 * ((V d + 2 ^ 1073) / 2 ^ 1074)) /\
  (d = pred_half -> qd.nint d = d_one).
Proof.
  intros Hv Hf.
  destruct (aint_spec d Hv Hf) as [A1 A2].
  assert (Hp : d = pred_half -> qd.nint d = d_one).
  { intros ->. vm_compute. reflexivity. }
  split; [ | split; [ exact A1 | split; [ exact A2 | split; [ | exact Hp ] ] ] ].
  - destruct (Z.eq_dec (V d) (2 ^ 1073 - 2 ^ 1020)) as [E | E].
    + rewrite (Hp (V_pred_half d Hv Hf E)). reflexivity.
    + exact (proj1 (nint_spec d Hv Hf E)).
  - intros Hne. apply (nint_spec d Hv Hf).
    intros E. apply Hne. exact (V_pred_half d Hv Hf E).
Qed.

Lemma nint_aint_spec_witness :
  V (qd.aint (lit (-2.5))) = 2 ^ 1074 * (-2) /\
  V (qd.nint (lit 2.5)) = 2 ^ 1074 * 3.
Proof.
  destruct (nint_aint_spec (lit (-2.5)) eq_refl eq_refl) as (_ & _ & A & _).
  destruct (nint_aint_spec (lit 2.5) eq_refl eq_refl) as (_ & _ & _ & N & _).
  split.
  - rewrite A. reflexivity.
  - rewrite N; [ reflexivity | discriminate ].
Defined.

(** C7, as stated, fails: [nint 0.5] is 1, and [nint 2.5] is 3, where
    rounding half to even gives 0 and 2. *)
Lemma nint_half_even_counterexample :
  ~ (forall d : double,
       valid d = true -> is_finite d = true ->
       V (qd.nint d) = 2 ^ 1074 * rne (V d) 1074).
Proof.
  intro H. specialize (H d_half eq_refl eq_refl).
  vm_compute in H. discriminate H.
Qed.

(** ** Every operation returns a well-formed double *)

Lemma iter_shr_1_m (n : nat) (mrs : shr_record) :
  0 <= shr_m mrs ->
  shr_m (Nat.iter n shr_1 mrs) = shr_m mrs / 2 ^ Z.of_nat n.
Proof.
  intros Hm. induction n as [ | n IH].
  - simpl. now rewrite Z.div_1_r.
  - rewrite Nat2Z.inj_succ. simpl Nat.iter.
    destruct (Nat.iter n shr_1 mrs) as [m r s]. simpl shr_m in IH.
    assert (Hp : 0 < 2 ^ Z.of_nat n) by (apply pow2_pos; lia).
    assert (H0 : 0 <= m) by (rewrite IH; apply Z.div_pos; lia).
    rewrite (shr_1_spec m r s H0). simpl shr_m.
    rewrite IH, Z.pow_succ_r, Z.div_div by lia. f_equal. lia.
Qed.

Lemma shr_m_record_of_loc m l : shr_m (shr_record_of_loc m l) = m.
Proof. destruct l as [ | [ | | ]]; reflexivity. Qed.

Lemma Zdigits2_cases m :
  0 <= m -> (m = 0 /\ Zdigits2 m = 0) \/ (0 < m /\ Zdigits2 m = Z.log2 m + 1).
Proof.
  intros Hm. destruct (Z.eq_dec m 0) as [-> | Hz]; [ left; now split | right ].
  split; [ lia | apply Zdigits2_log2; lia ].
Qed.

Lemma Zdigits2_mono a b : 0 <= a <= b -> Zdigits2 a <= Zdigits2 b.
Proof.
  intros [Ha Hab].
  destruct (Zdigits2_cases a Ha) as [[-> Ea] | [Ha' Ea]];
    destruct (Zdigits2_cases b ltac:(lia)) as [[Eb0 Eb] | [Hb' Eb]];
    rewrite ?Ea, ?Eb; try lia.
  - pose proof (Z.log2_nonneg b). lia.
  - pose proof (Z.log2_le_mono a b Hab). lia.
Qed.

Lemma fexp_mono a b : a <= b -> fexp prec emax a <= fexp prec emax b.
Proof. rewrite !fexp_eq. lia. Qed.

(** After [shr_fexp] a nonzero mantissa is canonical, and a zero one sits
    at the smallest exponent or below. *)
Lemma shr_fexp_canonical m e l :
  0 <= m -> e <= fexp prec emax (Zdigits2 m + e) ->
  let q := shr_m (fst (shr_fexp prec emax m e l)) in
  let e' := snd (shr_fexp prec emax m e l) in
  0 <= q /\ (q = 0 -> e' <= -1074) /\
  (0 < q -> fexp prec emax (Zdigits2 q + e') = e').
Proof.
  intros Hm He. unfold shr_fexp, shr.
  destruct (fexp prec emax (Zdigits2 m + e) - e) as [ | p | p] eqn:En; cbv zeta.
  - simpl fst; simpl snd. rewrite shr_m_record_of_loc.
    split; [ exact Hm | ]. split.
    + intros ->. change (Zdigits2 0) with 0 in He. rewrite fexp_eq in He. lia.
    + intros _. lia.
  - simpl fst; simpl snd.
    rewrite iter_pos_nat, iter_shr_1_m by (now rewrite shr_m_record_of_loc).
    rewrite shr_m_record_of_loc, positive_nat_Z.
    assert (Hp : 0 < 2 ^ Zpos p) by (apply pow2_pos; lia).
    split; [ apply Z.div_pos; lia | ]. split.
    + intros Hq. apply Z.div_small_iff in Hq; [ | lia ].
      destruct Hq as [[_ Hq] | Hq]; [ | lia ].
      assert (Hd : Zdigits2 m <= Zpos p).
      { destruct (Zdigits2_cases m Hm) as [[_ E] | [Hm' E]]; rewrite E; [ lia | ].
        assert (Z.log2 m < Zpos p); [ | lia ].
        apply Z.log2_lt_pow2; lia. }
      rewrite fexp_eq in En. lia.
    + intros Hq.
      assert (Hge : 2 ^ Zpos p <= m).
      { destruct (Z_lt_le_dec m (2 ^ Zpos p)) as [Hlt | Hge]; [ | exact Hge ].
        rewrite Z.div_small in Hq; lia. }
      rewrite (Zdigits2_log2 _ Hq).
      rewrite <- Z.shiftr_div_pow2 by lia.
      rewrite Z.log2_shiftr by lia.
      assert (Hl : Zpos p <= Z.log2 m) by (apply Z.log2_le_pow2; lia).
      rewrite (Zdigits2_log2 m) in En by lia.
      replace (Z.max 0 (Z.log2 m - Zpos p) + 1 + (e + Zpos p))
        with (Z.log2 m + 1 + e) by lia.
      lia.
  - lia.
Qed.

Lemma round_nearest_even_bounds q l :
  q <= round_nearest_even q l <= q + 1.
Proof.
  destruct l as [ | [ | | ]]; simpl; try destruct (Z.even q); lia.
Qed.

(** [binary_round_aux] returns a well-formed double whenever its input
    mantissa carries at least the digits of the target format. *)
Lemma binary_round_aux_valid s m e l :
  0 <= m -> e <= fexp prec emax (Zdigits2 m + e) ->
  valid (binary_round_aux prec emax s m e l) = true.
Proof.
  intros Hm He. unfold binary_round_aux.
  pose proof (shr_fexp_canonical m e l Hm He) as H1. cbv zeta in H1.
  destruct (shr_fexp prec emax m e l) as [mrs1 e1].
  simpl fst in H1; simpl snd in H1. destruct H1 as (Q0 & Qz & Qc).
  pose proof (round_nearest_even_bounds (shr_m mrs1) (loc_of_shr_record mrs1)) as Hr.
  set (m1 := round_nearest_even (shr_m mrs1) (loc_of_shr_record mrs1)) in *.
  assert (Hpre : e1 <= fexp prec emax (Zdigits2 m1 + e1)).
  { destruct (Z.eq_dec (shr_m mrs1) 0) as [E | E].
    - specialize (Qz E). rewrite fexp_eq. lia.
    - rewrite <- (Qc ltac:(lia)) at 1. apply fexp_mono.
      pose proof (Zdigits2_mono (shr_m mrs1) m1 ltac:(lia)). lia. }
  pose proof (shr_fexp_canonical m1 e1 loc_Exact ltac:(lia) Hpre) as H2.
  cbv zeta in H2.
  destruct (shr_fexp prec emax m1 e1 loc_Exact) as [mrs2 e2].
  simpl fst in H2; simpl snd in H2. destruct H2 as (_ & _ & Rc).
  destruct (shr_m mrs2) as [ | p | p]; [ reflexivity | | reflexivity ].
  destruct (Z.leb_spec e2 (emax - prec)) as [Hle | Hgt]; [ | reflexivity ].
  apply valid_finite. split; [ apply Rc; lia | exact Hle ].
Qed.

Lemma valid_digits s m e :
  valid (S754_finite s m e) = true ->
  Z.max (Z.log2 (Zpos m) + 1 + e - 53) (-1074) = e.
Proof.
  intros Hv. apply valid_finite in Hv as [Hc _].
  rewrite fexp_eq, digits2_log2 in Hc. exact Hc.
Qed.

Lemma valid_mul x y :
  valid x = true -> valid y = true -> valid (x * y)%D = true.
Proof.
  intros Hx Hy.
  destruct x as [sx | sx | | sx mx ex], y as [sy | sy | | sy my ey];
    try reflexivity.
  unfold mul, SFmul. apply binary_round_aux_valid; [ lia | ].
  pose proof (valid_digits _ _ _ Hx) as Dx.
  pose proof (valid_digits _ _ _ Hy) as Dy.
  rewrite fexp_eq, Zdigits2_log2 by lia.
  rewrite Pos2Z.inj_mul.
  pose proof (Z.log2_mul_below (Zpos mx) (Zpos my) ltac:(lia) ltac:(lia)).
  pose proof (Z.log2_nonneg (Zpos mx)). pose proof (Z.log2_nonneg (Zpos my)).
  lia.
Qed.

Lemma div_core_canonical m1 e1 m2 e2 :
  0 < m1 -> 0 < m2 ->
  let '(q, e', _) := SFdiv_core_binary prec emax m1 e1 m2 e2 in
  0 <= q /\ e' <= fexp prec emax (Zdigits2 q + e').
Proof.
  intros H1 H2. unfold SFdiv_core_binary.
  rewrite (Zdigits2_log2 m1 H1), (Zdigits2_log2 m2 H2).
  set (X := Z.log2 m1 + 1 + e1 - (Z.log2 m2 + 1 + e2)).
  set (e' := Z.min (fexp prec emax X) (e1 - e2)).
  set (s := e1 - e2 - e').
  assert (Hs : 0 <= s) by (unfold s, e'; lia).
  assert (Hm : match s with Zpos _ => Z.shiftl m1 s | 0 => m1 | Zneg _ => 0 end
               = m1 * 2 ^ s).
  { destruct s as [ | p | p] eqn:Es; [ simpl; lia | | lia ].
    apply Z.shiftl_mul_pow2. lia. }
  cbv zeta. rewrite Hm.
  pose proof (pow2_pos s Hs) as Hp.
  destruct (Z.div_eucl (m1 * 2 ^ s) m2) as [q r] eqn:Ed.
  assert (Hq : q = m1 * 2 ^ s / m2) by (unfold Z.div; now rewrite Ed).
  assert (Hq0 : 0 <= q) by (rewrite Hq; apply Z.div_pos; nia).
  split; [ exact Hq0 | ].
  pose proof (Z.log2_mul_pow2 m1 s H1 Hs) as Hl.
  pose proof (Z.log2_nonneg m1) as L1. pose proof (Z.log2_nonneg m2) as L2.
  destruct (Zdigits2_cases q Hq0) as [[Ez Ed0] | [Hpos Edq]]; rewrite ?Ed0, ?Edq.
  - (* the quotient is zero *)
    rewrite Ez in Hq. symmetry in Hq. apply Z.div_small_iff in Hq; [ | lia ].
    destruct Hq as [[_ Hq] | Hq]; [ | lia ].
    pose proof (Z.log2_le_mono _ _ (Z.lt_le_incl _ _ Hq)) as Hmono.
    rewrite Hl in Hmono.
    assert (He' : e' <= fexp prec emax X) by (unfold e'; lia).
    rewrite fexp_eq in He' |- *. unfold s, X in *. lia.
  - assert (Hlog : Z.log2 m1 + s - Z.log2 m2 - 1 <= Z.log2 q).
    { destruct (Z_lt_le_dec (Z.log2 m1 + s - Z.log2 m2 - 1) 0) as [Hn | Hn].
      - pose proof (Z.log2_nonneg q). lia.
      - apply Z.log2_le_pow2; [ exact Hpos | ].
        rewrite Hq. apply Z.div_le_lower_bound; [ lia | ].
        pose proof (Z.log2_spec m1 H1) as [Hlo1 _].
        pose proof (Z.log2_spec m2 H2) as [_ Hhi2].
        assert (E : 2 ^ (Z.log2 m1) * 2 ^ s
                    = 2 ^ Z.succ (Z.log2 m2) * 2 ^ (Z.log2 m1 + s - Z.log2 m2 - 1)).
        { rewrite <- !Z.pow_add_r by lia. f_equal. lia. }
        pose proof (pow2_pos _ Hn).
        nia. }
    assert (He' : e' <= fexp prec emax X) by (unfold e'; lia).
    eapply Z.le_trans; [ exact He' | ]. apply fexp_mono. unfold X, s. lia.
Qed.

Lemma valid_div x y : valid (x / y)%D = true.
Proof.
  destruct x as [sx | sx | | sx mx ex], y as [sy | sy | | sy my ey];
    try reflexivity.
  unfold div, SFdiv.
  pose proof (div_core_canonical (Zpos mx) ex (Zpos my) ey ltac:(lia) ltac:(lia)) as H.
  destruct (SFdiv_core_binary prec emax (Zpos mx) ex (Zpos my) ey) as [[mz ez] lz].
  destruct H as [H0 H1]. now apply binary_round_aux_valid.
Qed.

Lemma half_bounds a : 2 * (a / 2) <= a < 2 * (a / 2) + 2.
Proof.
  pose proof (Z.div_mod a 2 ltac:(lia)).
  pose proof (Z.mod_pos_bound a 2 ltac:(lia)). lia.
Qed.

Lemma sqrt_core_canonical m e :
  0 < m ->
  let '(q, e', _) := SFsqrt_core_binary prec emax m e in
  0 <= q /\ e' <= fexp prec emax (Zdigits2 q + e').
Proof.
  intros H1. unfold SFsqrt_core_binary.
  rewrite (Zdigits2_log2 m H1), !Z.div2_div.
  set (X := (Z.log2 m + 1 + e + 1) / 2).
  set (e' := Z.min (fexp prec emax X) (e / 2)).
  set (s := e - 2 * e').
  pose proof (half_bounds e) as Be.
  assert (Hs : 0 <= s) by (unfold s, e'; lia).
  assert (Hm : match s with Zpos _ => Z.shiftl m s | 0 => m | Zneg _ => 0 end
               = m * 2 ^ s).
  { destruct s as [ | p | p] eqn:Es; [ simpl; lia | | lia ].
    apply Z.shiftl_mul_pow2. lia. }
  cbv zeta. rewrite Hm.
  pose proof (pow2_pos s Hs) as Hp.
  pose proof (Z.sqrtrem_sqrt (m * 2 ^ s)) as Hsq.
  destruct (Z.sqrtrem (m * 2 ^ s)) as [q r]. simpl fst in Hsq.
  pose proof (Z.log2_nonneg m) as L1.
  set (k := (Z.log2 m + s) / 2).
  pose proof (half_bounds (Z.log2 m + s)) as Bk. fold k in Bk.
  pose proof (half_bounds (Z.log2 m + 1 + e + 1)) as BX. fold X in BX.
  assert (Hk : 0 <= k) by lia.
  assert (Hqk : 2 ^ k <= q).
  { rewrite Hsq. apply Z.sqrt_le_square; [ nia | apply Z.lt_le_incl, pow2_pos; lia | ].
    rewrite <- Z.pow_add_r by lia.
    pose proof (Z.log2_spec m H1) as [Hlo _].
    apply Z.le_trans with (2 ^ (Z.log2 m) * 2 ^ s); [ | nia ].
    rewrite <- Z.pow_add_r by lia. apply pow2_le. lia. }
  pose proof (pow2_pos k Hk) as Hpk.
  split; [ lia | ].
  rewrite (Zdigits2_log2 q) by lia.
  assert (Hlog : k <= Z.log2 q) by (apply Z.log2_le_pow2; lia).
  assert (He' : e' <= fexp prec emax X) by (unfold e'; lia).
  eapply Z.le_trans; [ exact He' | ]. apply fexp_mono.
  unfold s in *. lia.
Qed.

Lemma valid_sqrt x : valid (qd_sqrt x) = true.
Proof.
  destruct x as [sx | [ | ] | | [ | ] mx ex]; try reflexivity.
  unfold qd_sqrt, SFsqrt.
  pose proof (sqrt_core_canonical (Zpos mx) ex ltac:(lia)) as H.
  destruct (SFsqrt_core_binary prec emax (Zpos mx) ex) as [[mz ez] lz].
  destruct H as [H0 H1]. now apply binary_round_aux_valid.
Qed.

Lemma valid_add x y :
  valid x = true -> valid y = true -> valid (x + y)%D = true.
Proof.
  intros Hx Hy.
  destruct (is_finite x) eqn:Fx; [ destruct (is_finite y) eqn:Fy | ].
  - destruct (SFadd_spec x y Hx Hy Fx Fy) as [H1 H2].
    destruct (Z_lt_le_dec (Z.abs (rnd (V x + V y))) (2 ^ 2098)) as [Hlt | Hge].
    + exact (proj1 (proj2 (H1 Hlt))).
    + unfold add. now rewrite (H2 Hge).
  - destruct x as [sx | sx | | sx mx ex], y as [sy | sy | | sy my ey];
      try discriminate Fx; try discriminate Fy; reflexivity.
  - destruct x as [sx | sx | | sx mx ex], y as [[ | ] | [ | ] | | sy my ey];
      try discriminate Fx; try reflexivity; destruct sx; reflexivity.
Qed.

Lemma valid_sub x y :
  valid x = true -> valid y = true -> valid (x - y)%D = true.
Proof.
  intros Hx Hy.
  destruct (is_finite x) eqn:Fx; [ destruct (is_finite y) eqn:Fy | ].
  - destruct (SFsub_spec x y Hx Hy Fx Fy) as [H1 H2].
    destruct (Z_lt_le_dec (Z.abs (rnd (V x - V y))) (2 ^ 2098)) as [Hlt | Hge].
    + exact (proj1 (proj2 (H1 Hlt))).
    + unfold sub. now rewrite (H2 Hge).
  - destruct x as [sx | sx | | sx mx ex], y as [sy | sy | | sy my ey];
      try discriminate Fx; try discriminate Fy; reflexivity.
  - destruct x as [sx | sx | | sx mx ex], y as [[ | ] | [ | ] | | sy my ey];
      try discriminate Fx; try reflexivity; destruct sx; reflexivity.
Qed.

Lemma valid_neg x : valid x = true -> valid (- x)%D = true.
Proof. destruct x as [s | s | | s m e]; intros H; try reflexivity; exact H. Qed.

Ltac valid_tac :=
  repeat first
    [ assumption
    | apply valid_add | apply valid_sub | apply valid_mul
    | apply valid_div | apply valid_sqrt | apply valid_neg
    | reflexivity ].

Lemma split_valid a :
  valid a = true ->
  valid (fst (qd.split a)) = true /\ valid (snd (qd.split a)) = true.
Proof.
  intros Ha. unfold qd.split.
  destruct ((a > qd._QD_SPLIT_THRESH)%D || (a < - qd._QD_SPLIT_THRESH)%D);
    cbv beta iota zeta delta [fst snd]; split; valid_tac.
Qed.

Lemma two_sqr_valid a :
  valid a = true ->
  valid (fst (qd.two_sqr a)) = true /\ valid (snd (qd.two_sqr a)) = true.
Proof.
  intros Ha. unfold qd.two_sqr.
  destruct (split_valid a Ha) as [Hh Hl].
  destruct (qd.split a) as [hi lo].
  cbv beta iota zeta delta [fst snd] in *. split; valid_tac.
Qed.

Lemma two_diff_valid a b :
  valid a = true -> valid b = true ->
  valid (fst (qd.two_diff a b)) = true /\ valid (snd (qd.two_diff a b)) = true.
Proof.
  intros Ha Hb. unfold qd.two_diff.
  cbv beta iota zeta delta [fst snd]. split; valid_tac.
Qed.

Lemma quick_two_sum_valid a b :
  valid a = true -> valid b = true ->
  valid (fst (qd.quick_two_sum a b)) = true /\
  valid (snd (qd.quick_two_sum a b)) = true.
Proof.
  intros Ha Hb. unfold qd.quick_two_sum.
  cbv beta iota zeta delta [fst snd]. split; valid_tac.
Qed.

Lemma dd_sub_valid a b :
  valid (x0 a) = true -> valid (x1 a) = true ->
  valid (x0 b) = true -> valid (x1 b) = true ->
  valid (x0 (a - b)%DD) = true /\ valid (x1 (a - b)%DD) = true.
Proof.
  intros A0 A1 B0 B1. unfold dd.sub.
  destruct (two_diff_valid (x0 a) (x0 b) A0 B0) as [Hs He].
  destruct (qd.two_diff (x0 a) (x0 b)) as [s e].
  cbv beta iota zeta delta [fst snd] in Hs, He.
  cbv beta iota zeta. unfold dd.of_pair.
  cbv beta iota delta [x0 x1].
  apply quick_two_sum_valid; valid_tac.
Qed.

(** When the error term of [two_sum] is not NaN, nothing on the way
    overflowed and the operands were finite. *)
Lemma two_sum_not_nan a b :
  valid a = true -> valid b = true ->
  is_nan (snd (qd.two_sum a b)) = false ->
  is_finite a = true /\ is_finite b = true /\
  is_finite (a + b)%D = true /\ is_finite ((a + b) - a)%D = true.
Proof.
  intros Ha Hb Hn.
  destruct (is_finite a) eqn:Fa.
  - destruct (is_finite b) eqn:Fb.
    + destruct (is_finite (a + b)%D) eqn:Fs.
      * destruct (is_finite ((a + b) - a)%D) eqn:Fbb; [ now repeat split | ].
        rewrite (two_sum_intermediate_overflow a b Ha Hb Fa Fb Fs Fbb) in Hn.
        discriminate Hn.
      * exfalso. pose proof (add_overflow a b Ha Hb Fa Fb Fs) as Hs.
        revert Hn. unfold qd.two_sum. cbv zeta. unfold snd. rewrite Hs.
        destruct a as [sa | sa | | sa ma ea]; try discriminate Fa;
          destruct b as [sb | sb | | sb mb eb]; try discriminate Fb;
          destruct (_ <? 0); discriminate.
    + exfalso. revert Hn. unfold qd.two_sum. cbv zeta. unfold snd.
      destruct a as [sa | sa | | sa ma ea]; try discriminate Fa;
        destruct b as [sb | [ | ] | | sb mb eb]; try discriminate Fb;
        discriminate.
  - exfalso. revert Hn. unfold qd.two_sum. cbv zeta. unfold snd.
    destruct a as [sa | [ | ] | | sa ma ea]; try discriminate Fa;
      destruct b as [sb | [ | ] | | sb mb eb]; discriminate.
Qed.

(** ** Normal form of renormalised results *)

Lemma quick_two_sum_normal_form a b :
  valid a = true -> valid b = true ->
  is_finite a = true -> is_finite b = true ->
  Z.abs (V b) <= Z.abs (V a) -> is_finite (a + b)%D = true ->
  normal_form (dd.of_pair (qd.quick_two_sum a b)) = true.
Proof.
  intros Ha Hb Fa Fb Hab Fs.
  destruct (quick_two_sum_finite a b Ha Hb Fa Fb Hab Fs) as (Fe & _ & HV).
  exact (normal_form_sum a b _ _ Ha Hb Fa Fb eq_refl Fs Fe HV).
Qed.

Lemma two_sum_normal_form a b :
  valid a = true -> valid b = true ->
  is_nan (snd (qd.two_sum a b)) = false ->
  normal_form (dd.of_pair (qd.two_sum a b)) = true.
Proof.
  intros Ha Hb Hn.
  destruct (two_sum_not_nan a b Ha Hb Hn) as (Fa & Fb & Fs & Fbb).
  destruct (two_sum_finite a b Ha Hb Fa Fb Fs Fbb) as (Fe & _ & HV).
  exact (normal_form_sum a b _ _ Ha Hb Fa Fb eq_refl Fs Fe HV).
Qed.

Lemma sqrt_normal_form a :
  valid (x0 a) = true -> valid (x1 a) = true ->
  normal_form (value (sqrt G a)) = true \/
  is_nan (x1 (value (sqrt G a))) = true.
Proof.
  intros A0 A1. unfold sqrt.
  destruct (dd.is_zero a); [ left; reflexivity | ].
  destruct (dd.is_negative a); [ right; reflexivity | ].
  cbv zeta. unfold ret, value. cbn [fst]. unfold dd.add_d_d.
  set (x := (d_one / qd_sqrt (x0 a))%D).
  set (ax := (x0 a * x)%D).
  set (y := (x0 (a - dd.sqr_d ax)%DD * (x * d_half))%D).
  assert (Hx : valid x = true) by apply valid_div.
  assert (Hax : valid ax = true) by (apply valid_mul; assumption).
  assert (Hy : valid y = true).
  { apply valid_mul; [ | apply valid_mul; [ exact Hx | reflexivity ] ].
    destruct (two_sqr_valid ax Hax) as [S0 S1].
    exact (proj1 (dd_sub_valid a (dd.sqr_d ax) A0 A1 S0 S1)). }
  destruct (is_nan (snd (qd.two_sum ax y))) eqn:En.
  - right. exact En.
  - left. exact (two_sum_normal_form ax y Hax Hy En).
Qed.

(** X23.  The renormalisation steps establish normal form:
    [quick_two_sum], applied to finite doubles with [|a| >= |b|] whose
    rounded sum is finite, and [two_sum], whenever its error term is not
    NaN, return a pair [(s, err)] with [|err| <= ulp(s)/2] whose exact
    sum rounds to [s]. *)
Theorem error_free_sums_normal_form (a b : double) :
  valid a = true -> valid b = true ->
  (is_finite a = true -> is_finite b = true ->
   Z.abs (V b) <= Z.abs (V a) -> is_finite (a + b)%D = true ->
   normal_form (dd.of_pair (qd.quick_two_sum a b)) = true) /\
  (is_nan (snd (qd.two_sum a b)) = false ->
   normal_form (dd.of_pair (qd.two_sum a b)) = true).
Proof.
  intros Ha Hb. split.
  - intros Fa Fb Hab Fs. exact (quick_two_sum_normal_form a b Ha Hb Fa Fb Hab Fs).
  - exact (two_sum_normal_form a b Ha Hb).
Qed.

Lemma error_free_sums_normal_form_witness :
  normal_form (dd.of_pair (qd.quick_two_sum d_one _eps)) = true /\
  normal_form (dd.of_pair (qd.two_sum _eps d_one)) = true.
Proof.
  split.
  - apply (proj1 (error_free_sums_normal_form d_one _eps eq_refl eq_refl));
      [ reflexivity | reflexivity | vm_compute; discriminate | reflexivity ].
  - apply (proj2 (error_free_sums_normal_form _eps d_one eq_refl eq_refl)).
    reflexivity.
Defined.

(** X24.  [sqrt] returns, for every argument, a result that is in normal
    form as soon as its trailing limb is not NaN, as for the argument 2.
    The trailing limb is NaN for a negative argument, and also for the
    largest double: as an expansion it is in normal form and not
    negative, but [sqrt] squares its first approximation [2^512], which
    overflows, and returns the NaN expansion without calling the error
    hook. *)
Theorem sqrt_normal_form_unless_nan (a : dd_real) :
  valid (x0 a) = true -> valid (x1 a) = true ->
  (is_nan (x1 (value (sqrt G a))) = false ->
   normal_form (value (sqrt G a)) = true) /\
  normal_form (value (sqrt G (dd.of_double d_two))) = true /\
  normal_form (mk_dd DBL_MAX d_zero) = true /\
  sqrt G (mk_dd DBL_MAX d_zero) = (dd_nan, []).
Proof.
  intros A0 A1. split.
  - intros Hn. destruct (sqrt_normal_form a A0 A1) as [H | H]; [ exact H | ].
    rewrite H in Hn. discriminate Hn.
  - split; [ vm_compute; reflexivity | ].
    split; vm_compute; reflexivity.
Qed.

Lemma sqrt_normal_form_unless_nan_witness :
  normal_form (value (sqrt G lit_pi)) = true.
Proof.
  apply (proj1 (sqrt_normal_form_unless_nan lit_pi eq_refl eq_refl)).
  vm_compute. reflexivity.
Defined.

(** X27.  Normal form is lost at underflow.  For the double nearest to
    -707.7, [exp] returns a finite pair, without calling the error hook:
    the final [ldexp] scales both limbs by [2^-1021], the leading limb
    lands in the binade of [2^-1021] with an odd significand, and the
    trailing limb is rounded to the subnormal [-2^-1074], exactly half a
    unit of the leading limb; their sum is a tie, which rounds to the
    even neighbour and not to the leading limb. *)
Theorem exp_underflow_not_normal_form :
  let a := dd.of_double (S754_finite true 6224995031816602 (-43)) in
  normal_form a = true /\
  exp G a = (mk_dd (S754_finite false 4518356610166107 (-1073))
                   (S754_finite true 1 (-1074)), []) /\
  2 * Z.abs (V (x1 (value (exp G a)))) = ulp (x0 (value (exp G a))) /\
  rnd (V (x0 (value (exp G a))) + V (x1 (value (exp G a))))
  = V (x0 (value (exp G a))) - 2 /\
  normal_form (value (exp G a)) = false.
Proof.
  cbv zeta.
  split; [ vm_compute; reflexivity | ].
  split; [ vm_compute; reflexivity | ].
  split; [ vm_compute; reflexivity | ].
  split; vm_compute; reflexivity.
Qed.

(** ** The two paths of [two_prod] *)

(** C3.  At the largest double the two build-time paths of [two_prod]
    differ: the product [DBL_MAX * 1] is finite and exact, the fused path
    returns the error [+0], but [split] rescales its high word past the
    overflow threshold, so the split path returns [err = NaN]. *)
Theorem two_prod_paths_differ :
  is_finite (DBL_MAX * d_one)%D = true /\
  qd.split DBL_MAX
  = (S754_infinity false, S754_finite true 4503599627370496 919) /\
  qd.two_prod DBL_MAX d_one = (DBL_MAX, S754_nan) /\
  qd.two_prod_fms DBL_MAX d_one = (DBL_MAX, S754_zero false).
Proof. repeat split; vm_compute; reflexivity. Qed.

(** Both paths lose the error when it falls below the smallest subnormal,
    even though the product itself is a normal number. *)
Lemma two_prod_error_underflow (a : double) :
  a = S754_finite false 4503599627370497 (-552) ->
  (qd.two_prod a a
   = (S754_finite false 4503599627370498 (-1052), S754_zero false)) /\
  (qd.two_prod_fms a a = qd.two_prod a a) /\
  (V a * V a
   <> (V (fst (qd.two_prod a a)) + V (snd (qd.two_prod a a))) * 2 ^ 1074).
Proof.
  intros ->. split; [ vm_compute; reflexivity | ].
  split; [ vm_compute; reflexivity | ].
  vm_compute. discriminate.
Qed.

(** ** The Taylor loop of [sinh] on two inputs *)

(** At the upper end of its range the loop of [sinh] exits within eight
    passes; at the smallest subnormal the square [r] underflows to zero
    and the loop exits after the first pass. *)
Lemma sinh_loop_examples :
  value (sinh G 8 (dd.of_double d_0_05))
  = Some (mk_dd (S754_finite false 7208762178866683 (-57))
                (S754_finite false 6093572724875737 (-111))) /\
  value (sinh G 1 (dd.of_double (S754_finite false 1 (-1074))))
  = Some (mk_dd (S754_finite false 1 (-1074)) (S754_zero false)).
Proof. split; vm_compute; reflexivity. Qed.

(** * Termination of the Taylor loops *)

(** ** Rounding a fraction: multiplication and division *)

Lemma loc_of_record m l : loc_of_shr_record (shr_record_of_loc m l) = l.
Proof. destruct l as [ | [ | | ]]; reflexivity. Qed.

Lemma shr_1_locq A B :
  0 <= A -> 0 < B ->
  shr_1 (shr_record_of_loc (A / B) (locq A B))
  = shr_record_of_loc (A / (2 * B)) (locq A (2 * B)).
Proof.
  intros HA HB.
  pose proof (Z.mod_pos_bound A B HB) as Hr.
  assert (Hq : 0 <= A / B) by (apply Z.div_pos; lia).
  assert (Ediv : A / (2 * B) = A / B / 2).
  { rewrite Z.div_div by lia. f_equal. lia. }
  assert (Emod : A mod (2 * B) = A mod B + B * ((A / B) mod 2)).
  { rewrite (Z.mul_comm 2 B). apply Z.rem_mul_r; lia. }
  pose proof (Zmod_odd (A / B)) as Hodd.
  assert (Hl2 : locq A (2 * B)
                = if Z.odd (A / B)
                  then loc_Inexact (if A mod B =? 0 then Eq else Gt)
                  else if A mod B =? 0 then loc_Exact else loc_Inexact Lt).
  { unfold locq. rewrite Emod.
    destruct (Z.odd (A / B)); rewrite Hodd.
    - destruct (Z.eqb_spec (A mod B + B * 1) 0); [ lia | ]. f_equal.
      destruct (Z.eqb_spec (A mod B) 0).
      + apply Z.compare_eq_iff. lia.
      + apply Z.compare_gt_iff. lia.
    - replace (A mod B + B * 0) with (A mod B) by lia.
      destruct (Z.eqb_spec (A mod B) 0); [ reflexivity | ].
      f_equal. apply Z.compare_lt_iff. lia. }
  assert (Hl1 : shr_1 (shr_record_of_loc (A / B) (locq A B))
                = {| shr_m := A / B / 2; shr_r := Z.odd (A / B);
                     shr_s := negb (A mod B =? 0) |}).
  { unfold locq. destruct (A mod B =? 0).
    - change (shr_record_of_loc (A / B) loc_Exact)
        with {| shr_m := A / B; shr_r := false; shr_s := false |}.
      now rewrite shr_1_spec.
    - destruct (2 * (A mod B) ?= B);
        cbv beta iota delta [shr_record_of_loc];
        rewrite shr_1_spec by exact Hq; f_equal; apply orb_true_r. }
  rewrite Hl1, Hl2, Ediv.
  destruct (Z.odd (A / B)), (A mod B =? 0); reflexivity.
Qed.

Lemma iter_shr_1_locq (n : nat) A B :
  0 <= A -> 0 < B ->
  Nat.iter n shr_1 (shr_record_of_loc (A / B) (locq A B))
  = shr_record_of_loc (A / (B * 2 ^ Z.of_nat n)) (locq A (B * 2 ^ Z.of_nat n)).
Proof.
  intros HA HB. induction n as [ | n IH].
  - simpl. now rewrite Z.mul_1_r.
  - rewrite Nat2Z.inj_succ, Z.pow_succ_r by lia. simpl Nat.iter. rewrite IH.
    assert (Hp : 0 < 2 ^ Z.of_nat n) by (apply pow2_pos; lia).
    rewrite shr_1_locq by nia.
    replace (2 * (B * 2 ^ Z.of_nat n)) with (B * (2 * 2 ^ Z.of_nat n)) by ring.
    reflexivity.
Qed.

Lemma rneq_error A B :
  0 <= A -> 0 < B ->
  A / B <= rneq A B <= A / B + 1 /\ 2 * Z.abs (rneq A B * B - A) <= B.
Proof.
  intros HA HB.
  pose proof (Z.mod_pos_bound A B HB) as Hr.
  pose proof (Z.div_mod A B ltac:(lia)) as Hd.
  unfold rneq, locq, round_nearest_even.
  destruct (Z.eqb_spec (A mod B) 0) as [E0 | E0]; [ split; nia | ].
  destruct (Z.compare_spec (2 * (A mod B)) B) as [H | H | H];
    try destruct (Z.even (A / B)); split; nia.
Qed.

Lemma rneq_zero A B : 0 <= A -> 0 < B -> 2 * A < B -> rneq A B = 0.
Proof.
  intros HA HB H. unfold rneq, locq, round_nearest_even.
  rewrite Z.div_small, Z.mod_small by lia.
  destruct (Z.eqb_spec A 0); [ reflexivity | ].
  replace (2 * A ?= B) with Lt by (symmetry; apply Z.compare_lt_iff; lia).
  reflexivity.
Qed.

Lemma new_location_locq B A :
  0 < B -> new_location B (A mod B) = locq A B.
Proof.
  intros HB. pose proof (Z.mod_pos_bound A B HB) as Hr.
  unfold new_location, new_location_even, new_location_odd, locq.
  destruct (Z.even B) eqn:Ev; [ reflexivity | ].
  destruct (Z.eqb_spec (A mod B) 0); [ reflexivity | ].
  assert (Hodd : Z.odd B = true) by (rewrite <- Z.negb_even, Ev; reflexivity).
  apply Z.odd_spec in Hodd as [c Hc].
  f_equal.
  destruct (Z.compare_spec (2 * (A mod B) + 1) B) as [H | H | H];
    symmetry; [ apply Z.compare_lt_iff | apply Z.compare_lt_iff
              | apply Z.compare_gt_iff ]; lia.
Qed.

Lemma shr_locq A B e n :
  0 <= A -> 0 < B -> 0 <= n ->
  shr (shr_record_of_loc (A / B) (locq A B)) e n
  = (shr_record_of_loc (A / (B * 2 ^ n)) (locq A (B * 2 ^ n)), e + n).
Proof.
  intros HA HB Hn. destruct n as [ | p | p]; [ | | lia ].
  - simpl shr. now rewrite Z.mul_1_r, Z.add_0_r.
  - unfold shr. rewrite iter_pos_nat, iter_shr_1_locq by assumption.
    now rewrite positive_nat_Z.
Qed.

(** The value returned by [binary_round_aux] on the fraction [A / B]
    scaled by [2^e]: the mantissa is rounded to nearest even at the
    exponent [e + n] of the target format. *)
Lemma binary_round_aux_value s A B e :
  0 <= A -> 0 < B ->
  e <= fexp prec emax (Zdigits2 (A / B) + e) ->
  let n := fexp prec emax (Zdigits2 (A / B) + e) - e in
  let m1 := rneq A (B * 2 ^ n) in
  let T := 2 ^ (e + n + 1074) in
  let R := binary_round_aux prec emax s (A / B) e (locq A B) in
  0 <= n /\ -1074 <= e + n /\ (T = 1 \/ 2 ^ 52 <= m1) /\
  (m1 * T < 2 ^ 2098 ->
   is_finite R = true /\ V R = cond_Zopp s (m1 * T)).
Proof.
  intros HA HB Hpre n m1 T R.
  assert (Hq : 0 <= A / B) by (apply Z.div_pos; lia).
  assert (Hn : 0 <= n) by (unfold n; lia).
  assert (He1 : e + n = fexp prec emax (Zdigits2 (A / B) + e)) by (unfold n; lia).
  assert (He1' : -1074 <= e + n) by (rewrite He1, fexp_eq; lia).
  assert (Hpn : 0 < 2 ^ n) by (apply pow2_pos; lia).
  assert (HT : 0 < T) by (apply pow2_pos; lia).
  destruct (rneq_error A (B * 2 ^ n) HA ltac:(nia)) as [[Hm1lo Hm1hi] _].
  fold m1 in Hm1lo, Hm1hi.
  assert (Eq1 : A / (B * 2 ^ n) = A / B / 2 ^ n) by (now rewrite Z.div_div by lia).
  rewrite Eq1 in Hm1lo, Hm1hi.
  (* the size of the shifted mantissa *)
  assert (Hsize : A / B / 2 ^ n < 2 ^ 53 /\
                  (-1074 < e + n -> 2 ^ 52 <= A / B / 2 ^ n)).
  { destruct (Zdigits2_cases (A / B) Hq) as [[Ez Ed] | [Hpos Ed]].
    - rewrite Ez, Z.div_0_l by lia.
      split; [ reflexivity | ]. intros H.
      rewrite Ez in He1. change (Zdigits2 0) with 0 in He1.
      rewrite fexp_eq in He1. lia.
    - rewrite Ed, fexp_eq in He1.
      pose proof (Z.log2_spec (A / B) Hpos) as [L1 L2].
      pose proof (Z.log2_nonneg (A / B)) as L0.
      split.
      + apply Z.div_lt_upper_bound; [ lia | ].
        rewrite <- Z.pow_add_r by lia.
        eapply Z.lt_le_trans; [ exact L2 | apply pow2_le; lia ].
      + intros H. apply Z.div_le_lower_bound; [ lia | ].
        rewrite <- Z.pow_add_r by lia.
        eapply Z.le_trans; [ | exact L1 ]. apply pow2_le. lia. }
  destruct Hsize as [Hq1hi Hq1lo].
  assert (Hm1 : 0 <= m1 <= 2 ^ 53).
  { split; [ | lia ].
    assert (0 <= A / B / 2 ^ n) by (apply Z.div_pos; lia). lia. }
  split; [ exact Hn | ]. split; [ exact He1' | ]. split.
  { destruct (Z.eq_dec (e + n) (-1074)) as [E | E].
    - left. unfold T. now rewrite E.
    - right. specialize (Hq1lo ltac:(lia)). lia. }
  intros Hbound.
  (* overflow is excluded by the bound *)
  assert (Hno : 2 ^ 52 <= m1 -> e + n <= 971 /\ (m1 = 2 ^ 53 -> e + n + 1 <= 971)).
  { intros H52.
    assert (E98 : 2 ^ 2098 = 2 ^ 52 * 2 ^ 2046)
      by (now rewrite <- Z.pow_add_r by lia).
    assert (E98' : 2 ^ 2098 = 2 ^ 53 * 2 ^ 2045)
      by (now rewrite <- Z.pow_add_r by lia).
    split.
    - destruct (Z_le_gt_dec (e + n) 971) as [Hle | Hgt]; [ exact Hle | exfalso ].
      assert (2 ^ 2046 <= T) by (apply pow2_le; lia). nia.
    - intros E53.
      destruct (Z_le_gt_dec (e + n + 1) 971) as [Hle | Hgt]; [ exact Hle | exfalso ].
      assert (2 ^ 2045 <= T) by (apply pow2_le; lia).
      rewrite E53 in Hbound. nia. }
  unfold R, binary_round_aux, shr_fexp. fold n.
  rewrite shr_locq by assumption.
  rewrite shr_m_record_of_loc, loc_of_record.
  change (round_nearest_even (A / (B * 2 ^ n)) (locq A (B * 2 ^ n))) with m1.
  cbv beta iota delta [shr_record_of_loc].
  destruct (Z.eq_dec m1 0) as [E0 | E0].
  - rewrite E0. change (Zdigits2 0) with 0.
    rewrite shr_none by (rewrite fexp_eq; lia).
    simpl shr_m. split; [ reflexivity | ]. now destruct s.
  - destruct (Z.eq_dec m1 (2 ^ 53)) as [E53 | E53].
    + destruct (Hno ltac:(lia)) as [_ Hov]. specialize (Hov E53).
      rewrite E53. change (2 ^ 53) with (Zpos (Pos.pow 2 53)).
      simpl Zdigits2. rewrite fexp_eq.
      replace (Z.max _ _ - (e + n)) with 1
        by (change (Zpos (digits2_pos (2 ^ 53))) with 54; lia).
      unfold shr. simpl iter_pos. simpl shr_m.
      change (emax - prec) with 971.
      destruct (Z.leb_spec (e + n + 1) 971); [ | lia ].
      split; [ reflexivity | ].
      unfold V. f_equal.
      replace (e + n + 1 + 1074) with (Z.succ (e + n + 1074)) by lia.
      rewrite Z.pow_succ_r by lia. fold T.
      change (Zpos (Pos.pow 2 53)) with (2 ^ 53).
      change (Zpos 4503599627370496) with (2 ^ 52).
      change (2 ^ 53) with (2 * 2 ^ 52). ring.
    + assert (Hd : Zdigits2 m1 <= 53).
      { rewrite Zdigits2_log2 by lia.
        assert (Z.log2 m1 < 53); [ | lia ].
        apply Z.log2_lt_pow2; lia. }
      assert (Hd0 : 1 <= Zdigits2 m1).
      { rewrite Zdigits2_log2 by lia. pose proof (Z.log2_nonneg m1). lia. }
      assert (Hcan : fexp prec emax (Zdigits2 m1 + (e + n)) = e + n).
      { rewrite fexp_eq.
        destruct (Z.eq_dec (e + n) (-1074)) as [E | E]; [ lia | ].
        specialize (Hq1lo ltac:(lia)).
        assert (52 <= Z.log2 m1) by (apply Z.log2_le_pow2; lia).
        rewrite Zdigits2_log2 in Hd |- * by lia. lia. }
      rewrite shr_none by lia. simpl shr_m.
      destruct m1 as [ | p1 | p1] eqn:Em1; try lia.
      change (emax - prec) with 971.
      assert (Hle : e + n <= 971).
      { destruct (Z.eq_dec (e + n) (-1074)) as [E | E]; [ lia | ].
        specialize (Hq1lo ltac:(lia)). apply Hno. lia. }
      destruct (Z.leb_spec (e + n) 971); [ | lia ].
      split; reflexivity.
Qed.

(** ** Products and quotients of doubles, up to their rounding error *)

Lemma V_abs_finite s m e : Z.abs (V (S754_finite s m e)) = Zpos m * 2 ^ (e + 1074).
Proof.
  unfold V. rewrite V_cond_Zopp. apply Z.abs_eq.
  pose proof (Z.pow_nonneg 2 (e + 1074) ltac:(lia)). nia.
Qed.

(** From the mantissa [M] and the unit [T] of a rounded result to the
    bound on its error, and to its finiteness. *)
Lemma rounded_bounds M T P Q :
  0 <= M -> 0 < T -> 0 <= P -> 0 < Q ->
  (T = 1 \/ 2 ^ 52 <= M) ->
  2 * Z.abs (M * T * Q - P) <= T * Q ->
  (P < 2 ^ 2097 * Q -> M * T < 2 ^ 2098) /\
  2 ^ 53 * Z.abs (M * T * Q - P) <= (M * T + 2 ^ 52) * Q.
Proof.
  intros HM HT HP HQ Hc He.
  assert (E98 : 2 ^ 2098 = 2 * 2 ^ 2097) by (now rewrite <- (Z.pow_succ_r 2 2097) by lia).
  assert (E53 : 2 ^ 53 = 2 * 2 ^ 52) by reflexivity.
  assert (H52 : 0 < 2 ^ 52) by reflexivity.
  assert (H97 : 0 < 2 ^ 2097) by (apply pow2_pos; lia).
  split.
  - intros Hb. destruct Hc as [-> | Hc].
    + rewrite !Z.mul_1_r, Z.mul_1_l in *.
      assert (M * Q < (2 ^ 2097 + 1) * Q) by lia.
      assert (M < 2 ^ 2097 + 1) by (apply (Z.mul_lt_mono_pos_r Q); lia).
      lia.
    + assert (H1 : (2 * M - 1) * T * Q <= 2 * P) by lia.
      assert (H2 : M * T * Q <= (2 * M - 1) * T * Q).
      { apply Z.mul_le_mono_nonneg_r; [ lia | ].
        apply Z.mul_le_mono_nonneg_r; lia. }
      assert (H3 : M * T * Q < 2 ^ 2098 * Q) by lia.
      apply (Z.mul_lt_mono_pos_r Q); lia.
  - destruct Hc as [-> | Hc].
    + rewrite !Z.mul_1_r, Z.mul_1_l in *.
      assert (0 <= M * Q) by nia. nia.
    + assert (H1 : 2 ^ 52 * T * Q <= M * T * Q).
      { apply Z.mul_le_mono_nonneg_r; [ lia | ].
        apply Z.mul_le_mono_nonneg_r; lia. }
      assert (0 <= T * Q) by nia. nia.
Qed.

Lemma mul_value_finite sx mx ex sy my ey :
  let x := S754_finite sx mx ex in
  let y := S754_finite sy my ey in
  valid x = true -> valid y = true ->
  Z.abs (V x * V y) < 2 ^ 2097 * 2 ^ 1074 ->
  is_finite (x * y)%D = true /\
  2 ^ 53 * Z.abs (V (x * y)%D * 2 ^ 1074 - V x * V y)
  <= (Z.abs (V (x * y)%D) + 2 ^ 52) * 2 ^ 1074.
Proof.
  intros x y Hvx Hvy Hb.
  assert (HW : 0 < 2 ^ 1074) by (apply pow2_pos; lia).
  pose proof (valid_exponent _ _ _ Hvx) as Hex.
  pose proof (valid_exponent _ _ _ Hvy) as Hey.
  (* the precondition of the rounding, as for well-formedness *)
  assert (Hpre : ex + ey
                 <= fexp prec emax (Zdigits2 (Zpos (mx * my) / 1) + (ex + ey))).
  { rewrite Z.div_1_r.
    pose proof (valid_digits _ _ _ Hvx) as Dx.
    pose proof (valid_digits _ _ _ Hvy) as Dy.
    rewrite fexp_eq, Zdigits2_log2 by lia.
    rewrite Pos2Z.inj_mul.
    pose proof (Z.log2_mul_below (Zpos mx) (Zpos my) ltac:(lia) ltac:(lia)).
    pose proof (Z.log2_nonneg (Zpos mx)). pose proof (Z.log2_nonneg (Zpos my)).
    lia. }
  pose proof (binary_round_aux_value (xorb sx sy) (Zpos (mx * my)) 1 (ex + ey)
                ltac:(lia) ltac:(lia) Hpre) as H.
  cbv zeta in H.
  assert (Hloc : locq (Zpos (mx * my)) 1 = loc_Exact).
  { unfold locq. now rewrite Z.mod_1_r. }
  rewrite Hloc in H. rewrite (Z.div_1_r (Zpos (mx * my))) in H.
  assert (Emul : (x * y)%D
                 = binary_round_aux prec emax (xorb sx sy) (Zpos (mx * my))
                     (ex + ey) loc_Exact) by reflexivity.
  rewrite <- Emul in H. clear Emul Hloc.
  generalize dependent (x * y)%D. intros r H.
  set (n := fexp prec emax (Zdigits2 (Zpos (mx * my)) + (ex + ey)) - (ex + ey)) in *.
  set (M := rneq (Zpos (mx * my)) (1 * 2 ^ n)) in *.
  set (T := 2 ^ (ex + ey + n + 1074)) in *.
  destruct H as (Hn & He1 & Hc & Hfin).
  assert (Hpn : 0 < 2 ^ n) by (apply pow2_pos; lia).
  assert (HT : 0 < T) by (apply pow2_pos; lia).
  destruct (rneq_error (Zpos (mx * my)) (1 * 2 ^ n) ltac:(lia) ltac:(lia))
    as [[Hlo _] Herr].
  fold M in Hlo, Herr.
  assert (HM : 0 <= M).
  { assert (0 <= Zpos (mx * my) / (1 * 2 ^ n)) by (apply Z.div_pos; lia). lia. }
  set (K := 2 ^ (ex + ey + 2148)).
  assert (HK : 0 < K) by (apply pow2_pos; lia).
  assert (Esgn : V x * V y = cond_Zopp (xorb sx sy) (Zpos (mx * my) * K)).
  { unfold x, y, V, K. rewrite Pos2Z.inj_mul.
    replace (ex + ey + 2148) with ((ex + 1074) + (ey + 1074)) by lia.
    rewrite (Z.pow_add_r 2 (ex + 1074) (ey + 1074)) by lia.
    destruct sx, sy; unfold cond_Zopp, xorb; ring. }
  rewrite Esgn in *. clearbody x y. clear Hvx Hvy Esgn.
  rewrite V_cond_Zopp in Hb.
  assert (HPK : 0 <= Zpos (mx * my) * K) by (apply Z.mul_nonneg_nonneg; lia).
  rewrite (Z.abs_eq _ HPK) in Hb.
  assert (ETW : T * 2 ^ 1074 = 2 ^ n * K).
  { unfold T, K. rewrite <- !Z.pow_add_r by lia. f_equal. lia. }
  assert (Herr' : 2 * Z.abs (M * T * 2 ^ 1074 - Zpos (mx * my) * K) <= T * 2 ^ 1074).
  { replace (M * T * 2 ^ 1074) with (M * (T * 2 ^ 1074)) by ring.
    rewrite ETW.
    replace (M * (2 ^ n * K) - Zpos (mx * my) * K)
      with ((M * (1 * 2 ^ n) - Zpos (mx * my)) * K) by ring.
    rewrite Z.abs_mul, (Z.abs_eq K) by lia.
    rewrite Z.mul_assoc. apply Z.mul_le_mono_nonneg_r; lia. }
  destruct (rounded_bounds M T (Zpos (mx * my) * K) (2 ^ 1074)
              HM HT HPK HW Hc Herr') as [Hov Hrel].
  specialize (Hov Hb). destruct (Hfin Hov) as [F1 F2].
  split; [ exact F1 | ].
  rewrite F2, V_cond_Zopp, (Z.abs_eq (M * T)) by (apply Z.mul_nonneg_nonneg; lia).
  replace (cond_Zopp (xorb sx sy) (M * T) * 2 ^ 1074
           - cond_Zopp (xorb sx sy) (Zpos (mx * my) * K))
    with (cond_Zopp (xorb sx sy) (M * T * 2 ^ 1074 - Zpos (mx * my) * K))
    by (unfold cond_Zopp; destruct (xorb sx sy); ring).
  rewrite V_cond_Zopp. exact Hrel.
Qed.

Lemma mul_zero_l s y : is_finite y = true -> exists s', (S754_zero s * y)%D = S754_zero s'.
Proof. destruct y as [sy | sy | | sy my ey]; try discriminate; intros _; eexists; reflexivity. Qed.

Lemma mul_zero_r x s : is_finite x = true -> exists s', (x * S754_zero s)%D = S754_zero s'.
Proof. destruct x as [sx | sx | | sx mx ex]; try discriminate; intros _; eexists; reflexivity. Qed.

Lemma mul_value x y :
  valid x = true -> valid y = true ->
  is_finite x = true -> is_finite y = true ->
  Z.abs (V x * V y) < 2 ^ 2097 * 2 ^ 1074 ->
  is_finite (x * y)%D = true /\
  2 ^ 53 * Z.abs (V (x * y)%D * 2 ^ 1074 - V x * V y)
  <= (Z.abs (V (x * y)%D) + 2 ^ 52) * 2 ^ 1074.
Proof.
  intros Hvx Hvy Hfx Hfy Hb.
  assert (HW : 0 < 2 ^ 1074) by (apply pow2_pos; lia).
  assert (H52 : 0 < 2 ^ 52) by reflexivity.
  destruct x as [sx | sx | | sx mx ex]; try discriminate Hfx.
  - destruct (mul_zero_l sx y Hfy) as [s' ->].
    change (V (S754_zero s')) with 0. change (V (S754_zero sx)) with 0.
    split; [ reflexivity | ]. rewrite !Z.mul_0_l. simpl Z.abs. nia.
  - destruct y as [sy | sy | | sy my ey]; try discriminate Hfy.
    + destruct (mul_zero_r (S754_finite sx mx ex) sy eq_refl) as [s' ->].
      change (V (S754_zero s')) with 0. change (V (S754_zero sy)) with 0.
      split; [ reflexivity | ]. rewrite Z.mul_0_l, Z.mul_0_r. simpl Z.abs. nia.
    + exact (mul_value_finite sx mx ex sy my ey Hvx Hvy Hb).
Qed.

Lemma div_core_eq m1 e1 m2 e2 :
  0 < m1 -> 0 < m2 ->
  let e' := Z.min (fexp prec emax (Zdigits2 m1 + e1 - (Zdigits2 m2 + e2))) (e1 - e2) in
  let s := e1 - e2 - e' in
  SFdiv_core_binary prec emax m1 e1 m2 e2
  = (m1 * 2 ^ s / m2, e', locq (m1 * 2 ^ s) m2).
Proof.
  intros H1 H2 e' s. unfold SFdiv_core_binary.
  fold e'. fold s.
  assert (Hs : 0 <= s) by (unfold s, e'; lia).
  assert (Hm : match s with Zpos _ => Z.shiftl m1 s | 0 => m1 | Zneg _ => 0 end
               = m1 * 2 ^ s).
  { destruct s as [ | p | p] eqn:Es; [ simpl; lia | | lia ].
    apply Z.shiftl_mul_pow2. lia. }
  rewrite Hm.
  rewrite <- (new_location_locq m2 (m1 * 2 ^ s) H2).
  unfold Z.div, Z.modulo.
  destruct (Z.div_eucl (m1 * 2 ^ s) m2) as [q r]. reflexivity.
Qed.

Lemma div_value_finite sx mx ex sy my ey :
  let x := S754_finite sx mx ex in
  let y := S754_finite sy my ey in
  valid x = true -> valid y = true ->
  Z.abs (V x) * 2 ^ 1074 < 2 ^ 2097 * Z.abs (V y) ->
  is_finite (x / y)%D = true /\
  2 ^ 53 * Z.abs (V (x / y)%D * V y - V x * 2 ^ 1074)
  <= (Z.abs (V (x / y)%D) + 2 ^ 52) * Z.abs (V y).
Proof.
  intros x y Hvx Hvy Hb.
  assert (HW : 0 < 2 ^ 1074) by (apply pow2_pos; lia).
  pose proof (valid_exponent _ _ _ Hvx) as Hex.
  pose proof (valid_exponent _ _ _ Hvy) as Hey.
  pose proof (div_core_canonical (Zpos mx) ex (Zpos my) ey ltac:(lia) ltac:(lia)) as Hcan.
  pose proof (div_core_eq (Zpos mx) ex (Zpos my) ey ltac:(lia) ltac:(lia)) as Hcore.
  cbv zeta in Hcore.
  set (e' := Z.min (fexp prec emax (Zdigits2 (Zpos mx) + ex - (Zdigits2 (Zpos my) + ey)))
                   (ex - ey)) in *.
  set (s := ex - ey - e') in *.
  assert (Hs : 0 <= s) by (unfold s, e'; lia).
  assert (Hps : 0 < 2 ^ s) by (apply pow2_pos; lia).
  assert (He' : 0 <= e' + ey + 2148).
  { unfold e'. rewrite fexp_eq. lia. }
  assert (Ediv : (x / y)%D
                 = binary_round_aux prec emax (xorb sx sy)
                     (Zpos mx * 2 ^ s / Zpos my) e'
                     (locq (Zpos mx * 2 ^ s) (Zpos my))).
  { unfold x, y, div, SFdiv. now rewrite Hcore. }
  rewrite Hcore in Hcan. destruct Hcan as [_ Hpre].
  pose proof (binary_round_aux_value (xorb sx sy) (Zpos mx * 2 ^ s) (Zpos my) e'
                ltac:(nia) ltac:(lia) Hpre) as H.
  cbv zeta in H. rewrite <- Ediv in H. clear Ediv Hcore.
  generalize dependent (x / y)%D. intros r H.
  set (n := fexp prec emax (Zdigits2 (Zpos mx * 2 ^ s / Zpos my) + e') - e') in *.
  set (M := rneq (Zpos mx * 2 ^ s) (Zpos my * 2 ^ n)) in *.
  set (T := 2 ^ (e' + n + 1074)) in *.
  destruct H as (Hn & He1 & Hc & Hfin).
  assert (Hpn : 0 < 2 ^ n) by (apply pow2_pos; lia).
  assert (HT : 0 < T) by (apply pow2_pos; lia).
  destruct (rneq_error (Zpos mx * 2 ^ s) (Zpos my * 2 ^ n) ltac:(nia) ltac:(nia))
    as [[Hlo _] Herr].
  fold M in Hlo, Herr.
  assert (HM : 0 <= M).
  { assert (0 <= Zpos mx * 2 ^ s / (Zpos my * 2 ^ n)) by (apply Z.div_pos; nia). lia. }
  set (K := 2 ^ (e' + ey + 2148)).
  assert (HK : 0 < K) by (apply pow2_pos; lia).
  set (Q := Zpos my * 2 ^ (ey + 1074)).
  assert (HQ : 0 < Q).
  { unfold Q. pose proof (pow2_pos (ey + 1074) ltac:(lia)). nia. }
  assert (EVy : V y = cond_Zopp sy Q) by reflexivity.
  assert (EVx : V x * 2 ^ 1074 = cond_Zopp sx (Zpos mx * 2 ^ s * K)).
  { unfold x, V, K.
    replace (Zpos mx * 2 ^ s * 2 ^ (e' + ey + 2148))
      with (Zpos mx * (2 ^ s * 2 ^ (e' + ey + 2148))) by ring.
    rewrite <- (Z.pow_add_r 2 s) by lia.
    replace (s + (e' + ey + 2148)) with ((ex + 1074) + 1074) by (unfold s; lia).
    rewrite (Z.pow_add_r 2 (ex + 1074) 1074) by lia.
    unfold cond_Zopp. destruct sx; ring. }
  assert (HPK : 0 <= Zpos mx * 2 ^ s * K).
  { apply Z.mul_nonneg_nonneg; [ | lia ]. apply Z.mul_nonneg_nonneg; lia. }
  assert (EVxa : Z.abs (V x) * 2 ^ 1074 = Zpos mx * 2 ^ s * K).
  { rewrite <- (Z.abs_eq (2 ^ 1074)) at 1 by lia.
    rewrite <- Z.abs_mul, EVx, V_cond_Zopp. now apply Z.abs_eq. }
  rewrite EVxa in Hb. rewrite EVx, EVy, V_cond_Zopp, (Z.abs_eq Q) in * by lia.
  clearbody x y. clear Hvx Hvy EVx EVy EVxa.
  assert (ETQ : T * Q = Zpos my * 2 ^ n * K).
  { unfold T, Q, K.
    replace (2 ^ (e' + n + 1074) * (Zpos my * 2 ^ (ey + 1074)))
      with (Zpos my * (2 ^ (e' + n + 1074) * 2 ^ (ey + 1074))) by ring.
    rewrite <- (Z.pow_add_r 2 (e' + n + 1074)) by lia.
    replace (Zpos my * 2 ^ n * 2 ^ (e' + ey + 2148))
      with (Zpos my * (2 ^ n * 2 ^ (e' + ey + 2148))) by ring.
    rewrite <- (Z.pow_add_r 2 n) by lia.
    do 2 f_equal. lia. }
  assert (Herr' : 2 * Z.abs (M * T * Q - Zpos mx * 2 ^ s * K) <= T * Q).
  { replace (M * T * Q) with (M * (T * Q)) by ring.
    rewrite ETQ.
    replace (M * (Zpos my * 2 ^ n * K) - Zpos mx * 2 ^ s * K)
      with ((M * (Zpos my * 2 ^ n) - Zpos mx * 2 ^ s) * K) by ring.
    rewrite Z.abs_mul, (Z.abs_eq K) by lia.
    replace (Zpos my * 2 ^ n * K) with ((Zpos my * 2 ^ n) * K) by ring.
    rewrite Z.mul_assoc.
    apply Z.mul_le_mono_nonneg_r; [ lia | exact Herr ]. }
  destruct (rounded_bounds M T (Zpos mx * 2 ^ s * K) Q
              HM HT HPK HQ Hc Herr') as [Hov Hrel].
  specialize (Hov Hb). destruct (Hfin Hov) as [F1 F2].
  split; [ exact F1 | ].
  rewrite F2, V_cond_Zopp, (Z.abs_eq (M * T)) by (apply Z.mul_nonneg_nonneg; lia).
  replace (cond_Zopp (xorb sx sy) (M * T) * cond_Zopp sy Q
           - cond_Zopp sx (Zpos mx * 2 ^ s * K))
    with (cond_Zopp sx (M * T * Q - Zpos mx * 2 ^ s * K))
    by (unfold cond_Zopp; destruct sx, sy; simpl xorb; ring).
  rewrite V_cond_Zopp. exact Hrel.
Qed.

Lemma div_zero_l s y :
  is_finite y = true -> V y <> 0 ->
  exists s', (S754_zero s / y)%D = S754_zero s'.
Proof.
  destruct y as [sy | sy | | sy my ey]; try discriminate; intros _ H.
  - now contradiction H.
  - eexists; reflexivity.
Qed.

Lemma div_value x y :
  valid x = true -> valid y = true ->
  is_finite x = true -> is_finite y = true -> V y <> 0 ->
  Z.abs (V x) * 2 ^ 1074 < 2 ^ 2097 * Z.abs (V y) ->
  is_finite (x / y)%D = true /\
  2 ^ 53 * Z.abs (V (x / y)%D * V y - V x * 2 ^ 1074)
  <= (Z.abs (V (x / y)%D) + 2 ^ 52) * Z.abs (V y).
Proof.
  intros Hvx Hvy Hfx Hfy Hy Hb.
  destruct x as [sx | sx | | sx mx ex]; try discriminate Hfx.
  - destruct (div_zero_l sx y Hfy Hy) as [s' ->].
    change (V (S754_zero s')) with 0. change (V (S754_zero sx)) with 0.
    split; [ reflexivity | ]. rewrite !Z.mul_0_l. simpl Z.abs.
    assert (0 < 2 ^ 52) by reflexivity. nia.
  - destruct y as [sy | sy | | sy my ey]; try discriminate Hfy.
    + now contradiction Hy.
    + exact (div_value_finite sx mx ex sy my ey Hvx Hvy Hb).
Qed.

(** ** Magnitudes and rounding errors, on reals *)


Lemma W_pos : (0 < W)%R.
Proof. unfold W. apply IZR_lt. apply pow2_pos. lia. Qed.

Lemma W_ge_1 : (1 <= W)%R.
Proof.
  unfold W. apply IZR_le.
  pose proof (pow2_le 0 1074 ltac:(lia)). simpl (2 ^ 0) in H. exact H.
Qed.

Lemma Rabs_bounds x b : (Rabs x <= b)%R -> (- b <= x <= b)%R.
Proof. unfold Rabs. destruct (Rcase_abs x); lra. Qed.

Lemma Rabs_Rv x : Rabs (Rv x) = IZR (Z.abs (V x)).
Proof. unfold Rv. now rewrite abs_IZR. Qed.

Lemma Big_Z n : (IZR (Z.abs n) <= Big)%R -> Z.abs n <= 2 ^ 64 * 2 ^ 1074.
Proof.
  intros H. apply le_IZR. rewrite mult_IZR. fold W.
  change (IZR (2 ^ 64)) with 18446744073709551616%R. exact H.
Qed.

Lemma Big_no_overflow n :
  Z.abs n <= 2 ^ 64 * 2 ^ 1074 -> Z.abs (rnd n) < 2 ^ 2098.
Proof.
  intros H. apply rnd_bound_omega.
  assert (E : 2 ^ 64 * 2 ^ 1074 = 2 ^ 1138) by (now rewrite <- Z.pow_add_r by lia).
  rewrite E in H.
  assert (2 ^ 1138 + 2 ^ 2044 + 1 <= 2 ^ 2098); [ | lia ].
  assert (2 ^ 1138 <= 2 ^ 2044) by (apply pow2_le; lia).
  assert (2 ^ 2098 = 2 ^ 54 * 2 ^ 2044) by (now rewrite <- Z.pow_add_r by lia).
  assert (0 < 2 ^ 2044) by (apply pow2_pos; lia).
  assert (2 ^ 54 = 18014398509481984) by reflexivity.
  lia.
Qed.

Lemma Big_lt : (Big < IZR (2 ^ 2097))%R.
Proof.
  unfold W. rewrite <- mult_IZR. apply IZR_lt.
  change 18446744073709551616 with (2 ^ 64).
  rewrite <- Z.pow_add_r by lia. apply pow2_lt. lia.
Qed.

Lemma rnd_rel_R n : (Rabs (IZR (rnd n) - IZR n) <= ur * Rabs (IZR n))%R.
Proof.
  pose proof (rnd_rel_error n) as H.
  apply IZR_le in H. rewrite mult_IZR, !abs_IZR, minus_IZR in H.
  change (IZR (2 ^ 53)) with 9007199254740992%R in H.
  lra.
Qed.

Lemma Bd_weaken x b b' : Bd x b -> (b <= b')%R -> Bd x b'.
Proof. intros (Hv & Hf & Hb) H. repeat split; try assumption. lra. Qed.

Lemma Bd_nonneg x b : Bd x b -> (0 <= b)%R.
Proof. intros (_ & _ & Hb). pose proof (Rabs_pos (Rv x)). lra. Qed.

Lemma Bd_add x y bx by_ :
  Bd x bx -> Bd y by_ -> (bx + by_ <= Big)%R ->
  Bd (x + y)%D ((bx + by_) * (1 + ur)) /\
  (Rabs (Rv (x + y)%D - (Rv x + Rv y)) <= ur * (bx + by_))%R.
Proof.
  intros (Hvx & Hfx & Hbx) (Hvy & Hfy & Hby) Hbig.
  assert (Hs : (Rabs (IZR (V x + V y)) <= bx + by_)%R).
  { rewrite plus_IZR. eapply Rle_trans; [ apply Rabs_triang | ].
    unfold Rv in *. lra. }
  assert (Hz : Z.abs (V x + V y) <= 2 ^ 64 * 2 ^ 1074).
  { apply Big_Z. rewrite abs_IZR. lra. }
  destruct (add_bounded x y Hvx Hvy Hfx Hfy (Big_no_overflow _ Hz))
    as (Hf & Hv & HV).
  pose proof (rnd_rel_R (V x + V y)) as He.
  assert (Herr : (Rabs (Rv (x + y)%D - (Rv x + Rv y)) <= ur * (bx + by_))%R).
  { unfold Rv. rewrite HV, <- plus_IZR.
    eapply Rle_trans; [ exact He | ].
    apply Rmult_le_compat_l; [ lra | exact Hs ]. }
  split; [ | exact Herr ].
  repeat split; try assumption.
  replace (Rv (x + y)%D) with ((Rv (x + y)%D - (Rv x + Rv y)) + (Rv x + Rv y))%R by ring.
  eapply Rle_trans; [ apply Rabs_triang | ].
  unfold Rv in *. rewrite plus_IZR in Hs. lra.
Qed.

Lemma Bd_sub x y bx by_ :
  Bd x bx -> Bd y by_ -> (bx + by_ <= Big)%R ->
  Bd (x - y)%D ((bx + by_) * (1 + ur)) /\
  (Rabs (Rv (x - y)%D - (Rv x - Rv y)) <= ur * (bx + by_))%R.
Proof.
  intros (Hvx & Hfx & Hbx) (Hvy & Hfy & Hby) Hbig.
  assert (Hs : (Rabs (IZR (V x - V y)) <= bx + by_)%R).
  { rewrite minus_IZR. unfold Rminus.
    eapply Rle_trans; [ apply Rabs_triang | ].
    rewrite Rabs_Ropp. unfold Rv in *. lra. }
  assert (Hz : Z.abs (V x - V y) <= 2 ^ 64 * 2 ^ 1074).
  { apply Big_Z. rewrite abs_IZR. lra. }
  destruct (sub_bounded x y Hvx Hvy Hfx Hfy (Big_no_overflow _ Hz))
    as (Hf & Hv & HV).
  pose proof (rnd_rel_R (V x - V y)) as He.
  assert (Herr : (Rabs (Rv (x - y)%D - (Rv x - Rv y)) <= ur * (bx + by_))%R).
  { unfold Rv. rewrite HV, <- minus_IZR.
    eapply Rle_trans; [ exact He | ].
    apply Rmult_le_compat_l; [ lra | exact Hs ]. }
  split; [ | exact Herr ].
  repeat split; try assumption.
  replace (Rv (x - y)%D) with ((Rv (x - y)%D - (Rv x - Rv y)) + (Rv x - Rv y))%R by ring.
  eapply Rle_trans; [ apply Rabs_triang | ].
  unfold Rv in *. rewrite minus_IZR in Hs. lra.
Qed.

Lemma Rabs_le_mult a b A B :
  (Rabs a <= A)%R -> (Rabs b <= B)%R -> (Rabs (a * b) <= A * B)%R.
Proof.
  intros Ha Hb. rewrite Rabs_mult.
  apply Rmult_le_compat; try apply Rabs_pos; assumption.
Qed.

Lemma grow_bound z c : (0 <= z)%R -> (z * (1 - ur) <= c)%R -> (z <= c * (1 + 2 * ur))%R.
Proof. intros Hz H. nra. Qed.

Lemma Bd_fin x : valid x = true -> is_finite x = true -> Bd x (Rabs (Rv x)).
Proof. intros Hv Hf. repeat split; try assumption. apply Rle_refl. Qed.

Lemma Bd_mul x y P :
  valid x = true -> is_finite x = true ->
  valid y = true -> is_finite y = true ->
  (Rabs (Rv x) * Rabs (Rv y) <= P * W)%R -> (P <= Big)%R ->
  Bd (x * y)%D ((P + / 2) * (1 + 2 * ur)) /\
  (Rabs (Rv (x * y)%D - Rv x * Rv y / W) <= ur * ((P + / 2) * (1 + 2 * ur)) + / 2)%R.
Proof.
  intros Hvx Hfx Hvy Hfy Hprod0 Hbig.
  pose proof W_pos as HW. pose proof W_ge_1 as HW1.
  assert (Hprod : (Rabs (Rv x * Rv y) <= P * W)%R) by (now rewrite Rabs_mult).
  assert (HP0 : (0 <= P)%R).
  { pose proof (Rabs_pos (Rv x * Rv y)).
    assert (0 <= P * W)%R by lra.
    apply (Rmult_le_reg_r W); lra. }
  assert (Hz : Z.abs (V x * V y) < 2 ^ 2097 * 2 ^ 1074).
  { apply lt_IZR. rewrite abs_IZR, !mult_IZR. fold (Rv x) (Rv y). fold W.
    eapply Rle_lt_trans; [ exact Hprod | ].
    apply Rmult_lt_compat_r; [ exact HW | ].
    eapply Rle_lt_trans; [ exact Hbig | ]. apply Big_lt. }
  destruct (mul_value x y Hvx Hvy Hfx Hfy Hz) as [Hf Herr].
  apply IZR_le in Herr.
  rewrite !mult_IZR, abs_IZR, minus_IZR, !mult_IZR, plus_IZR, abs_IZR in Herr.
  fold (Rv (x * y)%D) (Rv x) (Rv y) in Herr. fold W in Herr.
  change (IZR (2 ^ 53)) with 9007199254740992%R in Herr.
  change (IZR (2 ^ 52)) with 4503599627370496%R in Herr.
  set (Z := Rv (x * y)%D) in *.
  assert (HE : (Rabs (Z - Rv x * Rv y / W) <= ur * Rabs Z + / 2)%R).
  { replace (Z - Rv x * Rv y / W)%R with ((Z * W - Rv x * Rv y) / W)%R
      by (field; lra).
    unfold Rdiv. rewrite Rabs_mult, (Rabs_right (/ W)).
    2:{ apply Rle_ge, Rlt_le, Rinv_0_lt_compat, HW. }
    apply (Rmult_le_reg_r W); [ exact HW | ].
    rewrite Rmult_assoc, Rinv_l, Rmult_1_r by lra.
    lra. }
  assert (HEb : (Rabs (Rv x * Rv y / W) <= P)%R).
  { unfold Rdiv. rewrite Rabs_mult, (Rabs_right (/ W)).
    2:{ apply Rle_ge, Rlt_le, Rinv_0_lt_compat, HW. }
    apply (Rmult_le_reg_r W); [ exact HW | ].
    rewrite Rmult_assoc, Rinv_l, Rmult_1_r by lra. exact Hprod. }
  assert (HZ : (Rabs Z <= (P + / 2) * (1 + 2 * ur))%R).
  { apply grow_bound; [ apply Rabs_pos | ].
    assert (Rabs Z <= Rabs (Z - Rv x * Rv y / W) + Rabs (Rv x * Rv y / W))%R.
    { replace Z with ((Z - Rv x * Rv y / W) + Rv x * Rv y / W)%R at 1 by ring.
      apply Rabs_triang. }
    lra. }
  split.
  - repeat split; [ apply valid_mul; assumption | exact Hf | exact HZ ].
  - assert (0 <= ur)%R by lra.
    assert (ur * Rabs Z <= ur * ((P + / 2) * (1 + 2 * ur)))%R
      by (apply Rmult_le_compat_l; lra).
    lra.
Qed.

(** A product that the rounding takes to zero. *)
Lemma mul_small x y :
  valid x = true -> is_finite x = true ->
  valid y = true -> is_finite y = true ->
  (Rabs (Rv x) * Rabs (Rv y) <= / 4 * W)%R ->
  is_finite (x * y)%D = true /\ V (x * y)%D = 0.
Proof.
  intros Hvx Hfx Hvy Hfy Hp.
  pose proof W_ge_1.
  destruct (Bd_mul x y (/ 4) Hvx Hfx Hvy Hfy Hp ltac:(lra)) as [(_ & Hf & Hb) _].
  split; [ exact Hf | ].
  assert (Hlt : (Rabs (Rv (x * y)%D) < 1)%R) by lra.
  rewrite Rabs_Rv in Hlt. apply lt_IZR in Hlt. lia.
Qed.

Lemma Bd_div x y bx lo n1 n2 delta :
  Bd x bx -> valid y = true -> is_finite y = true ->
  Rabs (Rv y) = (delta * W)%R -> (1 <= lo)%R -> (lo <= delta)%R ->
  (0 <= n1)%R -> (0 <= n2)%R -> (bx <= n1 + n2 * delta)%R ->
  (n1 + n2 * delta <= Big)%R ->
  Bd (x / y)%D ((n1 / lo + n2 + / 2) * (1 + 2 * ur)) /\
  (Rabs (Rv (x / y)%D) * delta <= (n1 + (n2 + / 2) * delta) * (1 + 2 * ur))%R.
Proof.
  intros (Hvx & Hfx & Hbx) Hvy Hfy Hy Hlo1 Hlo Hn1 Hn2 Hb Hbig.
  pose proof W_pos as HW. pose proof W_ge_1 as HW1.
  assert (Hd : (0 < delta)%R) by lra.
  assert (HY : (0 < Rabs (Rv y))%R) by (rewrite Hy; apply Rmult_lt_0_compat; lra).
  assert (HY0 : Rv y <> 0%R).
  { intros E. rewrite E, Rabs_R0 in HY. lra. }
  assert (Hy0 : V y <> 0).
  { intros E. apply HY0. unfold Rv. now rewrite E. }
  assert (Hz : Z.abs (V x) * 2 ^ 1074 < 2 ^ 2097 * Z.abs (V y)).
  { apply lt_IZR. rewrite !mult_IZR, !abs_IZR. fold (Rv x) (Rv y). fold W.
    rewrite Hy.
    assert (Rabs (Rv x) * W <= Big * W)%R by (apply Rmult_le_compat_r; lra).
    assert (Big * W < IZR (2 ^ 2097) * (1 * W))%R.
    { rewrite Rmult_1_l. apply Rmult_lt_compat_r; [ exact HW | ].
      apply Big_lt. }
    assert (IZR (2 ^ 2097) * (1 * W) <= IZR (2 ^ 2097) * (delta * W))%R.
    { apply Rmult_le_compat_l.
      - apply IZR_le. apply Z.lt_le_incl, pow2_pos. lia.
      - apply Rmult_le_compat_r; lra. }
    lra. }
  destruct (div_value x y Hvx Hvy Hfx Hfy Hy0 Hz) as [Hf Herr].
  apply IZR_le in Herr.
  rewrite !mult_IZR, abs_IZR, minus_IZR, !mult_IZR, plus_IZR, !abs_IZR in Herr.
  fold (Rv (x / y)%D) (Rv x) (Rv y) in Herr. fold W in Herr.
  change (IZR (2 ^ 53)) with 9007199254740992%R in Herr.
  change (IZR (2 ^ 52)) with 4503599627370496%R in Herr.
  set (Z := Rv (x / y)%D) in *.
  rewrite Hy in Herr.
  (* |Z * y - x * W| <= (ur |Z| + 1/2) * delta * W *)
  assert (H1 : (Rabs (Z * Rv y - Rv x * W) <= (ur * Rabs Z + / 2) * (delta * W))%R) by lra.
  assert (H2 : (Rabs Z * (delta * W) <= Rabs (Rv x) * W + (ur * Rabs Z + / 2) * (delta * W))%R).
  { rewrite <- Hy, <- Rabs_mult.
    replace (Z * Rv y)%R with ((Z * Rv y - Rv x * W) + Rv x * W)%R by ring.
    eapply Rle_trans; [ apply Rabs_triang | ].
    rewrite (Rabs_mult (Rv x) W), (Rabs_right W) by lra.
    rewrite Hy. lra. }
  assert (H3 : (Rabs Z * (1 - ur) * delta <= n1 + (n2 + / 2) * delta)%R).
  { apply (Rmult_le_reg_r W); [ exact HW | ].
    assert (Rabs (Rv x) * W <= (n1 + n2 * delta) * W)%R
      by (apply Rmult_le_compat_r; lra).
    lra. }
  assert (H4 : (n1 <= n1 / lo * delta)%R).
  { unfold Rdiv. rewrite Rmult_assoc.
    rewrite <- (Rmult_1_r n1) at 1.
    apply Rmult_le_compat_l; [ exact Hn1 | ].
    apply (Rmult_le_reg_l lo); [ lra | ].
    rewrite <- Rmult_assoc, Rinv_r by lra. lra. }
  assert (HZ : (Rabs Z <= (n1 / lo + n2 + / 2) * (1 + 2 * ur))%R).
  { apply grow_bound; [ apply Rabs_pos | ].
    apply (Rmult_le_reg_r delta); [ exact Hd | ]. lra. }
  split.
  - repeat split; [ apply valid_div | exact Hf | exact HZ ].
  - apply grow_bound; [ apply Rmult_le_pos; [ apply Rabs_pos | lra ] | ]. lra.
Qed.

(** ** Comparison of doubles is comparison of their values *)

Lemma normal_mantissa s m e :
  valid (S754_finite s m e) = true -> -1074 < e -> 2 ^ 52 <= Zpos m.
Proof.
  intros Hv He. pose proof (valid_digits _ _ _ Hv) as Hd.
  assert (Hl : Z.log2 (Zpos m) = 52) by lia.
  pose proof (Z.log2_spec (Zpos m) ltac:(lia)) as [H _].
  now rewrite Hl in H.
Qed.

Lemma magnitude_lt s1 m1 e1 s2 m2 e2 :
  valid (S754_finite s1 m1 e1) = true -> valid (S754_finite s2 m2 e2) = true ->
  e1 < e2 -> Zpos m1 * 2 ^ (e1 + 1074) < Zpos m2 * 2 ^ (e2 + 1074).
Proof.
  intros H1 H2 He.
  pose proof (valid_exponent _ _ _ H1). pose proof (valid_exponent _ _ _ H2).
  pose proof (mantissa_bound _ _ _ H1) as Hm1.
  pose proof (normal_mantissa _ _ _ H2 ltac:(lia)) as Hm2.
  assert (Hp1 : 0 < 2 ^ (e1 + 1074)) by (apply pow2_pos; lia).
  assert (Hle : 2 * 2 ^ (e1 + 1074) <= 2 ^ (e2 + 1074)).
  { rewrite <- Z.pow_succ_r by lia. apply pow2_le. lia. }
  assert (E53 : 2 ^ 53 = 2 * 2 ^ 52) by reflexivity.
  nia.
Qed.

Lemma magnitude_compare s1 m1 e1 s2 m2 e2 :
  valid (S754_finite s1 m1 e1) = true -> valid (S754_finite s2 m2 e2) = true ->
  match e1 ?= e2 with
  | Lt => Lt
  | Gt => Gt
  | Eq => Pos.compare_cont Eq m1 m2
  end = (Zpos m1 * 2 ^ (e1 + 1074) ?= Zpos m2 * 2 ^ (e2 + 1074)).
Proof.
  intros H1 H2.
  destruct (Z.compare_spec e1 e2) as [E | E | E]; symmetry.
  - subst e2.
    pose proof (valid_exponent _ _ _ H1).
    assert (Hp : 0 < 2 ^ (e1 + 1074)) by (apply pow2_pos; lia).
    change (Pos.compare_cont Eq m1 m2) with (Zpos m1 ?= Zpos m2).
    destruct (Z.compare_spec (Zpos m1) (Zpos m2)) as [E | E | E].
    + apply Z.compare_eq_iff. now rewrite E.
    + apply Z.compare_lt_iff. nia.
    + apply Z.compare_gt_iff. nia.
  - apply Z.compare_lt_iff. eapply magnitude_lt; eassumption.
  - apply Z.compare_gt_iff. eapply magnitude_lt; eassumption.
Qed.

Lemma compare_V x y :
  valid x = true -> valid y = true ->
  is_finite x = true -> is_finite y = true ->
  SFcompare x y = Some (V x ?= V y).
Proof.
  intros Hvx Hvy Hfx Hfy.
  destruct x as [sx | sx | | sx mx ex], y as [sy | sy | | sy my ey];
    try discriminate Hfx; try discriminate Hfy.
  - reflexivity.
  - pose proof (valid_exponent _ _ _ Hvy).
    pose proof (pow2_pos (ey + 1074) ltac:(lia)).
    pose proof (Pos2Z.is_pos my).
    unfold SFcompare, V, cond_Zopp. f_equal. symmetry.
    destruct sy; [ apply Z.compare_gt_iff | apply Z.compare_lt_iff ]; nia.
  - pose proof (valid_exponent _ _ _ Hvx).
    pose proof (pow2_pos (ex + 1074) ltac:(lia)).
    pose proof (Pos2Z.is_pos mx).
    unfold SFcompare, V, cond_Zopp. f_equal. symmetry.
    destruct sx; [ apply Z.compare_lt_iff | apply Z.compare_gt_iff ]; nia.
  - pose proof (valid_exponent _ _ _ Hvx).
    pose proof (valid_exponent _ _ _ Hvy).
    pose proof (pow2_pos (ex + 1074) ltac:(lia)).
    pose proof (pow2_pos (ey + 1074) ltac:(lia)).
    pose proof (Pos2Z.is_pos mx). pose proof (Pos2Z.is_pos my).
    pose proof (magnitude_compare _ _ _ _ _ _ Hvx Hvy) as Hxy.
    pose proof (magnitude_compare _ _ _ _ _ _ Hvy Hvx) as Hyx.
    unfold SFcompare, V, cond_Zopp. f_equal.
    destruct sx, sy.
    + rewrite Z.compare_opp, <- Hyx.
      rewrite (Z.compare_antisym ex ey).
      change (Pos.compare_cont Eq my mx) with (Pos.compare my mx).
      change (Pos.compare_cont Eq mx my) with (Pos.compare mx my).
      rewrite (Pos.compare_antisym mx my).
      destruct (ex ?= ey); reflexivity.
    + symmetry. apply Z.compare_lt_iff. nia.
    + symmetry. apply Z.compare_gt_iff. nia.
    + exact Hxy.
Qed.

Lemma ltb_V x y :
  valid x = true -> valid y = true ->
  is_finite x = true -> is_finite y = true ->
  (x < y)%D = (V x <? V y).
Proof.
  intros Hvx Hvy Hfx Hfy. unfold ltb, SFltb.
  rewrite (compare_V x y Hvx Hvy Hfx Hfy). unfold Z.ltb.
  destruct (V x ?= V y); reflexivity.
Qed.

Lemma gtb_V x y :
  valid x = true -> valid y = true ->
  is_finite x = true -> is_finite y = true ->
  (x > y)%D = (V y <? V x).
Proof. intros. unfold gtb. now apply ltb_V. Qed.

Lemma eqb_V_iff x y :
  valid x = true -> valid y = true ->
  is_finite x = true -> is_finite y = true ->
  (x == y)%D = (V x =? V y).
Proof.
  intros Hvx Hvy Hfx Hfy. unfold eqb, SFeqb.
  rewrite (compare_V x y Hvx Hvy Hfx Hfy), Z.eqb_compare.
  destruct (V x ?= V y); reflexivity.
Qed.

(** ** The error-free transformations, up to rounding errors *)

Ltac rabs :=
  repeat match goal with
         | H : (Rabs _ <= _)%R |- _ => apply Rabs_bounds in H
         end;
  try apply Rabs_le; lra.

Lemma Rv_int x k : V x = k * 2 ^ 1074 -> Rv x = (IZR k * W)%R.
Proof. intros H. unfold Rv, W. now rewrite H, mult_IZR. Qed.

Lemma quick_two_sum_R a b A B :
  Bd a A -> Bd b B -> (A + B <= 4294967296 * W)%R ->
  Bd (fst (qd.quick_two_sum a b)) ((A + B) * (1 + ur)) /\
  Bd (snd (qd.quick_two_sum a b)) (8 * ur * (A + B)).
Proof.
  intros Ha Hb Hbig.
  pose proof W_pos as HW.
  pose proof (Bd_nonneg _ _ Ha) as HA. pose proof (Bd_nonneg _ _ Hb) as HB.
  unfold qd.quick_two_sum. cbv zeta. cbn [fst snd].
  destruct (Bd_add a b A B Ha Hb ltac:(lra)) as [Hs E1].
  destruct (Bd_sub _ a _ A Hs Ha ltac:(lra)) as [Hd E2].
  destruct (Bd_sub b _ B _ Hb Hd ltac:(lra)) as [He E3].
  split; [ exact Hs | ].
  destruct He as (Hv & Hf & _). repeat split; try assumption.
  rabs.
Qed.

Lemma two_diff_R a b A B :
  Bd a A -> Bd b B -> (A + B <= 4294967296 * W)%R ->
  Bd (fst (qd.two_diff a b)) ((A + B) * (1 + ur)) /\
  Bd (snd (qd.two_diff a b)) (32 * ur * (A + B)) /\
  (Rabs (Rv (fst (qd.two_diff a b)) - (Rv a - Rv b)) <= ur * (A + B))%R.
Proof.
  intros Ha Hb Hbig.
  pose proof W_pos as HW.
  pose proof (Bd_nonneg _ _ Ha) as HA. pose proof (Bd_nonneg _ _ Hb) as HB.
  unfold qd.two_diff. cbv zeta. cbn [fst snd].
  destruct (Bd_sub a b A B Ha Hb ltac:(lra)) as [Hs E1].
  destruct (Bd_sub _ a _ A Hs Ha ltac:(lra)) as [Hbb E2].
  destruct (Bd_sub _ _ _ _ Hs Hbb ltac:(lra)) as [H1 E3].
  destruct (Bd_sub a _ A _ Ha H1 ltac:(lra)) as [H2 E4].
  destruct (Bd_add b _ B _ Hb Hbb ltac:(lra)) as [H3 E5].
  destruct (Bd_sub _ _ _ _ H2 H3 ltac:(lra)) as [He E6].
  split; [ exact Hs | ]. split; [ | exact E1 ].
  destruct He as (Hv & Hf & _). repeat split; try assumption.
  rabs.
Qed.

Lemma Bd_SPLITTER : Bd qd._QD_SPLITTER (134217729 * W).
Proof.
  repeat split.
  rewrite (Rv_int _ 134217729) by (vm_compute; reflexivity).
  pose proof W_pos. rewrite Rabs_right by lra. lra.
Qed.

Lemma THRESH_large : (4294967296 * W <= Rv qd._QD_SPLIT_THRESH)%R.
Proof.
  unfold Rv, W. change 4294967296%R with (IZR 4294967296).
  rewrite <- mult_IZR. apply IZR_le. vm_compute. discriminate.
Qed.

(** Below the threshold [split] takes its plain branch. *)
Lemma split_plain a A :
  Bd a A -> (A <= 4294967296 * W)%R ->
  qd.split a
  = (let temp := (qd._QD_SPLITTER * a)%D in
     let hi := (temp - (temp - a))%D in
     let lo := (a - hi)%D in (hi, lo)).
Proof.
  intros (Hv & Hf & Hb) HA. unfold qd.split.
  pose proof THRESH_large as HT. pose proof W_pos as HW.
  assert (Hlt : - V qd._QD_SPLIT_THRESH <= V a <= V qd._QD_SPLIT_THRESH).
  { apply Rabs_bounds in Hb. unfold Rv in *.
    split; apply le_IZR; [ rewrite opp_IZR | ]; lra. }
  assert (E1 : (a > qd._QD_SPLIT_THRESH)%D = false).
  { rewrite gtb_V by (try assumption; reflexivity). apply Z.ltb_ge. lia. }
  assert (E2 : (a < - qd._QD_SPLIT_THRESH)%D = false).
  { rewrite ltb_V by (try assumption; reflexivity). apply Z.ltb_ge.
    change (V (- qd._QD_SPLIT_THRESH)%D) with (- V qd._QD_SPLIT_THRESH). lia. }
  rewrite E1, E2. reflexivity.
Qed.

Lemma split_R a A :
  Bd a A -> (A <= 4294967296 * W)%R ->
  Bd (fst (qd.split a)) (A * (1 + / 8388608) + 2) /\
  Bd (snd (qd.split a)) (A * / 8388608 + 2) /\
  (Rabs (Rv (fst (qd.split a)) - Rv a) <= A * / 8388608 + 2)%R.
Proof.
  intros Ha HA. rewrite (split_plain a A Ha HA). cbv zeta. cbn [fst snd].
  pose proof W_pos as HW. pose proof W_ge_1 as HW1.
  pose proof (Bd_nonneg _ _ Ha) as HA0.
  pose proof Bd_SPLITTER as (Cv & Cf & Cb).
  destruct (Ha) as (Hv & Hf & Hb).
  destruct (Bd_mul qd._QD_SPLITTER a (134217729 * A) Cv Cf Hv Hf) as [Ht _].
  { replace (134217729 * A * W)%R with ((134217729 * W) * A)%R by ring.
    apply Rmult_le_compat; try apply Rabs_pos; assumption. }
  { lra. }
  destruct (Bd_sub _ a _ A Ht Ha ltac:(lra)) as [H1 E1].
  destruct (Bd_sub _ _ _ _ Ht H1 ltac:(lra)) as [Hhi E2].
  destruct (Bd_sub a _ A _ Ha Hhi ltac:(lra)) as [Hlo E3].
  assert (Ehi : (Rabs (Rv (qd._QD_SPLITTER * a - (qd._QD_SPLITTER * a - a))%D - Rv a)
                 <= A * / 8388608 + 2)%R) by rabs.
  split; [ | split; [ | exact Ehi ] ].
  - destruct Hhi as (Hvh & Hfh & _). repeat split; try assumption. rabs.
  - destruct Hlo as (Hvl & Hfl & _). repeat split; try assumption. rabs.
Qed.

Lemma Rabs_prod_le x y X Y :
  (Rabs x <= X)%R -> (Rabs y <= Y)%R -> (Rabs x * Rabs y <= X * Y)%R.
Proof. intros Hx Hy. apply Rmult_le_compat; try apply Rabs_pos; assumption. Qed.

Section TwoProd.
Variables a b : double.
Variables P ka kb : R.
Hypothesis Hva : valid a = true.
Hypothesis Hfa : is_finite a = true.
Hypothesis Hvb : valid b = true.
Hypothesis Hfb : is_finite b = true.
Hypothesis Hka : (Rabs (Rv a) <= ka * W)%R.
Hypothesis Hkb : (Rabs (Rv b) <= kb * W)%R.
Hypothesis HP : (Rabs (Rv a) * Rabs (Rv b) <= P * W)%R.
Hypothesis Hka30 : (ka <= 1073741824)%R.
Hypothesis Hkb30 : (kb <= 1073741824)%R.
Hypothesis HP60 : (P <= 1152921504606846976 * W)%R.

Lemma two_prod_R :
  Bd (fst (qd.two_prod a b)) ((P + / 2) * (1 + 2 * ur)) /\
  Bd (snd (qd.two_prod a b)) (P * / 1048576 + 5 * ka + 5 * kb + 32).
Proof.
  pose proof W_pos as HW. pose proof W_ge_1 as HW1.
  pose proof (Rabs_pos (Rv a)) as Ha0. pose proof (Rabs_pos (Rv b)) as Hb0.
  assert (Hka0 : (0 <= ka)%R).
  { apply (Rmult_le_reg_r W); lra. }
  assert (Hkb0 : (0 <= kb)%R).
  { apply (Rmult_le_reg_r W); lra. }
  assert (HP0 : (0 <= P)%R).
  { assert (0 <= Rabs (Rv a) * Rabs (Rv b))%R by (apply Rmult_le_pos; assumption).
    apply (Rmult_le_reg_r W); lra. }
  assert (HkaW : (ka * W <= 1073741824 * W)%R) by (apply Rmult_le_compat_r; lra).
  assert (HkbW : (kb * W <= 1073741824 * W)%R) by (apply Rmult_le_compat_r; lra).
  unfold qd.two_prod. cbv zeta.
  pose proof (split_R a _ (Bd_fin a Hva Hfa) ltac:(lra)) as (Hah & Hal & Eah).
  pose proof (split_R b _ (Bd_fin b Hvb Hfb) ltac:(lra)) as (Hbh & Hbl & Ebh).
  destruct (qd.split a) as [ah al]. destruct (qd.split b) as [bh bl].
  cbn [fst snd] in *.
  set (A := Rabs (Rv a)) in *. set (B := Rabs (Rv b)) in *.
  assert (HPW : (0 <= P * W)%R) by (apply Rmult_le_pos; lra).
  assert (HAB : (0 <= A * B)%R) by (apply Rmult_le_pos; assumption).
  assert (HP' : (A * B <= P * W)%R) by exact HP.
  destruct Hah as (Vah & Fah & Bah). destruct Hal as (Val & Fal & Bal).
  destruct Hbh as (Vbh & Fbh & Bbh). destruct Hbl as (Vbl & Fbl & Bbl).
  (* the five products *)
  destruct (Bd_mul a b P Hva Hfa Hvb Hfb HP ltac:(lra)) as [Hp Ep].
  destruct (Bd_mul ah bh (P * (1 + / 2097152) + 21 / 10 * ka + 21 / 10 * kb + 4)
              Vah Fah Vbh Fbh) as [H1 E1].
  { eapply Rle_trans; [ apply (Rabs_prod_le _ _ _ _ Bah Bbh) | ]. lra. }
  { lra. }
  destruct (Bd_mul ah bl (P * / 8000000 + 21 / 10 * ka + kb / 1000 + 4)
              Vah Fah Vbl Fbl) as [H3 _].
  { eapply Rle_trans; [ apply (Rabs_prod_le _ _ _ _ Bah Bbl) | ]. lra. }
  { lra. }
  destruct (Bd_mul al bh (P * / 8000000 + ka / 1000 + 21 / 10 * kb + 4)
              Val Fal Vbh Fbh) as [H5 _].
  { eapply Rle_trans; [ apply (Rabs_prod_le _ _ _ _ Bal Bbh) | ]. lra. }
  { lra. }
  destruct (Bd_mul al bl (P * / 8000000 + ka / 1000 + kb / 1000 + 4)
              Val Fal Vbl Fbl) as [H7 _].
  { eapply Rle_trans; [ apply (Rabs_prod_le _ _ _ _ Bal Bbl) | ]. lra. }
  { lra. }
  (* the difference of the leading products *)
  assert (Ediff : (Rabs (Rv ah * Rv bh / W - Rv a * Rv b / W)
                   <= P * / 2097152 + 21 / 10 * ka + 21 / 10 * kb + 4)%R).
  { replace (Rv ah * Rv bh / W - Rv a * Rv b / W)%R
      with ((Rv a * (Rv bh - Rv b) + (Rv ah - Rv a) * Rv b
             + (Rv ah - Rv a) * (Rv bh - Rv b)) / W)%R by (field; lra).
    unfold Rdiv. rewrite Rabs_mult, (Rabs_right (/ W)).
    2:{ apply Rle_ge, Rlt_le, Rinv_0_lt_compat, HW. }
    apply (Rmult_le_reg_r W); [ exact HW | ].
    rewrite Rmult_assoc, Rinv_l, Rmult_1_r by lra.
    eapply Rle_trans; [ apply Rabs_triang | ].
    eapply Rle_trans;
      [ apply Rplus_le_compat; [ apply Rabs_triang | apply Rle_refl ] | ].
    rewrite !Rabs_mult. fold A B.
    pose proof (Rabs_prod_le _ _ _ _ (Rle_refl A) Ebh) as T1.
    pose proof (Rabs_prod_le _ _ _ _ Eah (Rle_refl B)) as T2.
    pose proof (Rabs_prod_le _ _ _ _ Eah Ebh) as T3.
    fold A in T1. fold B in T2.
    assert (HkaA : (A <= ka * W)%R) by exact Hka.
    assert (HkbB : (B <= kb * W)%R) by exact Hkb.
    lra. }
  destruct (Bd_sub _ _ _ _ H1 Hp ltac:(lra)) as [H2 E2].
  destruct (Bd_add _ _ _ _ H2 H3 ltac:(lra)) as [H4 E4].
  destruct (Bd_add _ _ _ _ H4 H5 ltac:(lra)) as [H6 E6].
  destruct (Bd_add _ _ _ _ H6 H7 ltac:(lra)) as [H8 E8].
  split; [ exact Hp | ].
  destruct H8 as (V8 & F8 & _). repeat split; try assumption.
  destruct H3 as (_ & _ & B3). destruct H5 as (_ & _ & B5).
  destruct H7 as (_ & _ & B7).
  clear H1 H2 H4 H6 Hp.
  rabs.
Qed.

End TwoProd.

(** ** Magnitudes below one unit *)

Lemma W_large : (18446744073709551616 <= W)%R.
Proof. unfold W. apply IZR_le. vm_compute. discriminate. Qed.

(** A magnitude below one unit is zero. *)
Lemma Bd_lt1 x b : Bd x b -> (b < 1)%R -> Bd x 0.
Proof.
  intros (Hv & Hf & Hb) Hlt. repeat split; try assumption.
  assert (Hlt' : (Rabs (Rv x) < 1)%R) by lra.
  rewrite Rabs_Rv in *. apply lt_IZR in Hlt'.
  replace (Z.abs (V x)) with 0 by lia. apply Rle_refl.
Qed.

Lemma Bd_0_V x : Bd x 0 -> V x = 0.
Proof.
  intros (_ & _ & Hb). rewrite Rabs_Rv in Hb. apply le_IZR in Hb. lia.
Qed.

Lemma Bd_0_Rv x : Bd x 0 -> Rv x = 0%R.
Proof. intros H. unfold Rv. now rewrite (Bd_0_V x H). Qed.

Lemma Bd_mul0 x y :
  valid x = true -> is_finite x = true ->
  valid y = true -> is_finite y = true ->
  (Rabs (Rv x) * Rabs (Rv y) <= / 4 * W)%R -> Bd (x * y)%D 0.
Proof.
  intros Hvx Hfx Hvy Hfy Hp. pose proof W_ge_1.
  destruct (Bd_mul x y (/ 4) Hvx Hfx Hvy Hfy Hp ltac:(lra)) as [Hb _].
  apply (Bd_lt1 _ _ Hb). lra.
Qed.

Lemma Bd_mul0_l x y : Bd x 0 -> valid y = true -> is_finite y = true -> Bd (x * y)%D 0.
Proof.
  intros Hx Hvy Hfy. pose proof W_pos.
  destruct (Hx) as (Hvx & Hfx & Hb).
  apply Bd_mul0; try assumption.
  pose proof (Rabs_pos (Rv x)). replace (Rabs (Rv x)) with 0%R by lra. lra.
Qed.

Lemma Bd_mul0_r x y : valid x = true -> is_finite x = true -> Bd y 0 -> Bd (x * y)%D 0.
Proof.
  intros Hvx Hfx Hy. pose proof W_pos.
  destruct (Hy) as (Hvy & Hfy & Hb).
  apply Bd_mul0; try assumption.
  pose proof (Rabs_pos (Rv y)). replace (Rabs (Rv y)) with 0%R by lra. lra.
Qed.

Lemma Bd_add0 x y : Bd x 0 -> Bd y 0 -> Bd (x + y)%D 0.
Proof.
  intros Hx Hy. pose proof W_pos.
  destruct (Bd_add x y 0 0 Hx Hy ltac:(lra)) as [Hb _].
  apply (Bd_weaken _ _ _ Hb). lra.
Qed.

Lemma Bd_sub0 x y : Bd x 0 -> Bd y 0 -> Bd (x - y)%D 0.
Proof.
  intros Hx Hy. pose proof W_pos.
  destruct (Bd_sub x y 0 0 Hx Hy ltac:(lra)) as [Hb _].
  apply (Bd_weaken _ _ _ Hb). lra.
Qed.

Lemma Bd_div0 x y delta :
  Bd x 0 -> valid y = true -> is_finite y = true ->
  Rabs (Rv y) = (delta * W)%R -> (1 <= delta)%R -> (delta <= 4294967296)%R ->
  Bd (x / y)%D 0.
Proof.
  intros Hx Hvy Hfy Hy Hd1 Hd2. pose proof W_pos. pose proof W_ge_1.
  destruct (Bd_div x y 0 1 0 0 delta Hx Hvy Hfy Hy) as [Hb _]; try lra.
  apply (Bd_lt1 _ _ Hb). lra.
Qed.

(** [split] of a zero is a pair of zeros. *)
Lemma split_zero a :
  Bd a 0 -> Bd (fst (qd.split a)) 0 /\ Bd (snd (qd.split a)) 0.
Proof.
  intros Ha. pose proof W_pos.
  rewrite (split_plain a 0 Ha) by lra. cbv zeta. cbn [fst snd].
  pose proof Bd_SPLITTER as (Cv & Cf & Cb).
  assert (Ht : Bd (qd._QD_SPLITTER * a)%D 0) by (apply Bd_mul0_r; assumption).
  assert (Hhi : Bd (qd._QD_SPLITTER * a - (qd._QD_SPLITTER * a - a))%D 0).
  { apply Bd_sub0; [ assumption | apply Bd_sub0; assumption ]. }
  split; [ exact Hhi | apply Bd_sub0; assumption ].
Qed.

(** ** The error-free transformations on zeros *)

(** [two_prod] when every partial product rounds to zero. *)
Lemma two_prod_zero a b Th Tl kh kl :
  valid a = true -> is_finite a = true ->
  valid b = true -> is_finite b = true ->
  (Rabs (Rv a) * Rabs (Rv b) <= / 4 * W)%R ->
  Bd (fst (qd.split a)) Th -> Bd (snd (qd.split a)) Tl ->
  Bd (fst (qd.split b)) kh -> Bd (snd (qd.split b)) kl ->
  (Th * kh <= / 4 * W)%R -> (Th * kl <= / 4 * W)%R ->
  (Tl * kh <= / 4 * W)%R -> (Tl * kl <= / 4 * W)%R ->
  Bd (fst (qd.two_prod a b)) 0 /\ Bd (snd (qd.two_prod a b)) 0.
Proof.
  intros Hva Hfa Hvb Hfb Hp Hah Hal Hbh Hbl H1 H2 H3 H4.
  unfold qd.two_prod. cbv zeta.
  destruct (qd.split a) as [ah al]. destruct (qd.split b) as [bh bl].
  cbn [fst snd] in *.
  destruct Hah as (Vah & Fah & Bah). destruct Hal as (Val & Fal & Bal).
  destruct Hbh as (Vbh & Fbh & Bbh). destruct Hbl as (Vbl & Fbl & Bbl).
  assert (Z0 : Bd (a * b)%D 0) by (apply Bd_mul0; assumption).
  assert (Z1 : Bd (ah * bh)%D 0).
  { apply Bd_mul0; try assumption.
    eapply Rle_trans; [ apply (Rabs_prod_le _ _ _ _ Bah Bbh) | exact H1 ]. }
  assert (Z2 : Bd (ah * bl)%D 0).
  { apply Bd_mul0; try assumption.
    eapply Rle_trans; [ apply (Rabs_prod_le _ _ _ _ Bah Bbl) | exact H2 ]. }
  assert (Z3 : Bd (al * bh)%D 0).
  { apply Bd_mul0; try assumption.
    eapply Rle_trans; [ apply (Rabs_prod_le _ _ _ _ Bal Bbh) | exact H3 ]. }
  assert (Z4 : Bd (al * bl)%D 0).
  { apply Bd_mul0; try assumption.
    eapply Rle_trans; [ apply (Rabs_prod_le _ _ _ _ Bal Bbl) | exact H4 ]. }
  split; [ exact Z0 | ].
  repeat first [ apply Bd_add0 | apply Bd_sub0 ]; assumption.
Qed.

Lemma quick_two_sum_zero a b :
  Bd a 0 -> Bd b 0 ->
  Bd (fst (qd.quick_two_sum a b)) 0 /\ Bd (snd (qd.quick_two_sum a b)) 0.
Proof.
  intros Ha Hb. unfold qd.quick_two_sum. cbv zeta. cbn [fst snd].
  assert (Hs : Bd (a + b)%D 0) by (apply Bd_add0; assumption).
  split; [ exact Hs | ].
  apply Bd_sub0; [ assumption | apply Bd_sub0; assumption ].
Qed.

Lemma two_diff_zero a b :
  Bd a 0 -> Bd b 0 ->
  Bd (fst (qd.two_diff a b)) 0 /\ Bd (snd (qd.two_diff a b)) 0.
Proof.
  intros Ha Hb. unfold qd.two_diff. cbv zeta. cbn [fst snd].
  assert (Hs : Bd (a - b)%D 0) by (apply Bd_sub0; assumption).
  assert (Hbb : Bd (a - b - a)%D 0) by (apply Bd_sub0; assumption).
  split; [ exact Hs | ].
  repeat first [ assumption | apply Bd_add0 | apply Bd_sub0 ].
Qed.

(** ** One iteration of the loop of [sinh]: product and quotient *)

Section Term.
Variables t r : dd_real.
Variable nu : R.
Hypothesis Ht0 : Bd (x0 t) nu.
Hypothesis Ht1 : Bd (x1 t) nu.
Hypothesis Hr0 : Bd (x0 r) (3 / 1000 * W).
Hypothesis Hr1 : Bd (x1 r) (/ 1000000 * W).

(** The product of the term by [r]: it shrinks by more than one hundred,
    up to a few units. *)
Lemma dd_mul_R :
  (nu <= 6 / 100 * W)%R ->
  Bd (x0 (t * r)%DD) (nu / 160 + 35) /\ Bd (x1 (t * r)%DD) (nu / 160 + 35).
Proof.
  intros Hnu.
  pose proof W_pos as HW. pose proof W_ge_1 as HW1. pose proof W_large as HWl.
  pose proof (Bd_nonneg _ _ Ht0) as Hnu0.
  destruct (Ht0) as (Vt0 & Ft0 & Bt0). destruct (Ht1) as (Vt1 & Ft1 & Bt1).
  destruct (Hr0) as (Vr0 & Fr0 & Br0). destruct (Hr1) as (Vr1 & Fr1 & Br1).
  unfold dd.mul.
  pose proof (two_prod_R (x0 t) (x0 r) (nu * (3 / 1000)) (6 / 100) (3 / 1000)
                Vt0 Ft0 Vr0 Fr0) as Htp.
  destruct Htp as [Hp1 Hp2]; try lra.
  { eapply Rle_trans; [ apply (Rabs_prod_le _ _ _ _ Bt0 Br0) | ]. nra. }
  destruct (qd.two_prod (x0 t) (x0 r)) as [p1 p2]. cbn [fst snd] in *.
  destruct (Bd_mul (x0 t) (x1 r) (nu * / 1000000) Vt0 Ft0 Vr1 Fr1) as [Hc1 _].
  { eapply Rle_trans; [ apply (Rabs_prod_le _ _ _ _ Bt0 Br1) | ]. nra. }
  { lra. }
  destruct (Bd_mul (x1 t) (x0 r) (nu * (3 / 1000)) Vt1 Ft1 Vr0 Fr0) as [Hc2 _].
  { eapply Rle_trans; [ apply (Rabs_prod_le _ _ _ _ Bt1 Br0) | ]. nra. }
  { lra. }
  destruct (Bd_add _ _ _ _ Hc1 Hc2 ltac:(lra)) as [Hc _].
  destruct (Bd_add _ _ _ _ Hp2 Hc ltac:(lra)) as [He _].
  destruct (quick_two_sum_R _ _ _ _ Hp1 He ltac:(lra)) as [Hs Hl].
  unfold dd.of_pair. cbn [x0 x1].
  split; [ apply (Bd_weaken _ _ _ Hs) | apply (Bd_weaken _ _ _ Hl) ]; lra.
Qed.

(** Once the term is down to a few units, the product is zero. *)
Lemma dd_mul_zero :
  (nu <= 64)%R ->
  Bd (x0 (t * r)%DD) 0 /\ Bd (x1 (t * r)%DD) 0.
Proof.
  intros Hnu.
  pose proof W_pos as HW. pose proof W_ge_1 as HW1. pose proof W_large as HWl.
  pose proof (Bd_nonneg _ _ Ht0) as Hnu0.
  destruct (Ht0) as (Vt0 & Ft0 & Bt0). destruct (Ht1) as (Vt1 & Ft1 & Bt1).
  destruct (Hr0) as (Vr0 & Fr0 & Br0). destruct (Hr1) as (Vr1 & Fr1 & Br1).
  unfold dd.mul.
  pose proof (split_R (x0 t) nu Ht0 ltac:(lra)) as (Sth & Stl & _).
  pose proof (split_R (x0 r) _ Hr0 ltac:(lra)) as (Srh & Srl & _).
  assert (Hprod : (Rabs (Rv (x0 t)) * Rabs (Rv (x0 r)) <= / 4 * W)%R).
  { eapply Rle_trans; [ apply (Rabs_prod_le _ _ _ _ Bt0 Br0) | ]. nra. }
  destruct (two_prod_zero (x0 t) (x0 r) _ _ _ _ Vt0 Ft0 Vr0 Fr0 Hprod
              Sth Stl Srh Srl) as [Hp1 Hp2]; try nra.
  destruct (qd.two_prod (x0 t) (x0 r)) as [p1 p2]. cbn [fst snd] in *.
  assert (Hc1 : Bd (x0 t * x1 r)%D 0).
  { apply Bd_mul0; try assumption.
    eapply Rle_trans; [ apply (Rabs_prod_le _ _ _ _ Bt0 Br1) | ]. nra. }
  assert (Hc2 : Bd (x1 t * x0 r)%D 0).
  { apply Bd_mul0; try assumption.
    eapply Rle_trans; [ apply (Rabs_prod_le _ _ _ _ Bt1 Br0) | ]. nra. }
  assert (He : Bd (p2 + (x0 t * x1 r + x1 t * x0 r))%D 0).
  { repeat apply Bd_add0; assumption. }
  destruct (quick_two_sum_zero _ _ Hp1 He) as [Hs Hl].
  unfold dd.of_pair. cbn [x0 x1]. split; assumption.
Qed.

End Term.

Section Quotient.
Variable t : dd_real.
Variable d : double.
Variables mu delta : R.
Hypothesis Ht0 : Bd (x0 t) mu.
Hypothesis Ht1 : Bd (x1 t) mu.
Hypothesis Hvd : valid d = true.
Hypothesis Hfd : is_finite d = true.
Hypothesis Hd : Rabs (Rv d) = (delta * W)%R.
Hypothesis Hlo : (6 <= delta)%R.
Hypothesis Hhi : (delta <= 1048576)%R.

(** The quotient of the term by [(m-1) * m], which is at least [6]. *)
Lemma dd_div_R :
  (mu <= / 1000 * W)%R ->
  Bd (x0 (dd.div_dd_d t d)) (mu + 13) /\ Bd (x1 (dd.div_dd_d t d)) (mu + 13).
Proof.
  intros Hmu.
  pose proof W_pos as HW. pose proof W_ge_1 as HW1. pose proof W_large as HWl.
  pose proof (Bd_nonneg _ _ Ht0) as Hmu0.
  destruct (Ht0) as (Vt0 & Ft0 & Bt0). destruct (Ht1) as (Vt1 & Ft1 & Bt1).
  unfold dd.div_dd_d. cbv zeta.
  destruct (Bd_div (x0 t) d mu 6 mu 0 delta Ht0 Hvd Hfd Hd) as [Hq1 Eq1]; try lra.
  set (q1 := (x0 t / d)%D) in *.
  destruct (Hq1) as (Vq1 & Fq1 & Bq1).
  assert (Hkb : (Rabs (Rv d) <= delta * W)%R) by (rewrite Hd; apply Rle_refl).
  assert (HP : (Rabs (Rv q1) * Rabs (Rv d)
                <= (mu + (0 + / 2) * delta) * (1 + 2 * ur) * W)%R).
  { rewrite Hd. rewrite <- Rmult_assoc. apply Rmult_le_compat_r; lra. }
  destruct (two_prod_R q1 d ((mu + (0 + / 2) * delta) * (1 + 2 * ur))
              (/ 1000) delta Vq1 Fq1 Hvd Hfd ltac:(lra) Hkb HP
              ltac:(lra) ltac:(lra) ltac:(lra)) as [Hp1 Hp2].
  destruct (qd.two_prod q1 d) as [p1 p2]. cbn [fst snd] in *.
  destruct (two_diff_R _ _ _ _ Ht0 Hp1 ltac:(lra)) as (Hs & He & _).
  destruct (qd.two_diff (x0 t) p1) as [s e]. cbn [fst snd] in *.
  destruct (Bd_add _ _ _ _ He Ht1 ltac:(lra)) as [He1 _].
  destruct (Bd_sub _ _ _ _ He1 Hp2 ltac:(lra)) as [He2 _].
  destruct (Bd_add _ _ _ _ Hs He2 ltac:(lra)) as [Hn _].
  destruct (Bd_div _ d _ 6 (4 * mu + 34) 6 delta Hn Hvd Hfd Hd) as [Hq2 _];
    try lra.
  destruct (quick_two_sum_R _ _ _ _ Hq1 Hq2 ltac:(lra)) as [Hs' Hl'].
  unfold dd.of_pair. cbn [x0 x1].
  split; [ apply (Bd_weaken _ _ _ Hs') | apply (Bd_weaken _ _ _ Hl') ]; lra.
Qed.

Lemma dd_div_zero :
  Bd (x0 t) 0 -> Bd (x1 t) 0 ->
  Bd (x0 (dd.div_dd_d t d)) 0 /\ Bd (x1 (dd.div_dd_d t d)) 0.
Proof.
  intros Hz0 Hz1.
  pose proof W_pos as HW. pose proof W_ge_1 as HW1. pose proof W_large as HWl.
  unfold dd.div_dd_d. cbv zeta.
  assert (Hq1 : Bd (x0 t / d)%D 0).
  { apply (Bd_div0 _ _ delta); try assumption; lra. }
  set (q1 := (x0 t / d)%D) in *.
  destruct (Hq1) as (Vq1 & Fq1 & Bq1).
  destruct (split_zero q1 Hq1) as [Sqh Sql].
  assert (Hdb : Bd d (delta * W)).
  { repeat split; try assumption. rewrite Hd. apply Rle_refl. }
  pose proof (split_R d _ Hdb) as (Sdh & Sdl & _).
  { apply Rmult_le_compat_r; lra. }
  assert (Hprod : (Rabs (Rv q1) * Rabs (Rv d) <= / 4 * W)%R).
  { pose proof (Rabs_pos (Rv q1)). replace (Rabs (Rv q1)) with 0%R by lra. lra. }
  destruct (two_prod_zero q1 d _ _ _ _ Vq1 Fq1 Hvd Hfd Hprod
              Sqh Sql Sdh Sdl) as [Hp1 Hp2]; try lra.
  destruct (qd.two_prod q1 d) as [p1 p2]. cbn [fst snd] in *.
  destruct (two_diff_zero _ _ Hz0 Hp1) as [Hs He].
  destruct (qd.two_diff (x0 t) p1) as [s e]. cbn [fst snd] in *.
  assert (Hn : Bd (s + (e + x1 t - p2))%D 0).
  { repeat first [ assumption | apply Bd_add0 | apply Bd_sub0 ]. }
  assert (Hq2 : Bd ((s + (e + x1 t - p2)) / d)%D 0).
  { apply (Bd_div0 _ _ delta); try assumption; lra. }
  destruct (quick_two_sum_zero _ _ Hq1 Hq2) as [Hs' Hl'].
  unfold dd.of_pair. cbn [x0 x1]. split; assumption.
Qed.

End Quotient.

(** ** The square of the argument of [sinh] *)

Lemma Bd_two : Bd d_two (2 * W).
Proof.
  repeat split.
  rewrite (Rv_int _ 2) by (vm_compute; reflexivity).
  pose proof W_pos. rewrite Rabs_right by lra. lra.
Qed.

(** The square of a double of magnitude at most [0.051]. *)
Lemma two_sqr_R a :
  Bd a (51 / 1000 * W) ->
  Bd (fst (qd.two_sqr a)) (27 / 10000 * W) /\
  Bd (snd (qd.two_sqr a)) (/ 10000000 * W).
Proof.
  intros Ha.
  pose proof W_pos as HW. pose proof W_ge_1 as HW1. pose proof W_large as HWl.
  assert (HWW : (18446744073709551616 * W <= W * W)%R) by nra.
  destruct (Ha) as (Hva & Hfa & Hba).
  unfold qd.two_sqr. cbv zeta.
  pose proof (split_R a _ Ha ltac:(lra)) as (Hh & Hl & Eh).
  destruct (qd.split a) as [hi lo]. cbn [fst snd] in *.
  destruct (Hh) as (Vh & Fh & Bh). destruct (Hl) as (Vl & Fl & Bl).
  destruct (Bd_mul a a (2601 / 1000000 * W) Hva Hfa Hva Hfa) as [Hq Eq].
  { eapply Rle_trans; [ apply (Rabs_prod_le _ _ _ _ Hba Hba) | ]. nra. }
  { lra. }
  destruct (Bd_mul hi hi (2602 / 1000000 * W) Vh Fh Vh Fh) as [H1 E1].
  { eapply Rle_trans; [ apply (Rabs_prod_le _ _ _ _ Bh Bh) | ]. nra. }
  { lra. }
  destruct Bd_two as (V2 & F2 & B2).
  destruct (Bd_mul d_two hi (1021 / 10000 * W) V2 F2 Vh Fh) as [H2 _].
  { eapply Rle_trans; [ apply (Rabs_prod_le _ _ _ _ B2 Bh) | ]. nra. }
  { lra. }
  destruct (H2) as (V2h & F2h & B2h).
  destruct (Bd_mul (d_two * hi)%D lo (/ 100000000 * W) V2h F2h Vl Fl) as [H3 _].
  { eapply Rle_trans; [ apply (Rabs_prod_le _ _ _ _ B2h Bl) | ]. nra. }
  { lra. }
  destruct (Bd_mul lo lo (/ 100000000 * W) Vl Fl Vl Fl) as [H4 _].
  { eapply Rle_trans; [ apply (Rabs_prod_le _ _ _ _ Bl Bl) | ]. nra. }
  { lra. }
  assert (Ediff : (Rabs (Rv hi * Rv hi / W - Rv a * Rv a / W)
                   <= / 100000000 * W)%R).
  { replace (Rv hi * Rv hi / W - Rv a * Rv a / W)%R
      with ((Rv hi - Rv a) * (Rv hi + Rv a) / W)%R by (field; lra).
    unfold Rdiv. rewrite Rabs_mult, (Rabs_right (/ W)).
    2:{ apply Rle_ge, Rlt_le, Rinv_0_lt_compat, HW. }
    apply (Rmult_le_reg_r W); [ exact HW | ].
    rewrite Rmult_assoc, Rinv_l, Rmult_1_r by lra.
    rewrite Rabs_mult.
    assert (Hsum : (Rabs (Rv hi + Rv a) <= 103 / 1000 * W)%R).
    { eapply Rle_trans; [ apply Rabs_triang | ]. lra. }
    eapply Rle_trans; [ apply (Rabs_prod_le _ _ _ _ Eh Hsum) | ]. nra. }
  destruct (Bd_sub _ _ _ _ H1 Hq ltac:(lra)) as [H5 E5].
  destruct (Bd_add _ _ _ _ H5 H3 ltac:(lra)) as [H6 E6].
  destruct (Bd_add _ _ _ _ H6 H4 ltac:(lra)) as [H7 E7].
  split.
  - apply (Bd_weaken _ _ _ Hq). lra.
  - destruct H7 as (V7 & F7 & _). repeat split; try assumption.
    destruct H3 as (_ & _ & B3). destruct H4 as (_ & _ & B4).
    clear H1 H5 H6 Hq H2 Hh Hl Ha.
    rabs.
Qed.

(** The square [r] of an argument of [sinh]'s Taylor branch. *)
Lemma dd_sqr_R a :
  Bd (x0 a) (51 / 1000 * W) -> Bd (x1 a) (/ 1000000 * W) ->
  Bd (x0 (dd.sqr a)) (3 / 1000 * W) /\ Bd (x1 (dd.sqr a)) (/ 1000000 * W).
Proof.
  intros Ha0 Ha1.
  pose proof W_pos as HW. pose proof W_ge_1 as HW1. pose proof W_large as HWl.
  destruct (Ha0) as (V0 & F0 & B0). destruct (Ha1) as (V1 & F1 & B1).
  unfold dd.sqr.
  destruct (two_sqr_R (x0 a) Ha0) as [Hp1 Hp2].
  destruct (qd.two_sqr (x0 a)) as [p1 p2]. cbn [fst snd] in *.
  destruct Bd_two as (V2 & F2 & B2).
  destruct (Bd_mul d_two (x0 a) (102 / 1000 * W) V2 F2 V0 F0) as [H2 _].
  { eapply Rle_trans; [ apply (Rabs_prod_le _ _ _ _ B2 B0) | ]. nra. }
  { lra. }
  destruct (H2) as (V2a & F2a & B2a).
  destruct (Bd_mul (d_two * x0 a)%D (x1 a) (/ 1000000 * W) V2a F2a V1 F1) as [H3 _].
  { eapply Rle_trans; [ apply (Rabs_prod_le _ _ _ _ B2a B1) | ]. nra. }
  { lra. }
  destruct (Bd_mul (x1 a) (x1 a) (/ 1000000 * W) V1 F1 V1 F1) as [H4 _].
  { eapply Rle_trans; [ apply (Rabs_prod_le _ _ _ _ B1 B1) | ]. nra. }
  { lra. }
  destruct (Bd_add _ _ _ _ Hp2 H3 ltac:(lra)) as [H5 _].
  destruct (Bd_add _ _ _ _ H5 H4 ltac:(lra)) as [H6 _].
  destruct (quick_two_sum_R _ _ _ _ Hp1 H6 ltac:(lra)) as [Hs Hl].
  unfold dd.of_pair. cbn [x0 x1].
  split; [ apply (Bd_weaken _ _ _ Hs) | apply (Bd_weaken _ _ _ Hl) ]; lra.
Qed.

(** ** Divisors and bounds of the loop of [sinh] *)

Lemma den_ok_all : forallb (fun k => den_ok (sinh_den k)) (seq 0 147) = true.
Proof. vm_compute. reflexivity. Qed.

Lemma den_ok_R k :
  (k <= 146)%nat ->
  valid (sinh_den k) = true /\ is_finite (sinh_den k) = true /\
  exists delta, Rabs (Rv (sinh_den k)) = (delta * W)%R /\
                (6 <= delta)%R /\ (delta <= 1048576)%R.
Proof.
  intros Hk.
  pose proof den_ok_all as H. rewrite forallb_forall in H.
  specialize (H k ltac:(apply in_seq; lia)).
  unfold den_ok in H. rewrite !andb_true_iff in H.
  destruct H as (((Hv & Hf) & Hlo) & Hhi).
  apply Z.leb_le in Hlo, Hhi.
  split; [ exact Hv | ]. split; [ exact Hf | ].
  pose proof W_pos as HW.
  exists (Rv (sinh_den k) / W)%R.
  assert (H0 : (0 <= Rv (sinh_den k))%R).
  { unfold Rv. apply IZR_le. lia. }
  apply IZR_le in Hlo, Hhi. rewrite mult_IZR in Hlo, Hhi.
  fold W in Hlo, Hhi. fold (Rv (sinh_den k)) in Hlo, Hhi.
  split; [ rewrite Rabs_right by lra; field; lra | ].
  split.
  - apply (Rmult_le_reg_r W); [ exact HW | ].
    unfold Rdiv. rewrite Rmult_assoc, Rinv_l, Rmult_1_r by lra. exact Hlo.
  - apply (Rmult_le_reg_r W); [ exact HW | ].
    unfold Rdiv. rewrite Rmult_assoc, Rinv_l, Rmult_1_r by lra. exact Hhi.
Qed.

Lemma sinh_bound_0 : sinh_bound 0 = (51 / 1000 * W + 49)%R.
Proof. unfold sinh_bound. simpl. ring. Qed.

Lemma sinh_bound_S k : sinh_bound (S k) = ((sinh_bound k - 49) / 160 + 49)%R.
Proof. unfold sinh_bound. simpl. field. Qed.

Lemma sinh_bound_range k : (49 <= sinh_bound k <= 51 / 1000 * W + 49)%R.
Proof.
  pose proof W_pos as HW.
  induction k as [ | k IH ].
  - rewrite sinh_bound_0. lra.
  - rewrite sinh_bound_S. lra.
Qed.

Lemma sinh_bound_last : (sinh_bound 146 <= 64)%R.
Proof.
  unfold sinh_bound.
  rewrite pow_inv.
  rewrite pow_IZR.
  set (D := (160 ^ Z.of_nat 146)%Z).
  assert (HD : (0 < IZR D)%R) by (apply IZR_lt; vm_compute; reflexivity).
  assert (H : (51 * W <= 15000 * IZR D)%R).
  { unfold W. rewrite <- !mult_IZR. apply IZR_le. vm_compute. discriminate. }
  assert (Hq : (51 / 1000 * W * / IZR D <= 15)%R).
  { apply (Rmult_le_reg_r (IZR D)); [ exact HD | ].
    rewrite Rmult_assoc, Rinv_l by lra. lra. }
  lra.
Qed.

(** ** The loop of [sinh] ends *)

Section Loop.
Variable r : dd_real.
Variable thresh : double.
Hypothesis Hr0 : Bd (x0 r) (3 / 1000 * W).
Hypothesis Hr1 : Bd (x1 r) (/ 1000000 * W).
Hypothesis Hvt : valid thresh = true.
Hypothesis Hft : is_finite thresh = true.
Hypothesis Hpt : 0 <= V thresh.

Lemma sinh_body_eq s t k :
  sinh_body r (s, t, sinh_m k)
  = ((s + dd.div_dd_d (t * r) (sinh_den k))%DD,
     dd.div_dd_d (t * r)%DD (sinh_den k), sinh_m (S k)).
Proof. reflexivity. Qed.

(** One iteration divides the bound on the term by [160], up to [49] units. *)
Lemma sinh_term_step k t :
  (k <= 146)%nat -> Bd (x0 t) (sinh_bound k) -> Bd (x1 t) (sinh_bound k) ->
  Bd (x0 (dd.div_dd_d (t * r)%DD (sinh_den k))) (sinh_bound (S k)) /\
  Bd (x1 (dd.div_dd_d (t * r)%DD (sinh_den k))) (sinh_bound (S k)).
Proof.
  intros Hk H0 H1.
  pose proof W_pos as HW. pose proof W_large as HWl.
  pose proof (sinh_bound_range k) as Hb.
  destruct (den_ok_R k Hk) as (Hvd & Hfd & delta & Hd & Hlo & Hhi).
  destruct (dd_mul_R t r _ H0 H1 Hr0 Hr1 ltac:(lra)) as [M0 M1].
  destruct (dd_div_R _ (sinh_den k) _ delta M0 M1 Hvd Hfd Hd Hlo Hhi ltac:(lra))
    as [Q0 Q1].
  rewrite sinh_bound_S.
  split; [ apply (Bd_weaken _ _ _ Q0) | apply (Bd_weaken _ _ _ Q1) ]; lra.
Qed.

(** A term of at most [64] units is followed by a zero term. *)
Lemma sinh_term_zero k t nu :
  (k <= 146)%nat -> Bd (x0 t) nu -> Bd (x1 t) nu -> (nu <= 64)%R ->
  Bd (x0 (dd.div_dd_d (t * r)%DD (sinh_den k))) 0 /\
  Bd (x1 (dd.div_dd_d (t * r)%DD (sinh_den k))) 0.
Proof.
  intros Hk H0 H1 Hnu.
  destruct (den_ok_R k Hk) as (Hvd & Hfd & delta & Hd & Hlo & Hhi).
  destruct (dd_mul_zero t r _ H0 H1 Hr0 Hr1 Hnu) as [M0 M1].
  exact (dd_div_zero _ (sinh_den k) delta Hvd Hfd Hd Hlo Hhi M0 M1).
Qed.

(** A zero term ends the loop. *)
Lemma sinh_cond_zero s t m :
  Bd (x0 t) 0 -> Bd (x1 t) 0 -> sinh_cond thresh (s, t, m) = false.
Proof.
  intros H0 H1. unfold sinh_cond, dd.abs, dd.gt_d.
  pose proof (Bd_0_V _ H0) as E0. pose proof (Bd_0_V _ H1) as E1.
  destruct H0 as (V0 & F0 & _). destruct H1 as (V1 & F1 & _).
  rewrite (ltb_V (x0 t) d_zero) by (try assumption; reflexivity).
  rewrite E0. change (V d_zero) with 0. rewrite Z.ltb_irrefl.
  rewrite (gtb_V (x0 t) thresh), (gtb_V (x1 t) d_zero)
    by (try assumption; reflexivity).
  rewrite E0, E1. change (V d_zero) with 0. rewrite Z.ltb_irrefl.
  rewrite andb_false_r, orb_false_r. apply Z.ltb_ge. exact Hpt.
Qed.

(** The loop of [sinh] ends within 147 iterations. *)
Lemma sinh_loop_ends n :
  forall k s t,
  (k + n = 146)%nat -> Bd (x0 t) (sinh_bound k) -> Bd (x1 t) (sinh_bound k) ->
  exists v,
    do_while_fuel (S n) (sinh_body r) (sinh_cond thresh) (s, t, sinh_m k) = Some v.
Proof.
  induction n as [ | n IH ]; intros k s t Hk H0 H1.
  - assert (k = 146)%nat by lia. subst k.
    destruct (sinh_term_zero 146 t _ (Nat.le_refl _) H0 H1 sinh_bound_last)
      as [Z0 Z1].
    cbn [do_while_fuel]. rewrite sinh_body_eq.
    rewrite (sinh_cond_zero _ _ _ Z0 Z1). eexists. reflexivity.
  - destruct (sinh_term_step k t ltac:(lia) H0 H1) as [S0 S1].
    change (do_while_fuel (S (S n)) (sinh_body r) (sinh_cond thresh)
              (s, t, sinh_m k))
      with (let s' := sinh_body r (s, t, sinh_m k) in
            if sinh_cond thresh s'
            then do_while_fuel (S n) (sinh_body r) (sinh_cond thresh) s'
            else Some s').
    cbv zeta. rewrite sinh_body_eq.
    destruct (sinh_cond thresh _).
    + apply IH; [ lia | assumption | assumption ].
    + eexists. reflexivity.
Qed.

End Loop.

(** ** Loops bounded by a counter *)

(** A loop whose condition forces a measure to decrease runs out of
    iterations before it runs out of fuel, and is the bounded loop. *)
Lemma do_while_fuel_measure {S : Type} (body : S -> S) (cond : S -> bool)
    (f : S -> nat) :
  (forall s, cond s = true -> (f (body s) < f s)%nat) ->
  forall n s, (f (body s) <= n)%nat ->
  do_while_fuel (Datatypes.S n) body cond s
  = Some (do_while (Datatypes.S n) body cond s).
Proof.
  intros Hdec. induction n as [ | n IH ]; intros s Hs.
  - cbn. destruct (cond (body s)) eqn:E; [ | reflexivity ].
    specialize (Hdec _ E). lia.
  - change (do_while_fuel (Datatypes.S (Datatypes.S n)) body cond s)
      with (if cond (body s)
            then do_while_fuel (Datatypes.S n) body cond (body s)
            else Some (body s)).
    change (do_while (Datatypes.S (Datatypes.S n)) body cond s)
      with (if cond (body s)
            then do_while (Datatypes.S n) body cond (body s)
            else body s).
    destruct (cond (body s)) eqn:E; [ | reflexivity ].
    apply IH. specialize (Hdec _ E). lia.
Qed.

Lemma do_while_fuel_more {S : Type} (body : S -> S) (cond : S -> bool) n m s v :
  do_while_fuel n body cond s = Some v ->
  (n <= m)%nat -> do_while_fuel m body cond s = Some v.
Proof.
  revert m s. induction n as [ | n IH ]; intros m s H Hm; [ discriminate | ].
  destruct m as [ | m ]; [ lia | ].
  cbn in *. destruct (cond (body s)); [ | exact H ].
  apply IH; [ exact H | lia ].
Qed.

Lemma exp_loop_bounded r inv_k s p t :
  do_while_fuel 5 (exp_body r) (exp_cond inv_k) (s, p, t, 0)
  = Some (do_while 5 (exp_body r) (exp_cond inv_k) (s, p, t, 0)).
Proof.
  apply (do_while_fuel_measure _ _ (fun st => Z.to_nat (5 - snd st))).
  - intros [[[s' p'] t'] i] H. unfold exp_cond in H.
    apply andb_true_iff in H. destruct H as [_ H]. apply Z.ltb_lt in H.
    cbn [exp_body snd]. lia.
  - cbn [exp_body snd]. lia.
Qed.

Lemma taylor_measure x thresh st :
  taylor_cond thresh st = true ->
  (Z.to_nat ((16 - snd (taylor_body x st)) / 2) < Z.to_nat ((16 - snd st) / 2))%nat.
Proof.
  destruct st as [[[r s] t] i]. intros H. unfold taylor_cond in H.
  apply andb_true_iff in H. destruct H as [H _]. apply Z.ltb_lt in H.
  unfold n_inv_fact in H. cbn [taylor_body snd].
  replace (16 - (i + 2)) with (16 - i + (-1) * 2) by ring.
  rewrite Z.div_add by lia.
  assert (1 <= (16 - i) / 2) by (apply Z.div_le_lower_bound; lia).
  lia.
Qed.

Lemma sin_taylor_loop_bounded x thresh r s t :
  do_while_fuel 8 (taylor_body x) (taylor_cond thresh) (r, s, t, 0)
  = Some (do_while 8 (taylor_body x) (taylor_cond thresh) (r, s, t, 0)).
Proof.
  apply (do_while_fuel_measure _ _ (fun st => Z.to_nat ((16 - snd st) / 2))).
  - intros st. apply taylor_measure.
  - cbn [taylor_body snd]. vm_compute. lia.
Qed.

Lemma cos_taylor_loop_bounded x thresh r s t :
  do_while_fuel 7 (taylor_body x) (taylor_cond thresh) (r, s, t, 1)
  = Some (do_while 7 (taylor_body x) (taylor_cond thresh) (r, s, t, 1)).
Proof.
  apply (do_while_fuel_measure _ _ (fun st => Z.to_nat ((16 - snd st) / 2))).
  - intros st. apply taylor_measure.
  - cbn [taylor_body snd]. vm_compute. lia.
Qed.

(** ** The loop of [sinh] *)

Lemma abs_props x :
  valid (qd_fabs x) = valid x /\ is_finite (qd_fabs x) = is_finite x /\
  V (qd_fabs x) = Z.abs (V x).
Proof.
  destruct x as [s | s | | s m e]; try (repeat split; reflexivity).
  repeat split. unfold V, qd_fabs, SFabs. destruct s; cbn [cond_Zopp].
  - rewrite Z.abs_opp, Z.abs_eq; [ reflexivity | ].
    apply Z.mul_nonneg_nonneg; [ lia | apply Z.pow_nonneg; lia ].
  - rewrite Z.abs_eq; [ reflexivity | ].
    apply Z.mul_nonneg_nonneg; [ lia | apply Z.pow_nonneg; lia ].
Qed.

Lemma Bd_0_05 : Bd d_0_05 (51 / 1000 * W).
Proof.
  repeat split. unfold Rv, W.
  rewrite Rabs_right by (apply Rle_ge, IZR_le; vm_compute; discriminate).
  apply (Rmult_le_reg_l 1000); [ lra | ].
  replace (1000 * (51 / 1000 * IZR (2 ^ 1074)))%R
    with (51 * IZR (2 ^ 1074))%R by field.
  rewrite <- !mult_IZR. apply IZR_le. vm_compute. discriminate.
Qed.

Lemma Bd_eps : Bd _eps W.
Proof.
  repeat split. unfold Rv, W.
  rewrite Rabs_right by (apply Rle_ge, IZR_le; vm_compute; discriminate).
  apply IZR_le. vm_compute. discriminate.
Qed.

(** The leading limb of an argument of the Taylor branch. *)
Lemma taylor_branch_leading a :
  valid (x0 a) = true -> is_finite (x0 a) = true ->
  dd.gt_d (dd.abs a) d_0_05 = false -> Bd (x0 a) (51 / 1000 * W).
Proof.
  intros Hv Hf Hgt.
  destruct Bd_0_05 as (Cv & Cf & Cb).
  assert (Hc : (0 <= Rv d_0_05)%R) by (apply IZR_le; vm_compute; discriminate).
  rewrite Rabs_right in Cb by lra.
  repeat split; try assumption.
  unfold dd.gt_d, dd.abs in Hgt. apply orb_false_iff in Hgt. destruct Hgt as [Hgt _].
  rewrite (ltb_V (x0 a) d_zero) in Hgt by (try assumption; reflexivity).
  change (V d_zero) with 0 in Hgt.
  destruct (V (x0 a) <? 0) eqn:Hneg.
  - apply Z.ltb_lt in Hneg. cbn [x0 dd.neg] in Hgt.
    rewrite gtb_V in Hgt
      by (try assumption; try apply valid_neg; try assumption;
          destruct (x0 a); try discriminate; reflexivity).
    apply Z.ltb_ge in Hgt.
    assert (HVn : V (- x0 a)%D = - V (x0 a)).
    { destruct (x0 a) as [s | s | | s m e]; try reflexivity.
      unfold V. cbn. destruct s; cbn [cond_Zopp negb]; lia. }
    rewrite HVn in Hgt. unfold Rv in *.
    rewrite Rabs_left by (apply IZR_lt; lia).
    rewrite <- opp_IZR. eapply Rle_trans; [ apply IZR_le, Hgt | exact Cb ].
  - apply Z.ltb_ge in Hneg.
    rewrite gtb_V in Hgt by assumption. apply Z.ltb_ge in Hgt.
    unfold Rv in *. rewrite Rabs_right by (apply Rle_ge, IZR_le; lia).
    eapply Rle_trans; [ apply IZR_le, Hgt | exact Cb ].
Qed.

(** The trailing limb of a normal form below [0.051]. *)
Lemma normal_form_trailing a :
  valid (x1 a) = true -> normal_form a = true ->
  Bd (x0 a) (51 / 1000 * W) -> Bd (x1 a) (/ 1000000 * W).
Proof.
  intros Hv Hn (V0 & F0 & B0).
  unfold normal_form in Hn. rewrite !andb_true_iff in Hn.
  destruct Hn as (((_ & F1) & Hu) & _). apply Z.leb_le in Hu.
  repeat split; try assumption.
  assert (Hlt : Z.abs (V (x0 a)) < 2 ^ (53 + 1017)).
  { rewrite Rabs_Rv in B0. apply lt_IZR.
    eapply Rle_lt_trans; [ exact B0 | ].
    unfold W. apply (Rmult_lt_reg_l 1000); [ lra | ].
    replace (1000 * (51 / 1000 * IZR (2 ^ 1074)))%R
      with (51 * IZR (2 ^ 1074))%R by field.
    rewrite <- !mult_IZR. apply IZR_lt. vm_compute. reflexivity. }
  pose proof (ulpexp_bound (V (x0 a)) 1017 ltac:(lia) Hlt) as Hk.
  pose proof (ulpexp_nonneg (V (x0 a))) as Hk0.
  assert (Hp : ulp (x0 a) <= 2 ^ 1017).
  { unfold ulp. apply Z.pow_le_mono_r; lia. }
  rewrite Rabs_Rv. unfold W.
  apply (Rmult_le_reg_l 1000000); [ lra | ].
  replace (1000000 * (/ 1000000 * IZR (2 ^ 1074)))%R
    with (IZR (2 ^ 1074)) by field.
  rewrite <- mult_IZR. apply IZR_le.
  assert (1000000 * 2 ^ 1017 <= 2 * 2 ^ 1074) by (vm_compute; discriminate).
  lia.
Qed.

(** ** [sinh] returns *)

Lemma value_bind {A B : Type} (c : Hook A) (k : A -> Hook B) :
  value (bind c k) = value (k (value c)).
Proof.
  unfold value, bind. destruct c as [a l]. cbn [fst].
  destruct (k a) as [b l']. reflexivity.
Qed.

(** The loop of [sinh] ends within 147 iterations on every normal form
    of the Taylor branch. *)
Lemma sinh_loop_returns a :
  valid (x0 a) = true -> valid (x1 a) = true -> normal_form a = true ->
  dd.gt_d (dd.abs a) d_0_05 = false ->
  exists st,
    do_while_fuel 147 (sinh_body (dd.sqr a))
      (sinh_cond (qd_fabs (dd.to_double a * _eps)%D)) (a, a, d_one)
    = Some st.
Proof.
  intros V0 V1 Hn Hgt.
  assert (F0 : is_finite (x0 a) = true).
  { unfold normal_form in Hn. rewrite !andb_true_iff in Hn. tauto. }
  pose proof W_pos as HW.
  pose proof (taylor_branch_leading a V0 F0 Hgt) as H0.
  pose proof (normal_form_trailing a V1 Hn H0) as H1.
  destruct (dd_sqr_R a H0 H1) as [R0 R1].
  set (thresh := qd_fabs (dd.to_double a * _eps)%D).
  destruct Bd_eps as (Ev & Ef & Eb).
  destruct (H0) as (_ & _ & B0).
  destruct (Bd_mul (x0 a) _eps (51 / 1000 * W) V0 F0 Ev Ef) as [(Pv & Pf & _) _].
  { eapply Rle_trans; [ apply (Rabs_prod_le _ _ _ _ B0 Eb) | ]. lra. }
  { lra. }
  destruct (abs_props (dd.to_double a * _eps)%D) as (Av & Af & AV).
  fold thresh in Av, Af, AV. unfold dd.to_double in *.
  assert (Hvt : valid thresh = true) by (rewrite Av; exact Pv).
  assert (Hft : is_finite thresh = true) by (rewrite Af; exact Pf).
  assert (Hpt : 0 <= V thresh) by (rewrite AV; apply Z.abs_nonneg).
  apply (sinh_loop_ends (dd.sqr a) thresh R0 R1 Hvt Hft Hpt 146 0 a a eq_refl).
  - apply (Bd_weaken _ _ _ H0). rewrite sinh_bound_0. lra.
  - apply (Bd_weaken _ _ _ H1). rewrite sinh_bound_0. lra.
Qed.

(** [sinh] returns on every normal form, its loop having run 147 times
    at most. *)
Lemma sinh_returns a :
  valid (x0 a) = true -> valid (x1 a) = true -> normal_form a = true ->
  exists v, forall fuel, (147 <= fuel)%nat -> value (sinh G fuel a) = Some v.
Proof.
  intros V0 V1 Hn. unfold sinh.
  destruct (dd.is_zero a); [ eexists; intros; reflexivity | ].
  destruct (dd.gt_d (dd.abs a) d_0_05) eqn:Hgt.
  { eexists. intros fuel _. rewrite value_bind. reflexivity. }
  cbv zeta.
  destruct (sinh_loop_returns a V0 V1 Hn Hgt) as [[[s t] m] Hv].
  exists s. intros fuel Hfuel.
  rewrite (do_while_fuel_more _ _ 147 fuel _ _ Hv Hfuel). reflexivity.
Qed.


(** * Further properties of the code *)

(** ** The loops of [exp], [sin_taylor] and [cos_taylor] *)

Lemma exp_enters_counter r inv_k s0 st :
  do_while_enters (exp_body r) (exp_cond inv_k) s0 st ->
  snd s0 = 0 -> 0 <= snd st < 5.
Proof.
  intros H H0. induction H as [ | st H IH Hc ].
  - lia.
  - destruct st as [[[s p] t] i]. unfold exp_cond in Hc.
    cbn [exp_body snd] in *. apply andb_true_iff in Hc.
    destruct Hc as [_ Hc]. apply Z.ltb_lt in Hc. lia.
Qed.

(** X1.  The term loop of [exp], run with no bound on its iterations,
    exits within five iterations, in the state the bounded loop of the
    embedding returns; and its body only runs with the counter [i] in
    [0, 4], so that the entry [inv_fact[i+1]] it reads exists. *)
Theorem exp_loop_terminates (r : dd_real) (inv_k : double) (s p t : dd_real) :
  do_while_fuel 5 (exp_body r) (exp_cond inv_k) (s, p, t, 0)
  = Some (do_while 5 (exp_body r) (exp_cond inv_k) (s, p, t, 0)) /\
  (forall st,
     do_while_enters (exp_body r) (exp_cond inv_k) (s, p, t, 0) st ->
     0 <= snd st < 5 /\ (Z.to_nat (snd st + 1) < List.length inv_fact)%nat).
Proof.
  split; [ apply exp_loop_bounded | ].
  intros st H.
  pose proof (exp_enters_counter _ _ _ _ H eq_refl) as Hi.
  split; [ exact Hi | ].
  change (List.length inv_fact) with 15%nat. lia.
Qed.

Lemma exp_loop_terminates_witness :
  0 <= 0 < 5 /\ (Z.to_nat (0 + 1) < List.length inv_fact)%nat.
Proof.
  apply (proj2 (exp_loop_terminates (dd.of_double d_one) d_half
                  (dd.of_double d_one) (dd.of_double d_one)
                  (dd.of_double d_one))
           (dd.of_double d_one, dd.of_double d_one, dd.of_double d_one, 0)).
  apply enters_first.
Defined.

Lemma taylor_enters_counter x thresh s0 st :
  do_while_enters (taylor_body x) (taylor_cond thresh) s0 st ->
  0 <= snd s0 < n_inv_fact -> 0 <= snd st < n_inv_fact.
Proof.
  intros H H0. induction H as [ | st H IH Hc ].
  - exact H0.
  - destruct st as [[[r s] t] i]. unfold taylor_cond in Hc.
    cbn [taylor_body snd] in *. apply andb_true_iff in Hc.
    destruct Hc as [Hc _]. apply Z.ltb_lt in Hc. lia.
Qed.

(** X2.  The loops of [sin_taylor] (entered with [i = 0]) and
    [cos_taylor] (entered with [i = 1]), run with no bound on their
    iterations, exit within eight and seven iterations, in the state
    the bounded loops of the embedding return; and their body only runs
    with [0 <= i < n_inv_fact], so that the entry [inv_fact[i]] it
    reads exists. *)
Theorem taylor_loops_terminate (x : dd_real) (thresh : double) (r s t : dd_real) :
  do_while_fuel 8 (taylor_body x) (taylor_cond thresh) (r, s, t, 0)
  = Some (do_while 8 (taylor_body x) (taylor_cond thresh) (r, s, t, 0)) /\
  do_while_fuel 7 (taylor_body x) (taylor_cond thresh) (r, s, t, 1)
  = Some (do_while 7 (taylor_body x) (taylor_cond thresh) (r, s, t, 1)) /\
  (forall i0 st,
     i0 = 0 \/ i0 = 1 ->
     do_while_enters (taylor_body x) (taylor_cond thresh) (r, s, t, i0) st ->
     0 <= snd st < n_inv_fact /\ (Z.to_nat (snd st) < List.length inv_fact)%nat).
Proof.
  split; [ apply sin_taylor_loop_bounded | ].
  split; [ apply cos_taylor_loop_bounded | ].
  intros i0 st Hi0 H.
  assert (Hi : 0 <= snd st < n_inv_fact).
  { apply (taylor_enters_counter _ _ _ _ H). cbn [snd]. unfold n_inv_fact. lia. }
  split; [ exact Hi | ].
  unfold n_inv_fact in Hi. change (List.length inv_fact) with 15%nat. lia.
Qed.

Lemma taylor_loops_terminate_witness :
  0 <= 1 < n_inv_fact /\ (Z.to_nat 1 < List.length inv_fact)%nat.
Proof.
  apply (proj2 (proj2 (taylor_loops_terminate (dd.of_double d_one) d_zero
                         (dd.of_double d_one) (dd.of_double d_one)
                         (dd.of_double d_zero))) 1
           (dd.of_double d_one, dd.of_double d_one, dd.of_double d_zero, 1)).
  - right. reflexivity.
  - apply enters_first.
Defined.

(** ** The loop of [sinh]: the term decreases geometrically *)

Section LoopInvariant.
Variable r : dd_real.
Variable thresh : double.
Hypothesis Hr0 : Bd (x0 r) (3 / 1000 * W).
Hypothesis Hr1 : Bd (x1 r) (/ 1000000 * W).
Hypothesis Hvt : valid thresh = true.
Hypothesis Hft : is_finite thresh = true.
Hypothesis Hpt : 0 <= V thresh.

(** Whenever the body runs, for the [k+1]-th time, the limbs of the term
    are within [sinh_bound k], and [k <= 146]. *)
Lemma sinh_enters_invariant s0 t0 st :
  Bd (x0 t0) (sinh_bound 0) -> Bd (x1 t0) (sinh_bound 0) ->
  do_while_enters (sinh_body r) (sinh_cond thresh) (s0, t0, sinh_m 0) st ->
  exists k, (k <= 146)%nat /\ snd st = sinh_m k /\
            Bd (x0 (snd (fst st))) (sinh_bound k) /\
            Bd (x1 (snd (fst st))) (sinh_bound k).
Proof.
  intros H0 H1 H. induction H as [ | st H IH Hc ].
  - exists 0%nat. cbn [fst snd].
    split; [ lia | ]. split; [ reflexivity | ]. split; assumption.
  - destruct IH as (k & Hk & Em & B0 & B1).
    destruct st as [[s t] m]. cbn [fst snd] in *. subst m.
    rewrite sinh_body_eq in *. cbn [fst snd].
    destruct (Nat.eq_dec k 146) as [E | E].
    + subst k.
      destruct (sinh_term_zero r Hr0 Hr1 146 t _ (Nat.le_refl _) B0 B1
                  sinh_bound_last) as [Z0 Z1].
      rewrite (sinh_cond_zero thresh Hvt Hft Hpt _ _ _ Z0 Z1) in Hc.
      discriminate Hc.
    + exists (S k).
      destruct (sinh_term_step r Hr0 Hr1 k t ltac:(lia) B0 B1) as [S0 S1].
      split; [ lia | ]. split; [ reflexivity | ]. split; assumption.
Qed.

End LoopInvariant.

(** The square [r] and the threshold of the Taylor branch of [sinh]. *)
Lemma sinh_taylor_setup a :
  valid (x0 a) = true -> valid (x1 a) = true -> normal_form a = true ->
  dd.gt_d (dd.abs a) d_0_05 = false ->
  let thresh := qd_fabs (dd.to_double a * _eps)%D in
  Bd (x0 a) (sinh_bound 0) /\ Bd (x1 a) (sinh_bound 0) /\
  Bd (x0 (dd.sqr a)) (3 / 1000 * W) /\ Bd (x1 (dd.sqr a)) (/ 1000000 * W) /\
  valid thresh = true /\ is_finite thresh = true /\ 0 <= V thresh.
Proof.
  intros V0 V1 Hn Hgt thresh.
  assert (F0 : is_finite (x0 a) = true).
  { unfold normal_form in Hn. rewrite !andb_true_iff in Hn. tauto. }
  pose proof W_pos as HW.
  pose proof (taylor_branch_leading a V0 F0 Hgt) as H0.
  pose proof (normal_form_trailing a V1 Hn H0) as H1.
  destruct (dd_sqr_R a H0 H1) as [R0 R1].
  destruct Bd_eps as (Ev & Ef & Eb).
  destruct (H0) as (_ & _ & B0).
  destruct (Bd_mul (x0 a) _eps (51 / 1000 * W) V0 F0 Ev Ef) as [(Pv & Pf & _) _].
  { eapply Rle_trans; [ apply (Rabs_prod_le _ _ _ _ B0 Eb) | ]. lra. }
  { lra. }
  destruct (abs_props (dd.to_double a * _eps)%D) as (Av & Af & AV).
  fold thresh in Av, Af, AV. unfold dd.to_double in *.
  split; [ apply (Bd_weaken _ _ _ H0); rewrite sinh_bound_0; lra | ].
  split; [ apply (Bd_weaken _ _ _ H1); rewrite sinh_bound_0; lra | ].
  split; [ exact R0 | ]. split; [ exact R1 | ].
  split; [ rewrite Av; exact Pv | ].
  split; [ rewrite Af; exact Pf | ].
  rewrite AV. apply Z.abs_nonneg.
Qed.

(** X3.  On an argument in normal form that takes the Taylor branch of
    [sinh] ([abs(a) > 0.05] is false), the loop, whose only exit
    condition is [abs(t) > thresh], exits within 147 iterations.  The
    term decreases geometrically: when the body runs for the [k+1]-th
    time, [m = 2k+1] and both limbs of [t] are at most
    [0.051 * 160^-k + 49 * 2^-1074] in magnitude; after 146 iterations
    the products that make the next term round to zero. *)
Theorem sinh_loop_terminates (a : dd_real) :
  valid (x0 a) = true -> valid (x1 a) = true -> normal_form a = true ->
  dd.gt_d (dd.abs a) d_0_05 = false ->
  let r := dd.sqr a in
  let thresh := qd_fabs (dd.to_double a * _eps)%D in
  (exists st,
     do_while_fuel 147 (sinh_body r) (sinh_cond thresh) (a, a, d_one) = Some st) /\
  (forall st,
     do_while_enters (sinh_body r) (sinh_cond thresh) (a, a, d_one) st ->
     exists k, (k <= 146)%nat /\ snd st = sinh_m k /\
               Bd (x0 (snd (fst st))) (sinh_bound k) /\
               Bd (x1 (snd (fst st))) (sinh_bound k)).
Proof.
  intros V0 V1 Hn Hgt r thresh.
  destruct (sinh_taylor_setup a V0 V1 Hn Hgt)
    as (B0 & B1 & R0 & R1 & Hvt & Hft & Hpt).
  split.
  - exact (sinh_loop_ends r thresh R0 R1 Hvt Hft Hpt 146 0 a a eq_refl B0 B1).
  - intros st.
    exact (sinh_enters_invariant r thresh R0 R1 Hvt Hft Hpt a a st B0 B1).
Qed.

Lemma sinh_loop_terminates_witness :
  exists st,
    do_while_fuel 147 (sinh_body (dd.sqr (dd.of_double d_0_05)))
      (sinh_cond (qd_fabs (dd.to_double (dd.of_double d_0_05) * _eps)%D))
      (dd.of_double d_0_05, dd.of_double d_0_05, d_one)
    = Some st.
Proof.
  apply (proj1 (sinh_loop_terminates (dd.of_double d_0_05)
                  eq_refl eq_refl eq_refl eq_refl)).
Defined.

(** ** [sinh], [tanh] and [sincosh] return *)

(** X4.  On every argument in normal form [sinh], [tanh] and [sincosh]
    return, the Taylor loop of [sinh] having run 147 times at most. *)
Theorem hyperbolic_return (a : dd_real) :
  valid (x0 a) = true -> valid (x1 a) = true -> normal_form a = true ->
  (exists v, forall fuel, (147 <= fuel)%nat -> value (sinh G fuel a) = Some v) /\
  (exists v, forall fuel, (147 <= fuel)%nat -> value (tanh G fuel a) = Some v) /\
  (exists v, forall fuel, (147 <= fuel)%nat -> value (sincosh G fuel a) = Some v).
Proof.
  intros V0 V1 Hn.
  destruct (sinh_returns a V0 V1 Hn) as [v Hv].
  split; [ exists v; exact Hv | ]. split.
  - unfold tanh. destruct (dd.is_zero a); [ eexists; intros; reflexivity | ].
    destruct (qd_fabs (dd.to_double a) > d_0_05)%D.
    + eexists. intros fuel _. rewrite value_bind. reflexivity.
    + eexists. intros fuel Hf. rewrite value_bind, (Hv fuel Hf), value_bind.
      reflexivity.
  - unfold sincosh. destruct (qd_fabs (dd.to_double a) <= d_0_05)%D.
    + eexists. intros fuel Hf. rewrite value_bind, (Hv fuel Hf), value_bind.
      reflexivity.
    + eexists. intros fuel _. rewrite value_bind. reflexivity.
Qed.

Lemma hyperbolic_return_witness :
  exists v, forall fuel, (147 <= fuel)%nat ->
    value (tanh G fuel (dd.of_double d_0_05)) = Some v.
Proof.
  apply (proj1 (proj2 (hyperbolic_return (dd.of_double d_0_05)
                         eq_refl eq_refl eq_refl))).
Defined.

(** ** Every Taylor loop exits *)

(** C9.  Every Taylor loop of the kernel, run with no bound on its
    iterations, exits.  The term loop of [exp] exits within five
    iterations and the loops of [sin_taylor] and [cos_taylor] within
    eight and seven, whatever their operands: their exit test bounds the
    counter by the length of the table of coefficients.  The loop of
    [sinh], whose only exit test is [abs(t) > thresh], exits within 147
    iterations on every argument in normal form that takes the Taylor
    branch ([abs(a) > 0.05] is false), because the term decreases
    geometrically: when the body runs for the [k+1]-th time both limbs
    of [t] are at most [0.051 * 160^-k + 49 * 2^-1074] in magnitude, and
    after at most 146 runs the next term rounds to zero; so [sinh]
    returns. *)
Theorem taylor_series_loops_terminate
  (a x r s p t : dd_real) (inv_k thresh : double) :
  valid (x0 a) = true -> valid (x1 a) = true -> normal_form a = true ->
  dd.gt_d (dd.abs a) d_0_05 = false ->
  do_while_fuel 5 (exp_body r) (exp_cond inv_k) (s, p, t, 0)
  = Some (do_while 5 (exp_body r) (exp_cond inv_k) (s, p, t, 0)) /\
  do_while_fuel 8 (taylor_body x) (taylor_cond thresh) (r, s, t, 0)
  = Some (do_while 8 (taylor_body x) (taylor_cond thresh) (r, s, t, 0)) /\
  do_while_fuel 7 (taylor_body x) (taylor_cond thresh) (r, s, t, 1)
  = Some (do_while 7 (taylor_body x) (taylor_cond thresh) (r, s, t, 1)) /\
  (exists st,
     do_while_fuel 147 (sinh_body (dd.sqr a))
       (sinh_cond (qd_fabs (dd.to_double a * _eps)%D)) (a, a, d_one)
     = Some st) /\
  (forall st,
     do_while_enters (sinh_body (dd.sqr a))
       (sinh_cond (qd_fabs (dd.to_double a * _eps)%D)) (a, a, d_one) st ->
     exists k, (k <= 146)%nat /\ snd st = sinh_m k /\
               Bd (x0 (snd (fst st))) (sinh_bound k) /\
               Bd (x1 (snd (fst st))) (sinh_bound k)) /\
  (exists v, forall fuel, (147 <= fuel)%nat -> value (sinh G fuel a) = Some v).
Proof.
  intros V0 V1 Hn Hgt.
  split; [ apply exp_loop_bounded | ].
  split; [ apply sin_taylor_loop_bounded | ].
  split; [ apply cos_taylor_loop_bounded | ].
  split; [ exact (sinh_loop_returns a V0 V1 Hn Hgt) | ].
  split; [ | exact (sinh_returns a V0 V1 Hn) ].
  destruct (sinh_taylor_setup a V0 V1 Hn Hgt)
    as (B0 & B1 & R0 & R1 & Hvt & Hft & Hpt).
  intros st.
  exact (sinh_enters_invariant _ _ R0 R1 Hvt Hft Hpt a a st B0 B1).
Qed.

Lemma taylor_series_loops_terminate_witness :
  exists v, forall fuel, (147 <= fuel)%nat ->
    value (sinh G fuel (dd.of_double d_0_05)) = Some v.
Proof.
  apply (taylor_series_loops_terminate (dd.of_double d_0_05)
           (dd.of_double d_one) (dd.of_double d_one) (dd.of_double d_one)
           (dd.of_double d_one) (dd.of_double d_one) d_half d_zero
           eq_refl eq_refl eq_refl eq_refl).
Defined.

(** ** The error-free differences [two_diff], [quick_two_diff] and the sum
       [quick_two_sum] *)

Section QuickTwoDiff.
Variables a b : double.
Hypothesis Hva : valid a = true.
Hypothesis Hvb : valid b = true.
Hypothesis Hfa : is_finite a = true.
Hypothesis Hfb : is_finite b = true.
Hypothesis Hab : Z.abs (V b) <= Z.abs (V a).

Lemma quick_two_diff_finite :
  is_finite (a - b)%D = true ->
  let err := snd (qd.quick_two_diff a b) in
  is_finite err = true /\ valid err = true /\
  V err = V a - V b - V (a - b)%D.
Proof.
  intros Hfs.
  destruct (sub_finite a b Hva Hvb Hfa Hfb Hfs) as (Hvs & HVs & Hbs).
  pose proof (Z_quick_two_sum (V a) (- V b) (F_V a Hva) (F_opp _ (F_V b Hvb))
                ltac:(rewrite Z.abs_opp; exact Hab)) as HZ.
  cbv zeta in HZ. rewrite Z.add_opp_r in HZ. rewrite <- HVs in HZ.
  destruct HZ as (T1 & T2).
  pose proof (half_ulp_omega _ (rnd_lt_omega _ Hbs)) as Hd.
  rewrite <- HVs in Hd.
  pose proof (F_le_omega _ (F_V b Hvb) (V_bound b Hvb)) as Hb.
  pose proof pow2_2045 as E45. pose proof pow2_2098 as E98.
  assert (Hp : 0 < 2 ^ 2044) by (apply pow2_pos; lia).
  assert (E53 : 2 ^ 53 = 9007199254740992) by reflexivity.
  assert (T1' : rnd (V a - V (a - b)%D) = V a - V (a - b)%D).
  { replace (V a - V (a - b)%D) with (- (V (a - b)%D - V a)) by ring.
    rewrite rnd_opp, T1. reflexivity. }
  destruct (sub_bounded a (a - b)%D Hva Hvs Hfa Hfs)
    as (Hf1 & Hv1 & HV1); [ rewrite T1'; lia | ].
  assert (T2' : rnd (V (a - (a - b))%D - V b) = V a - V b - V (a - b)%D).
  { rewrite HV1, T1'.
    replace (V a - V (a - b)%D - V b)
      with (- V b - rnd (V (a - b)%D - V a)) by (rewrite T1; ring).
    rewrite T2. ring. }
  destruct (sub_bounded (a - (a - b))%D b Hv1 Hvb Hf1 Hfb)
    as (Hf2 & Hv2 & HV2); [ rewrite T2'; lia | ].
  unfold qd.quick_two_diff. cbv zeta. unfold snd.
  repeat split; [ exact Hf2 | exact Hv2 | ].
  rewrite HV2, T2'. reflexivity.
Qed.

End QuickTwoDiff.

Section TwoDiff.
Variables a b : double.
Hypothesis Hva : valid a = true.
Hypothesis Hvb : valid b = true.
Hypothesis Hfa : is_finite a = true.
Hypothesis Hfb : is_finite b = true.

Lemma two_diff_finite :
  is_finite (a - b)%D = true -> is_finite ((a - b) - a)%D = true ->
  let err := snd (qd.two_diff a b) in
  is_finite err = true /\ valid err = true /\
  V err = V a - V b - V (a - b)%D.
Proof.
  intros Hfs Hfbb.
  destruct (sub_finite a b Hva Hvb Hfa Hfb Hfs) as (Hvs & HVs & Hbs).
  destruct (sub_finite _ a Hvs Hva Hfs Hfa Hfbb) as (Hvbb & HVbb & Hbbb).
  pose proof (Z_two_sum (V a) (- V b) (F_V a Hva) (F_opp _ (F_V b Hvb))) as HZ.
  cbv zeta in HZ. rewrite Z.add_opp_r in HZ.
  rewrite <- HVs in HZ. rewrite <- HVbb in HZ.
  destruct HZ as (T1 & T2 & T3 & T4).
  pose proof (half_ulp_omega _ (rnd_lt_omega _ Hbs)) as Hd.
  pose proof (half_ulp_omega _ (rnd_lt_omega _ Hbbb)) as He.
  rewrite <- HVs in Hd. rewrite <- HVbb in He.
  pose proof (F_le_omega _ (F_V a Hva) (V_bound a Hva)) as Ha.
  pose proof pow2_2045 as E45. pose proof pow2_2098 as E98.
  assert (Hp : 0 < 2 ^ 2044) by (apply pow2_pos; lia).
  assert (E53 : 2 ^ 53 = 9007199254740992) by reflexivity.
  assert (T3' : rnd (V b + V ((a - b) - a)%D) = V b + V ((a - b) - a)%D).
  { replace (V b + V ((a - b) - a)%D) with (- (- V b - V ((a - b) - a)%D)) by ring.
    rewrite rnd_opp, T3. reflexivity. }
  destruct (sub_bounded (a - b)%D ((a - b) - a)%D Hvs Hvbb Hfs Hfbb)
    as (Hf1 & Hv1 & HV1); [ rewrite T1; lia | ].
  destruct (sub_bounded a ((a - b) - ((a - b) - a))%D Hva Hv1 Hfa Hf1)
    as (Hf2 & Hv2 & HV2); [ rewrite HV1, T2, T1; lia | ].
  destruct (add_bounded b ((a - b) - a)%D Hvb Hvbb Hfb Hfbb)
    as (Hf3 & Hv3 & HV3); [ rewrite T3'; lia | ].
  assert (T4' : rnd (V (a - ((a - b) - ((a - b) - a)))%D
                     - V (b + ((a - b) - a))%D)
                = V a - V b - V (a - b)%D).
  { rewrite HV2, HV3, HV1, T3'.
    replace (rnd (V a - rnd (V (a - b)%D - V ((a - b) - a)%D))
             - (V b + V ((a - b) - a)%D))
      with (rnd (V a - rnd (V (a - b)%D - V ((a - b) - a)%D))
            + rnd (- V b - V ((a - b) - a)%D)) by (rewrite T3; ring).
    exact T4. }
  destruct (sub_bounded _ _ Hv2 Hv3 Hf2 Hf3) as (Hf4 & Hv4 & HV4).
  { rewrite T4'. lia. }
  unfold qd.two_diff. cbv zeta. unfold snd.
  repeat split; [ exact Hf4 | exact Hv4 | ].
  rewrite HV4, T4'. reflexivity.
Qed.

Lemma two_diff_intermediate_overflow :
  is_finite (a - b)%D = true -> is_finite ((a - b) - a)%D = false ->
  snd (qd.two_diff a b) = S754_nan.
Proof.
  intros Hfs Hfbb.
  destruct (sub_finite a b Hva Hvb Hfa Hfb Hfs) as (Hvs & _).
  pose proof (sub_overflow _ a Hvs Hva Hfs Hfa Hfbb) as Hbb.
  unfold qd.two_diff. cbv zeta. unfold snd. rewrite Hbb.
  destruct (a - b)%D as [ss | ss | | ss ms es]; try discriminate Hfs;
    destruct a as [sa | sa | | sa ma ea]; try discriminate Hfa;
    destruct b as [sb | sb | | sb mb eb]; try discriminate Hfb;
    destruct (_ <? 0); reflexivity.
Qed.

End TwoDiff.

(** X5.  [quick_two_sum] and [quick_two_diff] are error-free under their
    stated assumption [|a| >= |b|]: for finite [a] and [b] whose rounded
    sum (difference) [s] is finite, [err] is finite, [s + err] is the
    exact [a + b] ([a - b]), and [|err| <= ulp(s)/2].  No intermediate
    can overflow. *)
Theorem quick_two_sum_diff_exact (a b : double) :
  valid a = true -> valid b = true ->
  is_finite a = true -> is_finite b = true ->
  Z.abs (V b) <= Z.abs (V a) ->
  (let s := fst (qd.quick_two_sum a b) in
   let err := snd (qd.quick_two_sum a b) in
   is_finite s = true ->
   V s = rnd (V a + V b) /\ is_finite err = true /\
   V s + V err = V a + V b /\ 2 * Z.abs (V err) <= ulp s) /\
  (let s := fst (qd.quick_two_diff a b) in
   let err := snd (qd.quick_two_diff a b) in
   is_finite s = true ->
   V s = rnd (V a - V b) /\ is_finite err = true /\
   V s + V err = V a - V b /\ 2 * Z.abs (V err) <= ulp s).
Proof.
  intros Hva Hvb Hfa Hfb Hab. split.
  - intros s err Hfs. change s with (a + b)%D in *.
    destruct (add_finite a b Hva Hvb Hfa Hfb Hfs) as (Hvs & HVs & Hbs).
    destruct (quick_two_sum_finite a b Hva Hvb Hfa Hfb Hab Hfs) as (Hfe & _ & HVe).
    fold err in Hfe, HVe.
    split; [ exact HVs | ]. split; [ exact Hfe | ].
    split; [ rewrite HVe; ring | ].
    unfold ulp. rewrite HVe, HVs. apply rnd_half_ulp.
  - intros s err Hfs. change s with (a - b)%D in *.
    destruct (sub_finite a b Hva Hvb Hfa Hfb Hfs) as (Hvs & HVs & Hbs).
    destruct (quick_two_diff_finite a b Hva Hvb Hfa Hfb Hab Hfs) as (Hfe & _ & HVe).
    fold err in Hfe, HVe.
    split; [ exact HVs | ]. split; [ exact Hfe | ].
    split; [ rewrite HVe; ring | ].
    unfold ulp. rewrite HVe, HVs. apply rnd_half_ulp.
Qed.

Lemma quick_two_sum_diff_exact_witness :
  V (fst (qd.quick_two_diff d_one _eps)) + V (snd (qd.quick_two_diff d_one _eps))
  = V d_one - V _eps.
Proof.
  destruct (quick_two_sum_diff_exact d_one _eps eq_refl eq_refl eq_refl eq_refl)
    as [_ H].
  - vm_compute. discriminate.
  - exact (proj1 (proj2 (proj2 (H eq_refl)))).
Defined.

(** X6.  [two_diff] is error-free: for finite [a] and [b] whose rounded
    difference [s = fl(a-b)] is finite, when the intermediate [fl(s - a)]
    is finite as well, [err] is finite, [s + err] is the exact [a - b]
    and [|err| <= ulp(s)/2]; when that intermediate overflows, [err] is
    NaN. *)
Theorem two_diff_exact (a b : double) :
  valid a = true -> valid b = true ->
  is_finite a = true -> is_finite b = true ->
  let s := fst (qd.two_diff a b) in
  let err := snd (qd.two_diff a b) in
  is_finite s = true ->
  s = (a - b)%D /\ V s = rnd (V a - V b) /\
  (is_finite (s - a)%D = true ->
   is_finite err = true /\ V s + V err = V a - V b /\
   2 * Z.abs (V err) <= ulp s) /\
  (is_finite (s - a)%D = false -> err = S754_nan).
Proof.
  intros Hva Hvb Hfa Hfb s err Hfs.
  change s with (a - b)%D in *.
  destruct (sub_finite a b Hva Hvb Hfa Hfb Hfs) as (Hvs & HVs & Hbs).
  split; [ reflexivity | ]. split; [ exact HVs | ]. split.
  - intros Hfbb.
    destruct (two_diff_finite a b Hva Hvb Hfa Hfb Hfs Hfbb) as (Hfe & Hve & HVe).
    fold err in Hfe, Hve, HVe.
    split; [ exact Hfe | ]. split; [ rewrite HVe; ring | ].
    unfold ulp. rewrite HVe, HVs. apply rnd_half_ulp.
  - intros Hfbb. exact (two_diff_intermediate_overflow a b Hva Hvb Hfa Hfb Hfs Hfbb).
Qed.

Lemma two_diff_exact_witness :
  V (fst (qd.two_diff _eps d_one)) + V (snd (qd.two_diff _eps d_one))
  = V _eps - V d_one.
Proof.
  destruct (two_diff_exact _eps d_one eq_refl eq_refl eq_refl eq_refl eq_refl)
    as (_ & _ & H & _).
  exact (proj1 (proj2 (H eq_refl))).
Defined.

(** ** [nint] and [aint] return integers and leave integers alone *)

Lemma valid_floor x : valid x = true -> valid (qd_floor x) = true.
Proof.
  intros Hv. destruct (is_finite x) eqn:Hf.
  - exact (proj1 (proj2 (qd_floor_spec x Hv Hf))).
  - destruct x; try discriminate Hf; exact Hv.
Qed.

Lemma valid_ceil x : valid x = true -> valid (qd_ceil x) = true.
Proof.
  intros Hv. destruct (is_finite x) eqn:Hf.
  - exact (proj1 (proj2 (qd_ceil_spec x Hv Hf))).
  - destruct x; try discriminate Hf; exact Hv.
Qed.

Lemma valid_nint d : valid d = true -> valid (qd.nint d) = true.
Proof.
  intros Hv. unfold qd.nint. destruct (d == qd_floor d)%D; [ exact Hv | ].
  apply valid_floor, valid_add; [ exact Hv | reflexivity ].
Qed.

Lemma valid_aint d : valid d = true -> valid (qd.aint d) = true.
Proof.
  intros Hv. unfold qd.aint.
  destruct (d >= d_zero)%D; [ now apply valid_floor | now apply valid_ceil ].
Qed.

(** A finite double that is equal in value to a well-formed one is that
    double, zeros apart. *)
Lemma V_eq_finite x s m e :
  valid x = true -> valid (S754_finite s m e) = true -> is_finite x = true ->
  V x = V (S754_finite s m e) -> x = S754_finite s m e.
Proof.
  intros Hvx Hvy Hfx HV. apply eqb_finite_eq.
  now apply V_eq_eqb.
Qed.

Lemma floor_integer d :
  valid d = true -> is_finite d = true -> (2 ^ 1074 | V d) -> qd_floor d = d.
Proof.
  intros Hv Hf [k Hk].
  destruct (qd_floor_spec d Hv Hf) as (Hff & Hvf & HVf).
  assert (HV : V (qd_floor d) = V d).
  { rewrite HVf, Hk, Z.div_mul by (vm_compute; discriminate). ring. }
  destruct d as [s | s | | s m e]; try discriminate Hf; [ reflexivity | ].
  now apply V_eq_finite.
Qed.

Lemma ceil_integer d :
  valid d = true -> is_finite d = true -> (2 ^ 1074 | V d) -> qd_ceil d = d.
Proof.
  intros Hv Hf [k Hk].
  destruct (qd_ceil_spec d Hv Hf) as (Hff & Hvf & HVf).
  assert (HV : V (qd_ceil d) = V d).
  { rewrite HVf, Hk.
    replace (- (k * 2 ^ 1074)) with (- k * 2 ^ 1074) by ring.
    rewrite Z.div_mul by (vm_compute; discriminate). ring. }
  destruct d as [s | s | | s m e]; try discriminate Hf; [ reflexivity | ].
  now apply V_eq_finite.
Qed.

Lemma nint_integer d :
  valid d = true -> is_finite d = true -> (2 ^ 1074 | V d) -> qd.nint d = d.
Proof.
  intros Hv Hf Hd. unfold qd.nint. rewrite (floor_integer d Hv Hf Hd).
  destruct d as [s | s | | s m e]; try discriminate Hf.
  - reflexivity.
  - rewrite (V_eq_eqb _ _ Hv Hv Hf Hf eq_refl). reflexivity.
Qed.

Lemma aint_integer d :
  valid d = true -> is_finite d = true -> (2 ^ 1074 | V d) -> qd.aint d = d.
Proof.
  intros Hv Hf Hd. unfold qd.aint.
  rewrite (floor_integer d Hv Hf Hd), (ceil_integer d Hv Hf Hd).
  now destruct (d >= d_zero)%D.
Qed.

Lemma nint_is_integer d :
  valid d = true -> is_finite d = true -> (2 ^ 1074 | V (qd.nint d)).
Proof.
  intros Hv Hf.
  destruct (Z.eq_dec (V d) (2 ^ 1073 - 2 ^ 1020)) as [E | E].
  - rewrite (V_pred_half d Hv Hf E). exists 1. vm_compute. reflexivity.
  - destruct (nint_spec d Hv Hf E) as [_ H]. rewrite H.
    exists ((V d + 2 ^ 1073) / 2 ^ 1074). ring.
Qed.

Lemma aint_is_integer d :
  valid d = true -> is_finite d = true -> (2 ^ 1074 | V (qd.aint d)).
Proof.
  intros Hv Hf. destruct (aint_spec d Hv Hf) as [_ H]. rewrite H.
  exists (V d ÷ 2 ^ 1074). ring.
Qed.

Lemma nint_finite d :
  valid d = true -> is_finite d = true -> is_finite (qd.nint d) = true.
Proof.
  intros Hv Hf.
  destruct (Z.eq_dec (V d) (2 ^ 1073 - 2 ^ 1020)) as [E | E].
  - rewrite (V_pred_half d Hv Hf E). reflexivity.
  - exact (proj1 (nint_spec d Hv Hf E)).
Qed.

(** X7.  [nint] and [aint] return integers and return an integer
    argument unchanged, bit for bit; hence both are idempotent, on every
    double (infinities and NaN included); and [aint] is odd:
    [aint(-d)] is [-aint(d)] in value. *)
Theorem nint_aint_idempotent (d : double) :
  valid d = true ->
  qd.nint (qd.nint d) = qd.nint d /\ qd.aint (qd.aint d) = qd.aint d /\
  (is_finite d = true ->
   (2 ^ 1074 | V (qd.nint d)) /\ (2 ^ 1074 | V (qd.aint d)) /\
   V (qd.aint (- d)%D) = - V (qd.aint d)) /\
  (is_finite d = true -> (2 ^ 1074 | V d) -> qd.nint d = d /\ qd.aint d = d).
Proof.
  intros Hv.
  split; [ | split; [ | split ] ].
  - destruct (is_finite d) eqn:Hf.
    + apply nint_integer;
        [ now apply valid_nint | now apply nint_finite | now apply nint_is_integer ].
    + destruct d as [s | [|] | | s m e]; try discriminate Hf; reflexivity.
  - destruct (is_finite d) eqn:Hf.
    + apply aint_integer;
        [ now apply valid_aint | exact (proj1 (aint_spec d Hv Hf))
        | now apply aint_is_integer ].
    + destruct d as [s | [|] | | s m e]; try discriminate Hf; reflexivity.
  - intros Hf.
    split; [ now apply nint_is_integer | ].
    split; [ now apply aint_is_integer | ].
    assert (Hvn : valid (- d)%D = true) by now apply valid_neg.
    assert (Hfn : is_finite (- d)%D = true) by (destruct d; try discriminate Hf; reflexivity).
    assert (HVn : V (- d)%D = - V d).
    { destruct d as [s | s | | s m e]; try reflexivity.
      unfold V. cbn. destruct s; cbn [cond_Zopp negb]; lia. }
    rewrite (proj2 (aint_spec _ Hvn Hfn)), (proj2 (aint_spec d Hv Hf)), HVn.
    rewrite Z.quot_opp_l by (vm_compute; discriminate). ring.
  - intros Hf Hd. split; [ now apply nint_integer | now apply aint_integer ].
Qed.

Lemma nint_aint_idempotent_witness :
  qd.nint (lit 3.0) = lit 3.0 /\ qd.aint (lit 3.0) = lit 3.0.
Proof.
  destruct (nint_aint_idempotent (lit 3.0) eq_refl) as (_ & _ & _ & H).
  apply H; [ reflexivity | ]. exists 3. vm_compute. reflexivity.
Defined.

(** ** [c_dd_neg] *)

Lemma neg_involutive (x : double) : (- - x)%D = x.
Proof. destruct x as [s | s | | s m e]; cbn; now rewrite ?negb_involutive. Qed.

Lemma V_neg (x : double) : V (- x)%D = - V x.
Proof.
  destruct x as [s | s | | s m e]; try reflexivity.
  unfold V. cbn. destruct s; cbn [cond_Zopp negb]; lia.
Qed.

Lemma is_finite_neg (x : double) : is_finite (- x)%D = is_finite x.
Proof. now destruct x. Qed.

Lemma is_nan_neg (x : double) : is_nan (- x)%D = is_nan x.
Proof. now destruct x. Qed.

(** X8.  [c_dd_neg] negates both limbs: it is an involution (two
    negations give back the argument bit for bit, NaN and signed zeros
    included), it negates the value of each finite limb, and it keeps
    normal form and NaN-ness. *)
Theorem c_dd_neg_involutive (a : dd_real) :
  c_dd_neg (c_dd_neg a) = a /\
  V (x0 (c_dd_neg a)) = - V (x0 a) /\ V (x1 (c_dd_neg a)) = - V (x1 a) /\
  normal_form (c_dd_neg a) = normal_form a /\
  dd.isnan (c_dd_neg a) = dd.isnan a.
Proof.
  destruct a as [a0 a1]. unfold c_dd_neg, normal_form, dd.isnan, ulp.
  cbn [x0 x1].
  split; [ now rewrite !neg_involutive | ].
  split; [ apply V_neg | ]. split; [ apply V_neg | ].
  split; [ | now rewrite !is_nan_neg ].
  rewrite !is_finite_neg, !V_neg, ulpexp_opp, Z.abs_opp.
  replace (- V a0 + - V a1) with (- (V a0 + V a1)) by ring.
  rewrite rnd_opp.
  f_equal. destruct (Z.eqb_spec (rnd (V a0 + V a1)) (V a0)) as [E | E].
  - rewrite E. apply Z.eqb_refl.
  - apply Z.eqb_neq. lia.
Qed.

(** ** The comparisons order normal forms by value *)

Lemma normal_form_parts a :
  normal_form a = true ->
  is_finite (x0 a) = true /\ is_finite (x1 a) = true /\
  2 * Z.abs (V (x1 a)) <= ulp (x0 a) /\ rnd (V (x0 a) + V (x1 a)) = V (x0 a).
Proof.
  unfold normal_form. rewrite !andb_true_iff, Z.leb_le, Z.eqb_eq. tauto.
Qed.

Lemma normal_form_of_double b :
  valid b = true -> is_finite b = true -> normal_form (dd.of_double b) = true.
Proof.
  intros Hv Hf. unfold normal_form, dd.of_double. cbn [x0 x1].
  rewrite Hf. change (V d_zero) with 0. rewrite Z.add_0_r, (rnd_id _ (F_V b Hv)).
  rewrite Z.eqb_refl, !andb_true_r. cbn. apply Z.leb_le.
  unfold ulp. pose proof (pow2_pos (ulpexp (V b)) (ulpexp_nonneg _)). lia.
Qed.

Lemma normal_form_comparable a :
  normal_form a = true -> dd.comparable a = true.
Proof.
  intros H. unfold dd.comparable. rewrite H, andb_true_r.
  destruct (normal_form_parts a H) as (F0 & F1 & _).
  unfold dd.isnan. destruct (x0 a), (x1 a); try discriminate; reflexivity.
Qed.

Lemma c_dd_comp_order a b :
  valid (x0 a) = true -> valid (x1 a) = true ->
  valid (x0 b) = true -> valid (x1 b) = true ->
  normal_form a = true -> normal_form b = true ->
  c_dd_comp a b = Z.sgn ((V (x0 a) + V (x1 a)) - (V (x0 b) + V (x1 b))).
Proof.
  intros Va0 Va1 Vb0 Vb1 Ha Hb.
  destruct (normal_form_parts a Ha) as (Fa0 & Fa1 & _ & Ra).
  destruct (normal_form_parts b Hb) as (Fb0 & Fb1 & _ & Rb).
  unfold c_dd_comp, dd.lt, dd.gt.
  rewrite (normal_form_comparable a Ha), (normal_form_comparable b Hb).
  cbn [andb]. unfold dd.lex_lt, dd.lex_gt.
  rewrite (ltb_V (x0 a) (x0 b)), (ltb_V (x1 a) (x1 b)),
    (gtb_V (x0 a) (x0 b)), (gtb_V (x1 a) (x1 b)),
    (eqb_V_iff (x0 a) (x0 b)) by assumption.
  pose proof (rnd_mono (V (x0 a) + V (x1 a)) (V (x0 b) + V (x1 b))) as M1.
  pose proof (rnd_mono (V (x0 b) + V (x1 b)) (V (x0 a) + V (x1 a))) as M2.
  rewrite Ra, Rb in M1, M2.
  destruct (Z.ltb_spec (V (x0 a)) (V (x0 b))) as [L | L]; cbn [orb].
  - symmetry. apply Z.sgn_neg. lia.
  - destruct (Z.eqb_spec (V (x0 a)) (V (x0 b))) as [E | E]; cbn [andb].
    + rewrite E, Z.ltb_irrefl. cbn [orb].
      destruct (Z.ltb_spec (V (x1 a)) (V (x1 b))) as [L1 | L1].
      * symmetry. apply Z.sgn_neg. lia.
      * destruct (Z.ltb_spec (V (x1 b)) (V (x1 a))) as [L2 | L2].
        -- symmetry. apply Z.sgn_pos. lia.
        -- symmetry. apply Z.sgn_null. lia.
    + destruct (Z.ltb_spec (V (x0 b)) (V (x0 a))) as [G | G]; [ | lia ].
      cbn [orb]. symmetry. apply Z.sgn_pos. lia.
Qed.

(** X9.  On arguments in normal form, [c_dd_comp] compares the values:
    it returns the sign (-1, 0, 1) of [(a0 + a1) - (b0 + b1)]; and so do
    [c_dd_comp_dd_d] and [c_dd_comp_d_dd] for a [dd_real] in normal form
    and a finite [double]. *)
Theorem c_dd_comp_orders_values (a b : dd_real) (d : double) :
  valid (x0 a) = true -> valid (x1 a) = true ->
  valid (x0 b) = true -> valid (x1 b) = true ->
  valid d = true -> is_finite d = true ->
  normal_form a = true -> normal_form b = true ->
  c_dd_comp a b = Z.sgn ((V (x0 a) + V (x1 a)) - (V (x0 b) + V (x1 b))) /\
  c_dd_comp_dd_d a d = Z.sgn ((V (x0 a) + V (x1 a)) - V d) /\
  c_dd_comp_d_dd d b = Z.sgn (V d - (V (x0 b) + V (x1 b))).
Proof.
  intros Va0 Va1 Vb0 Vb1 Vd Fd Ha Hb.
  pose proof (normal_form_of_double d Vd Fd) as Hd.
  split; [ now apply c_dd_comp_order | ]. split.
  - change (c_dd_comp_dd_d a d) with (c_dd_comp a (dd.of_double d)).
    rewrite (c_dd_comp_order a (dd.of_double d)) by (try assumption; reflexivity).
    cbn [x0 x1 dd.of_double]. change (V d_zero) with 0. now rewrite Z.add_0_r.
  - change (c_dd_comp_d_dd d b) with (c_dd_comp (dd.of_double d) b).
    rewrite (c_dd_comp_order (dd.of_double d) b) by (try assumption; reflexivity).
    cbn [x0 x1 dd.of_double]. change (V d_zero) with 0. now rewrite Z.add_0_r.
Qed.

Lemma c_dd_comp_orders_values_witness :
  c_dd_comp lit_pi lit_e = 1 /\ c_dd_comp_dd_d lit_e d_two = 1.
Proof.
  destruct (c_dd_comp_orders_values lit_pi lit_e d_two
              eq_refl eq_refl eq_refl eq_refl eq_refl eq_refl eq_refl eq_refl)
    as (H1 & _ & _).
  destruct (c_dd_comp_orders_values lit_e lit_e d_two
              eq_refl eq_refl eq_refl eq_refl eq_refl eq_refl eq_refl eq_refl)
    as (_ & H2 & _).
  split; [ rewrite H1 | rewrite H2 ]; vm_compute; reflexivity.
Defined.






(** ** [npwr]: unit exponents and reciprocals *)

(** X11.  [npwr] with exponent 1 returns its argument, bit for bit; with
    a negative exponent [-n] it returns [1.0 / npwr(a, n)]; with exponent
    0 it returns 1 for every argument whose leading limb is not zero; and
    it calls the error hook for [0^0] only. *)
Theorem npwr_exponents (a : dd_real) (n : Z) :
  value (npwr G a 1) = a /\
  (0 < n <= INT_MAX ->
   value (npwr G a (- n)) = dd.div_d_dd d_one (value (npwr G a n))) /\
  (dd.is_zero a = false -> value (npwr G a 0) = dd.of_double d_one) /\
  (hook_calls (npwr G a n) <> [] <-> n = 0 /\ dd.is_zero a = true).
Proof.
  split; [ reflexivity | ]. split; [ | split ].
  - intros Hn. unfold npwr, INT_MAX in *.
    destruct (Z.eqb_spec (- n) 0) as [E | _]; [ lia | ].
    destruct (Z.eqb_spec n 0) as [E | _]; [ lia | ].
    assert (Ea : qd_abs (- n) = n).
    { unfold qd_abs, INT_MIN.
      destruct (Z.eqb_spec (- n) (- 2 ^ 31)) as [E | _]; lia. }
    assert (Eb : qd_abs n = n).
    { unfold qd_abs, INT_MIN.
      destruct (Z.eqb_spec n (- 2 ^ 31)) as [E | _]; lia. }
    rewrite Ea, Eb.
    destruct (Z.ltb_spec (- n) 0) as [_ | H]; [ | lia ].
    destruct (Z.ltb_spec n 0) as [H | _]; [ lia | ].
    reflexivity.
  - intros Hz. unfold npwr. cbn. rewrite Hz. reflexivity.
  - unfold npwr. destruct (Z.eqb_spec n 0) as [E | E].
    + destruct (dd.is_zero a); cbn; split; try tauto; try discriminate.
      intros [_ H]. discriminate H.
    + destruct (n <? 0); cbn; split; try tauto; intros [H _]; contradiction.
Qed.

Lemma npwr_exponents_witness :
  value (npwr G lit_e (- 3)) = dd.div_d_dd d_one (value (npwr G lit_e 3)).
Proof.
  apply (proj1 (proj2 (npwr_exponents lit_e 3))).
  vm_compute. split; [ reflexivity | discriminate ].
Defined.

(** ** The binary exponentiation of [npwr] *)

Lemma quot_rem_2 (n b : Z) :
  0 <= n -> 0 <= b < 2 -> Z.quot (2 * n + b) 2 = n /\ Z.rem (2 * n + b) 2 = b.
Proof.
  intros Hn Hb.
  rewrite Z.quot_div_nonneg, Z.rem_mod_nonneg by lia.
  split.
  - symmetry. apply (Z.div_unique _ _ _ b); lia.
  - symmetry. apply (Z.mod_unique _ _ n); lia.
Qed.

Lemma npwr_while_step fuel N r s :
  0 < N ->
  npwr_while (S fuel) N r s
  = npwr_while fuel (Z.quot N 2)
      (if Z.quot N 2 >? 0 then dd.sqr r else r)
      (if Z.rem N 2 =? 1 then (s * r)%DD else s).
Proof.
  intros HN. cbn [npwr_while].
  destruct (Z.gtb_spec N 0) as [_ | H]; [ reflexivity | lia ].
Qed.

Lemma npwr_while_loop (p : positive) :
  forall fuel r s,
  (Pos.size_nat p < fuel)%nat ->
  npwr_while fuel (Zpos p) r s = Some (npwr_loop p r s).
Proof.
  induction p as [p IH | p IH | ]; intros fuel r s Hf;
    (destruct fuel as [ | fuel ]; [ cbn in Hf; lia | ]);
    cbn [Pos.size_nat] in Hf; rewrite npwr_while_step by lia.
  - destruct (quot_rem_2 (Zpos p) 1 ltac:(lia) ltac:(lia)) as [Q R].
    change (2 * Zpos p + 1) with (Zpos p~1) in Q, R. rewrite Q, R.
    cbn [Z.gtb Z.compare Z.eqb Pos.eqb npwr_loop]. apply IH. lia.
  - destruct (quot_rem_2 (Zpos p) 0 ltac:(lia) ltac:(lia)) as [Q R].
    rewrite Z.add_0_r in Q, R.
    change (2 * Zpos p) with (Zpos p~0) in Q, R. rewrite Q, R.
    cbn [Z.gtb Z.compare Z.eqb npwr_loop]. apply IH. lia.
  - destruct fuel as [ | fuel ]; [ lia | ]. reflexivity.
Qed.

(** X12.  The binary-exponentiation loop of [npwr] terminates: for every
    [int] [N >= 1] it exits after at most 31 iterations (one per binary
    digit of [N]), with the result the embedding computes by recursion on
    the digits of [N]. *)
Theorem npwr_loop_terminates (N : Z) (r s : dd_real) :
  1 <= N <= INT_MAX ->
  npwr_while 32 N r s = Some (npwr_loop (Z.to_pos N) r s).
Proof.
  intros HN. destruct N as [ | p | p ]; try lia.
  apply npwr_while_loop. change (Z.to_pos (Zpos p)) with p.
  assert (Hs : (Pos.size_nat p <= 31)%nat).
  { change INT_MAX with 2147483647 in HN.
    destruct (Pos.eq_dec p 2147483647) as [-> | Hne]; [ reflexivity | ].
    assert (Hlt : (p < 2147483647)%positive).
    { assert (Zpos p <> 2147483647) by congruence.
      assert (Hz : Zpos p < 2147483647) by lia.
      unfold Pos.lt. rewrite Pos2Z.inj_compare. exact Hz. }
    exact (Pos.size_nat_monotone p 2147483647 Hlt). }
  lia.
Qed.

Lemma npwr_loop_terminates_witness :
  npwr_while 32 5 lit_e (dd.of_double d_one)
  = Some (npwr_loop 5 lit_e (dd.of_double d_one)).
Proof.
  apply (npwr_loop_terminates 5 lit_e (dd.of_double d_one)).
  vm_compute. split; discriminate.
Defined.

(** ** [sincosh] returns the [sinh] and [cosh] of the single functions *)

Lemma SFcompare_not_nan (x y : double) :
  is_nan x = false -> is_nan y = false -> SFcompare x y <> None.
Proof.
  destruct x as [[|]|[|]| |[|] m e], y as [[|]|[|]| |[|] m' e'];
    cbn; try discriminate; intros _ _;
    destruct (e ?= e'); try discriminate;
    destruct (Pos.compare_cont Eq m m'); discriminate.
Qed.

Lemma leb_false_gtb (x y : double) :
  is_nan x = false -> is_nan y = false ->
  (x <= y)%D = false -> (x > y)%D = true.
Proof.
  intros Hx Hy. pose proof (SFcompare_not_nan x y Hx Hy) as H.
  unfold leb, gtb, ltb, SFleb, SFltb. rewrite (SFcompare_antisym x y).
  destruct (SFcompare x y) as [[ | | ] | ]; cbn; congruence.
Qed.

Lemma gtb_not_leb (x y : double) : (x > y)%D = true -> (x <= y)%D = false.
Proof.
  unfold leb, gtb, ltb, SFleb, SFltb. rewrite (SFcompare_antisym x y).
  destruct (SFcompare x y) as [[ | | ] | ]; cbn; congruence.
Qed.

(** An argument whose leading limb exceeds [0.05] in magnitude is not
    zero and takes the [exp] branch of [sinh]. *)
Lemma large_leading_limb (a : dd_real) :
  (qd_fabs (dd.to_double a) > d_0_05)%D = true ->
  dd.is_zero a = false /\ dd.gt_d (dd.abs a) d_0_05 = true.
Proof.
  destruct a as [a0 a1]. unfold dd.to_double, dd.is_zero, dd.gt_d, dd.abs.
  cbn [x0 x1]. intros H.
  destruct a0 as [s | s | | s m e].
  - destruct s; discriminate H.
  - split; [ now destruct s | ]. destruct s; reflexivity.
  - discriminate H.
  - split; [ now destruct s | ].
    destruct s; cbn [x0 dd.neg]; apply orb_true_iff; left; exact H.
Qed.

(** X13.  For an argument whose leading limb is not NaN, the first
    result of [sincosh] is the result of [sinh]; and when the leading
    limb exceeds [0.05] in magnitude, the second is the result of
    [cosh]. *)
Theorem sincosh_agrees (fuel : nat) (a : dd_real) :
  is_nan (x0 a) = false ->
  option_map fst (value (sincosh G fuel a)) = value (sinh G fuel a) /\
  ((qd_fabs (dd.to_double a) > d_0_05)%D = true ->
   option_map snd (value (sincosh G fuel a)) = Some (value (cosh G a))).
Proof.
  intros Hn. unfold sincosh.
  destruct (qd_fabs (dd.to_double a) <= d_0_05)%D eqn:Hle.
  - split.
    + rewrite value_bind. destruct (value (sinh G fuel a)) as [s | ].
      * rewrite value_bind. reflexivity.
      * reflexivity.
    + intros Hgt. rewrite (gtb_not_leb _ _ Hgt) in Hle. discriminate Hle.
  - assert (Hgt : (qd_fabs (dd.to_double a) > d_0_05)%D = true).
    { apply leb_false_gtb; [ | reflexivity | exact Hle ].
      unfold dd.to_double. now destruct (x0 a). }
    destruct (large_leading_limb a Hgt) as [Hz Hg].
    split.
    + unfold sinh. rewrite Hz, Hg. rewrite !value_bind. reflexivity.
    + intros _. unfold cosh. rewrite Hz. rewrite !value_bind. reflexivity.
Qed.

Lemma sincosh_agrees_witness :
  option_map snd (value (sincosh G 1 lit_e)) = Some (value (cosh G lit_e)).
Proof.
  apply (proj2 (sincosh_agrees 1 lit_e eq_refl)). reflexivity.
Defined.

(** ** The tables of constants *)

Lemma table_check (P : nat -> bool) (n : nat) (i : Z) :
  forallb P (seq 0 n) = true -> 0 <= i < Z.of_nat n -> P (Z.to_nat i) = true.
Proof.
  intros H Hi. rewrite forallb_forall in H. apply H, in_seq. lia.
Qed.

(** X14.  Every entry [inv_fact[i]] of the table of Taylor coefficients
    is an expansion in normal form whose value is [1/(i+3)!] to within
    [2^-107] of relative error. *)
Theorem inv_fact_table (i : Z) :
  0 <= i < n_inv_fact ->
  let t := table_at inv_fact i in
  normal_form t = true /\
  2 ^ 107 * Z.abs (dd_val t * fact_Z (Z.to_nat i + 3) - 2 ^ 1074) <= 2 ^ 1074.
Proof.
  intros Hi t.
  pose (P := fun k : nat =>
    let t := table_at inv_fact (Z.of_nat k) in
    normal_form t
    && (2 ^ 107 * Z.abs (dd_val t * fact_Z (k + 3) - 2 ^ 1074) <=? 2 ^ 1074)).
  assert (H : forallb P (seq 0 15) = true) by (vm_compute; reflexivity).
  pose proof (table_check P 15 i H Hi) as Hc. unfold P in Hc.
  rewrite Z2Nat.id in Hc by lia. cbv zeta in Hc.
  apply andb_true_iff in Hc. destruct Hc as [H1 H2].
  split; [ exact H1 | apply Z.leb_le; exact H2 ].
Qed.

Lemma inv_fact_table_witness :
  normal_form (table_at inv_fact 0) = true /\
  2 ^ 107 * Z.abs (dd_val (table_at inv_fact 0) * fact_Z (Z.to_nat 0 + 3) - 2 ^ 1074)
  <= 2 ^ 1074.
Proof.
  apply (inv_fact_table 0). vm_compute. split; [ discriminate | reflexivity ].
Defined.

(** X15.  The tables [sin_table] and [cos_table] hold [sin(k*pi/16)]
    and [cos(k*pi/16)] for [k = 1..4]: their entries are positive normal
    forms with [sin < cos] below [k = 4] and [sin = cos] at [k = 4],
    and they satisfy, each to within [2^-107], [sin^2 + cos^2 = 1], the
    duplication [2 sin cos] from [k = 1] to 2 and from 2 to 4,
    [2 sin^2 = 1] at [k = 4], and the subtraction formulas that give
    [k = 3] from 4 and 1.  These relations determine the eight
    values. *)
Theorem sin_cos_tables :
  let S := fun k => dd_val (table_at sin_table (k - 1)) in
  let C := fun k => dd_val (table_at cos_table (k - 1)) in
  let W2 := 2 ^ 2148 in
  let W1 := 2 ^ 1074 in
  let tol := 2 ^ (2148 - 107) in
  (forall k, 1 <= k <= 4 ->
     normal_form (table_at sin_table (k - 1)) = true /\
     normal_form (table_at cos_table (k - 1)) = true /\
     0 < S k <= C k /\ Z.abs (S k * S k + C k * C k - W2) <= tol) /\
  S 1 < S 2 < S 3 /\ S 3 < S 4 /\ S 4 = C 4 /\
  Z.abs (2 * S 4 * S 4 - W2) <= tol /\
  Z.abs (2 * S 2 * C 2 - S 4 * W1) <= tol /\
  Z.abs (2 * S 1 * C 1 - S 2 * W1) <= tol /\
  Z.abs (S 4 * C 1 - C 4 * S 1 - S 3 * W1) <= tol /\
  Z.abs (C 4 * C 1 + S 4 * S 1 - C 3 * W1) <= tol.
Proof.
  intros S C W2 W1 tol.
  split.
  - intros k Hk.
    assert (E : k = 1 \/ k = 2 \/ k = 3 \/ k = 4) by lia.
    destruct E as [-> | [-> | [-> | ->]]];
      (split; [ vm_compute; reflexivity | ];
       split; [ vm_compute; reflexivity | ];
       split; [ split; vm_compute; (reflexivity || discriminate) | ];
       vm_compute; discriminate).
  - repeat split; vm_compute; (reflexivity || discriminate).
Qed.

Lemma sin_cos_tables_witness :
  normal_form (table_at sin_table (1 - 1)) = true.
Proof.
  apply (proj1 sin_cos_tables 1). vm_compute. split; discriminate.
Defined.

(** X16.  The constants that [c_dd_init] sets, whatever was stored
    before: all but [_nan] and [_inf] are normal forms; [_2pi], [_pi2],
    [_pi4] and [_pi16] are [_pi] scaled limb by limb by an exact power of
    two; [_3pi4] is three times [_pi4] to within [2^-107]; [_max] is the
    largest double followed by its product by [2^-54]; and [_nan] and
    [_inf] hold NaN and +infinity in both limbs. *)
Theorem c_dd_init_constants (g : dd_globals) :
  let g' := c_dd_init g in
  forallb normal_form
    [_2pi g'; _pi g'; _pi2 g'; _pi4 g'; _3pi4 g'; _e g'; _log2 g'; _log10 g';
     _max g'; _safe_max g'; _pi16 g'] = true /\
  (V (x0 (_2pi g')) = 2 * V (x0 (_pi g')) /\
   V (x1 (_2pi g')) = 2 * V (x1 (_pi g'))) /\
  (2 * V (x0 (_pi2 g')) = V (x0 (_pi g')) /\
   2 * V (x1 (_pi2 g')) = V (x1 (_pi g'))) /\
  (4 * V (x0 (_pi4 g')) = V (x0 (_pi g')) /\
   4 * V (x1 (_pi4 g')) = V (x1 (_pi g'))) /\
  (16 * V (x0 (_pi16 g')) = V (x0 (_pi g')) /\
   16 * V (x1 (_pi16 g')) = V (x1 (_pi g'))) /\
  2 ^ 107 * Z.abs (dd_val (_3pi4 g') - 3 * dd_val (_pi4 g')) <= 2 ^ 1074 /\
  x0 (_max g') = DBL_MAX /\ 2 ^ 54 * V (x1 (_max g')) = V DBL_MAX /\
  _nan g' = mk_dd S754_nan S754_nan /\
  _inf g' = mk_dd (S754_infinity false) (S754_infinity false).
Proof.
  intros g'. unfold g', c_dd_init. cbn [_2pi _pi _pi2 _pi4 _3pi4 _e _log2 _log10
    _max _safe_max _pi16 _nan _inf].
  repeat split; vm_compute; (reflexivity || discriminate).
Qed.

(** ** Veltkamp's splitting, on scaled integers *)

Section ZSplit.
Variable n : Z.
Hypothesis Hn : 0 <= n.
Hypothesis HF : F n.

Let c := rnd (134217729 * n).
Let d := rnd (c - n).
Let j := ulpexp (c - n).

Lemma Z_split_c : 134217728 * n <= c.
Proof.
  unfold c. rewrite <- (rnd_id (134217728 * n)).
  - apply rnd_mono. lia.
  - replace (134217728 * n) with (n * 2 ^ 27) by (change (2 ^ 27) with 134217728; lia).
    apply F_pow2_mul; [ lia | exact HF ].
Qed.

Lemma Z_split_hi : rnd (c - d) = c - d /\ (2 ^ j | c - d).
Proof.
  pose proof Z_split_c as Hc.
  pose proof (ulpexp_nonneg (c - n)) as Hj. fold j in Hj.
  pose proof (pow2_pos j Hj) as Hp.
  pose proof (rnd_error (c - n)) as He. fold d j in He.
  pose proof (ulpexp_upper (c - n)) as Hu. fold j in Hu.
  rewrite Z.abs_eq in Hu by lia.
  assert (Hdiv : (2 ^ j | c - d)).
  { apply Z.divide_sub_r.
    - apply Z.divide_trans with (2 ^ ulpexp c).
      + apply pow2_divide. split; [ exact Hj | ].
        apply ulpexp_le_mono. rewrite !Z.abs_eq by lia. lia.
      + exact (rnd_F (134217729 * n)).
    - exact (rnd_divide (c - n)). }
  split; [ | exact Hdiv ].
  apply rnd_id. apply (F_multiple _ j); [ exact Hj | exact Hdiv | ].
  rewrite Z.pow_add_r by lia. change (2 ^ 53) with (2 * 2 ^ 52).
  rewrite Z.pow_add_r in Hu by lia. change (2 ^ 53) with (2 * 2 ^ 52) in Hu.
  lia.
Qed.

Lemma Z_split_lo :
  rnd (n - (c - d)) = n - (c - d) /\ 2 * Z.abs (n - (c - d)) <= 2 ^ j.
Proof.
  pose proof (rnd_error (c - n)) as He. fold d j in He.
  split.
  - apply rnd_id.
    replace (n - (c - d)) with (- (c + - n - rnd (c + - n)))
      by (unfold d; rewrite Z.add_opp_r; ring).
    apply F_opp, F_add_error; [ exact (rnd_F _) | now apply F_opp ].
  - replace (n - (c - d)) with (d - (c - n)) by ring. exact He.
Qed.

(** For a normal [n] the high part is a multiple of [2^27] units in the
    last place of [n], and the low part is at most [2^26] of them. *)
Lemma Z_split_width :
  2 ^ 52 <= n ->
  (2 ^ (27 + ulpexp n) | c - d) /\ Z.abs (n - (c - d)) <= 2 ^ (26 + ulpexp n).
Proof.
  intros Hbig.
  pose proof (ulpexp_nonneg n) as He. set (e := ulpexp n) in *.
  pose proof (pow2_pos e He) as Hpe.
  assert (Hlo : 2 ^ (52 + e) <= n).
  { destruct (Z.eq_dec e 0) as [E | E].
    - rewrite E. exact Hbig.
    - pose proof (ulpexp_lower n ltac:(fold e; lia)) as H.
      fold e in H. rewrite Z.abs_eq in H by lia. exact H. }
  pose proof (ulpexp_upper n) as Hup. fold e in Hup.
  rewrite Z.abs_eq in Hup by lia.
  destruct HF as [q Hq]. fold e in Hq.
  rewrite !Z.pow_add_r in * by lia.
  change (2 ^ 52) with 4503599627370496 in *.
  change (2 ^ 53) with 9007199254740992 in *.
  change (2 ^ 27) with 134217728 in *. change (2 ^ 26) with 67108864 in *.
  set (E := 2 ^ e) in *.
  (* the rounding error of [c] is at most [2^27 E] *)
  assert (Hk : ulpexp (134217729 * n) <= 28 + e).
  { apply ulpexp_bound; [ lia | ]. rewrite Z.abs_eq by lia.
    rewrite !Z.pow_add_r by lia. fold E.
    change (2 ^ 53) with 9007199254740992. change (2 ^ 28) with 268435456. nia. }
  pose proof (rnd_error (134217729 * n)) as Hc. fold c in Hc.
  pose proof (ulpexp_nonneg (134217729 * n)) as Hk0.
  pose proof (pow2_le _ _ (conj Hk0 Hk)) as Hpk.
  rewrite Z.pow_add_r in Hpk by lia. fold E in Hpk.
  change (2 ^ 28) with 268435456 in Hpk.
  pose proof Z_split_c as Hc0.
  (* bounds on [c - n] *)
  assert (Hcn : 604462909807314587353088 * E <= c - n <= 1208925819614629174706176 * E).
  { destruct (Z.eq_dec q 4503599627370496) as [Eq | Eq].
    - assert (En : n = 4503599627370496 * E) by lia.
      assert (Ec : c = 134217729 * n).
      { unfold c. apply rnd_id. rewrite En.
        replace (134217729 * (4503599627370496 * E))
          with (134217729 * 2 ^ 52 * 2 ^ e)
          by (unfold E; change (2 ^ 52) with 4503599627370496; ring).
        apply F_pow2_mul; [ exact He | ].
        apply F_pow2_mul; [ lia | apply F_small; vm_compute; discriminate ]. }
      lia.
    - assert (4503599627370496 + 1 <= q) by nia.
      assert (q <= 9007199254740992 - 1) by nia.
      nia. }
  pose proof (ulpexp_nonneg (c - n)) as Hj. fold j in Hj.
  pose proof Z_split_hi as [_ Hdiv].
  pose proof Z_split_lo as [_ Hl].
  assert (Hj1 : 27 + e <= j).
  { apply ulpexp_ge; [ lia | ]. rewrite Z.abs_eq by lia.
    replace (52 + (27 + e)) with (79 + e) by lia.
    rewrite Z.pow_add_r by lia. fold E.
    change (2 ^ 79) with 604462909807314587353088. lia. }
  split.
  - apply Z.divide_trans with (2 ^ j); [ | exact Hdiv ].
    replace (134217728 * E) with (2 ^ (27 + e))
      by (rewrite Z.pow_add_r by lia; reflexivity).
    apply pow2_divide. lia.
  - destruct (Z.eq_dec (c - n) (1208925819614629174706176 * E)) as [Eq | Eq].
    + (* [c - n] is a power of two: the low part is zero *)
      assert (Ed : d = c - n).
      { unfold d. apply rnd_id. rewrite Eq.
        replace (1208925819614629174706176 * E) with (2 ^ (80 + e))
          by (rewrite Z.pow_add_r by lia; reflexivity).
        apply F_pow2. lia. }
      replace (n - (c - d)) with 0 by lia. rewrite Z.abs_0. lia.
    + assert (Hj2 : j <= 27 + e).
      { apply ulpexp_bound; [ lia | ]. rewrite Z.abs_eq by lia.
        replace (53 + (27 + e)) with (80 + e) by lia.
        rewrite Z.pow_add_r by lia. fold E.
        change (2 ^ 80) with 1208925819614629174706176. lia. }
      assert (Ej : j = 27 + e) by lia.
      rewrite Ej, Z.pow_add_r in Hl by lia. fold E in Hl.
      change (2 ^ 27) with 134217728 in Hl. lia.
Qed.

End ZSplit.

(** ** A product that is an integer in units of [2^-1074] is rounded as one *)

Lemma rneq_rne a k : 0 <= k -> rneq a (2 ^ k) = rne a k.
Proof.
  intros Hk. pose proof (pow2_pos k Hk) as Hp.
  unfold rneq, rne, locq, round_nearest_even.
  destruct (Z.eqb_spec (a mod 2 ^ k) 0) as [E | E].
  - rewrite E.
    assert (C : (2 * 0 ?= 2 ^ k) = Lt) by (apply Z.compare_lt_iff; lia).
    now rewrite C.
  - destruct (2 * (a mod 2 ^ k) ?= 2 ^ k); reflexivity.
Qed.

Lemma log2_pow2_mul a j : 0 < a -> 0 <= j -> Z.log2 (a * 2 ^ j) = Z.log2 a + j.
Proof.
  intros Ha Hj. destruct a as [ | p | p ]; try lia. now apply log2_scaled.
Qed.

Lemma mul_exact_finite sx mx ex sy my ey N :
  let x := S754_finite sx mx ex in
  let y := S754_finite sy my ey in
  valid x = true -> valid y = true ->
  V x * V y = N * 2 ^ 1074 -> Z.abs (rnd N) < 2 ^ 2098 ->
  is_finite (x * y)%D = true /\ V (x * y)%D = rnd N.
Proof.
  intros x y Hvx Hvy HN Hb.
  assert (HW : 0 < 2 ^ 1074) by (apply pow2_pos; lia).
  pose proof (valid_exponent _ _ _ Hvx) as Hex.
  pose proof (valid_exponent _ _ _ Hvy) as Hey.
  assert (Hpre : ex + ey
                 <= fexp prec emax (Zdigits2 (Zpos (mx * my) / 1) + (ex + ey))).
  { rewrite Z.div_1_r.
    pose proof (valid_digits _ _ _ Hvx) as Dx.
    pose proof (valid_digits _ _ _ Hvy) as Dy.
    rewrite fexp_eq, Zdigits2_log2 by lia.
    rewrite Pos2Z.inj_mul.
    pose proof (Z.log2_mul_below (Zpos mx) (Zpos my) ltac:(lia) ltac:(lia)).
    pose proof (Z.log2_nonneg (Zpos mx)). pose proof (Z.log2_nonneg (Zpos my)).
    lia. }
  pose proof (binary_round_aux_value (xorb sx sy) (Zpos (mx * my)) 1 (ex + ey)
                ltac:(lia) ltac:(lia) Hpre) as H.
  cbv zeta in H.
  assert (Hloc : locq (Zpos (mx * my)) 1 = loc_Exact).
  { unfold locq. now rewrite Z.mod_1_r. }
  rewrite Hloc in H. rewrite (Z.div_1_r (Zpos (mx * my))) in H.
  assert (Emul : (x * y)%D
                 = binary_round_aux prec emax (xorb sx sy) (Zpos (mx * my))
                     (ex + ey) loc_Exact) by reflexivity.
  rewrite <- Emul in H. clear Emul Hloc.
  generalize dependent (x * y)%D. intros r H.
  set (M := Zpos (mx * my)) in *.
  set (e := ex + ey) in *.
  set (n := fexp prec emax (Zdigits2 M + e) - e) in *.
  destruct H as (Hn & _ & _ & Hfin).
  rewrite Z.mul_1_l in Hfin.
  (* the magnitude [A] of [N] *)
  set (s := xorb sx sy) in *.
  assert (Esgn : V x * V y = cond_Zopp s (M * 2 ^ (e + 2148))).
  { unfold x, y, V, M, e, s. rewrite Pos2Z.inj_mul.
    replace (ex + ey + 2148) with ((ex + 1074) + (ey + 1074)) by lia.
    rewrite (Z.pow_add_r 2 (ex + 1074) (ey + 1074)) by lia.
    destruct sx, sy; unfold cond_Zopp, xorb; ring. }
  assert (HM : 0 < M) by (unfold M; lia).
  set (A := Z.abs N).
  assert (HA : A * 2 ^ 1074 = M * 2 ^ (e + 2148)).
  { assert (Hp : 0 < 2 ^ (e + 2148)) by (apply pow2_pos; unfold e; lia).
    unfold A. rewrite <- (Z.abs_eq (2 ^ 1074)) at 1 by lia.
    rewrite <- Z.abs_mul, <- HN, Esgn, V_cond_Zopp. apply Z.abs_eq. nia. }
  assert (EN : N = cond_Zopp s A).
  { assert (E : N * 2 ^ 1074 = cond_Zopp s A * 2 ^ 1074).
    { rewrite <- HN, Esgn, <- HA. unfold cond_Zopp. destruct s; ring. }
    apply (Z.mul_cancel_r _ _ (2 ^ 1074)); [ lia | exact E ]. }
  (* the two regimes: [A = M * 2^t], or [A * 2^-t = M] *)
  set (t := e + 1074).
  assert (Ht : -1074 <= t) by (unfold t, e; lia).
  assert (HAM : (0 <= t /\ A = M * 2 ^ t) \/ (t < 0 /\ M = A * 2 ^ (- t))).
  { destruct (Z_le_gt_dec 0 t) as [H0 | H0]; [ left | right ]; split; try lia.
    - replace (e + 2148) with (t + 1074) in HA by (unfold t; lia).
      rewrite Z.pow_add_r in HA by lia.
      apply (Z.mul_cancel_r _ _ (2 ^ 1074)); [ lia | ]. rewrite HA. ring.
    - assert (E1074 : 2 ^ 1074 = 2 ^ (- t) * 2 ^ (e + 2148)).
      { rewrite <- Z.pow_add_r by (unfold t, e in *; lia). f_equal. unfold t. lia. }
      assert (Hp : 0 < 2 ^ (e + 2148)) by (apply pow2_pos; unfold t, e in *; lia).
      apply (Z.mul_cancel_r _ _ (2 ^ (e + 2148))); [ lia | ].
      rewrite <- HA, E1074. ring. }
  assert (HA0 : 0 < A).
  { destruct HAM as [[H0 ->] | [H0 E]].
    - pose proof (pow2_pos t H0). nia.
    - pose proof (pow2_pos (- t) ltac:(lia)).
      assert (0 <= A) by apply Z.abs_nonneg. nia. }
  assert (Hlog : Z.log2 M = Z.log2 A + - t).
  { destruct HAM as [[H0 ->] | [H0 ->]].
    - rewrite log2_pow2_mul by lia. lia.
    - rewrite log2_pow2_mul by lia. lia. }
  assert (Hk : n + t = ulpexp A).
  { unfold n, ulpexp. rewrite fexp_eq, Zdigits2_log2 by lia.
    rewrite (Z.abs_eq A) by lia. unfold t in *. lia. }
  assert (Erne : rne M n = rne A (ulpexp A)).
  { destruct HAM as [[H0 E] | [H0 E]].
    - rewrite <- Hk, E. now rewrite rne_scale by lia.
    - rewrite E at 1. replace n with (ulpexp A + - t) by lia.
      apply rne_scale; [ apply ulpexp_nonneg | lia ]. }
  assert (ER : rneq M (2 ^ n) * 2 ^ (e + n + 1074) = rnd A).
  { rewrite (rnd_pos A) by lia. rewrite rneq_rne by lia. rewrite Erne.
    f_equal. f_equal. unfold t in Hk. lia. }
  rewrite ER in Hfin.
  assert (Hb' : rnd A < 2 ^ 2098).
  { rewrite EN in Hb. unfold cond_Zopp in Hb.
    destruct s; [ rewrite rnd_opp, Z.abs_opp in Hb | ];
      pose proof (rnd_nonneg A ltac:(lia)); lia. }
  destruct (Hfin Hb') as [F1 F2].
  split; [ exact F1 | ].
  rewrite F2, EN. unfold cond_Zopp. destruct s; [ now rewrite rnd_opp | reflexivity ].
Qed.

Lemma mul_exact x y N :
  valid x = true -> valid y = true ->
  is_finite x = true -> is_finite y = true ->
  V x * V y = N * 2 ^ 1074 -> Z.abs (rnd N) < 2 ^ 2098 ->
  is_finite (x * y)%D = true /\ valid (x * y)%D = true /\ V (x * y)%D = rnd N.
Proof.
  intros Hvx Hvy Hfx Hfy HN Hb.
  assert (HW : 0 < 2 ^ 1074) by (apply pow2_pos; lia).
  assert (Hv : valid (x * y)%D = true) by now apply valid_mul.
  assert (Hz : V x = 0 \/ V y = 0 -> N = 0).
  { intros [E | E]; rewrite E in HN; nia. }
  destruct x as [sx | sx | | sx mx ex]; try discriminate Hfx.
  - destruct (mul_zero_l sx y Hfy) as [s' E]. rewrite E.
    rewrite (Hz (or_introl eq_refl)), rnd_0. now repeat split.
  - destruct y as [sy | sy | | sy my ey]; try discriminate Hfy.
    + destruct (mul_zero_r (S754_finite sx mx ex) sy eq_refl) as [s' E].
      rewrite E in *. rewrite (Hz (or_intror eq_refl)), rnd_0. now repeat split.
    + destruct (mul_exact_finite sx mx ex sy my ey N Hvx Hvy HN Hb) as [F1 F2].
      repeat split; assumption.
Qed.

(** ** [split] is error-free *)

Lemma Z_split_nonneg n :
  0 <= n -> F n ->
  let c := rnd (134217729 * n) in
  let d := rnd (c - n) in
  let h := c - d in
  rnd h = h /\ rnd (n - h) = n - h /\
  0 <= c /\ Z.abs (c - n) <= c /\ Z.abs h <= c /\ Z.abs (n - h) <= c /\
  (2 ^ 52 <= n ->
   (2 ^ (27 + ulpexp n) | h) /\ Z.abs (n - h) <= 2 ^ (26 + ulpexp n)).
Proof.
  intros Hn HF c d h.
  pose proof (Z_split_c n Hn HF) as Hc. cbv zeta in Hc. fold c in Hc.
  destruct (Z_split_hi n Hn HF) as [Hh _]. cbv zeta in Hh. fold c d h in Hh.
  destruct (Z_split_lo n HF) as [Hl _]. cbv zeta in Hl. fold c d h in Hl.
  pose proof (Z_split_width n Hn HF) as Hw. cbv zeta in Hw. fold c d h in Hw.
  assert (Hd : 0 <= d <= c).
  { split.
    - apply rnd_nonneg. lia.
    - apply Z.le_trans with (rnd c); [ apply rnd_mono; lia | ].
      rewrite (rnd_id c) by exact (rnd_F _). lia. }
  repeat split; try assumption; try lia; apply Hw; assumption.
Qed.

Lemma Z_split_all n :
  F n ->
  let c := rnd (134217729 * n) in
  let d := rnd (c - n) in
  let h := c - d in
  rnd h = h /\ rnd (n - h) = n - h /\
  Z.abs (c - n) <= Z.abs c /\ Z.abs h <= Z.abs c /\ Z.abs (n - h) <= Z.abs c /\
  (2 ^ 52 <= Z.abs n ->
   (2 ^ (27 + ulpexp n) | h) /\ Z.abs (n - h) <= 2 ^ (26 + ulpexp n)).
Proof.
  intros HF c d h.
  destruct (Z_le_gt_dec 0 n) as [Hn | Hn].
  - destruct (Z_split_nonneg n Hn HF) as (H1 & H2 & H3 & H4 & H5 & H6 & H7).
    fold c d h in H1, H2, H3, H4, H5, H6, H7.
    rewrite (Z.abs_eq c) by lia. rewrite (Z.abs_eq n) by lia.
    repeat split; try assumption; apply H7; assumption.
  - destruct (Z_split_nonneg (- n) ltac:(lia) (F_opp _ HF))
      as (H1 & H2 & H3 & H4 & H5 & H6 & H7).
    assert (Ec : rnd (134217729 * - n) = - c).
    { unfold c. rewrite <- rnd_opp. f_equal. ring. }
    rewrite Ec in *.
    assert (Ed : rnd (- c - - n) = - d).
    { unfold d. rewrite <- rnd_opp. f_equal. ring. }
    rewrite Ed in *.
    replace (- c - - d) with (- h) in * by (unfold h; ring).
    replace (- n - - h) with (- (n - h)) in * by ring.
    replace (- c - - n) with (- (c - n)) in * by ring.
    rewrite rnd_opp in H1, H2. rewrite Z.abs_opp in H4, H5, H6.
    rewrite ulpexp_opp in H7.
    rewrite (Z.abs_neq c) by lia. rewrite (Z.abs_neq n) by lia.
    split; [ lia | ]. split; [ lia | ]. split; [ lia | ].
    split; [ lia | ]. split; [ lia | ].
    intros Hbig. destruct (H7 ltac:(lia)) as [D1 D2]. split.
    + apply Z.divide_opp_r. exact D1.
    + rewrite Z.abs_opp in D2. exact D2.
Qed.

Lemma V_SPLITTER : V qd._QD_SPLITTER = 134217729 * 2 ^ 1074.
Proof. vm_compute. reflexivity. Qed.

(** The three operations shared by both branches of [split]. *)
Lemma split_core a :
  valid a = true -> is_finite a = true ->
  Z.abs (rnd (134217729 * V a)) < 2 ^ 2098 ->
  let temp := (qd._QD_SPLITTER * a)%D in
  let hi := (temp - (temp - a))%D in
  let lo := (a - hi)%D in
  let h := rnd (134217729 * V a) - rnd (rnd (134217729 * V a) - V a) in
  (valid hi = true /\ is_finite hi = true /\ V hi = h) /\
  (valid lo = true /\ is_finite lo = true /\ V lo = V a - h).
Proof.
  intros Hv Hf Hb temp hi lo h.
  destruct (Z_split_all (V a) (F_V a Hv)) as (H1 & H2 & H3 & H4 & H5 & _).
  fold h in H1, H2, H4, H5.
  set (c := rnd (134217729 * V a)) in *.
  destruct (mul_exact qd._QD_SPLITTER a (134217729 * V a)
              eq_refl Hv eq_refl Hf
              ltac:(rewrite V_SPLITTER; ring) Hb) as (Tf & Tv & TV).
  fold temp in Tf, Tv, TV. fold c in TV.
  destruct (sub_bounded temp a Tv Hv Tf Hf) as (Df & Dv & DV).
  { rewrite TV. rewrite rnd_abs.
    apply Z.le_lt_trans with (rnd (Z.abs c)); [ now apply rnd_mono | ].
    rewrite <- rnd_abs. unfold c at 1. rewrite (rnd_id _ (rnd_F _)). exact Hb. }
  rewrite TV in DV.
  destruct (sub_bounded temp (temp - a)%D Tv Dv Tf Df) as (Hf' & Hv' & HV).
  { rewrite TV, DV. fold h. rewrite H1. lia. }
  fold hi in Hf', Hv', HV. rewrite TV, DV in HV. fold h in HV. rewrite H1 in HV.
  destruct (sub_bounded a hi Hv Hv' Hf Hf') as (Lf & Lv & LV).
  { rewrite HV, H2. lia. }
  fold lo in Lf, Lv, LV. rewrite HV, H2 in LV.
  repeat split; assumption.
Qed.

Lemma V_two_m28 : V qd.two_m28 = 2 ^ 1046.
Proof. vm_compute. reflexivity. Qed.

Lemma V_two_p28 : V qd.two_p28 = 2 ^ 1102.
Proof. vm_compute. reflexivity. Qed.

Lemma V_SPLIT_THRESH : V qd._QD_SPLIT_THRESH = 2 ^ 2070 - 2 ^ 2017.
Proof. vm_compute. reflexivity. Qed.

(** The branch of [split] is decided by the magnitude of its argument. *)
Lemma split_branch a :
  valid a = true -> is_finite a = true ->
  ((a > qd._QD_SPLIT_THRESH) || (a < - qd._QD_SPLIT_THRESH))%D
  = (V qd._QD_SPLIT_THRESH <? Z.abs (V a)).
Proof.
  intros Hv Hf.
  rewrite gtb_V by (try assumption; reflexivity).
  rewrite ltb_V by (try assumption; reflexivity).
  change (V (- qd._QD_SPLIT_THRESH)%D) with (- V qd._QD_SPLIT_THRESH).
  assert (H0 : 0 < V qd._QD_SPLIT_THRESH) by (vm_compute; reflexivity).
  generalize dependent (V qd._QD_SPLIT_THRESH). intros T HT.
  destruct (Z.ltb_spec T (V a)), (Z.ltb_spec (V a) (- T)),
    (Z.ltb_spec T (Z.abs (V a))); simpl; try reflexivity; lia.
Qed.

(** The doubles above the threshold start at [2^996]. *)
Lemma above_thresh n :
  F n -> 2 ^ 2070 - 2 ^ 2017 < Z.abs n -> 2 ^ 2070 <= Z.abs n.
Proof.
  intros HF H.
  assert (Hu : 2017 <= ulpexp n).
  { apply ulpexp_ge; [ lia | ]. change (52 + 2017) with 2069.
    assert (2 ^ 2069 <= 2 ^ 2070 - 2 ^ 2017) by (vm_compute; discriminate).
    lia. }
  assert (Hd : (2 ^ 2017 | n)).
  { apply Z.divide_trans with (2 ^ ulpexp n); [ | exact HF ].
    apply pow2_divide. lia. }
  destruct Hd as [q Hq].
  assert (E1 : 2 ^ 2070 = 2 ^ 53 * 2 ^ 2017) by (vm_compute; reflexivity).
  rewrite E1 in *. rewrite Hq in *. rewrite Z.abs_mul in *.
  assert (Hp : 0 < 2 ^ 2017) by (apply pow2_pos; lia).
  rewrite (Z.abs_eq (2 ^ 2017)) in * by lia.
  generalize dependent (2 ^ 2017). intros P. intros. nia.
Qed.

(** Multiplying a large double by [2^-28] is exact. *)
Lemma scale_down a :
  valid a = true -> is_finite a = true -> 2 ^ 2070 <= Z.abs (V a) ->
  exists N,
    V a = N * 2 ^ 28 /\ F N /\ ulpexp (V a) = ulpexp N + 28 /\
    valid (a * qd.two_m28)%D = true /\ is_finite (a * qd.two_m28)%D = true /\
    V (a * qd.two_m28)%D = N.
Proof.
  intros Hv Hf Hbig.
  pose proof (F_V a Hv) as HF. pose proof (V_bound a Hv) as HB.
  set (n := V a) in *. set (u := ulpexp n).
  assert (Hu : 2018 <= u) by (apply ulpexp_ge; [ lia | exact Hbig ]).
  pose proof (ulpexp_lower n ltac:(fold u; lia)) as Hlo. fold u in Hlo.
  pose proof (ulpexp_upper n) as Hup. fold u in Hup.
  destruct HF as [q Hq]. fold u in Hq.
  set (N := q * 2 ^ (u - 28)).
  assert (HN : n = N * 2 ^ 28).
  { unfold N. rewrite <- Z.mul_assoc, <- Z.pow_add_r by lia.
    replace (u - 28 + 28) with u by lia. exact Hq. }
  assert (H28 : 0 < 2 ^ 28) by (apply pow2_pos; lia).
  assert (HabsN : Z.abs n = Z.abs N * 2 ^ 28).
  { rewrite HN, Z.abs_mul, (Z.abs_eq (2 ^ 28)) by lia. reflexivity. }
  assert (EuN : ulpexp N = u - 28).
  { rewrite <- ulpexp_abs. apply ulpexp_range; [ lia | ].
    replace (52 + u) with (52 + (u - 28) + 28) in Hlo by lia.
    replace (53 + u) with (53 + (u - 28) + 28) in Hup by lia.
    rewrite Z.pow_add_r in Hlo, Hup by lia. rewrite HabsN in Hlo, Hup.
    split; [ apply (Z.mul_le_mono_pos_r _ _ (2 ^ 28)) | apply (Z.mul_lt_mono_pos_r (2 ^ 28)) ];
      assumption. }
  assert (FN : F N).
  { unfold F. rewrite EuN. exists q. reflexivity. }
  assert (HNb : Z.abs N <= Z.abs n).
  { rewrite HabsN. pose proof (Z.abs_nonneg N). nia. }
  destruct (mul_exact a qd.two_m28 N Hv eq_refl Hf eq_refl) as (M1 & M2 & M3).
  { fold n. rewrite V_two_m28, HN, <- Z.mul_assoc, <- Z.pow_add_r by lia.
    reflexivity. }
  { rewrite (rnd_id N FN). lia. }
  exists N. rewrite (rnd_id N FN) in M3.
  repeat split; try assumption. lia.
Qed.

(** Multiplying back by [2^28] is exact as long as the result is in range. *)
Lemma scale_up x :
  valid x = true -> is_finite x = true -> Z.abs (V x) < 2 ^ 2070 ->
  valid (x * qd.two_p28)%D = true /\ is_finite (x * qd.two_p28)%D = true /\
  V (x * qd.two_p28)%D = V x * 2 ^ 28.
Proof.
  intros Hv Hf Hb.
  assert (HF : F (V x * 2 ^ 28)) by (apply F_pow2_mul; [ lia | now apply F_V ]).
  assert (H28 : 0 < 2 ^ 28) by (apply pow2_pos; lia).
  destruct (mul_exact x qd.two_p28 (V x * 2 ^ 28) Hv eq_refl Hf eq_refl)
    as (M1 & M2 & M3).
  - rewrite V_two_p28, <- Z.mul_assoc, <- Z.pow_add_r by lia. reflexivity.
  - rewrite (rnd_id _ HF), Z.abs_mul, (Z.abs_eq (2 ^ 28)) by lia.
    replace (2 ^ 2098) with (2 ^ 2070 * 2 ^ 28)
      by (rewrite <- Z.pow_add_r by lia; reflexivity).
    apply Z.mul_lt_mono_pos_r; assumption.
  - rewrite (rnd_id _ HF) in M3. repeat split; assumption.
Qed.

(** Above the threshold [split] works on [a * 2^-28], whose parts it
    scales back. *)
Lemma split_scaled a :
  valid a = true -> is_finite a = true -> 2 ^ 2070 <= Z.abs (V a) ->
  exists N h hi1 lo1,
    qd.split a = ((hi1 * qd.two_p28)%D, (lo1 * qd.two_p28)%D) /\
    V a = N * 2 ^ 28 /\ ulpexp (V a) = ulpexp N + 28 /\
    2 ^ 2042 <= Z.abs N < 2 ^ 2070 /\
    h = rnd (134217729 * N) - rnd (rnd (134217729 * N) - N) /\
    (valid hi1 = true /\ is_finite hi1 = true /\ V hi1 = h) /\
    (valid lo1 = true /\ is_finite lo1 = true /\ V lo1 = N - h) /\
    (2 ^ (27 + ulpexp N) | h) /\ Z.abs (N - h) <= 2 ^ (26 + ulpexp N).
Proof.
  intros Hv Hf Hbig.
  pose proof (V_bound a Hv) as HB.
  destruct (scale_down a Hv Hf Hbig) as (N & HN & FN & Hu & V1 & F1 & E1).
  assert (H28 : 2 ^ 28 = 268435456) by reflexivity.
  assert (HabsN : Z.abs (V a) = Z.abs N * 2 ^ 28).
  { rewrite HN, Z.abs_mul, (Z.abs_eq (2 ^ 28)) by lia. reflexivity. }
  assert (HNr : 2 ^ 2042 <= Z.abs N < 2 ^ 2070).
  { replace (2 ^ 2070) with (2 ^ 2042 * 2 ^ 28) in Hbig
      by (rewrite <- Z.pow_add_r by lia; reflexivity).
    replace (2 ^ 2098) with (2 ^ 2070 * 2 ^ 28) in HB
      by (rewrite <- Z.pow_add_r by lia; reflexivity).
    rewrite HabsN in Hbig, HB. rewrite H28 in Hbig, HB. lia. }
  assert (Hc : Z.abs (rnd (134217729 * N)) < 2 ^ 2098).
  { apply rnd_bound_omega. rewrite Z.abs_mul. change (Z.abs 134217729) with 134217729.
    assert (134217729 * 2 ^ 2070 <= 2 ^ 2098 - 2 ^ 2044 - 1) by (vm_compute; discriminate).
    lia. }
  rewrite <- E1 in Hc.
  pose proof (split_core (a * qd.two_m28)%D V1 F1 Hc) as Hcore.
  cbv zeta in Hcore. rewrite E1 in Hcore.
  destruct (Z_split_all N FN) as (_ & _ & _ & _ & _ & Hw).
  assert (H52 : 2 ^ 52 <= Z.abs N).
  { assert (2 ^ 52 <= 2 ^ 2042) by (apply Z.pow_le_mono_r; lia). lia. }
  destruct (Hw H52) as [W1 W2].
  eexists N, _, _, _. split; [ | split; [ exact HN | split; [ exact Hu | split;
    [ exact HNr | split; [ reflexivity | split; [ exact (proj1 Hcore) | split;
    [ exact (proj2 Hcore) | split; [ exact W1 | exact W2 ] ] ] ] ] ] ] ].
  unfold qd.split. rewrite (split_branch a Hv Hf), V_SPLIT_THRESH.
  assert (Hlt : (2 ^ 2070 - 2 ^ 2017 <? Z.abs (V a)) = true).
  { apply Z.ltb_lt. assert (0 < 2 ^ 2017) by (apply pow2_pos; lia). lia. }
  rewrite Hlt. reflexivity.
Qed.

(** Below [2^1024 - 2^997] both parts of [split] are finite and add up
    to the argument; for a normal argument the high part is a multiple
    of [2^27] units in the last place of the argument and the low part
    is at most [2^26] of them. *)
Lemma split_parts a :
  valid a = true -> is_finite a = true ->
  Z.abs (V a) < 2 ^ 2098 - 2 ^ 2071 ->
  let hi := fst (qd.split a) in
  let lo := snd (qd.split a) in
  (valid hi = true /\ is_finite hi = true) /\
  (valid lo = true /\ is_finite lo = true) /\
  V hi + V lo = V a /\
  (2 ^ 52 <= Z.abs (V a) ->
   (2 ^ (27 + ulpexp (V a)) | V hi) /\
   Z.abs (V lo) <= 2 ^ (26 + ulpexp (V a))).
Proof.
  intros Hv Hf Hb.
  destruct (Z_lt_le_dec (2 ^ 2070 - 2 ^ 2017) (Z.abs (V a))) as [Hbig | Hsmall].
  - (* the scaled branch *)
    apply (above_thresh _ (F_V a Hv)) in Hbig.
    destruct (split_scaled a Hv Hf Hbig)
      as (N & h & hi1 & lo1 & Es & HN & Hu & HNr & _ & (Hv1 & Hf1 & E1)
          & (Lv1 & Lf1 & L1) & W1 & W2).
    rewrite Es. cbn [fst snd].
    assert (HabsN : Z.abs (V a) = Z.abs N * 2 ^ 28).
    { rewrite HN, Z.abs_mul, (Z.abs_eq (2 ^ 28)) by lia. reflexivity. }
    assert (Hu1 : ulpexp N <= 2017).
    { apply ulpexp_bound; [ lia | ]. change (53 + 2017) with 2070. lia. }
    pose proof (ulpexp_nonneg N) as Hu0.
    assert (Hlo : Z.abs (N - h) <= 2 ^ 2043).
    { apply Z.le_trans with (1 := W2). apply Z.pow_le_mono_r; lia. }
    assert (HNtop : Z.abs N < 2 ^ 2070 - 2 ^ 2043).
    { replace (2 ^ 2098 - 2 ^ 2071) with ((2 ^ 2070 - 2 ^ 2043) * 2 ^ 28) in Hb
        by (vm_compute; reflexivity).
      rewrite HabsN in Hb.
      apply (Z.mul_lt_mono_pos_r (2 ^ 28)); [ reflexivity | exact Hb ]. }
    assert (P1 : 0 < 2 ^ 2043) by (apply pow2_pos; lia).
    assert (P2 : 2 ^ 2043 < 2 ^ 2070) by (apply Z.pow_lt_mono_r; lia).
    destruct (scale_up hi1 Hv1 Hf1 ltac:(lia)) as (Sv & Sf & SV).
    destruct (scale_up lo1 Lv1 Lf1 ltac:(lia)) as (Tv & Tf & TV).
    rewrite SV, TV, E1, L1.
    split; [ split; assumption | ]. split; [ split; assumption | ].
    split; [ rewrite HN; ring | ].
    intros _. rewrite Hu. split.
    + replace (27 + (ulpexp N + 28)) with (27 + ulpexp N + 28) by lia.
      rewrite Z.pow_add_r by lia. now apply Z.mul_divide_mono_r.
    + replace (26 + (ulpexp N + 28)) with (26 + ulpexp N + 28) by lia.
      rewrite Z.pow_add_r by lia. rewrite Z.abs_mul, (Z.abs_eq (2 ^ 28)) by lia.
      apply Z.mul_le_mono_nonneg_r; [ lia | exact W2 ].
  - (* the plain branch *)
    assert (Hc : Z.abs (rnd (134217729 * V a)) < 2 ^ 2098).
    { apply rnd_bound_omega. rewrite Z.abs_mul.
      change (Z.abs 134217729) with 134217729.
      assert (134217729 * (2 ^ 2070 - 2 ^ 2017) <= 2 ^ 2098 - 2 ^ 2044 - 1)
        by (vm_compute; discriminate).
      lia. }
    pose proof (split_core a Hv Hf Hc) as Hcore. cbv zeta in Hcore.
    destruct Hcore as [(Hv1 & Hf1 & E1) (Lv1 & Lf1 & L1)].
    assert (Es : qd.split a
                 = (let temp := (qd._QD_SPLITTER * a)%D in
                    let hi := (temp - (temp - a))%D in
                    let lo := (a - hi)%D in (hi, lo))).
    { unfold qd.split. rewrite (split_branch a Hv Hf), V_SPLIT_THRESH.
      assert (Hlt : (2 ^ 2070 - 2 ^ 2017 <? Z.abs (V a)) = false)
        by (apply Z.ltb_ge; exact Hsmall).
      rewrite Hlt. reflexivity. }
    rewrite Es. cbn [fst snd].
    split; [ split; assumption | ]. split; [ split; assumption | ].
    rewrite E1, L1. split; [ ring | ].
    intros H52.
    destruct (Z_split_all (V a) (F_V a Hv)) as (_ & _ & _ & _ & _ & Hw).
    destruct (Hw H52) as [W1 W2]. split; assumption.
Qed.

(** X17. [split] is error-free below [2^1024 - 2^997]: both parts are
    finite, they add up to the argument without rounding, and for a
    normal argument the high part is a multiple of [2^27] units in the
    last place of the argument while the low part is at most [2^26] of
    them: each part fits in 26 bits. *)
Theorem split_exact a :
  valid a = true -> is_finite a = true ->
  Z.abs (V a) < 2 ^ 2098 - 2 ^ 2071 ->
  let hi := fst (qd.split a) in
  let lo := snd (qd.split a) in
  is_finite hi = true /\ is_finite lo = true /\
  V hi + V lo = V a /\
  (2 ^ 52 <= Z.abs (V a) ->
   (2 ^ (27 + ulpexp (V a)) | V hi) /\
   Z.abs (V lo) <= 2 ^ (26 + ulpexp (V a))).
Proof.
  intros Hv Hf Hb.
  destruct (split_parts a Hv Hf Hb) as ((_ & H1) & (_ & H2) & H3 & H4).
  cbv zeta. repeat split; try assumption; apply H4; assumption.
Qed.

Lemma split_exact_witness :
  let a := d_one in
  Z.abs (V a) < 2 ^ 2098 - 2 ^ 2071 /\
  V (fst (qd.split a)) + V (snd (qd.split a)) = V a.
Proof.
  split; [ vm_compute; reflexivity | ].
  exact (proj1 (proj2 (proj2 (split_exact d_one eq_refl eq_refl
                                ltac:(vm_compute; reflexivity))))).
Defined.

(** X18. From [2^1024 - 2^997] upwards [split] overflows in spite of its
    scaled branch: the high part is the infinity of the argument's sign
    (the low part stays finite), so the parts no longer add up to the
    argument. *)
Theorem split_overflow a :
  valid a = true -> is_finite a = true ->
  2 ^ 2098 - 2 ^ 2071 <= Z.abs (V a) ->
  fst (qd.split a) = S754_infinity (V a <? 0) /\
  is_finite (snd (qd.split a)) = true.
Proof.
  intros Hv Hf Hb.
  assert (Hbig : 2 ^ 2070 <= Z.abs (V a)).
  { assert (2 ^ 2070 <= 2 ^ 2098 - 2 ^ 2071) by (vm_compute; discriminate). lia. }
  destruct (split_scaled a Hv Hf Hbig)
    as (N & h & hi1 & lo1 & Es & HN & Hu & HNr & Eh & (Hv1 & Hf1 & E1)
        & (Lv1 & Lf1 & L1) & W1 & W2).
  rewrite Es. cbn [fst snd].
  assert (HabsN : Z.abs (V a) = Z.abs N * 2 ^ 28).
  { rewrite HN, Z.abs_mul, (Z.abs_eq (2 ^ 28)) by lia. reflexivity. }
  assert (HNtop : 2 ^ 2070 - 2 ^ 2043 <= Z.abs N).
  { replace (2 ^ 2098 - 2 ^ 2071) with ((2 ^ 2070 - 2 ^ 2043) * 2 ^ 28) in Hb
      by (vm_compute; reflexivity).
    rewrite HabsN in Hb.
    apply (Z.mul_le_mono_pos_r _ _ (2 ^ 28)); [ reflexivity | exact Hb ]. }
  assert (Q : 2 ^ 2069 <= 2 ^ 2070 - 2 ^ 2043) by (vm_compute; discriminate).
  assert (Hu1 : ulpexp N = 2017).
  { rewrite <- ulpexp_abs. apply ulpexp_range; [ lia | ].
    change (52 + 2017) with 2069. change (53 + 2017) with 2070. lia. }
  rewrite Hu1 in W1, W2. change (27 + 2017) with 2044 in W1.
  change (26 + 2017) with 2043 in W2.
  assert (Hsgn : (V a <? 0) = (N <? 0)).
  { rewrite HN. destruct (Z.ltb_spec N 0), (Z.ltb_spec (N * 2 ^ 28) 0);
      try reflexivity; exfalso; change (2 ^ 28) with 268435456 in *; lia. }
  assert (Hh : h = cond_Zopp (N <? 0) (2 ^ 2070)).
  { destruct (Z.eq_dec (Z.abs N) (2 ^ 2070 - 2 ^ 2043)) as [Etie | Hne].
    - (* the tie is settled by evaluation *)
      assert (HT : N = 2 ^ 2070 - 2 ^ 2043 \/ N = - (2 ^ 2070 - 2 ^ 2043)) by lia.
      destruct HT as [HT | HT]; rewrite Eh, HT; vm_compute; reflexivity.
    - destruct W1 as [q Hq].
      assert (E0 : 2 ^ 2070 = 2 ^ 26 * 2 ^ 2044) by (vm_compute; reflexivity).
      assert (E3 : 2 ^ 2043 * 2 = 2 ^ 2044) by (vm_compute; reflexivity).
      assert (P : 0 < 2 ^ 2043) by (apply pow2_pos; lia).
      rewrite E0 in *. rewrite <- E3 in *.
      generalize dependent (2 ^ 2043). intros P0. intros.
      change (2 ^ 26) with 67108864 in *.
      destruct (Z.ltb_spec N 0); unfold cond_Zopp.
      + assert (q = -67108864) by nia. nia.
      + assert (q = 67108864) by nia. nia. }
  assert (Ehi : hi1 = S754_finite (N <? 0) 4503599627370496 944).
  { apply V_eq_finite; try assumption; [ reflexivity | ].
    rewrite E1, Hh. destruct (N <? 0); vm_compute; reflexivity. }
  split.
  - rewrite Ehi, Hsgn. destruct (N <? 0); vm_compute; reflexivity.
  - assert (P1 : 2 ^ 2043 < 2 ^ 2070) by (apply Z.pow_lt_mono_r; lia).
    exact (proj1 (proj2 (scale_up lo1 Lv1 Lf1 ltac:(lia)))).
Qed.

Lemma split_overflow_witness :
  let a := S754_finite false 9007199254740991 971 in
  2 ^ 2098 - 2 ^ 2071 <= Z.abs (V a) /\
  fst (qd.split a) = S754_infinity false.
Proof.
  split; [ vm_compute; discriminate | ].
  exact (proj1 (split_overflow (S754_finite false 9007199254740991 971)
                  eq_refl eq_refl ltac:(vm_compute; discriminate))).
Defined.

(** ** Dekker's product, on scaled integers *)

(** The product of two parts of at most 26 bits is an integer number of
    units, of at most 52 bits. *)
Lemma prod_part h k i j :
  0 <= i -> 0 <= j -> 1074 <= i + j ->
  (2 ^ i | h) -> (2 ^ j | k) ->
  Z.abs h <= 2 ^ (26 + i) -> Z.abs k <= 2 ^ (26 + j) ->
  exists M,
    h * k = M * 2 ^ 1074 /\ (2 ^ (i + j - 1074) | M) /\
    Z.abs M <= 2 ^ (52 + (i + j - 1074)).
Proof.
  intros Hi Hj Hij [a Ha] [b Hb] Bh Bk.
  pose proof (pow2_pos i Hi) as Pi. pose proof (pow2_pos j Hj) as Pj.
  pose proof (pow2_pos (i + j - 1074) ltac:(lia)) as Pg.
  assert (Ba : Z.abs a <= 2 ^ 26).
  { rewrite Z.pow_add_r in Bh by lia. rewrite Ha, Z.abs_mul in Bh.
    rewrite (Z.abs_eq (2 ^ i)) in Bh by lia.
    apply (Z.mul_le_mono_pos_r _ _ (2 ^ i)); assumption. }
  assert (Bb : Z.abs b <= 2 ^ 26).
  { rewrite Z.pow_add_r in Bk by lia. rewrite Hb, Z.abs_mul in Bk.
    rewrite (Z.abs_eq (2 ^ j)) in Bk by lia.
    apply (Z.mul_le_mono_pos_r _ _ (2 ^ j)); assumption. }
  exists (a * b * 2 ^ (i + j - 1074)). split; [ | split ].
  - assert (E : 2 ^ i * 2 ^ j = 2 ^ (i + j - 1074) * 2 ^ 1074).
    { rewrite <- !Z.pow_add_r by lia. f_equal. lia. }
    rewrite Ha, Hb. transitivity (a * b * (2 ^ i * 2 ^ j)); [ ring | ].
    rewrite E. ring.
  - apply Z.divide_factor_r.
  - rewrite Z.abs_mul, (Z.abs_eq (2 ^ (i + j - 1074))) by lia.
    rewrite Z.pow_add_r by lia.
    apply Z.mul_le_mono_nonneg_r; [ lia | ].
    rewrite Z.abs_mul. change (2 ^ 52) with (2 ^ 26 * 2 ^ 26).
    apply Z.mul_le_mono_nonneg; try assumption; apply Z.abs_nonneg.
Qed.

(** The product of two normal doubles whose units multiply to at least
    one unit. *)
Lemma prod_full x y :
  F x -> F y -> 2 ^ 52 <= Z.abs x -> 2 ^ 52 <= Z.abs y ->
  1074 <= ulpexp x + ulpexp y ->
  let G := ulpexp x + ulpexp y - 1074 in
  exists P,
    x * y = P * 2 ^ 1074 /\ (2 ^ G | P) /\
    2 ^ (104 + G) <= Z.abs P < 2 ^ (106 + G).
Proof.
  intros [a Ha] [b Hb] Nx Ny HG G.
  pose proof (ulpexp_nonneg x) as Ux. pose proof (ulpexp_nonneg y) as Uy.
  set (i := ulpexp x) in *. set (j := ulpexp y) in *.
  pose proof (pow2_pos i Ux) as Pi. pose proof (pow2_pos j Uy) as Pj.
  pose proof (pow2_pos G ltac:(unfold G; lia)) as Pg.
  assert (Bx : 2 ^ (52 + i) <= Z.abs x < 2 ^ (53 + i)).
  { split; [ | apply ulpexp_upper ].
    destruct (Z.eq_dec i 0) as [E | E].
    - rewrite E. exact Nx.
    - apply ulpexp_lower. fold i. lia. }
  assert (By : 2 ^ (52 + j) <= Z.abs y < 2 ^ (53 + j)).
  { split; [ | apply ulpexp_upper ].
    destruct (Z.eq_dec j 0) as [E | E].
    - rewrite E. exact Ny.
    - apply ulpexp_lower. fold j. lia. }
  assert (Ba : 2 ^ 52 <= Z.abs a < 2 ^ 53).
  { rewrite !Z.pow_add_r in Bx by lia. rewrite Ha, Z.abs_mul in Bx.
    rewrite (Z.abs_eq (2 ^ i)) in Bx by lia.
    split; [ apply (Z.mul_le_mono_pos_r _ _ (2 ^ i)) | apply (Z.mul_lt_mono_pos_r (2 ^ i)) ];
      try assumption; apply Bx. }
  assert (Bb : 2 ^ 52 <= Z.abs b < 2 ^ 53).
  { rewrite !Z.pow_add_r in By by lia. rewrite Hb, Z.abs_mul in By.
    rewrite (Z.abs_eq (2 ^ j)) in By by lia.
    split; [ apply (Z.mul_le_mono_pos_r _ _ (2 ^ j)) | apply (Z.mul_lt_mono_pos_r (2 ^ j)) ];
      try assumption; apply By. }
  exists (a * b * 2 ^ G). split; [ | split ].
  - assert (E : 2 ^ i * 2 ^ j = 2 ^ G * 2 ^ 1074).
    { rewrite <- !Z.pow_add_r by (unfold G; lia). f_equal. unfold G. lia. }
    rewrite Ha, Hb. transitivity (a * b * (2 ^ i * 2 ^ j)); [ ring | ].
    rewrite E. ring.
  - apply Z.divide_factor_r.
  - rewrite Z.abs_mul, (Z.abs_eq (2 ^ G)) by lia.
    rewrite !Z.pow_add_r by (unfold G; lia).
    rewrite Z.abs_mul.
    change (2 ^ 104) with (2 ^ 52 * 2 ^ 52). change (2 ^ 106) with (2 ^ 53 * 2 ^ 53).
    split.
    + apply Z.mul_le_mono_nonneg_r; [ lia | ].
      apply Z.mul_le_mono_nonneg; lia.
    + apply Z.mul_lt_mono_pos_r; [ lia | ].
      apply Z.mul_lt_mono_nonneg; lia.
Qed.

(** Every intermediate of Dekker's sum is representable. *)
Lemma dekker_sums G M1 M2 M3 M4 P :
  0 <= G -> P = M1 + M2 + M3 + M4 ->
  (2 ^ (54 + G) | M1) -> (2 ^ (27 + G) | M2) -> (2 ^ (27 + G) | M3) ->
  (2 ^ G | M4) -> (2 ^ G | P) ->
  Z.abs M2 <= 2 ^ (79 + G) -> Z.abs M3 <= 2 ^ (79 + G) ->
  Z.abs M4 <= 2 ^ (52 + G) ->
  2 ^ (104 + G) <= Z.abs P < 2 ^ (106 + G) ->
  let p := rnd P in
  (F (M1 - p) /\ Z.abs (M1 - p) <= 2 ^ (81 + G)) /\
  (F (M1 - p + M2) /\ Z.abs (M1 - p + M2) <= 2 ^ (80 + G)) /\
  (F (M1 - p + M2 + M3) /\ Z.abs (M1 - p + M2 + M3) <= 2 ^ (53 + G)) /\
  (F (P - p) /\ Z.abs (P - p) <= 2 ^ (52 + G)).
Proof.
  intros HG HP D1 D2 D3 D4 DP B2 B3 B4 BP p.
  pose proof (pow2_pos G HG) as Pg.
  assert (Hu : 52 + G <= ulpexp P <= 53 + G).
  { split.
    - apply ulpexp_ge; [ lia | ]. replace (52 + (52 + G)) with (104 + G) by lia. lia.
    - apply ulpexp_bound; [ lia | ]. replace (53 + (53 + G)) with (106 + G) by lia. lia. }
  assert (Dp : (2 ^ (52 + G) | p)).
  { apply Z.divide_trans with (2 ^ ulpexp P); [ apply pow2_divide; lia | ].
    apply rnd_divide. }
  assert (He : Z.abs (P - p) <= 2 ^ (52 + G)).
  { pose proof (rnd_error P) as E. fold p in E.
    assert (2 ^ ulpexp P <= 2 ^ (53 + G)) by (apply Z.pow_le_mono_r; lia).
    replace (53 + G) with (1 + (52 + G)) in H by lia.
    rewrite (Z.pow_add_r 2 1 (52 + G)) in H by lia. change (2 ^ 1) with 2 in H.
    rewrite <- Z.abs_opp. replace (- (P - p)) with (p - P) by ring. lia. }
  assert (Dg : forall k, 0 <= k -> (2 ^ G | 2 ^ (k + G)))
    by (intros k Hk; apply pow2_divide; lia).
  assert (D27 : forall k, 27 <= k -> (2 ^ (27 + G) | 2 ^ (k + G)))
    by (intros k Hk; apply pow2_divide; lia).
  assert (D52 : forall k, 52 <= k -> (2 ^ (52 + G) | 2 ^ (k + G)))
    by (intros k Hk; apply pow2_divide; lia).
  rewrite !Z.pow_add_r in B2, B3, B4, He by lia.
  set (g := 2 ^ G) in *.
  assert (E79 : 2 ^ 79 = 604462909807314587353088) by reflexivity.
  assert (E52 : 2 ^ 52 = 4503599627370496) by reflexivity.
  rewrite E79 in B2, B3. rewrite E52 in B4, He.
  assert (T1 : Z.abs (M1 - p) <= 2 ^ 81 * g).
  { change (2 ^ 81) with 2417851639229258349412352. lia. }
  assert (T2 : Z.abs (M1 - p + M2) <= 2 ^ 80 * g).
  { change (2 ^ 80) with 1208925819614629174706176. lia. }
  assert (T3 : Z.abs (M1 - p + M2 + M3) <= 2 ^ 53 * g).
  { change (2 ^ 53) with 9007199254740992. lia. }
  assert (T4 : Z.abs (P - p) <= 2 ^ 52 * g) by (rewrite E52; exact He).
  assert (Hm : forall k, 0 <= k -> 2 ^ k * g = 2 ^ (k + G))
    by (intros k Hk; unfold g; now rewrite Z.pow_add_r by lia).
  rewrite Hm in T1, T2, T3, T4 by lia.
  assert (Hle : forall a b, a <= b -> 2 ^ (a + G) <= 2 ^ (b + G))
    by (intros a b Hab; apply Z.pow_le_mono_r; lia).
  split; [ | split; [ | split ] ]; (split; [ | assumption ]).
  - apply (F_multiple _ (52 + G)); [ lia | | ].
    + apply Z.divide_sub_r; [ | exact Dp ].
      apply Z.divide_trans with (2 ^ (54 + G)); [ apply pow2_divide; lia | exact D1 ].
    + apply Z.le_trans with (1 := T1).
      replace (53 + (52 + G)) with (105 + G) by lia. apply Hle. lia.
  - apply (F_multiple _ (27 + G)); [ lia | | ].
    + apply Z.divide_add_r; [ apply Z.divide_sub_r | exact D2 ].
      * apply Z.divide_trans with (2 ^ (54 + G)); [ apply pow2_divide; lia | exact D1 ].
      * apply Z.divide_trans with (2 ^ (52 + G)); [ apply pow2_divide; lia | exact Dp ].
    + apply Z.le_trans with (1 := T2).
      replace (53 + (27 + G)) with (80 + G) by lia. lia.
  - apply (F_multiple _ G); [ lia | | ].
    + replace (M1 - p + M2 + M3) with (P - p - M4) by lia.
      apply Z.divide_sub_r; [ apply Z.divide_sub_r | exact D4 ]; [ exact DP | ].
      apply Z.divide_trans with (2 ^ (52 + G)); [ apply pow2_divide; lia | exact Dp ].
    + exact T3.
  - apply (F_multiple _ G); [ lia | | ].
    + apply Z.divide_sub_r; [ exact DP | ].
      apply Z.divide_trans with (2 ^ (52 + G)); [ apply pow2_divide; lia | exact Dp ].
    + apply Z.le_trans with (1 := T4). apply Hle. lia.
Qed.

(** ** [two_prod] and [two_sqr] are error-free *)

Section ExactOps.
Variables x y : double.
Hypothesis Hvx : valid x = true.
Hypothesis Hvy : valid y = true.
Hypothesis Hfx : is_finite x = true.
Hypothesis Hfy : is_finite y = true.

Lemma add_exact :
  F (V x + V y) -> Z.abs (V x + V y) < 2 ^ 2098 ->
  valid (x + y)%D = true /\ is_finite (x + y)%D = true /\
  V (x + y)%D = V x + V y.
Proof.
  intros HF Hb.
  destruct (add_bounded x y Hvx Hvy Hfx Hfy) as (H1 & H2 & H3).
  - now rewrite (rnd_id _ HF).
  - rewrite (rnd_id _ HF) in H3. now repeat split.
Qed.

Lemma sub_exact :
  F (V x - V y) -> Z.abs (V x - V y) < 2 ^ 2098 ->
  valid (x - y)%D = true /\ is_finite (x - y)%D = true /\
  V (x - y)%D = V x - V y.
Proof.
  intros HF Hb.
  destruct (sub_bounded x y Hvx Hvy Hfx Hfy) as (H1 & H2 & H3).
  - now rewrite (rnd_id _ HF).
  - rewrite (rnd_id _ HF) in H3. now repeat split.
Qed.

Lemma mul_exact_F N :
  V x * V y = N * 2 ^ 1074 -> F N -> Z.abs N < 2 ^ 2098 ->
  valid (x * y)%D = true /\ is_finite (x * y)%D = true /\
  V (x * y)%D = N.
Proof.
  intros HN HF Hb.
  destruct (mul_exact x y N Hvx Hvy Hfx Hfy HN) as (H1 & H2 & H3).
  - now rewrite (rnd_id _ HF).
  - rewrite (rnd_id _ HF) in H3. now repeat split.
Qed.

End ExactOps.

(** The parts of a normal double, as [prod_part] takes them. *)
Lemma parts_shape x h l :
  F x -> 2 ^ 52 <= Z.abs x -> h + l = x ->
  (2 ^ (27 + ulpexp x) | h) -> Z.abs l <= 2 ^ (26 + ulpexp x) ->
  (2 ^ ulpexp x | l) /\ Z.abs h <= 2 ^ (26 + (27 + ulpexp x)) /\
  2 ^ 26 * Z.abs h <= (2 ^ 26 + 1) * Z.abs x.
Proof.
  intros HF Hn Hs Dh Bl.
  pose proof (ulpexp_nonneg x) as Hu. set (u := ulpexp x) in *.
  pose proof (pow2_pos u Hu) as Pu.
  pose proof (ulpexp_upper x) as Hup. fold u in Hup.
  assert (Hlo : 2 ^ (52 + u) <= Z.abs x).
  { destruct (Z.eq_dec u 0) as [E | E].
    - rewrite E. exact Hn.
    - apply ulpexp_lower. fold u. lia. }
  assert (Dh' : (2 ^ u | h)).
  { apply Z.divide_trans with (2 ^ (27 + u)); [ apply pow2_divide; lia | exact Dh ]. }
  split; [ | split ].
  - replace l with (x - h) by lia. apply Z.divide_sub_r; assumption.
  - destruct Dh as [q Hq].
    replace (26 + (27 + u)) with (53 + u) by lia.
    rewrite !Z.pow_add_r in * by lia.
    change (2 ^ 53) with 9007199254740992 in *.
    change (2 ^ 27) with 134217728 in *.
    change (2 ^ 26) with 67108864 in *.
    generalize dependent (2 ^ u). intros g. intros.
    assert (Hq' : Z.abs h = Z.abs q * (134217728 * g)).
    { rewrite Hq, Z.abs_mul, (Z.abs_eq (134217728 * g)) by lia. reflexivity. }
    destruct (Z_le_gt_dec (Z.abs q) 67108864) as [Hle | Hgt].
    + rewrite Hq'.
      replace (9007199254740992 * g) with (67108864 * (134217728 * g)) by ring.
      apply Z.mul_le_mono_nonneg_r; lia.
    + exfalso.
      assert (67108865 * (134217728 * g) <= Z.abs q * (134217728 * g))
        by (apply Z.mul_le_mono_nonneg_r; lia).
      lia.
  - rewrite !Z.pow_add_r in * by lia.
    change (2 ^ 52) with 4503599627370496 in *.
    change (2 ^ 26) with 67108864 in *.
    generalize dependent (2 ^ u). intros g. intros. lia.
Qed.

(** The product of the high parts stays in range with the product. *)
Lemma hi_prod_bound hx hy x y M1 P :
  2 ^ 26 * Z.abs hx <= (2 ^ 26 + 1) * Z.abs x ->
  2 ^ 26 * Z.abs hy <= (2 ^ 26 + 1) * Z.abs y ->
  hx * hy = M1 * 2 ^ 1074 -> x * y = P * 2 ^ 1074 ->
  Z.abs P <= 2 ^ 2097 -> Z.abs M1 < 2 ^ 2098.
Proof.
  intros Rx Ry E1 EP HPb.
  assert (HW : 0 < 2 ^ 1074) by (apply pow2_pos; lia).
  assert (Hm : Z.abs hx * Z.abs hy = Z.abs M1 * 2 ^ 1074).
  { rewrite <- Z.abs_mul, E1, Z.abs_mul, (Z.abs_eq (2 ^ 1074)) by lia.
    reflexivity. }
  assert (Hxy : Z.abs x * Z.abs y = Z.abs P * 2 ^ 1074).
  { rewrite <- Z.abs_mul, EP, Z.abs_mul, (Z.abs_eq (2 ^ 1074)) by lia.
    reflexivity. }
  clear E1 EP.
  pose proof (Z.abs_nonneg hx) as A1. pose proof (Z.abs_nonneg hy) as A2.
  pose proof (Z.abs_nonneg x) as A3. pose proof (Z.abs_nonneg y) as A4.
  pose proof (Z.abs_nonneg M1) as A5. pose proof (Z.abs_nonneg P) as A6.
  generalize dependent (Z.abs hx). intros ahx. intros.
  generalize dependent (Z.abs hy). intros ahy. intros.
  generalize dependent (Z.abs x). intros ax. intros.
  generalize dependent (Z.abs y). intros ay. intros.
  generalize dependent (Z.abs M1). intros m. intros.
  generalize dependent (Z.abs P). intros q. intros.
  change (2 ^ 26) with 67108864 in *.
  assert (Hh : 67108864 * ahx * (67108864 * ahy)
               <= (67108864 + 1) * ax * ((67108864 + 1) * ay)).
  { apply Z.mul_le_mono_nonneg; try assumption.
    - apply Z.mul_nonneg_nonneg; [ discriminate | assumption ].
    - apply Z.mul_nonneg_nonneg; [ discriminate | assumption ]. }
  replace (67108864 * ahx * (67108864 * ahy))
    with (4503599627370496 * m * 2 ^ 1074) in Hh
    by (rewrite <- Z.mul_assoc, <- Hm; ring).
  replace ((67108864 + 1) * ax * ((67108864 + 1) * ay))
    with (4503599761588225 * q * 2 ^ 1074) in Hh
    by (rewrite <- Z.mul_assoc, <- Hxy; ring).
  apply Z.mul_le_mono_pos_r in Hh; [ | exact HW ].
  assert (E98 : 2 ^ 2098 = 2 * 2 ^ 2097) by (vm_compute; reflexivity).
  rewrite E98.
  assert (HT : 0 < 2 ^ 2097) by (apply pow2_pos; discriminate).
  clear Hm Hxy HW E98 Rx Ry.
  generalize dependent (2 ^ 2097). intros T. intros. lia.
Qed.

Lemma G_range G P :
  2 ^ (104 + G) <= Z.abs P -> Z.abs P <= 2 ^ 2097 -> G <= 1993.
Proof.
  intros H1 H2.
  destruct (Z_le_gt_dec G 1993) as [Hle | Hgt]; [ exact Hle | exfalso ].
  assert (H3 : 2 ^ 2098 <= 2 ^ (104 + G)) by (apply Z.pow_le_mono_r; lia).
  assert (H4 : 2 ^ 2097 < 2 ^ 2098) by (apply Z.pow_lt_mono_r; lia).
  generalize dependent (2 ^ 2098). generalize dependent (2 ^ 2097).
  generalize dependent (2 ^ (104 + G)). intros. lia.
Qed.

Lemma pow_small G k n :
  0 <= G -> G <= 1993 -> 0 <= k -> k <= 81 ->
  Z.abs n <= 2 ^ (k + G) -> Z.abs n < 2 ^ 2098 /\ 2 * Z.abs n < 2 ^ 2098.
Proof.
  intros H0 H1 H2 H3 Hn.
  assert (H4 : 2 ^ (1 + (k + G)) < 2 ^ 2098) by (apply Z.pow_lt_mono_r; lia).
  rewrite Z.pow_add_r in H4 by lia. change (2 ^ 1) with 2 in H4.
  pose proof (Z.abs_nonneg n) as Hn0.
  generalize dependent (2 ^ 2098). generalize dependent (2 ^ (k + G)).
  generalize dependent (Z.abs n). intros. lia.
Qed.

Lemma pow_2097_bound P : Z.abs P <= 2 ^ 2097 -> Z.abs (rnd P) < 2 ^ 2098.
Proof.
  intros H. apply rnd_bound_omega.
  assert (H1 : 2 ^ 2097 <= 2 ^ 2098 - 2 ^ 2044 - 1) by (vm_compute; discriminate).
  generalize dependent (2 ^ 2098 - 2 ^ 2044 - 1). generalize dependent (2 ^ 2097).
  intros. lia.
Qed.

(** The partial products of Dekker's algorithm and their sums, for two
    normal doubles [x], [y] split into [hx + lx] and [hy + ly]. *)
Lemma dekker_parts x y hx lx hy ly :
  F x -> F y -> 2 ^ 52 <= Z.abs x -> 2 ^ 52 <= Z.abs y ->
  1074 <= ulpexp x + ulpexp y ->
  Z.abs (x * y) <= 2 ^ 2097 * 2 ^ 1074 ->
  hx + lx = x -> (2 ^ (27 + ulpexp x) | hx) -> Z.abs lx <= 2 ^ (26 + ulpexp x) ->
  hy + ly = y -> (2 ^ (27 + ulpexp y) | hy) -> Z.abs ly <= 2 ^ (26 + ulpexp y) ->
  exists M1 M2 M3 M4 P,
    (hx * hy = M1 * 2 ^ 1074 /\ hx * ly = M2 * 2 ^ 1074 /\
     lx * hy = M3 * 2 ^ 1074 /\ lx * ly = M4 * 2 ^ 1074 /\
     x * y = P * 2 ^ 1074) /\
    (F M1 /\ Z.abs M1 < 2 ^ 2098) /\
    (F M2 /\ Z.abs M2 < 2 ^ 2098 /\ 2 * Z.abs M2 < 2 ^ 2098) /\
    (F M3 /\ Z.abs M3 < 2 ^ 2098) /\ (F M4 /\ Z.abs M4 < 2 ^ 2098) /\
    Z.abs (rnd P) < 2 ^ 2098 /\
    (F (M1 - rnd P) /\ Z.abs (M1 - rnd P) < 2 ^ 2098) /\
    (F (M1 - rnd P + M2) /\ Z.abs (M1 - rnd P + M2) < 2 ^ 2098) /\
    (F (M1 - rnd P + M2 + M3) /\ Z.abs (M1 - rnd P + M2 + M3) < 2 ^ 2098) /\
    (F (P - rnd P) /\ Z.abs (P - rnd P) < 2 ^ 2098) /\
    P = M1 + M2 + M3 + M4 /\ 2 ^ 104 <= Z.abs P.
Proof.
  intros Fx Fy Nx Ny HG Hov Sx Dx Bx Sy Dy By.
  pose proof (ulpexp_nonneg x) as Ux. pose proof (ulpexp_nonneg y) as Uy.
  assert (HW : 0 < 2 ^ 1074) by (apply pow2_pos; lia).
  destruct (parts_shape x hx lx Fx Nx Sx Dx Bx) as (Dlx & Bhx & Rx).
  destruct (parts_shape y hy ly Fy Ny Sy Dy By) as (Dly & Bhy & Ry).
  set (G := ulpexp x + ulpexp y - 1074).
  destruct (prod_part hx hy (27 + ulpexp x) (27 + ulpexp y)
              ltac:(lia) ltac:(lia) ltac:(lia) Dx Dy Bhx Bhy)
    as (M1 & E1 & D1 & B1).
  destruct (prod_part hx ly (27 + ulpexp x) (ulpexp y)
              ltac:(lia) ltac:(lia) ltac:(lia) Dx Dly Bhx By)
    as (M2 & E2 & D2 & B2).
  destruct (prod_part lx hy (ulpexp x) (27 + ulpexp y)
              ltac:(lia) ltac:(lia) ltac:(lia) Dlx Dy Bx Bhy)
    as (M3 & E3 & D3 & B3).
  destruct (prod_part lx ly (ulpexp x) (ulpexp y)
              ltac:(lia) ltac:(lia) ltac:(lia) Dlx Dly Bx By)
    as (M4 & E4 & D4 & B4).
  destruct (prod_full x y Fx Fy Nx Ny HG) as (P & EP & DP & BP).
  fold G in DP, BP.
  replace (27 + ulpexp x + (27 + ulpexp y) - 1074) with (54 + G) in D1, B1
    by (unfold G; lia).
  replace (27 + ulpexp x + ulpexp y - 1074) with (27 + G) in D2, B2
    by (unfold G; lia).
  replace (ulpexp x + (27 + ulpexp y) - 1074) with (27 + G) in D3, B3
    by (unfold G; lia).
  fold G in D4, B4.
  replace (52 + (27 + G)) with (79 + G) in B2, B3 by lia.
  assert (HG0 : 0 <= G) by (unfold G; lia).
  assert (HP : P = M1 + M2 + M3 + M4).
  { apply (Z.mul_cancel_r _ _ (2 ^ 1074)); [ lia | ].
    rewrite <- EP, !Z.mul_add_distr_r, <- E1, <- E2, <- E3, <- E4, <- Sx, <- Sy.
    ring. }
  destruct (dekker_sums G M1 M2 M3 M4 P HG0 HP D1 D2 D3 D4 DP B2 B3 B4 BP)
    as ((S1 & T1) & (S2 & T2) & (S3 & T3) & (S4 & T4)).
  assert (F1 : F M1).
  { apply (F_multiple _ (54 + G)); [ lia | exact D1 | ].
    apply Z.le_trans with (1 := B1). apply Z.pow_le_mono_r; lia. }
  assert (F2 : F M2).
  { apply (F_multiple _ (27 + G)); [ lia | exact D2 | ].
    apply Z.le_trans with (1 := B2). apply Z.pow_le_mono_r; lia. }
  assert (F3 : F M3).
  { apply (F_multiple _ (27 + G)); [ lia | exact D3 | ].
    apply Z.le_trans with (1 := B3). apply Z.pow_le_mono_r; lia. }
  assert (F4 : F M4).
  { apply (F_multiple _ G); [ lia | exact D4 | ].
    apply Z.le_trans with (1 := B4). apply Z.pow_le_mono_r; lia. }
  assert (HPb : Z.abs P <= 2 ^ 2097).
  { rewrite EP, Z.abs_mul, (Z.abs_eq (2 ^ 1074) (Z.lt_le_incl _ _ HW)) in Hov.
    apply (Z.mul_le_mono_pos_r _ _ (2 ^ 1074)); assumption. }
  pose proof (G_range G P (proj1 BP) HPb) as HG1.
  pose proof (hi_prod_bound hx hy x y M1 P Rx Ry E1 EP HPb) as BM1.
  pose proof (pow_2097_bound P HPb) as BrP.
  clear Hov HPb.
  assert (K0 : 0 <= 52) by discriminate.
  assert (K1 : 0 <= 53) by discriminate.
  assert (K2 : 0 <= 79) by discriminate.
  assert (K3 : 0 <= 80) by discriminate.
  assert (K4 : 0 <= 81) by discriminate.
  assert (L0 : 52 <= 81) by discriminate.
  assert (L1 : 53 <= 81) by discriminate.
  assert (L2 : 79 <= 81) by discriminate.
  assert (L3 : 80 <= 81) by discriminate.
  assert (L4 : 81 <= 81) by discriminate.
  exists M1, M2, M3, M4, P.
  split; [ repeat split; assumption | ].
  split; [ split; [ exact F1 | exact BM1 ] | ].
  split; [ split; [ exact F2 | exact (pow_small G 79 M2 HG0 HG1 K2 L2 B2) ] | ].
  split; [ split; [ exact F3 | exact (proj1 (pow_small G 79 M3 HG0 HG1 K2 L2 B3)) ] | ].
  split; [ split; [ exact F4 | exact (proj1 (pow_small G 52 M4 HG0 HG1 K0 L0 B4)) ] | ].
  split; [ exact BrP | ].
  split; [ split; [ exact S1 | exact (proj1 (pow_small G 81 _ HG0 HG1 K4 L4 T1)) ] | ].
  split; [ split; [ exact S2 | exact (proj1 (pow_small G 80 _ HG0 HG1 K3 L3 T2)) ] | ].
  split; [ split; [ exact S3 | exact (proj1 (pow_small G 53 _ HG0 HG1 K1 L1 T3)) ] | ].
  split; [ split; [ exact S4 | exact (proj1 (pow_small G 52 _ HG0 HG1 K0 L0 T4)) ] | ].
  split; [ exact HP | ].
  apply Z.le_trans with (2 := proj1 BP).
  apply Z.pow_le_mono_r; [ reflexivity | clear - HG0; lia ].
Qed.

(** The values [two_prod] returns, with [P] the exact product in units
    of [2^-1074]. *)
Lemma two_prod_value a b :
  valid a = true -> valid b = true ->
  is_finite a = true -> is_finite b = true ->
  2 ^ 52 <= Z.abs (V a) < 2 ^ 2098 - 2 ^ 2071 ->
  2 ^ 52 <= Z.abs (V b) < 2 ^ 2098 - 2 ^ 2071 ->
  1074 <= ulpexp (V a) + ulpexp (V b) ->
  Z.abs (V a * V b) <= 2 ^ 2097 * 2 ^ 1074 ->
  exists P,
    V a * V b = P * 2 ^ 1074 /\ 2 ^ 104 <= Z.abs P /\
    F (P - rnd P) /\ Z.abs (P - rnd P) < 2 ^ 2098 /\
    fst (qd.two_prod a b) = (a * b)%D /\
    (valid (a * b)%D = true /\ is_finite (a * b)%D = true /\
     V (a * b)%D = rnd P) /\
    valid (snd (qd.two_prod a b)) = true /\
    is_finite (snd (qd.two_prod a b)) = true /\
    V (snd (qd.two_prod a b)) = P - rnd P.
Proof.
  intros Hva Hvb Hfa Hfb [Na Ra] [Nb Rb] HG Hov.
  destruct (split_parts a Hva Hfa Ra) as ((Av & Af) & (Alv & Alf) & Sa & Wa).
  destruct (Wa Na) as [Da Ba]. clear Wa.
  destruct (split_parts b Hvb Hfb Rb) as ((Bv & Bf) & (Blv & Blf) & Sb & Wb).
  destruct (Wb Nb) as [Db Bb]. clear Wb.
  unfold qd.two_prod.
  destruct (qd.split a) as [ah al]. destruct (qd.split b) as [bh bl].
  cbn [fst snd] in *.
  destruct (dekker_parts (V a) (V b) (V ah) (V al) (V bh) (V bl)
              (F_V a Hva) (F_V b Hvb) Na Nb HG Hov Sa Da Ba Sb Db Bb)
    as (M1 & M2 & M3 & M4 & P & (E1 & E2 & E3 & E4 & EP) & (F1 & B1)
        & (F2 & B2 & _) & (F3 & B3) & (F4 & B4) & BrP & (S1 & T1) & (S2 & T2)
        & (S3 & T3) & (S4 & T4) & HP & BP104).
  clear Ra Rb Hov Na Nb.
  destruct (mul_exact a b P Hva Hvb Hfa Hfb EP BrP) as (pf & pv & pV).
  destruct (mul_exact_F ah bh Av Bv Af Bf M1 E1 F1 B1) as (m1v & m1f & m1V).
  destruct (sub_exact (ah * bh)%D (a * b)%D m1v pv m1f pf) as (t1v & t1f & t1V);
    [ rewrite m1V, pV; exact S1 | rewrite m1V, pV; exact T1 | ].
  rewrite m1V, pV in t1V.
  destruct (mul_exact_F ah bl Av Blv Af Blf M2 E2 F2 B2) as (m2v & m2f & m2V).
  destruct (add_exact _ _ t1v m2v t1f m2f) as (t2v & t2f & t2V);
    [ rewrite t1V, m2V; exact S2 | rewrite t1V, m2V; exact T2 | ].
  rewrite t1V, m2V in t2V.
  destruct (mul_exact_F al bh Alv Bv Alf Bf M3 E3 F3 B3) as (m3v & m3f & m3V).
  destruct (add_exact _ _ t2v m3v t2f m3f) as (t3v & t3f & t3V);
    [ rewrite t2V, m3V; exact S3 | rewrite t2V, m3V; exact T3 | ].
  rewrite t2V, m3V in t3V.
  destruct (mul_exact_F al bl Alv Blv Alf Blf M4 E4 F4 B4) as (m4v & m4f & m4V).
  assert (Esum : M1 - rnd P + M2 + M3 + M4 = P - rnd P) by (rewrite HP; ring).
  destruct (add_exact _ _ t3v m4v t3f m4f) as (ev & ef & eV);
    [ rewrite t3V, m4V, Esum; exact S4 | rewrite t3V, m4V, Esum; exact T4 | ].
  rewrite t3V, m4V, Esum in eV.
  exists P. split; [ exact EP | ]. split; [ exact BP104 | ].
  split; [ exact S4 | ]. split; [ exact T4 | ]. split; [ reflexivity | ].
  split; [ repeat split; assumption | ].
  split; [ exact ev | ]. split; [ exact ef | exact eV ].
Qed.


(** X19.  [two_prod] is error-free (Dekker's product): for normal
    doubles [a] and [b] in the range where [split] does not overflow,
    whose units in the last place multiply to at least [2^-1074] (no
    underflow) and whose product is at most [2^1023] in magnitude, the
    result [p] is the rounded product, [err] is finite, [p + err] is
    exactly [a * b], and [|err| <= ulp(p)/2]. *)
Theorem two_prod_exact a b :
  valid a = true -> valid b = true ->
  is_finite a = true -> is_finite b = true ->
  2 ^ 52 <= Z.abs (V a) < 2 ^ 2098 - 2 ^ 2071 ->
  2 ^ 52 <= Z.abs (V b) < 2 ^ 2098 - 2 ^ 2071 ->
  1074 <= ulpexp (V a) + ulpexp (V b) ->
  Z.abs (V a * V b) <= 2 ^ 2097 * 2 ^ 1074 ->
  let p := fst (qd.two_prod a b) in
  let err := snd (qd.two_prod a b) in
  p = (a * b)%D /\ is_finite p = true /\ is_finite err = true /\
  (V p + V err) * 2 ^ 1074 = V a * V b /\
  2 * Z.abs (V err) <= ulp p.
Proof.
  intros Hva Hvb Hfa Hfb Ra Rb HG Hov.
  destruct (two_prod_value a b Hva Hvb Hfa Hfb Ra Rb HG Hov)
    as (P & EP & _ & _ & _ & Ep & (_ & pf & pV) & _ & ef & eV).
  cbv zeta. rewrite Ep, eV, pV.
  split; [ reflexivity | ]. split; [ exact pf | ]. split; [ exact ef | ].
  split.
  - rewrite EP. f_equal. ring.
  - unfold ulp. rewrite pV. apply rnd_half_ulp.
Qed.

Lemma two_prod_exact_witness :
  let a := S754_finite false 9007199254740991 (-52) in
  let b := S754_finite false 6004799503160661 (-54) in
  (V (fst (qd.two_prod a b)) + V (snd (qd.two_prod a b))) * 2 ^ 1074
  = V a * V b.
Proof.
  exact (proj1 (proj2 (proj2 (proj2
    (two_prod_exact (S754_finite false 9007199254740991 (-52))
       (S754_finite false 6004799503160661 (-54))
       eq_refl eq_refl eq_refl eq_refl
       ltac:(vm_compute; split; [ discriminate | reflexivity ])
       ltac:(vm_compute; split; [ discriminate | reflexivity ])
       ltac:(vm_compute; discriminate)
       ltac:(vm_compute; discriminate)))))).
Defined.

Lemma sq_bound x :
  Z.abs (x * x) <= 2 ^ 2097 * 2 ^ 1074 -> Z.abs x < 2 ^ 1586.
Proof.
  intros H. rewrite Z.abs_mul in H.
  destruct (Z_lt_le_dec (Z.abs x) (2 ^ 1586)) as [Hlt | Hge]; [ exact Hlt | exfalso ].
  assert (P0 : 0 <= 2 ^ 1586) by (apply Z.pow_nonneg; discriminate).
  assert (H1 : 2 ^ 1586 * 2 ^ 1586 <= Z.abs x * Z.abs x)
    by (apply Z.mul_le_mono_nonneg; assumption).
  assert (H2 : 2 ^ 2097 * 2 ^ 1074 < 2 ^ 1586 * 2 ^ 1586)
    by (rewrite <- !Z.pow_add_r by discriminate; apply Z.pow_lt_mono_r;
        [ reflexivity | discriminate | reflexivity ]).
  generalize dependent (2 ^ 1586 * 2 ^ 1586).
  generalize dependent (2 ^ 2097 * 2 ^ 1074).
  generalize dependent (Z.abs x * Z.abs x). intros. lia.
Qed.

Lemma V_d_two : V d_two = 2 * 2 ^ 1074.
Proof. vm_compute. reflexivity. Qed.

(** Doubling a double below [2^1023] is exact. *)
Lemma double_exact h :
  valid h = true -> is_finite h = true -> Z.abs (V h) < 2 ^ 2097 ->
  valid (d_two * h)%D = true /\ is_finite (d_two * h)%D = true /\
  V (d_two * h)%D = 2 * V h.
Proof.
  intros Hv Hf Hb.
  apply (mul_exact_F d_two h eq_refl Hv eq_refl Hf).
  - rewrite V_d_two. ring.
  - replace (2 * V h) with (V h * 2 ^ 1) by (change (2 ^ 1) with 2; ring).
    apply F_pow2_mul; [ discriminate | now apply F_V ].
  - rewrite Z.abs_mul. change (Z.abs 2) with 2.
    assert (E : 2 ^ 2098 = 2 * 2 ^ 2097) by (vm_compute; reflexivity).
    rewrite E. pose proof (Z.abs_nonneg (V h)).
    generalize dependent (2 ^ 2097). generalize dependent (Z.abs (V h)).
    intros. lia.
Qed.

Lemma below_split_range n : Z.abs n < 2 ^ 1586 -> Z.abs n < 2 ^ 2098 - 2 ^ 2071.
Proof.
  intros H.
  assert (H1 : 2 ^ 1586 <= 2 ^ 2098 - 2 ^ 2071) by (vm_compute; discriminate).
  generalize dependent (2 ^ 2098 - 2 ^ 2071). generalize dependent (2 ^ 1586).
  intros. lia.
Qed.

Lemma hi_below_2097 x h :
  Z.abs x < 2 ^ 1586 -> 2 ^ 26 * Z.abs h <= (2 ^ 26 + 1) * Z.abs x ->
  Z.abs h < 2 ^ 2097.
Proof.
  intros Hx Hh.
  assert (H1 : 2 * 2 ^ 1586 <= 2 ^ 2097) by (vm_compute; discriminate).
  change (2 ^ 26) with 67108864 in Hh.
  generalize dependent (2 ^ 2097). generalize dependent (2 ^ 1586).
  intros. lia.
Qed.

(** The values [two_sqr] returns, with [P] the exact square in units of
    [2^-1074]. *)
Lemma two_sqr_value a :
  valid a = true -> is_finite a = true ->
  2 ^ 52 <= Z.abs (V a) ->
  1074 <= ulpexp (V a) + ulpexp (V a) ->
  Z.abs (V a * V a) <= 2 ^ 2097 * 2 ^ 1074 ->
  exists P,
    V a * V a = P * 2 ^ 1074 /\ 2 ^ 104 <= Z.abs P /\
    F (P - rnd P) /\ Z.abs (P - rnd P) < 2 ^ 2098 /\
    fst (qd.two_sqr a) = (a * a)%D /\
    (valid (a * a)%D = true /\ is_finite (a * a)%D = true /\
     V (a * a)%D = rnd P) /\
    valid (snd (qd.two_sqr a)) = true /\
    is_finite (snd (qd.two_sqr a)) = true /\
    V (snd (qd.two_sqr a)) = P - rnd P.
Proof.
  intros Hva Hfa Na HG Hov.
  pose proof (sq_bound _ Hov) as Rs.
  pose proof (below_split_range _ Rs) as Ra.
  destruct (split_parts a Hva Hfa Ra) as ((Av & Af) & (Alv & Alf) & Sa & Wa).
  destruct (Wa Na) as [Da Ba]. clear Wa.
  unfold qd.two_sqr.
  destruct (qd.split a) as [ah al]. cbn [fst snd] in *.
  destruct (parts_shape (V a) (V ah) (V al) (F_V a Hva) Na Sa Da Ba)
    as (_ & _ & Rh).
  pose proof (hi_below_2097 _ _ Rs Rh) as Bh.
  destruct (dekker_parts (V a) (V a) (V ah) (V al) (V ah) (V al)
              (F_V a Hva) (F_V a Hva) Na Na HG Hov Sa Da Ba Sa Da Ba)
    as (M1 & M2 & M3 & M4 & P & (E1 & E2 & E3 & E4 & EP) & (F1 & B1)
        & (F2 & _ & B2) & _ & (F4 & B4) & BrP & (S1 & T1) & _
        & (S3 & T3) & (S4 & T4) & HP & BP104).
  assert (E23 : M3 = M2).
  { apply (Z.mul_cancel_r _ _ (2 ^ 1074)); [ | rewrite <- E2, <- E3; ring ].
    apply Z.pow_nonzero; discriminate. }
  rewrite E23 in *.
  clear Ra Rs Hov Na Rh.
  destruct (mul_exact a a P Hva Hva Hfa Hfa EP BrP) as (pf & pv & pV).
  destruct (mul_exact_F ah ah Av Av Af Af M1 E1 F1 B1) as (m1v & m1f & m1V).
  destruct (sub_exact (ah * ah)%D (a * a)%D m1v pv m1f pf) as (t1v & t1f & t1V);
    [ rewrite m1V, pV; exact S1 | rewrite m1V, pV; exact T1 | ].
  rewrite m1V, pV in t1V.
  destruct (double_exact ah Av Af Bh) as (dv & df & dV).
  assert (F22 : F (2 * M2)).
  { replace (2 * M2) with (M2 * 2 ^ 1) by (change (2 ^ 1) with 2; ring).
    apply F_pow2_mul; [ discriminate | exact F2 ]. }
  assert (B22 : Z.abs (2 * M2) < 2 ^ 2098).
  { rewrite Z.abs_mul. exact B2. }
  destruct (mul_exact_F (d_two * ah)%D al dv Alv df Alf (2 * M2)) as (m2v & m2f & m2V);
    [ rewrite dV, <- !Z.mul_assoc, E2; ring | exact F22 | exact B22 | ].
  assert (E2s : M1 - rnd P + 2 * M2 = M1 - rnd P + M2 + M2) by ring.
  destruct (add_exact _ _ t1v m2v t1f m2f) as (t2v & t2f & t2V);
    [ rewrite t1V, m2V, E2s; exact S3 | rewrite t1V, m2V, E2s; exact T3 | ].
  rewrite t1V, m2V, E2s in t2V.
  destruct (mul_exact_F al al Alv Alv Alf Alf M4 E4 F4 B4) as (m4v & m4f & m4V).
  assert (Esum : M1 - rnd P + M2 + M2 + M4 = P - rnd P) by (rewrite HP; ring).
  destruct (add_exact _ _ t2v m4v t2f m4f) as (ev & ef & eV);
    [ rewrite t2V, m4V, Esum; exact S4 | rewrite t2V, m4V, Esum; exact T4 | ].
  rewrite t2V, m4V, Esum in eV.
  exists P. split; [ exact EP | ]. split; [ exact BP104 | ].
  split; [ exact S4 | ]. split; [ exact T4 | ]. split; [ reflexivity | ].
  split; [ repeat split; assumption | ].
  split; [ exact ev | ]. split; [ exact ef | exact eV ].
Qed.


(** X20.  [two_sqr] is error-free: for a normal double [a] whose unit
    in the last place squares to at least [2^-1074] (no underflow) and
    whose square is at most [2^1023], the result [q] is the rounded
    square, [err] is finite, [q + err] is exactly [a * a], and
    [|err| <= ulp(q)/2]. *)
Theorem two_sqr_exact a :
  valid a = true -> is_finite a = true ->
  2 ^ 52 <= Z.abs (V a) ->
  1074 <= ulpexp (V a) + ulpexp (V a) ->
  Z.abs (V a * V a) <= 2 ^ 2097 * 2 ^ 1074 ->
  let q := fst (qd.two_sqr a) in
  let err := snd (qd.two_sqr a) in
  q = (a * a)%D /\ is_finite q = true /\ is_finite err = true /\
  (V q + V err) * 2 ^ 1074 = V a * V a /\
  2 * Z.abs (V err) <= ulp q.
Proof.
  intros Hva Hfa Na HG Hov.
  destruct (two_sqr_value a Hva Hfa Na HG Hov)
    as (P & EP & _ & _ & _ & Ep & (_ & pf & pV) & _ & ef & eV).
  cbv zeta. rewrite Ep, eV, pV.
  split; [ reflexivity | ]. split; [ exact pf | ]. split; [ exact ef | ].
  split.
  - rewrite EP. f_equal. ring.
  - unfold ulp. rewrite pV. apply rnd_half_ulp.
Qed.

Lemma two_sqr_exact_witness :
  let a := S754_finite false 6004799503160661 (-54) in
  (V (fst (qd.two_sqr a)) + V (snd (qd.two_sqr a))) * 2 ^ 1074 = V a * V a.
Proof.
  exact (proj1 (proj2 (proj2 (proj2
    (two_sqr_exact (S754_finite false 6004799503160661 (-54))
       eq_refl eq_refl
       ltac:(vm_compute; discriminate)
       ltac:(vm_compute; discriminate)
       ltac:(vm_compute; discriminate)))))).
Defined.

(** ** The fused path of [two_prod] *)

(** A fused multiply-add whose exact result is representable returns
    it. *)
Lemma fma_exact x y z P :
  valid x = true -> valid y = true -> valid z = true ->
  is_finite x = true -> is_finite y = true -> is_finite z = true ->
  V x * V y = P * 2 ^ 1074 -> P <> 0 -> V z <> 0 ->
  1074 <= ulpexp (V x) + ulpexp (V y) ->
  F (P + V z) -> Z.abs (P + V z) < 2 ^ 2098 ->
  valid (fma x y z) = true /\ is_finite (fma x y z) = true /\
  V (fma x y z) = P + V z.
Proof.
  intros Hvx Hvy Hvz Hfx Hfy Hfz EP HP Hz HG HF Hb.
  assert (HW : 0 < 2 ^ 1074) by (apply pow2_pos; discriminate).
  destruct z as [sz | sz | | sz mz ez]; try discriminate Hfz;
    [ exfalso; apply Hz; reflexivity | ].
  destruct x as [sx | sx | | sx mx ex]; try discriminate Hfx;
    [ exfalso; apply HP; change (V (S754_zero sx)) with 0 in EP;
      rewrite Z.mul_0_l in EP; symmetry in EP;
      apply Z.mul_eq_0_l in EP; [ exact EP | lia ] | ].
  destruct y as [sy | sy | | sy my ey]; try discriminate Hfy;
    [ exfalso; apply HP; change (V (S754_zero sy)) with 0 in EP;
      rewrite Z.mul_0_r in EP; symmetry in EP;
      apply Z.mul_eq_0_l in EP; [ exact EP | lia ] | ].
  rewrite (ulpexp_V _ _ _ Hvx), (ulpexp_V _ _ _ Hvy) in HG.
  pose proof (valid_exponent _ _ _ Hvx) as Hex.
  pose proof (valid_exponent _ _ _ Hvy) as Hey.
  pose proof (valid_exponent _ _ _ Hvz) as Hez.
  assert (EPV : V (S754_finite (xorb sx sy) (mx * my) (ex + ey)) = P).
  { apply (Z.mul_cancel_r _ _ (2 ^ 1074)); [ lia | ].
    rewrite <- EP. unfold V. rewrite Pos2Z.inj_mul.
    assert (Epow : 2 ^ (ex + 1074) * 2 ^ (ey + 1074)
                   = 2 ^ (ex + ey + 1074) * 2 ^ 1074)
      by (rewrite <- !Z.pow_add_r by lia; f_equal; lia).
    transitivity (cond_Zopp (xorb sx sy)
                    (Zpos mx * Zpos my * (2 ^ (ex + 1074) * 2 ^ (ey + 1074)))).
    - rewrite Epow. destruct sx, sy; unfold cond_Zopp, xorb; ring.
    - destruct sx, sy; unfold cond_Zopp, xorb; ring. }
  unfold fma.
  set (e := Z.min (ex + ey) ez).
  pose proof (binary_normalize_spec
                (cond_Zopp (xorb sx sy) (Zpos (fst (shl_align (mx * my) (ex + ey) e)))
                 + cond_Zopp sz (Zpos (fst (shl_align mz ez e)))) e
                ltac:(unfold e; lia)) as H.
  cbv zeta in H. rewrite Z.mul_add_distr_r in H.
  rewrite !aligned_value in H by (unfold e; lia).
  rewrite EPV in H. rewrite (rnd_id _ HF) in H.
  destruct (proj1 H Hb) as (H1 & H2 & H3). repeat split; assumption.
Qed.

Lemma V_eq_nonzero x y :
  valid x = true -> valid y = true ->
  is_finite x = true -> is_finite y = true ->
  V x = V y -> V x <> 0 -> x = y.
Proof.
  intros Hvx Hvy Hfx Hfy E Hn.
  destruct y as [sy | sy | | sy my ey]; try discriminate Hfy.
  - exfalso. apply Hn. rewrite E. reflexivity.
  - now apply V_eq_finite.
Qed.

(** What [QD_FMS(a, b, p)] returns for the rounded product [p] of [a]
    and [b], when their exact product is [P] units. *)
Lemma fms_value a b P :
  valid a = true -> valid b = true ->
  is_finite a = true -> is_finite b = true ->
  V a * V b = P * 2 ^ 1074 -> 2 ^ 104 <= Z.abs P ->
  1074 <= ulpexp (V a) + ulpexp (V b) ->
  F (P - rnd P) -> Z.abs (P - rnd P) < 2 ^ 2098 ->
  valid (a * b)%D = true -> is_finite (a * b)%D = true ->
  V (a * b)%D = rnd P ->
  valid (qd.QD_FMS a b (a * b)%D) = true /\
  is_finite (qd.QD_FMS a b (a * b)%D) = true /\
  V (qd.QD_FMS a b (a * b)%D) = P - rnd P.
Proof.
  intros Hva Hvb Hfa Hfb EP HP HG HF Hb pv pf pV.
  assert (P104 : 0 < 2 ^ 104) by reflexivity.
  assert (HP0 : P <> 0).
  { intros E. rewrite E in HP. change (Z.abs 0) with 0 in HP.
    clear - HP P104. lia. }
  assert (Hr : rnd P <> 0).
  { intros E. pose proof (rnd_abs P) as HA. rewrite E in HA.
    change (Z.abs 0) with 0 in HA.
    pose proof (rnd_pos_pos (Z.abs P)) as Hpos.
    clear - HA Hpos HP P104. lia. }
  unfold qd.QD_FMS.
  assert (Hz : V (- (a * b))%D = - rnd P) by (rewrite V_neg, pV; reflexivity).
  destruct (fma_exact a b (- (a * b))%D P Hva Hvb (valid_neg _ pv) Hfa Hfb)
    as (H0 & H1 & H2); try assumption.
  - rewrite is_finite_neg. exact pf.
  - rewrite Hz. clear - Hr. lia.
  - rewrite Hz. exact HF.
  - rewrite Hz. exact Hb.
  - rewrite Hz in H2. repeat split; assumption.
Qed.

(** X21.  Where [two_prod] is error-free, its two build-time variants
    agree: the [QD_FMS] variant returns the same product and an error
    term of the same value, which is the same double whenever it is not
    zero. *)
Theorem two_prod_paths_agree a b :
  valid a = true -> valid b = true ->
  is_finite a = true -> is_finite b = true ->
  2 ^ 52 <= Z.abs (V a) < 2 ^ 2098 - 2 ^ 2071 ->
  2 ^ 52 <= Z.abs (V b) < 2 ^ 2098 - 2 ^ 2071 ->
  1074 <= ulpexp (V a) + ulpexp (V b) ->
  Z.abs (V a * V b) <= 2 ^ 2097 * 2 ^ 1074 ->
  fst (qd.two_prod_fms a b) = fst (qd.two_prod a b) /\
  V (snd (qd.two_prod_fms a b)) = V (snd (qd.two_prod a b)) /\
  (V (snd (qd.two_prod a b)) <> 0 ->
   qd.two_prod_fms a b = qd.two_prod a b).
Proof.
  intros Hva Hvb Hfa Hfb Ra Rb HG Hov.
  destruct (two_prod_value a b Hva Hvb Hfa Hfb Ra Rb HG Hov)
    as (P & EP & HP & HF & Hb & Ep & (pv & pf & pV) & ev & ef & eV).
  destruct (fms_value a b P Hva Hvb Hfa Hfb EP HP HG HF Hb pv pf pV)
    as (fv & ff & fV).
  unfold qd.two_prod_fms. cbn [fst snd].
  split; [ symmetry; exact Ep | ].
  split; [ rewrite fV, eV; reflexivity | ].
  intros Hn.
  rewrite (surjective_pairing (qd.two_prod a b)), Ep. f_equal.
  apply V_eq_nonzero; try assumption.
  - rewrite fV, eV. reflexivity.
  - rewrite fV, <- eV. exact Hn.
Qed.

Lemma two_prod_paths_agree_witness :
  let a := S754_finite false 9007199254740991 (-52) in
  let b := S754_finite false 6004799503160661 (-54) in
  qd.two_prod_fms a b = qd.two_prod a b.
Proof.
  refine (proj2 (proj2
    (two_prod_paths_agree (S754_finite false 9007199254740991 (-52))
       (S754_finite false 6004799503160661 (-54))
       eq_refl eq_refl eq_refl eq_refl
       ltac:(vm_compute; split; [ discriminate | reflexivity ])
       ltac:(vm_compute; split; [ discriminate | reflexivity ])
       ltac:(vm_compute; discriminate)
       ltac:(vm_compute; discriminate))) _).
  vm_compute. discriminate.
Defined.

(** X22.  Where [two_sqr] is error-free, its two build-time variants
    agree as well: the [QD_FMS] variant returns the same square and an
    error term of the same value, which is the same double whenever it
    is not zero. *)
Theorem two_sqr_paths_agree a :
  valid a = true -> is_finite a = true ->
  2 ^ 52 <= Z.abs (V a) ->
  1074 <= ulpexp (V a) + ulpexp (V a) ->
  Z.abs (V a * V a) <= 2 ^ 2097 * 2 ^ 1074 ->
  fst (two_sqr_fms a) = fst (qd.two_sqr a) /\
  V (snd (two_sqr_fms a)) = V (snd (qd.two_sqr a)) /\
  (V (snd (qd.two_sqr a)) <> 0 -> two_sqr_fms a = qd.two_sqr a).
Proof.
  intros Hva Hfa Na HG Hov.
  destruct (two_sqr_value a Hva Hfa Na HG Hov)
    as (P & EP & HP & HF & Hb & Ep & (pv & pf & pV) & ev & ef & eV).
  destruct (fms_value a a P Hva Hva Hfa Hfa EP HP HG HF Hb pv pf pV)
    as (fv & ff & fV).
  unfold two_sqr_fms. cbn [fst snd].
  split; [ symmetry; exact Ep | ].
  split; [ rewrite fV, eV; reflexivity | ].
  intros Hn.
  rewrite (surjective_pairing (qd.two_sqr a)), Ep. f_equal.
  apply V_eq_nonzero; try assumption.
  - rewrite fV, eV. reflexivity.
  - rewrite fV, <- eV. exact Hn.
Qed.

Lemma two_sqr_paths_agree_witness :
  let a := S754_finite false 6004799503160661 (-54) in
  two_sqr_fms a = qd.two_sqr a.
Proof.
  refine (proj2 (proj2
    (two_sqr_paths_agree (S754_finite false 6004799503160661 (-54))
       eq_refl eq_refl
       ltac:(vm_compute; discriminate)
       ltac:(vm_compute; discriminate)
       ltac:(vm_compute; discriminate))) _).
  vm_compute. discriminate.
Defined.
